(** * Nachos file system: file headers, directories and the facade

    A shallow embedding of [filehdr.cc], [directory.cc] and [filesys.cc]
    and the properties of the file-system specification that are stated
    about them.

    Conventions of the embedding.
    - A C++ [int] is a [Z]; no computation below leaves the [int] range for
      sizes bounded by the size of the disk.
    - A C array is a [list]; reading or writing outside it is undefined
      behaviour of the program and is made explicit ([Undef]).
    - A method that mutates [this] takes the object and returns the new one.
    - A failed [ASSERT] aborts the kernel ([Abort]). *)

From Stdlib Require Import ZArith Lia Bool Ascii String.
From stdpp Require Import base tactics option list gmap.

Local Open Scope Z_scope.
Set Warnings "-register-all".

(** ** Outcomes of running kernel code *)

Inductive outcome (A : Type) : Type :=
| Ret (a : A)      (* the call returns *)
| Abort            (* an ASSERT failed: the kernel stops *)
| Undef            (* undefined behaviour: out-of-bounds access, NULL
                      dereference, uninitialised read, missing return,
                      or a byte image the embedding does not track *)
| NoFuel.          (* the iteration budget of the model ran out *)
Arguments Ret {A} a.
Arguments Abort {A}.
Arguments Undef {A}.
Arguments NoFuel {A}.

Definition obind {A B} (m : outcome A) (k : A → outcome B) : outcome B :=
  match m with
  | Ret a => k a
  | Abort => Abort
  | Undef => Undef
  | NoFuel => NoFuel
  end.

#[global] Instance outcome_ret : MRet outcome := @Ret.
#[global] Instance outcome_bind : MBind outcome := λ A B k m, obind m k.

#[global] Instance outcome_eq_dec {A} `{EqDecision A} : EqDecision (outcome A).
Proof. solve_decision. Defined.

Definition ASSERT (c : bool) : outcome unit := if c then Ret () else Abort.

(** ** Loops *)

(** A loop body either falls through to the next iteration or leaves the
    enclosing function ([return] inside the loop). *)
Inductive step (St R : Type) : Type :=
| Next (s : St)
| Exit (r : R).
Arguments Next {St R} s.
Arguments Exit {St R} r.

(** [for (int i = 0; i < n; i++) body] visits [seqZ 0 n]. *)
Fixpoint for_each {St R} (idx : list Z) (body : Z → St → outcome (step St R))
    (s : St) : outcome (step St R) :=
  match idx with
  | [] => Ret (Next s)
  | i :: idx' =>
      r ← body i s;
      match r with
      | Next s' => for_each idx' body s'
      | Exit r => Ret (Exit r)
      end
  end.

(** The same loop when the body has no [return]. *)
Fixpoint for_loop {St} (idx : list Z) (body : Z → St → outcome St) (s : St)
    : outcome St :=
  match idx with
  | [] => Ret s
  | i :: idx' => s' ← body i s; for_loop idx' body s'
  end.

(** [for (j = j0; cond(j); j = next(j)) body]: a loop whose progress is
    not evident from its text runs on an iteration budget. *)
Fixpoint c_for {St} (fuel : nat) (cond : Z → bool) (next : Z → Z)
    (body : Z → St → outcome St) (j : Z) (s : St) : outcome St :=
  if cond j then
    match fuel with
    | O => NoFuel
    | S fuel' => s' ← body j s; c_for fuel' cond next body (next j) s'
    end
  else Ret s.

(** ** Arrays *)

Definition lookupZ {A} (a : list A) (i : Z) : option A :=
  if bool_decide (0 ≤ i) then a !! Z.to_nat i else None.

Definition load {A} (a : list A) (i : Z) : outcome A :=
  match lookupZ a i with
  | Some x => Ret x
  | None => Undef
  end.

Definition store {A} (a : list A) (i : Z) (x : A) : outcome (list A) :=
  if bool_decide (0 ≤ i < Z.of_nat (length a))
  then Ret (<[Z.to_nat i := x]> a)
  else Undef.

(** ** Constants of the volume

    [filehdr.h], [filesys.h], [directory.h] and [disk.h] are not part of
    the sources at hand; the constants they define are parameters. *)
Class Geometry : Type := {
  SectorSize : Z;          (* bytes per sector *)
  NumSectors : Z;          (* sectors of the disk *)
  NumDirect : Z;           (* direct slots of a header *)
  NumIndirect : Z;         (* indirect slots of a header *)
  NumMaxSect : Z;          (* data sectors addressed by one indirect header *)
  NumDirEntries : Z;       (* entries of a directory *)
  FileNameMaxLen : Z;      (* characters of a stored name *)
  MAX_PATH_LEN : Z;        (* characters of a path buffer *)
  DirectoryEntrySize : Z;  (* sizeof(DirectoryEntry) *)
  DirectoryFileSize : Z;   (* bytes of a directory file *)
  FreeMapFileSize : Z;     (* bytes of the free-map file *)
}.

Definition FreeMapSector : Z := 0.
Definition DirectorySector : Z := 1.

(** [divRoundUp(n, s)] of [utility.h]: [((n) + (s) - 1) / (s)] with the
    truncating division of C. *)
Definition divRoundUp (n s : Z) : Z := Z.quot (n + s - 1) s.

(** ** The free-space map *)

Module Bitmap.

(** Modelled from the spec: the bit vector of [bitmap.cc] and
    [pbitmap.cc], which are not part of the sources at hand. One bit per
    sector, [true] for allocated. [test], [mark] and [clear] act on one bit;
    a bit index outside the map is a violated structural invariant and
    aborts. [num_clear] counts the free bits. [find_and_set] returns the
    lowest clear index and sets it, or -1. *)
Abbreviation t := (list bool).

Definition create (numBits : Z) : t := replicate (Z.to_nat numBits) false.

Definition Test (b : t) (which : Z) : outcome bool :=
  match lookupZ b which with
  | Some v => Ret v
  | None => Abort
  end.

Definition Mark (b : t) (which : Z) : outcome t :=
  match lookupZ b which with
  | Some _ => Ret (<[Z.to_nat which := true]> b)
  | None => Abort
  end.

Definition Clear (b : t) (which : Z) : outcome t :=
  match lookupZ b which with
  | Some _ => Ret (<[Z.to_nat which := false]> b)
  | None => Abort
  end.

Fixpoint NumClear (b : t) : Z :=
  match b with
  | [] => 0
  | x :: b' => (if x then 0 else 1) + NumClear b'
  end.

Fixpoint find_clear (b : t) : option nat :=
  match b with
  | [] => None
  | x :: b' => if x then S <$> find_clear b' else Some O
  end.

Definition FindAndSet (b : t) : Z * t :=
  match find_clear b with
  | Some i => (Z.of_nat i, <[i := true]> b)
  | None => (-1, b)
  end.

(** The set of allocated sectors. *)
Definition marked (b : t) (s : Z) : Prop := lookupZ b s = Some true.

End Bitmap.

(** ** File headers *)

(** The in-memory header: the sector image ([numBytes], [numSectors],
    [dataSectors]) followed by the in-core table of child headers, where
    [None] is the NULL pointer. [tripleIndirectTable] is set to NULL by the
    constructor and never used; it is left out. *)
Inductive FileHeader : Type := mkFileHeader {
  numBytes : Z;
  numSectors : Z;
  dataSectors : list Z;
  indirectTable : list (option FileHeader);
}.

(** A directory entry ([directory.h]). [name] holds the characters of
    the stored name before its NUL padding. *)
Record DirectoryEntry : Type := mkDirectoryEntry {
  inUse : bool;
  sector : Z;
  name : list ascii;
  isDir : bool;
}.

(** ** The disk *)

(** Modelled from the spec: the block device ([synchdisk.cc], [disk.cc],
    not part of the sources at hand), with synchronous sector reads and
    writes; a completed read returns the most recent write. Records are
    written as byte images of their in-memory layout; the embedding keeps
    the record an image was made from, following the table of on-disk
    layouts: a header sector holds [numBytes], [numSectors] and
    [dataSectors]; the body of a directory file holds its table of entries;
    the body of the free-map file holds one bit per sector. The content of a
    sector that was never written is not tracked. *)
Inductive Sector : Type :=
| SHdr (nb ns : Z) (ds : list Z)
| SDir (table : list DirectoryEntry)
| SMap (bits : list bool).

Abbreviation Disk := (gmap Z Sector).

Definition WriteSector (d : Disk) (sectorNumber : Z) (data : Sector) : Disk :=
  <[sectorNumber := data]> d.

Definition ReadSector (d : Disk) (sectorNumber : Z) : option Sector :=
  d !! sectorNumber.

Module FileHdr.
Section FileHdr.
Context {G : Geometry}.

Definition new_FileHeader : FileHeader :=
  {| numBytes := -1;
     numSectors := -1;
     dataSectors := replicate (Z.to_nat (NumDirect + NumIndirect)) (-1);
     indirectTable := replicate (Z.to_nat NumIndirect) None |}.

Definition AllocateIndirect (h : FileHeader) (freeMap : Bitmap.t)
    (sectorNum : Z) : outcome (bool * FileHeader * Bitmap.t) :=
  if Bitmap.NumClear freeMap <? sectorNum then Ret (false, h, freeMap)
  else
    '(ds, fm) ← for_loop (seqZ 0 sectorNum)
        (λ i '(ds, fm),
           let '(s, fm') := Bitmap.FindAndSet fm in
           ds' ← store ds i s;
           _ ← ASSERT (0 <=? s);
           Ret (ds', fm'))
        (dataSectors h, freeMap);
    Ret (true,
         {| numBytes := sectorNum * SectorSize;
            numSectors := sectorNum;
            dataSectors := ds;
            indirectTable := indirectTable h |},
         fm).

(** State of the loop over the indirect slots in [Allocate]. *)
Record alloc_state : Type := mkAllocState {
  as_sectors : list Z;
  as_table : list (option FileHeader);
  as_map : Bitmap.t;
  as_offset : Z;
}.

Definition Allocate_indirect_body (i : Z) (st : alloc_state)
    : outcome (step alloc_state (list Z * list (option FileHeader) * Bitmap.t)) :=
  let '(s, fm) := Bitmap.FindAndSet (as_map st) in
  ds ← store (as_sectors st) (NumDirect + i) s;
  _ ← ASSERT (0 <=? s);
  let sectorNum := if NumMaxSect >? as_offset st then as_offset st else NumMaxSect in
  let offset := as_offset st - sectorNum in
  _ ← ASSERT (0 <=? offset);
  '(result, ih, fm') ← AllocateIndirect new_FileHeader fm sectorNum;
  tbl ← store (as_table st) i (Some ih);
  if result : bool
  then Ret (Next (mkAllocState ds tbl fm' offset))
  else Ret (Exit (ds, tbl, fm')).

Definition Allocate (h : FileHeader) (freeMap : Bitmap.t) (fileSize : Z)
    : outcome (bool * FileHeader * Bitmap.t) :=
  let nb := fileSize in
  let ns := divRoundUp fileSize SectorSize in
  if Bitmap.NumClear freeMap <? ns
  then Ret (false, mkFileHeader nb ns (dataSectors h) (indirectTable h), freeMap)
  else
    let sectorNeeds := if ns <=? NumDirect then ns else NumDirect in
    let offset := ns - sectorNeeds in
    '(ds, fm) ← for_loop (seqZ 0 sectorNeeds)
        (λ i '(ds, fm),
           let '(s, fm') := Bitmap.FindAndSet fm in
           ds' ← store ds i s;
           _ ← ASSERT (0 <=? s);
           Ret (ds', fm'))
        (dataSectors h, freeMap);
    if 0 <? offset then
      let indexNeeds := divRoundUp offset NumMaxSect in
      let indirectSize := if indexNeeds <=? NumIndirect then indexNeeds else NumIndirect in
      r ← for_each (seqZ 0 indirectSize) Allocate_indirect_body
            (mkAllocState ds (indirectTable h) fm offset);
      match r with
      | Next st => Ret (true, mkFileHeader nb ns (as_sectors st) (as_table st), as_map st)
      | Exit (ds', tbl, fm') => Ret (false, mkFileHeader nb ns ds' tbl, fm')
      end
    else Ret (true, mkFileHeader nb ns ds (indirectTable h), fm).

(** [Deallocate]: the inner loop has no increment ([for (...; j)]) and
    releases [dataSectors[i]] of the child, as written in the source. *)
Definition Deallocate (fuel : nat) (h : FileHeader) (freeMap : Bitmap.t)
    : outcome Bitmap.t :=
  for_loop (seqZ 0 NumMaxSect)
    (λ i fm,
       child ← load (indirectTable h) i;
       fm1 ← match child with
             | Some ih =>
                 c_for fuel (λ j, j <? numSectors ih) (λ j, j)
                   (λ _ fm,
                      x ← load (dataSectors ih) i;
                      t ← Bitmap.Test fm x;
                      _ ← ASSERT t;
                      Bitmap.Clear fm x)
                   0 fm
             | None => Ret fm
             end;
       d ← load (dataSectors h) i;
       if bool_decide (d ≠ -1) then
         t ← Bitmap.Test fm1 d;
         _ ← ASSERT t;
         Bitmap.Clear fm1 d
       else Ret fm1)
    freeMap.

(** [ByteToSector]: falling off the end of the function without a
    [return] is undefined. *)
Definition ByteToSector (h : FileHeader) (offset : Z) : outcome Z :=
  let position := Z.quot offset SectorSize in
  if position <? NumDirect then load (dataSectors h) position
  else
    let position := position - NumDirect in
    if 0 <=? position then
      let index := Z.quot position NumMaxSect in
      let p := Z.rem position NumMaxSect in
      child ← load (indirectTable h) index;
      match child with
      | Some ih => load (dataSectors ih) p
      | None => Undef
      end
    else Undef.

Definition FileLength (h : FileHeader) : Z := numBytes h.

(** [ReadSector] into [this]: the image replaces the three
    on-disk fields and leaves the in-core table alone. *)
Definition read_image (d : Disk) (sector : Z) (h : FileHeader)
    : outcome FileHeader :=
  match ReadSector d sector with
  | Some (SHdr nb ns ds) => Ret (mkFileHeader nb ns ds (indirectTable h))
  | _ => Undef
  end.

Definition image_of (h : FileHeader) : Sector :=
  SHdr (numBytes h) (numSectors h) (dataSectors h).

Definition FetchFromIndirect (d : Disk) (sector : Z) (h : FileHeader)
    : outcome FileHeader :=
  read_image d sector h.

(** [FetchFrom]: [Exit] is the [break] at the first slot holding -1. *)
Definition FetchFrom (d : Disk) (sector : Z) (h : FileHeader)
    : outcome FileHeader :=
  h1 ← read_image d sector h;
  r ← for_each (seqZ 0 NumIndirect)
        (λ i tbl,
           s ← load (dataSectors h1) (NumDirect + i);
           if bool_decide (s = -1) then Ret (Exit tbl)
           else
             ih ← FetchFromIndirect d s new_FileHeader;
             tbl' ← store tbl i (Some ih);
             Ret (Next tbl'))
        (indirectTable h1);
  let tbl := match r with Next t => t | Exit t => t end in
  Ret (mkFileHeader (numBytes h1) (numSectors h1) (dataSectors h1) tbl).

Definition WriteBackIndirect (d : Disk) (sector : Z) (h : FileHeader) : Disk :=
  WriteSector d sector (image_of h).

Definition WriteBack (d : Disk) (sector : Z) (h : FileHeader) : outcome Disk :=
  for_loop (seqZ 0 NumIndirect)
    (λ i d,
       child ← load (indirectTable h) i;
       match child with
       | Some ih =>
           s ← load (dataSectors h) (i + NumDirect);
           Ret (WriteBackIndirect d s ih)
       | None => Ret d
       end)
    (WriteSector d sector (image_of h)).

End FileHdr.
End FileHdr.

(** ** Open files *)

(** Modelled from the spec: the open-file handle of [openfile.cc], which
    is not part of the sources at hand. Opening a file reads its header from
    the header sector. A transfer at position 0 moves nothing when the
    request or the file is empty, and otherwise starts in the sector of
    byte 0; it is cut at the length of the file. *)
Record OpenFile : Type := mkOpenFile {
  hdr : FileHeader;
  seekPosition : Z;
}.

Section OpenFile.
Context {G : Geometry}.

Definition OpenFile_new (d : Disk) (sector : Z) : outcome OpenFile :=
  h ← FileHdr.FetchFrom d sector FileHdr.new_FileHeader;
  Ret (mkOpenFile h 0).

(** The sector that holds the record transferred by [ReadAt(_, size, 0)]
    or [WriteAt(_, size, 0)], if any byte moves. [whole] is the size of the
    record the file body is an image of; [min size fileLength] bytes move,
    and a transfer that is cut inside the record, or runs past it into bytes
    that are not tracked, is left undefined. *)
Definition transfer_sector (file : OpenFile) (size whole : Z)
    : outcome (option Z) :=
  let fileLength := FileHdr.FileLength (hdr file) in
  if (size <=? 0) || (fileLength <=? 0) then Ret None
  else if bool_decide (Z.min size fileLength = whole)
  then s ← FileHdr.ByteToSector (hdr file) 0; Ret (Some s)
  else Undef.

End OpenFile.

(** Modelled from the spec: [PersistentBitmap] of [pbitmap.cc], a bitmap
    serialised to and from the free-map file as a byte image. *)
Module PersistentBitmap.
Section PersistentBitmap.
Context {G : Geometry}.

Definition FetchFrom (d : Disk) (file : OpenFile) (numBits : Z)
    : outcome Bitmap.t :=
  o ← transfer_sector file FreeMapFileSize FreeMapFileSize;
  match o with
  | None => Ret (Bitmap.create numBits)
  | Some s =>
      match ReadSector d s with
      | Some (SMap bits) =>
          if bool_decide (Z.of_nat (length bits) = numBits) then Ret bits else Undef
      | _ => Undef
      end
  end.

Definition WriteBack (d : Disk) (b : Bitmap.t) (file : OpenFile)
    : outcome Disk :=
  o ← transfer_sector file FreeMapFileSize FreeMapFileSize;
  match o with
  | None => Ret d
  | Some s => Ret (WriteSector d s (SMap b))
  end.

End PersistentBitmap.
End PersistentBitmap.

(** ** Directories *)

(** A [char*] argument is the list of its characters before the
    terminating NUL. [s[i]] is a character of the string or, at its end, the
    terminator; what lies behind the terminator was never written (the rest
    of a buffer on the stack) or is outside the array, and reading it is
    undefined. *)
Definition NUL : ascii := Ascii.zero.
Definition SLASH : ascii := "/"%char.

Definition char_at (s : list ascii) (i : Z) : outcome ascii :=
  match lookupZ s i with
  | Some c => Ret c
  | None => if bool_decide (i = Z.of_nat (length s)) then Ret NUL else Undef
  end.

Module Directory.
Section Directory.
Context {G : Geometry}.

Definition emptyEntry : DirectoryEntry := mkDirectoryEntry false 0 [] false.

(** [Directory::Directory(size)]: a zeroed table of [size] entries. *)
Definition new (size : Z) : list DirectoryEntry :=
  replicate (Z.to_nat size) emptyEntry.

Definition image_size (table : list DirectoryEntry) : Z :=
  Z.of_nat (length table) * DirectoryEntrySize.

(** [FetchFrom]: the bytes read replace the front of the table. *)
Definition FetchFrom (d : Disk) (table : list DirectoryEntry) (file : OpenFile)
    : outcome (list DirectoryEntry) :=
  o ← transfer_sector file (image_size table) (NumDirEntries * DirectoryEntrySize);
  match o with
  | None => Ret table
  | Some s =>
      match ReadSector d s with
      | Some (SDir t) =>
          if bool_decide (Z.of_nat (length t) = NumDirEntries)
          then Ret (t ++ drop (length t) table)
          else Undef
      | _ => Undef
      end
  end.

Definition WriteBack (d : Disk) (table : list DirectoryEntry) (file : OpenFile)
    : outcome Disk :=
  o ← transfer_sector file (image_size table) (image_size table);
  match o with
  | None => Ret d
  | Some s => Ret (WriteSector d s (SDir table))
  end.

(** Modelled from the spec: the macro [OPENDIR(dir, file)] comes from a
    header that is not part of the sources at hand; it stands for a fresh
    directory of [NumDirEntries] entries fetched from [file]. *)
Definition OPENDIR (d : Disk) (file : OpenFile) : outcome (list DirectoryEntry) :=
  FetchFrom d (new NumDirEntries) file.

(** [!strncmp(a, b, FileNameMaxLen)] *)
Definition same_name (a b : list ascii) : bool :=
  bool_decide (take (Z.to_nat FileNameMaxLen) a = take (Z.to_nat FileNameMaxLen) b).

Fixpoint FindIndex_from (i : Z) (table : list DirectoryEntry) (nm : list ascii) : Z :=
  match table with
  | [] => -1
  | e :: table' =>
      if inUse e && same_name (name e) nm then i
      else FindIndex_from (i + 1) table' nm
  end.

Definition FindIndex (table : list DirectoryEntry) (nm : list ascii) : Z :=
  FindIndex_from 0 table nm.

Definition Find (table : list DirectoryEntry) (nm : list ascii) : Z :=
  let i := FindIndex table nm in
  if bool_decide (i ≠ -1)
  then match lookupZ table i with Some e => sector e | None => -1 end
  else -1.

(** The scan [for (i = 1; name[i + offset]; i++)] for the next '/':
    [rest] is the text from [name[1 + offset]] on. *)
Fixpoint scan_slash (rest : list ascii) (i : Z) : option Z :=
  match rest with
  | [] => None
  | c :: rest' => if bool_decide (c = SLASH) then Some i else scan_slash rest' (i + 1)
  end.

(** [SearchPath]: [name[1]] is read first, whatever [offset] is; the
    scan then starts by reading [name[1 + offset]]. The buffer [filename] has
    [FileNameMaxLen + 1] bytes. The recursion follows the disk and runs on a
    budget. *)
Fixpoint SearchPath (fuel : nat) (d : Disk) (table : list DirectoryEntry)
    (nm : list ascii) (offset : Z) : outcome Z :=
  second ← char_at nm 1;
  if bool_decide (second = NUL) then Ret DirectorySector
  else
    _ ← char_at nm (1 + offset);
    match scan_slash (drop (Z.to_nat (offset + 1)) nm) 1 with
    | Some i =>
        if FileNameMaxLen <? i then Undef
        else
          let filename := take (Z.to_nat i) (drop (Z.to_nat offset) nm) in
          let sector := Find table filename in
          if bool_decide (sector = -1) then Ret sector
          else
            match fuel with
            | O => NoFuel
            | S fuel' =>
                dir ← OpenFile_new d sector;
                directory ← FetchFrom d (new DirectoryFileSize) dir;
                SearchPath fuel' d directory nm (i + offset)
            end
    | None =>
        let filename := drop (Z.to_nat offset) nm in
        if FileNameMaxLen <? Z.of_nat (length filename) then Undef
        else Ret (Find table filename)
    end.

Fixpoint first_free (i : nat) (table : list DirectoryEntry) : option nat :=
  match table with
  | [] => None
  | e :: table' => if inUse e then first_free (S i) table' else Some i
  end.

(** [Add]: [strncpy] keeps the first [FileNameMaxLen] characters. *)
Definition Add (table : list DirectoryEntry) (nm : list ascii) (newSector : Z)
    (dir : bool) : bool * list DirectoryEntry :=
  if bool_decide (FindIndex table nm ≠ -1) then (false, table)
  else
    match first_free 0 table with
    | Some i =>
        (true,
         <[i := mkDirectoryEntry true newSector
                  (take (Z.to_nat FileNameMaxLen) nm) dir]> table)
    | None => (false, table)
    end.

Definition release (e : DirectoryEntry) : DirectoryEntry :=
  mkDirectoryEntry false (sector e) (name e) (isDir e).

Definition Remove (table : list DirectoryEntry) (nm : list ascii)
    : bool * list DirectoryEntry :=
  let i := FindIndex table nm in
  if bool_decide (i = -1) then (false, table)
  else (true, alter release (Z.to_nat i) table).

(** [strncpy(tarPath, path, MAX_PATH_LEN); strncat(tarPath, name,
    FileNameMaxLen)] into [tarPath[MAX_PATH_LEN + 1]]: the copy is terminated
    only when [path] is shorter than [MAX_PATH_LEN], and the name appended,
    with its terminator, has to fit the buffer. *)
Definition append_name (path nm : list ascii) : outcome (list ascii) :=
  let stored := take (Z.to_nat FileNameMaxLen) nm in
  if (Z.of_nat (length path) <? MAX_PATH_LEN) &&
     (Z.of_nat (length path) + Z.of_nat (length stored) <=? MAX_PATH_LEN)
  then Ret (path ++ stored)
  else Undef.

(** [Destroy]: the recursion follows the disk and runs on a budget, which
    is also the budget of the loops of [FileHdr.Deallocate]. *)
Fixpoint Destroy (fuel : nat) (d : Disk) (table : list DirectoryEntry)
    (freeMap : Bitmap.t) (path : list ascii) (file : OpenFile)
    : outcome (list DirectoryEntry * Bitmap.t * Disk) :=
  match fuel with
  | O => NoFuel
  | S fuel' =>
      '(table', fm', d') ← for_loop (seqZ 0 (Z.of_nat (length table)))
          (λ i '(tbl, fm, d),
             e ← load tbl i;
             if inUse e then
               '(fm1, d1) ←
                 (if isDir e then
                    tarDir ← OpenFile_new d (sector e);
                    directory ← OPENDIR d tarDir;
                    tarPath ← append_name path (name e);
                    '(_, fm1, d1) ← Destroy fuel' d directory fm tarPath tarDir;
                    Ret (fm1, d1)
                  else Ret (fm, d));
               fileHdr ← FileHdr.FetchFrom d1 (sector e) FileHdr.new_FileHeader;
               fm2 ← FileHdr.Deallocate fuel' fileHdr fm1;
               fm3 ← Bitmap.Clear fm2 (sector e);
               Ret ((Remove tbl (name e)).2, fm3, d1)
             else Ret (tbl, fm, d))
          (table, freeMap, d);
      d'' ← WriteBack d' table' file;
      Ret (table', fm', d'')
  end.

End Directory.
End Directory.

(** ** The file system *)

Record FileSystem : Type := mkFileSystem {
  freeMapFile : OpenFile;
  directoryFile : OpenFile;
}.

Module FileSystem.
Section FileSystem.
Context {G : Geometry}.

(** [FileSystem::FileSystem(format)] *)
Definition format (d : Disk) : outcome (FileSystem * Disk) :=
  let freeMap := Bitmap.create NumSectors in
  let directory := Directory.new NumDirEntries in
  freeMap ← Bitmap.Mark freeMap FreeMapSector;
  freeMap ← Bitmap.Mark freeMap DirectorySector;
  '(ok, mapHdr, freeMap) ← FileHdr.Allocate FileHdr.new_FileHeader freeMap FreeMapFileSize;
  _ ← ASSERT ok;
  '(ok, dirHdr, freeMap) ← FileHdr.Allocate FileHdr.new_FileHeader freeMap DirectoryFileSize;
  _ ← ASSERT ok;
  d ← FileHdr.WriteBack d FreeMapSector mapHdr;
  d ← FileHdr.WriteBack d DirectorySector dirHdr;
  fmFile ← OpenFile_new d FreeMapSector;
  dirFile ← OpenFile_new d DirectorySector;
  d ← PersistentBitmap.WriteBack d freeMap fmFile;
  d ← Directory.WriteBack d directory dirFile;
  Ret (mkFileSystem fmFile dirFile, d).

Definition mount (d : Disk) : outcome FileSystem :=
  fmFile ← OpenFile_new d FreeMapSector;
  dirFile ← OpenFile_new d DirectorySector;
  Ret (mkFileSystem fmFile dirFile).

(** [ExtractBasePath]: [mark] is the index of the last '/', and is not
    initialised when there is none. The buffers [base] and [name] of the
    caller are given by their capacities. *)
Definition last_slash (abs : list ascii) : option Z :=
  foldl (λ mark i, if bool_decide (char_at abs i = Ret SLASH) then Some i else mark)
    None (seqZ 0 (Z.of_nat (length abs))).

Definition ExtractBasePath (baseCap nameCap : Z) (abs : list ascii)
    : outcome (list ascii * list ascii) :=
  match last_slash abs with
  | None => Undef
  | Some mark =>
      let base := take (Z.to_nat mark) abs in
      let nm := drop (Z.to_nat mark) abs in
      if (baseCap <=? Z.of_nat (length base)) || (nameCap <=? Z.of_nat (length nm))
      then Undef
      else Ret (base, nm)
  end.

Definition path_fuel (path : list ascii) : nat := S (length path).

Definition Create (fs : FileSystem) (d : Disk) (nm : list ascii)
    (initialSize : Z) (dir : bool) : outcome (Z * Disk) :=
  let size := if dir then DirectoryFileSize else initialSize in
  rootDirectory ← Directory.FetchFrom d (Directory.new NumDirEntries) (directoryFile fs);
  '(BasedPath, act_name) ← ExtractBasePath (MAX_PATH_LEN + 1) 10 nm;
  sector ← Directory.SearchPath (path_fuel BasedPath) d rootDirectory BasedPath 0;
  if bool_decide (sector = -1) then Ret (0, d)
  else
    targetFile ← OpenFile_new d sector;
    targetDirectory ← Directory.FetchFrom d (Directory.new NumDirEntries) targetFile;
    if bool_decide (Directory.Find targetDirectory act_name ≠ -1) then Ret (0, d)
    else
      freeMap ← PersistentBitmap.FetchFrom d (freeMapFile fs) NumSectors;
      let '(sector, freeMap) := Bitmap.FindAndSet freeMap in
      if bool_decide (sector = -1) then Ret (0, d)
      else
        let '(added, targetDirectory) :=
          Directory.Add targetDirectory act_name sector dir in
        if negb added then Ret (0, d)
        else
          '(ok, hdr, freeMap) ← FileHdr.Allocate FileHdr.new_FileHeader freeMap size;
          if negb ok then Ret (0, d)
          else
            d1 ← FileHdr.WriteBack d sector hdr;
            d2 ← Directory.WriteBack d1 targetDirectory targetFile;
            d3 ← PersistentBitmap.WriteBack d2 freeMap (freeMapFile fs);
            d4 ← (if dir then
                    targetFile ← OpenFile_new d3 sector;
                    Directory.WriteBack d3 (Directory.new NumDirEntries) targetFile
                  else Ret d3);
            Ret (1, d4).

Definition Open (fs : FileSystem) (d : Disk) (nm : list ascii)
    : outcome (option OpenFile) :=
  directory ← Directory.FetchFrom d (Directory.new NumDirEntries) (directoryFile fs);
  sector ← Directory.SearchPath (path_fuel nm) d directory nm 0;
  if 0 <=? sector then f ← OpenFile_new d sector; Ret (Some f) else Ret None.

Definition Remove (fuel : nat) (fs : FileSystem) (d : Disk) (nm : list ascii)
    (recur : bool) : outcome (bool * Disk) :=
  baseDirectory ← Directory.OPENDIR d (directoryFile fs);
  '(BasePath, filename) ← ExtractBasePath (MAX_PATH_LEN + 1) (FileNameMaxLen + 1) nm;
  sector ← Directory.SearchPath (path_fuel BasePath) d baseDirectory BasePath 0;
  if bool_decide (sector = -1) then Ret (false, d)
  else
    baseDir ← OpenFile_new d sector;
    baseDirectory ← Directory.OPENDIR d baseDir;
    let sector := Directory.Find baseDirectory filename in
    if bool_decide (sector = -1) || bool_decide (sector = DirectorySector)
    then Ret (false, d)
    else
      freeMap ← PersistentBitmap.FetchFrom d (freeMapFile fs) NumSectors;
      '(freeMap, d1) ←
        (if recur then
           tarDir ← OpenFile_new d sector;
           targetDirectory ← Directory.OPENDIR d tarDir;
           '(_, fm, d1) ← Directory.Destroy fuel d targetDirectory freeMap nm tarDir;
           Ret (fm, d1)
         else Ret (freeMap, d));
      fileHdr ← FileHdr.FetchFrom d1 sector FileHdr.new_FileHeader;
      freeMap ← FileHdr.Deallocate fuel fileHdr freeMap;
      freeMap ← Bitmap.Clear freeMap sector;
      let baseDirectory := (Directory.Remove baseDirectory filename).2 in
      d2 ← PersistentBitmap.WriteBack d1 freeMap (freeMapFile fs);
      d3 ← Directory.WriteBack d2 baseDirectory baseDir;
      Ret (true, d3).

(** [SysWideOpenFileTable] is an array of [OpenFile*]; [None] is NULL. *)
Definition CloseFileId (table : list (option OpenFile)) (id : Z)
    : outcome (Z * list (option OpenFile)) :=
  file ← load table id;
  match file with
  | None => Ret (0, table)
  | Some _ =>
      table' ← store table id None;
      Ret (1, table')
  end.

(** [OpenFileForId]: [fd] counts up from 0, and each round of the loop
    increments it before it tests slot [fd]: the slots tried are 1 to
    [MAX_SYS_OPENF + 1], and the state of the loop is the table. When the
    loop ends without [break], [fd] is [MAX_SYS_OPENF + 1] (or 0, had the
    loop not run at all). [MAX_SYS_OPENF] is a constant of [filesys.h], which
    is not part of the sources at hand, and is a parameter here. *)
Definition OpenFileForId (MAX_SYS_OPENF : Z) (fs : FileSystem) (d : Disk)
    (table : list (option OpenFile)) (nm : list ascii)
    : outcome (Z * list (option OpenFile)) :=
  file ← Open fs d nm;
  r ← for_each (seqZ 0 (MAX_SYS_OPENF + 1))
        (λ fd table,
           let fd := fd + 1 in
           slot ← load table fd;
           match slot with
           | None => table' ← store table fd file; Ret (Exit (fd, table'))
           | Some _ => Ret (Next table)
           end)
        table;
  let '(fd, table) :=
    match r with
    | Exit (fd, table') => (fd, table')
    | Next table => (Z.max 0 (MAX_SYS_OPENF + 1), table)
    end in
  _ ← ASSERT (fd <=? MAX_SYS_OPENF);
  Ret (fd, table).

End FileSystem.
End FileSystem.

(** ** Vocabulary of the statements *)

(** [extends fm fm' new]: the map [fm'] is [fm] with the sectors [new],
    all free in [fm] and pairwise distinct, marked in addition. *)
Definition extends (fm fm' : Bitmap.t) (new : list Z) : Prop :=
  length fm' = length fm ∧
  NoDup new ∧
  (∀ s, s ∈ new → lookupZ fm s = Some false) ∧
  (∀ s, lookupZ fm' s = if decide (s ∈ new) then Some true else lookupZ fm s) ∧
  Bitmap.NumClear fm' = Bitmap.NumClear fm - Z.of_nat (length new).

Section Layout.
Context {G : Geometry}.

(** [pad n x l]: the array of [n] slots that starts with [l] and holds [x]
    in the remaining slots. *)
Definition pad {A} (n : Z) (x : A) (l : list A) : list A :=
  l ++ replicate (Z.to_nat n - length l) x.

(** The child header that addresses the data sectors [ds]. *)
Definition indirect_header (ds : list Z) : FileHeader :=
  {| numBytes := Z.of_nat (length ds) * SectorSize;
     numSectors := Z.of_nat (length ds);
     dataSectors := pad (NumDirect + NumIndirect) (-1) ds;
     indirectTable := replicate (Z.to_nat NumIndirect) None |}.

(** The header of a file of [size] bytes whose direct slots hold [direct]
    and whose indirect slots hold, in order, the sector of a child header
    and the data sectors that child addresses. *)
Definition header_of (size : Z) (direct : list Z) (inds : list (Z * list Z))
    : FileHeader :=
  {| numBytes := size;
     numSectors := divRoundUp size SectorSize;
     dataSectors := pad NumDirect (-1) direct ++ pad NumIndirect (-1) (inds.*1);
     indirectTable :=
       pad NumIndirect None ((λ x, Some (indirect_header x.2)) <$> inds) |}.

(** The sectors of a file in the order [Allocate] takes them. *)
Definition sectors_of (direct : list Z) (inds : list (Z * list Z)) : list Z :=
  direct ++ concat ((λ x, x.1 :: x.2) <$> inds).

(** The sizes the constants of a volume must have for the arrays of a
    header to make sense. *)
Definition sane_header_geometry : Prop :=
  0 < SectorSize ∧ 0 ≤ NumDirect ∧ 0 ≤ NumIndirect ∧ 0 < NumMaxSect.

(** What the loop over the indirect slots in [Allocate] has built after
    [i] rounds, when it started from the direct sectors [direct], the map
    [fm1] and [offset0] sectors still to place. *)
Definition indirect_rounds (direct : list Z) (fm1 : Bitmap.t) (offset0 : Z)
    (i : Z) (st : FileHdr.alloc_state) : Prop :=
  ∃ inds : list (Z * list Z),
    Z.of_nat (length inds) = i ∧
    extends fm1 (FileHdr.as_map st) (concat ((λ x, x.1 :: x.2) <$> inds)) ∧
    FileHdr.as_sectors st =
      pad NumDirect (-1) direct ++ inds.*1 ++
      replicate (Z.to_nat NumIndirect - length inds) (-1) ∧
    FileHdr.as_table st =
      ((λ x, Some (indirect_header x.2)) <$> inds) ++
      replicate (Z.to_nat NumIndirect - length inds) None ∧
    FileHdr.as_offset st = Z.max 0 (offset0 - i * NumMaxSect) ∧
    Z.of_nat (length (concat (inds.*2))) = offset0 - FileHdr.as_offset st ∧
    Forall (λ x, 0 ≤ x.1 ∧ Forall (λ s, 0 ≤ s) x.2 ∧
                 1 ≤ Z.of_nat (length x.2) ≤ NumMaxSect) inds.

(** The largest file length a header can address. *)
Definition MaxFileLength : Z :=
  NumDirect * SectorSize + NumIndirect * NumMaxSect * SectorSize.

(** The ceiling of [n / s]. *)
Definition ceiling (n s : Z) : Z := - ((- n) `div` s).

(** The indirect-header sectors a header holds, and their number. *)
Definition indirect_slots (h : FileHeader) : list Z :=
  filter (λ s, s ≠ -1) (drop (Z.to_nat NumDirect) (dataSectors h)).

Definition indirect_sectors (h : FileHeader) : Z :=
  Z.of_nat (length (indirect_slots h)).

(** [byte_to_sector] in the words of the specification, with the
    mathematical quotient and remainder. *)
Definition byte_to_sector (h : FileHeader) (offset : Z) : outcome Z :=
  let p := offset `div` SectorSize in
  if p <? NumDirect then load (dataSectors h) p
  else
    let p' := p - NumDirect in
    let i := p' `div` NumMaxSect in
    let j := p' `mod` NumMaxSect in
    child ← load (indirectTable h) i;
    match child with
    | Some ih => load (dataSectors ih) j
    | None => Undef
    end.

End Layout.

Section Facade.
Context {G : Geometry}.

(** The steps [Create] shares between its ways of failing: the base
    path resolves to [sector]; the directory [target] is fetched from it; the
    sector [s] is taken from the free map for the new header. *)
Definition create_resolves (fs : FileSystem) (d : Disk) (nm leaf : list ascii)
    (sector : Z) : Prop :=
  ∃ root base,
    Directory.FetchFrom d (Directory.new NumDirEntries) (directoryFile fs) = Ret root ∧
    FileSystem.ExtractBasePath (MAX_PATH_LEN + 1) 10 nm = Ret (base, leaf) ∧
    Directory.SearchPath (FileSystem.path_fuel base) d root base 0 = Ret sector.

Definition create_target (fs : FileSystem) (d : Disk) (nm leaf : list ascii)
    (target : list DirectoryEntry) : Prop :=
  ∃ sector targetFile,
    create_resolves fs d nm leaf sector ∧
    sector ≠ -1 ∧
    OpenFile_new d sector = Ret targetFile ∧
    Directory.FetchFrom d (Directory.new NumDirEntries) targetFile = Ret target.

Definition create_header_sector (fs : FileSystem) (d : Disk) (nm leaf : list ascii)
    (target : list DirectoryEntry) (s : Z) (fm : Bitmap.t) : Prop :=
  create_target fs d nm leaf target ∧
  Directory.Find target leaf = -1 ∧
  ∃ freeMap,
    PersistentBitmap.FetchFrom d (freeMapFile fs) NumSectors = Ret freeMap ∧
    Bitmap.FindAndSet freeMap = (s, fm).

(** The ways [Create] fails: the base path does not resolve; the name is
    present; no sector is free for the header; the directory is full; fewer
    sectors are free than the file has data sectors, which [Allocate] tests
    first; or [Allocate] answers FALSE later, when a child header is to
    address more sectors than are free. *)
Inductive CreateFails (fs : FileSystem) (d : Disk) (nm : list ascii)
    (initialSize : Z) (dir : bool) : Prop :=
| base_not_resolved leaf :
    create_resolves fs d nm leaf (-1) →
    CreateFails fs d nm initialSize dir
| name_exists leaf target :
    create_target fs d nm leaf target →
    Directory.Find target leaf ≠ -1 →
    CreateFails fs d nm initialSize dir
| no_header_sector leaf target fm :
    create_header_sector fs d nm leaf target (-1) fm →
    CreateFails fs d nm initialSize dir
| directory_full leaf target s fm target' :
    create_header_sector fs d nm leaf target s fm →
    s ≠ -1 →
    Directory.Add target leaf s dir = (false, target') →
    CreateFails fs d nm initialSize dir
| no_data_space leaf target s fm target' :
    create_header_sector fs d nm leaf target s fm →
    s ≠ -1 →
    Directory.Add target leaf s dir = (true, target') →
    Bitmap.NumClear fm
      < divRoundUp (if dir then DirectoryFileSize else initialSize) SectorSize →
    CreateFails fs d nm initialSize dir
| no_child_space leaf target s fm target' h fm' :
    create_header_sector fs d nm leaf target s fm →
    s ≠ -1 →
    Directory.Add target leaf s dir = (true, target') →
    divRoundUp (if dir then DirectoryFileSize else initialSize) SectorSize
      ≤ Bitmap.NumClear fm →
    FileHdr.Allocate FileHdr.new_FileHeader fm
      (if dir then DirectoryFileSize else initialSize) = Ret (false, h, fm') →
    CreateFails fs d nm initialSize dir.

(** The run of a [Create] that succeeds, statement by statement. *)
Inductive CreateSucceeds (fs : FileSystem) (d : Disk) (nm : list ascii)
    (initialSize : Z) (dir : bool) (d' : Disk) : Prop :=
| create_ok leaf sector targetFile target freeMap s fm target' h fm' d1 d2 d3 :
    create_resolves fs d nm leaf sector →
    sector ≠ -1 →
    OpenFile_new d sector = Ret targetFile →
    Directory.FetchFrom d (Directory.new NumDirEntries) targetFile = Ret target →
    Directory.Find target leaf = -1 →
    PersistentBitmap.FetchFrom d (freeMapFile fs) NumSectors = Ret freeMap →
    Bitmap.FindAndSet freeMap = (s, fm) →
    s ≠ -1 →
    Directory.Add target leaf s dir = (true, target') →
    FileHdr.Allocate FileHdr.new_FileHeader fm
      (if dir then DirectoryFileSize else initialSize) = Ret (true, h, fm') →
    FileHdr.WriteBack d s h = Ret d1 →
    Directory.WriteBack d1 target' targetFile = Ret d2 →
    PersistentBitmap.WriteBack d2 fm' (freeMapFile fs) = Ret d3 →
    (if dir
     then ∃ newFile,
            OpenFile_new d3 s = Ret newFile ∧
            Directory.WriteBack d3 (Directory.new NumDirEntries) newFile = Ret d'
     else d' = d3) →
    CreateSucceeds fs d nm initialSize dir d'.

(** The base directory [Remove] looks the leaf up in. *)
Definition remove_base (fs : FileSystem) (d : Disk) (nm filename : list ascii)
    (baseDirectory : list DirectoryEntry) : Prop :=
  ∃ root base sector baseDir,
    Directory.OPENDIR d (directoryFile fs) = Ret root ∧
    FileSystem.ExtractBasePath (MAX_PATH_LEN + 1) (FileNameMaxLen + 1) nm
      = Ret (base, filename) ∧
    Directory.SearchPath (FileSystem.path_fuel base) d root base 0 = Ret sector ∧
    sector ≠ -1 ∧
    OpenFile_new d sector = Ret baseDir ∧
    Directory.OPENDIR d baseDir = Ret baseDirectory.

(** Every entry in use of the table has a name that begins with '/'. *)
Definition slash_named (table : list DirectoryEntry) : Prop :=
  Forall (λ e, inUse e = true → head (name e) = Some SLASH) table.

(** Every directory table on the disk is [slash_named]. *)
Definition slash_named_disk (d : Disk) : Prop :=
  ∀ s table, d !! s = Some (SDir table) → slash_named table.

End Facade.

Section Volume.
Context {G : Geometry}.

(** The sectors a header references: its direct data sectors and
    indirect-header sectors, and the data sectors of every child header. *)
Definition header_sectors (h : FileHeader) : list Z :=
  filter (λ s, s ≠ -1) (dataSectors h) ++
  concat ((λ c : option FileHeader,
             match c with
             | Some ih => filter (λ s, s ≠ -1) (dataSectors ih)
             | None => []
             end) <$> indirectTable h).

(** The sectors of the file whose header is in [hdrSector]: the header
    sector and the sectors the header on the disk references. *)
Definition file_sectors (d : Disk) (hdrSector : Z) : outcome (list Z) :=
  h ← FileHdr.FetchFrom d hdrSector FileHdr.new_FileHeader;
  Ret (hdrSector :: header_sectors h).

Fixpoint collect {A} (f : A → outcome (list Z)) (l : list A) : outcome (list Z) :=
  match l with
  | [] => Ret []
  | x :: l' => a ← f x; b ← collect f l'; Ret (a ++ b)
  end.

(** The sectors of every file reachable from the file in [hdrSector],
    that file included, descending through the entries in use of
    directories. *)
Fixpoint tree_sectors (fuel : nat) (d : Disk) (hdrSector : Z) (dir : bool)
    : outcome (list Z) :=
  match fuel with
  | O => NoFuel
  | S fuel' =>
      own ← file_sectors d hdrSector;
      if dir then
        file ← OpenFile_new d hdrSector;
        table ← Directory.OPENDIR d file;
        below ← collect
          (λ e, if inUse e then tree_sectors fuel' d (sector e) (isDir e)
                else Ret [])
          table;
        Ret (own ++ below)
      else Ret own
  end.

(** The claim of bitmap consistency for a volume: the bits marked in
    the free map on the disk are the sectors of the free-map file and of
    every file reachable from the root directory, the root directory file
    included. *)
Definition bitmap_consistent (fs : FileSystem) (d : Disk) : Prop :=
  ∃ bits mapfile fuel reach,
    PersistentBitmap.FetchFrom d (freeMapFile fs) NumSectors = Ret bits ∧
    file_sectors d FreeMapSector = Ret mapfile ∧
    tree_sectors fuel d DirectorySector true = Ret reach ∧
    ∀ s, lookupZ bits s = Some true ↔ s ∈ mapfile ++ reach.

(** What [Allocate] gave a file: its length, its direct sectors, and per
    indirect slot the sector of the child header and its data sectors. *)
Record layout : Type := mkLayout {
  lay_size : Z;
  lay_direct : list Z;
  lay_inds : list (Z * list Z);
}.

Definition layout_header (l : layout) : FileHeader :=
  header_of (lay_size l) (lay_direct l) (lay_inds l).

(** The sectors that hold the header and the child headers of a file, and
    the sectors that hold its data. *)
Definition meta_of (hdrSector : Z) (l : layout) : list Z :=
  hdrSector :: (lay_inds l).*1.

Definition data_of (l : layout) : list Z :=
  lay_direct l ++ concat ((lay_inds l).*2).

Definition well_formed_layout (l : layout) : Prop :=
  Z.of_nat (length (lay_direct l)) ≤ NumDirect ∧
  Z.of_nat (length (lay_inds l)) ≤ NumIndirect ∧
  Forall (λ s, 0 ≤ s) ((lay_inds l).*1 ++ data_of l) ∧
  Forall (λ x, 1 ≤ Z.of_nat (length x.2)) (lay_inds l).

(** The header of the file and its child headers are on the disk. *)
Definition on_disk (d : Disk) (hdrSector : Z) (l : layout) : Prop :=
  d !! hdrSector = Some (FileHdr.image_of (layout_header l)) ∧
  ∀ i x, lay_inds l !! i = Some x →
    d !! x.1 = Some (FileHdr.image_of (indirect_header x.2)).

Definition slot_meta (e : DirectoryEntry) (o : option layout) : list Z :=
  match o with Some l => meta_of (sector e) l | None => [] end.

Definition slot_data (e : DirectoryEntry) (o : option layout) : list Z :=
  match o with Some l => data_of l | None => [] end.

(** All sectors in use on a volume whose root directory [table] holds the
    regular files [files], slot by slot: headers first, data second. *)
Definition volume_meta (ml dl : layout) (table : list DirectoryEntry)
    (files : list (option layout)) : list Z :=
  meta_of FreeMapSector ml ++ meta_of DirectorySector dl ++
  concat (zip_with slot_meta table files).

Definition volume_data (ml dl : layout) (table : list DirectoryEntry)
    (files : list (option layout)) : list Z :=
  data_of ml ++ data_of dl ++ concat (zip_with slot_data table files).

(** The state of a volume that holds regular files in its root directory
    only: the two well-known files with layouts [ml] and [dl], the free map
    [bits], the root directory [table] and the layouts [files] of its
    entries. *)
Record flat_volume (fs : FileSystem) (d : Disk) (ml dl : layout)
    (bits : Bitmap.t) (table : list DirectoryEntry)
    (files : list (option layout)) : Prop := mkFlatVolume {
  fv_fs : fs = mkFileSystem (mkOpenFile (layout_header ml) 0)
                            (mkOpenFile (layout_header dl) 0);
  fv_map_size : lay_size ml = FreeMapFileSize;
  fv_dir_size : lay_size dl = DirectoryFileSize;
  fv_map_wf : well_formed_layout ml;
  fv_dir_wf : well_formed_layout dl;
  fv_map_on_disk : on_disk d FreeMapSector ml;
  fv_dir_on_disk : on_disk d DirectorySector dl;
  fv_map_body : ∃ m0, head (lay_direct ml) = Some m0 ∧ d !! m0 = Some (SMap bits);
  fv_dir_body : ∃ r0, head (lay_direct dl) = Some r0 ∧ d !! r0 = Some (SDir table);
  fv_bits_len : Z.of_nat (length bits) = NumSectors;
  fv_table_len : Z.of_nat (length table) = NumDirEntries;
  fv_files_len : length files = length table;
  fv_files : ∀ i e o, table !! i = Some e → files !! i = Some o →
    match o with
    | Some l => inUse e = true ∧ isDir e = false ∧
                well_formed_layout l ∧ on_disk d (sector e) l
    | None => inUse e = false
    end;
  fv_nodup : NoDup (volume_meta ml dl table files ++ volume_data ml dl table files);
  fv_marked : ∀ s, lookupZ bits s = Some true ↔
                   s ∈ volume_meta ml dl table files ++ volume_data ml dl table files;
}.

(** [releases fm fm' old]: the map [fm'] is [fm] with the sectors [old],
    all marked in [fm], cleared. *)
Definition releases (fm fm' : Bitmap.t) (old : list Z) : Prop :=
  length fm' = length fm ∧
  (∀ s, s ∈ old → lookupZ fm s = Some true) ∧
  (∀ s, lookupZ fm' s = if decide (s ∈ old) then Some false else lookupZ fm s).

(** The bits marked in the free map on the disk. *)
Definition persisted_map (fs : FileSystem) (d : Disk) : outcome Bitmap.t :=
  PersistentBitmap.FetchFrom d (freeMapFile fs) NumSectors.

(** The name of a file of the root directory: a '/' followed by
    characters other than '/'. A path of the root directory is such a name
    behind one more character: [ExtractBasePath] splits [c :: nm] into the
    base path [c], which [SearchPath] takes for the root directory, and the
    name [nm]. *)
Definition top_level (nm : list ascii) : Prop :=
  head nm = Some SLASH ∧ SLASH ∉ tail nm.

(** The states of a volume that holds regular files in its root
    directory only: a freshly formatted volume, and what successful creations
    of files in the root and successful plain removals of them make of it. *)
Inductive flat_reachable (fs : FileSystem) : Disk → Prop :=
| flat_format blank d0 :
    FileSystem.format blank = Ret (fs, d0) →
    flat_reachable fs d0
| flat_create d c nm initialSize d' :
    flat_reachable fs d →
    top_level nm →
    FileSystem.Create fs d (c :: nm) initialSize false = Ret (1, d') →
    flat_reachable fs d'
| flat_remove d c nm fuel d' :
    flat_reachable fs d →
    top_level nm →
    FileSystem.Remove fuel fs d (c :: nm) false = Ret (true, d') →
    flat_reachable fs d'.

(** The sizes the constants of a volume must have for the free map and
    the directories to be stored as the file system expects, and for
    [Deallocate] to visit every direct slot. *)
Definition sane_volume_geometry : Prop :=
  sane_header_geometry ∧
  0 < NumDirect ∧
  NumDirect ≤ NumMaxSect ∧
  0 < FreeMapFileSize ∧
  0 < NumDirEntries ∧
  0 < DirectoryFileSize ∧
  DirectoryFileSize = NumDirEntries * DirectoryEntrySize.

End Volume.

Section Tables.
Context {G : Geometry}.

(** The test of [FindIndex] on one entry. *)
Definition names_entry (nm : list ascii) (e : DirectoryEntry) : Prop :=
  inUse e && Directory.same_name (name e) nm = true.

#[global] Instance names_entry_dec nm e : Decision (names_entry nm e) :=
  bool_eq_dec _ _.

(** No two entries in use carry the same name, as [FindIndex] compares
    names. *)
Definition distinct_names (table : list DirectoryEntry) : Prop :=
  ∀ i j e1 e2,
    table !! i = Some e1 → table !! j = Some e2 →
    inUse e1 = true → inUse e2 = true →
    Directory.same_name (name e1) (name e2) = true →
    i = j.

End Tables.

(** Two directory entries, tables and disks that differ at most in the
    directory flags of entries. *)
Definition same_but_isDir (e e' : DirectoryEntry) : Prop :=
  inUse e = inUse e' ∧ sector e = sector e' ∧ name e = name e'.

Definition same_sector_but_isDir (x y : Sector) : Prop :=
  match x, y with
  | SDir t, SDir t' => Forall2 same_but_isDir t t'
  | _, _ => x = y
  end.

Definition same_disk_but_isDir (d d' : Disk) : Prop :=
  ∀ s, option_Forall2 same_sector_but_isDir (d !! s) (d' !! s).

(** The disk with the directory flag of entry [i] of the table in sector
    [s] set to [b]. *)
Definition set_isDir (d : Disk) (s : Z) (i : nat) (b : bool) : Disk :=
  match d !! s with
  | Some (SDir t) =>
      <[s := SDir (alter (λ e, mkDirectoryEntry (inUse e) (sector e) (name e) b) i t)]> d
  | _ => d
  end.

(** [shrinks fm fm']: the map [fm'] marks no sector that [fm] does not
    mark. *)
Definition shrinks (fm fm' : Bitmap.t) : Prop :=
  length fm' = length fm ∧
  ∀ s, lookupZ fm' s = Some true → lookupZ fm s = Some true.

(** ** The files of a volume as a tree *)

(** The shape of a volume with directories, for the invariant behind the
    consistency of the free map: a file is a regular file or a directory,
    each with the layout [Allocate] gave it, and a directory has a slot per
    entry of its table. A slot is free, and remembers the entry last
    released there, or it is in use by a file with its header in sector [s]
    under the name [nm]. *)
Inductive slot (T : Type) : Type :=
| Free (e : DirectoryEntry)
| Used (s : Z) (nm : list ascii) (t : T).
Arguments Free {T} e.
Arguments Used {T} s nm t.

Inductive tree : Type :=
| File (l : layout)
| Folder (l : layout) (slots : list (slot tree)).

Definition tree_layout (t : tree) : layout :=
  match t with File l => l | Folder l _ => l end.

Definition is_folder (t : tree) : bool :=
  match t with File _ => false | Folder _ _ => true end.

(** The directory entry a slot stands for. *)
Definition entry_of (x : slot tree) : DirectoryEntry :=
  match x with
  | Free e => Directory.release e
  | Used s nm t => mkDirectoryEntry true s nm (is_folder t)
  end.

(** The table of a directory; a regular file has none. *)
Definition tree_table (t : tree) : option (list DirectoryEntry) :=
  match t with File _ => None | Folder _ slots => Some (entry_of <$> slots) end.

Definition slot_below {A} (f : Z → tree → list A) (x : slot tree) : list A :=
  match x with Used s _ t => f s t | Free _ => [] end.

(** A file of the volume: the sector of its header, its layout, and its
    table when it is a directory. *)
Abbreviation node := (Z * layout * option (list DirectoryEntry))%type.

(** The files of the tree [t] whose header is in sector [s], [t] first. *)
Fixpoint nodes (s : Z) (t : tree) : list node :=
  (s, tree_layout t, tree_table t) ::
  match t with
  | File _ => []
  | Folder _ slots => concat (slot_below nodes <$> slots)
  end.

Fixpoint height (t : tree) : nat :=
  match t with
  | File _ => 0
  | Folder _ slots =>
      S (foldr Nat.max 0%nat
           ((λ x, match x with Used _ _ t' => height t' | Free _ => 0%nat end) <$> slots))
  end.

(** The subtree that the slots [p] lead to, with the sector of its
    header. *)
Fixpoint subtree_at (p : list nat) (s : Z) (t : tree) : option (Z * tree) :=
  match p with
  | [] => Some (s, t)
  | i :: p' =>
      match t with
      | Folder _ slots =>
          match slots !! i with
          | Some (Used s' _ t') => subtree_at p' s' t'
          | _ => None
          end
      | File _ => None
      end
  end.

(** The tree with [f] applied to the subtree at [p]. *)
Fixpoint graft (p : list nat) (f : tree → tree) (t : tree) : tree :=
  match p with
  | [] => f t
  | i :: p' =>
      match t with
      | Folder l slots =>
          match slots !! i with
          | Some (Used s' nm t') => Folder l (<[i := Used s' nm (graft p' f t')]> slots)
          | _ => t
          end
      | File _ => t
      end
  end.

Definition set_slot (i : nat) (x : slot tree) (t : tree) : tree :=
  match t with
  | Folder l slots => Folder l (<[i := x]> slots)
  | File _ => t
  end.

(** The sectors of a file: header and child headers, data. *)
Definition node_meta (n : node) : list Z := meta_of n.1.1 n.1.2.
Definition node_data (n : node) : list Z := data_of n.1.2.
Definition node_sectors (n : node) : list Z := node_meta n ++ node_data n.

(** The header sectors of the directories among the files [ns]. *)
Definition folder_heads (ns : list node) : list Z :=
  omap (λ n : node, match n.2 with Some _ => Some n.1.1 | None => None end) ns.

Section TreeVolume.
Context {G : Geometry}.

(** The sectors of a file as [file_sectors] lists them. *)
Definition node_file_sectors (n : node) : list Z :=
  n.1.1 :: header_sectors (layout_header n.1.2).

(** The header sectors of the directories reachable from the directory in
    [hdrSector], that directory included, descending through the entries in
    use that are flagged as directories. *)
Fixpoint directories (fuel : nat) (d : Disk) (hdrSector : Z) : outcome (list Z) :=
  match fuel with
  | O => NoFuel
  | S fuel' =>
      file ← OpenFile_new d hdrSector;
      table ← Directory.OPENDIR d file;
      rest ← collect
        (λ e, if inUse e && isDir e then directories fuel' d (sector e) else Ret [])
        table;
      Ret (hdrSector :: rest)
  end.

(** The sector the base path of [nm] resolves to, as [Create] and [Remove]
    resolve it: [ExtractBasePath], then [SearchPath] from the root
    directory. *)
Definition base_sector (fs : FileSystem) (d : Disk) (nameCap : Z)
    (nm : list ascii) : outcome Z :=
  root ← Directory.OPENDIR d (directoryFile fs);
  '(base, _) ← FileSystem.ExtractBasePath (MAX_PATH_LEN + 1) nameCap nm;
  Directory.SearchPath (FileSystem.path_fuel base) d root base 0.

(** The base path of [nm] resolves to a directory reachable from the
    root. *)
Definition base_is_directory (fs : FileSystem) (d : Disk) (nameCap : Z)
    (nm : list ascii) : Prop :=
  ∃ b fuel dirs,
    base_sector fs d nameCap nm = Ret b ∧
    directories fuel d DirectorySector = Ret dirs ∧
    b ∈ dirs.

(** The entry [Remove] finds for the leaf of [nm] in the base directory. *)
Definition remove_entry (fs : FileSystem) (d : Disk) (nm : list ascii)
    (e : DirectoryEntry) : Prop :=
  ∃ filename baseDirectory,
    remove_base fs d nm filename baseDirectory ∧
    lookupZ baseDirectory (Directory.FindIndex baseDirectory filename) = Some e.

(** The file of entry [e], read as a directory, has an entry in use. *)
Definition holds_entries (d : Disk) (e : DirectoryEntry) : Prop :=
  ∃ file table x,
    OpenFile_new d (sector e) = Ret file ∧
    Directory.OPENDIR d file = Ret table ∧
    x ∈ table ∧ inUse x = true.

(** A file of the tree is on the disk: its header and child headers are,
    a file that is not empty has a first data sector, and the first data
    sector of a directory holds its table. *)
Definition node_ok (d : Disk) (n : node) : Prop :=
  well_formed_layout n.1.2 ∧ on_disk d n.1.1 n.1.2 ∧
  match n.2 with
  | None => 0 < lay_size n.1.2 → ∃ r0, head (lay_direct n.1.2) = Some r0
  | Some table =>
      lay_size n.1.2 = DirectoryFileSize ∧
      Z.of_nat (length table) = NumDirEntries ∧
      ∃ r0, head (lay_direct n.1.2) = Some r0 ∧ d !! r0 = Some (SDir table)
  end.

(** All sectors in use on a volume with the free-map file [ml] and the
    files of the tree [root]. *)
Definition volume_sectors (ml : layout) (root : tree) : list Z :=
  meta_of FreeMapSector ml ++ data_of ml ++
  concat (node_sectors <$> nodes DirectorySector root).

(** The invariant of a volume with directories: the free-map file and
    every file of the tree are on the disk, no sector belongs to two of them,
    and the map on the disk marks exactly their sectors. *)
Record tree_volume (fs : FileSystem) (d : Disk) (ml : layout) (bits : Bitmap.t)
    (root : tree) : Prop := mkTreeVolume {
  tv_fs : fs = mkFileSystem (mkOpenFile (layout_header ml) 0)
                            (mkOpenFile (layout_header (tree_layout root)) 0);
  tv_root : is_folder root = true;
  tv_map_size : lay_size ml = FreeMapFileSize;
  tv_map_wf : well_formed_layout ml;
  tv_map_on_disk : on_disk d FreeMapSector ml;
  tv_map_body : ∃ m0, head (lay_direct ml) = Some m0 ∧ d !! m0 = Some (SMap bits);
  tv_bits_len : Z.of_nat (length bits) = NumSectors;
  tv_nodes : Forall (node_ok d) (nodes DirectorySector root);
  tv_nodup : NoDup (volume_sectors ml root);
  tv_marked : ∀ s, lookupZ bits s = Some true ↔ s ∈ volume_sectors ml root;
}.

(** The states of a volume: a freshly formatted volume, and what successful
    creations and removals make of it, of files and of directories, at any
    depth, with and without recursion. Two kinds of steps are left out. The
    base path of a step has to resolve to a directory reachable from the
    root: [Create] and [Remove] do not test what the base path resolves to,
    and read whatever file it names as a directory. And a removal whose target,
    read as a directory, holds entries in use has to treat the target as what
    it is: a directory that holds files is removed with recursion, a regular
    file whose data reads as a table with entries in use without. *)
Inductive reachable (fs : FileSystem) : Disk → Prop :=
| reach_format blank d0 :
    FileSystem.format blank = Ret (fs, d0) →
    reachable fs d0
| reach_create d nm initialSize dir d' :
    reachable fs d →
    base_is_directory fs d 10 nm →
    FileSystem.Create fs d nm initialSize dir = Ret (1, d') →
    reachable fs d'
| reach_remove d nm fuel recur d' :
    reachable fs d →
    base_is_directory fs d (FileNameMaxLen + 1) nm →
    (∀ e, remove_entry fs d nm e → holds_entries d e → isDir e = recur) →
    FileSystem.Remove fuel fs d nm recur = Ret (true, d') →
    reachable fs d'.

End TreeVolume.

(** A small volume for concrete runs: 64 sectors of 128 bytes, headers
    with four direct and four indirect slots, directories of four entries
    that fit one sector. *)
Definition small_volume : Geometry := {|
  SectorSize := 128;
  NumSectors := 64;
  NumDirect := 4;
  NumIndirect := 4;
  NumMaxSect := 4;
  NumDirEntries := 4;
  FileNameMaxLen := 9;
  MAX_PATH_LEN := 255;
  DirectoryEntrySize := 20;
  DirectoryFileSize := 80;
  FreeMapFileSize := 8;
|}.

(** The characters of a path written as a string. *)
Definition path (s : string) : list ascii := list_ascii_of_string s.

(** A disk that was in use before it is formatted: sector 7 still holds
    the table of a directory with one entry, for a file with its header in
    sector 4. *)
Definition used_disk : Disk :=
  {[ 7 := SDir [mkDirectoryEntry true 4 (path "/x") false;
                mkDirectoryEntry false 0 [] false;
                mkDirectoryEntry false 0 [] false;
                mkDirectoryEntry false 0 [] false] ]}.

(** * Properties *)

(** ** Outcomes and loops *)

Lemma bind_Ret {A B} (m : outcome A) (k : A → outcome B) (b : B) :
  (m ≫= k) = Ret b → ∃ a, m = Ret a ∧ k a = Ret b.
Proof. destruct m; simpl; intros; try discriminate; eauto. Qed.

Lemma ret_bind {A B} (a : A) (k : A → outcome B) : (Ret a ≫= k) = k a.
Proof. reflexivity. Qed.

(** Run the next statement, whose result is known. *)
Ltac run_with H := rewrite H, ?ret_bind; cbv beta iota.

Lemma ASSERT_Ret c u : ASSERT c = Ret u → c = true.
Proof. destruct c; [done | discriminate]. Qed.

(** Peel the binds of a run that returned. *)
Ltac inv_ret H :=
  repeat match type of H with
  | (_ ≫= _) = Ret _ =>
      let a := fresh "a" in let Ha := fresh "Hrun" in
      apply bind_Ret in H as (a & Ha & H)
  | Abort = Ret _ => discriminate H
  | Undef = Ret _ => discriminate H
  | NoFuel = Ret _ => discriminate H
  end.

Lemma for_loop_range {St} (I : Z → St → Prop) (body : Z → St → outcome St)
    (len : nat) (m : Z) (s0 s' : St) :
  I m s0 →
  (∀ i s s1, m ≤ i < m + Z.of_nat len → I i s → body i s = Ret s1 → I (i + 1) s1) →
  for_loop (seqZ m (Z.of_nat len)) body s0 = Ret s' →
  I (m + Z.of_nat len) s'.
Proof.
  revert m s0. induction len as [|len IH]; intros m s0 H0 Hstep Hrun.
  - simpl in Hrun. injection Hrun as <-. by rewrite Z.add_0_r.
  - rewrite seqZ_cons in Hrun by lia. simpl in Hrun.
    apply bind_Ret in Hrun as (s1 & Hb & Hrun).
    replace (Z.pred (Z.of_nat (S len))) with (Z.of_nat len) in Hrun by lia.
    replace (m + Z.of_nat (S len)) with (Z.succ m + Z.of_nat len) by lia.
    apply (IH (Z.succ m) s1); [| |done].
    + replace (Z.succ m) with (m + 1) by lia. apply (Hstep m s0); [lia|done..].
    + intros i s s2 Hi. apply Hstep. lia.
Qed.

Lemma for_loop_inv {St} (I : Z → St → Prop) (body : Z → St → outcome St)
    (n : Z) (s0 s' : St) :
  I 0 s0 →
  (∀ i s s1, 0 ≤ i < n → I i s → body i s = Ret s1 → I (i + 1) s1) →
  for_loop (seqZ 0 n) body s0 = Ret s' →
  I (Z.max 0 n) s'.
Proof.
  intros H0 Hstep Hrun.
  destruct (decide (0 ≤ n)) as [Hn|Hn].
  - replace (Z.max 0 n) with (0 + Z.of_nat (Z.to_nat n)) by lia.
    apply (for_loop_range I body (Z.to_nat n) 0 s0 s'); [done| |].
    + intros i s s1 Hi. apply Hstep. lia.
    + by rewrite Z2Nat.id.
  - replace (seqZ 0 n) with (@nil Z) in Hrun
      by (unfold seqZ; replace (Z.to_nat n) with O by lia; done).
    simpl in Hrun. injection Hrun as <-. by replace (Z.max 0 n) with 0 by lia.
Qed.

Lemma for_each_range {St R} (I : Z → St → Prop) (Q : R → Prop)
    (body : Z → St → outcome (step St R)) (len : nat) (m : Z) (s0 : St) r :
  I m s0 →
  (∀ i s x, m ≤ i < m + Z.of_nat len → I i s → body i s = Ret x →
     match x with Next s1 => I (i + 1) s1 | Exit q => Q q end) →
  for_each (seqZ m (Z.of_nat len)) body s0 = Ret r →
  match r with Next s' => I (m + Z.of_nat len) s' | Exit q => Q q end.
Proof.
  revert m s0. induction len as [|len IH]; intros m s0 H0 Hstep Hrun.
  - simpl in Hrun. injection Hrun as <-. by rewrite Z.add_0_r.
  - rewrite seqZ_cons in Hrun by lia. simpl in Hrun.
    apply bind_Ret in Hrun as (x & Hb & Hrun).
    pose proof (Hstep m s0 x ltac:(lia) H0 Hb) as Hx.
    destruct x as [s1|q].
    + replace (Z.pred (Z.of_nat (S len))) with (Z.of_nat len) in Hrun by lia.
      replace (m + Z.of_nat (S len)) with (Z.succ m + Z.of_nat len) by lia.
      apply (IH (Z.succ m) s1); [| |done].
      * by replace (Z.succ m) with (m + 1) by lia.
      * intros i s x Hi. apply Hstep. lia.
    + by injection Hrun as <-.
Qed.

Lemma for_each_inv {St R} (I : Z → St → Prop) (Q : R → Prop)
    (body : Z → St → outcome (step St R)) (n : Z) (s0 : St) r :
  I 0 s0 →
  (∀ i s x, 0 ≤ i < n → I i s → body i s = Ret x →
     match x with Next s1 => I (i + 1) s1 | Exit q => Q q end) →
  for_each (seqZ 0 n) body s0 = Ret r →
  match r with Next s' => I (Z.max 0 n) s' | Exit q => Q q end.
Proof.
  intros H0 Hstep Hrun.
  destruct (decide (0 ≤ n)) as [Hn|Hn].
  - replace (Z.max 0 n) with (0 + Z.of_nat (Z.to_nat n)) by lia.
    apply (for_each_range I Q body (Z.to_nat n) 0 s0 r); [done| |].
    + intros i s x Hi. apply Hstep. lia.
    + by rewrite Z2Nat.id.
  - replace (seqZ 0 n) with (@nil Z) in Hrun
      by (unfold seqZ; replace (Z.to_nat n) with O by lia; done).
    simpl in Hrun. injection Hrun as <-. by replace (Z.max 0 n) with 0 by lia.
Qed.

(** The same rules when every round is shown to return. *)
Lemma for_loop_range_total {St} (I : Z → St → Prop) (body : Z → St → outcome St)
    (len : nat) (m : Z) (s0 : St) :
  I m s0 →
  (∀ i s, m ≤ i < m + Z.of_nat len → I i s → ∃ s1, body i s = Ret s1 ∧ I (i + 1) s1) →
  ∃ s', for_loop (seqZ m (Z.of_nat len)) body s0 = Ret s' ∧ I (m + Z.of_nat len) s'.
Proof.
  revert m s0. induction len as [|len IH]; intros m s0 H0 Hstep.
  - exists s0. simpl. by rewrite Z.add_0_r.
  - rewrite seqZ_cons by lia. simpl.
    destruct (Hstep m s0 ltac:(lia) H0) as (s1 & -> & H1). simpl.
    replace (Z.pred (Z.of_nat (S len))) with (Z.of_nat len) by lia.
    replace (m + Z.of_nat (S len)) with (Z.succ m + Z.of_nat len) by lia.
    apply IH.
    + by replace (Z.succ m) with (m + 1) by lia.
    + intros i s Hi. apply Hstep. lia.
Qed.

Lemma for_loop_total {St} (I : Z → St → Prop) (body : Z → St → outcome St)
    (n : Z) (s0 : St) :
  0 ≤ n →
  I 0 s0 →
  (∀ i s, 0 ≤ i < n → I i s → ∃ s1, body i s = Ret s1 ∧ I (i + 1) s1) →
  ∃ s', for_loop (seqZ 0 n) body s0 = Ret s' ∧ I n s'.
Proof.
  intros Hn H0 Hstep.
  destruct (for_loop_range_total I body (Z.to_nat n) 0 s0 H0) as (s' & Hrun & Hs').
  - intros i s Hi. apply Hstep. lia.
  - exists s'. rewrite Z2Nat.id in * by lia. by rewrite Z.add_0_l in Hs'.
Qed.

Lemma for_each_range_total {St R} (I : Z → St → Prop) (Q : R → Prop)
    (body : Z → St → outcome (step St R)) (len : nat) (m : Z) (s0 : St) :
  I m s0 →
  (∀ i s, m ≤ i < m + Z.of_nat len → I i s →
     ∃ x, body i s = Ret x ∧
          match x with Next s1 => I (i + 1) s1 | Exit q => Q q end) →
  ∃ r, for_each (seqZ m (Z.of_nat len)) body s0 = Ret r ∧
       match r with Next s' => I (m + Z.of_nat len) s' | Exit q => Q q end.
Proof.
  revert m s0. induction len as [|len IH]; intros m s0 H0 Hstep.
  - exists (Next s0). simpl. by rewrite Z.add_0_r.
  - rewrite seqZ_cons by lia. simpl.
    destruct (Hstep m s0 ltac:(lia) H0) as (x & -> & Hx). simpl.
    destruct x as [s1|q]; [|by exists (Exit q)].
    replace (Z.pred (Z.of_nat (S len))) with (Z.of_nat len) by lia.
    replace (m + Z.of_nat (S len)) with (Z.succ m + Z.of_nat len) by lia.
    apply IH.
    + by replace (Z.succ m) with (m + 1) by lia.
    + intros i s Hi. apply Hstep. lia.
Qed.

Lemma for_each_total {St R} (I : Z → St → Prop) (Q : R → Prop)
    (body : Z → St → outcome (step St R)) (n : Z) (s0 : St) :
  0 ≤ n →
  I 0 s0 →
  (∀ i s, 0 ≤ i < n → I i s →
     ∃ x, body i s = Ret x ∧
          match x with Next s1 => I (i + 1) s1 | Exit q => Q q end) →
  ∃ r, for_each (seqZ 0 n) body s0 = Ret r ∧
       match r with Next s' => I n s' | Exit q => Q q end.
Proof.
  intros Hn H0 Hstep.
  destruct (for_each_range_total I Q body (Z.to_nat n) 0 s0 H0) as (r & Hrun & Hr).
  - intros i s Hi. apply Hstep. lia.
  - exists r. rewrite Z2Nat.id in * by lia. by rewrite Z.add_0_l in Hr.
Qed.

(** ** Arrays *)

Lemma lookupZ_Some {A} (a : list A) i x :
  lookupZ a i = Some x ↔ 0 ≤ i ∧ a !! Z.to_nat i = Some x.
Proof. unfold lookupZ. case_bool_decide; naive_solver. Qed.

Lemma lookupZ_of_nat {A} (a : list A) (n : nat) :
  lookupZ a (Z.of_nat n) = a !! n.
Proof. unfold lookupZ. rewrite bool_decide_true by lia. by rewrite Nat2Z.id. Qed.

Lemma lookupZ_lt {A} (a : list A) i x :
  lookupZ a i = Some x → 0 ≤ i < Z.of_nat (length a).
Proof.
  rewrite lookupZ_Some. intros [? H%lookup_lt_Some]. lia.
Qed.

Lemma load_Ret {A} (a : list A) i x : load a i = Ret x ↔ lookupZ a i = Some x.
Proof. unfold load. destruct (lookupZ a i); naive_solver. Qed.

Lemma store_Ret {A} (a a' : list A) i x :
  store a i x = Ret a' ↔ 0 ≤ i < Z.of_nat (length a) ∧ a' = <[Z.to_nat i := x]> a.
Proof. unfold store. case_bool_decide; naive_solver. Qed.

(** ** The free-space map *)

Lemma NumClear_nonneg b : 0 ≤ Bitmap.NumClear b.
Proof. induction b as [|[] b IH]; simpl; lia. Qed.

Lemma find_clear_Some b i :
  Bitmap.find_clear b = Some i →
  b !! i = Some false ∧ ∀ j, (j < i)%nat → b !! j = Some true.
Proof.
  revert i. induction b as [|x b IH]; intros i H; simpl in H; [done|].
  destruct x.
  - destruct (Bitmap.find_clear b) as [k|] eqn:E; simplify_eq/=.
    destruct (IH k eq_refl) as [H1 H2]. split; [done|].
    intros [|j] Hj; simpl; [done|]. apply H2. lia.
  - simplify_eq/=. split; [done|]. intros j Hj. lia.
Qed.

Lemma find_clear_None b : Bitmap.find_clear b = None → Bitmap.NumClear b = 0.
Proof.
  induction b as [|x b IH]; simpl; [done|].
  destruct x; [|done].
  destruct (Bitmap.find_clear b); [done|]. intros _. rewrite IH; done.
Qed.

Lemma NumClear_insert_true b i :
  b !! i = Some false →
  Bitmap.NumClear (<[i := true]> b) = Bitmap.NumClear b - 1.
Proof.
  revert i. induction b as [|x b IH]; intros [|i] H; try discriminate.
  - injection H as ->. simpl. lia.
  - simpl in *. rewrite (IH i H). lia.
Qed.

Lemma NumClear_insert_false b i :
  b !! i = Some true →
  Bitmap.NumClear (<[i := false]> b) = Bitmap.NumClear b + 1.
Proof.
  revert i. induction b as [|x b IH]; intros [|i] H; try discriminate.
  - injection H as ->. simpl. lia.
  - simpl in *. rewrite (IH i H). lia.
Qed.

Lemma NumClear_insert_same b i v :
  b !! i = Some v → Bitmap.NumClear (<[i := v]> b) = Bitmap.NumClear b.
Proof. intros H. by rewrite list_insert_id. Qed.

Lemma lookupZ_insert {A} (a : list A) (i : nat) (x : A) (s : Z) :
  (i < length a)%nat →
  lookupZ (<[i := x]> a) s = if decide (s = Z.of_nat i) then Some x else lookupZ a s.
Proof.
  intros Hi. unfold lookupZ. case_decide as Hs.
  - subst s. rewrite bool_decide_true by lia. rewrite Nat2Z.id.
    by apply list_lookup_insert_eq.
  - case_bool_decide; [|done]. apply list_lookup_insert_ne. lia.
Qed.

Lemma extends_nil fm : extends fm fm [].
Proof.
  split; [done|]. split; [apply NoDup_nil_2|].
  split; [intros s Hs; by apply elem_of_nil in Hs|].
  split; [|simpl; lia].
  intros s. by rewrite decide_False by apply not_elem_of_nil.
Qed.

Lemma extends_app fm fm1 fm2 new1 new2 :
  extends fm fm1 new1 → extends fm1 fm2 new2 → extends fm fm2 (new1 ++ new2).
Proof.
  intros (Hl1 & Hd1 & Hc1 & Hm1 & Hn1) (Hl2 & Hd2 & Hc2 & Hm2 & Hn2).
  assert (Hdisj : ∀ s, s ∈ new1 → s ∉ new2).
  { intros s H1 H2. specialize (Hc2 s H2). rewrite Hm1 in Hc2.
    by rewrite decide_True in Hc2. }
  repeat split.
  - congruence.
  - apply NoDup_app; eauto.
  - intros s [H|H]%elem_of_app; [by apply Hc1|].
    specialize (Hc2 s H). rewrite Hm1 in Hc2. by case_decide.
  - intros s. rewrite Hm2, Hm1.
    destruct (decide (s ∈ new2)), (decide (s ∈ new1)).
    + by rewrite decide_True by (apply elem_of_app; auto).
    + by rewrite decide_True by (apply elem_of_app; auto).
    + by rewrite decide_True by (apply elem_of_app; auto).
    + by rewrite decide_False by (rewrite elem_of_app; tauto).
  - rewrite Hn2, Hn1, length_app. lia.
Qed.

Lemma FindAndSet_found fm s fm' :
  Bitmap.FindAndSet fm = (s, fm') → 0 ≤ s → extends fm fm' [s].
Proof.
  unfold Bitmap.FindAndSet. destruct (Bitmap.find_clear fm) as [i|] eqn:E;
    intros [= <- <-] Hs; [|lia].
  apply find_clear_Some in E as [Hi _].
  pose proof (lookup_lt_Some _ _ _ Hi) as Hlt.
  repeat split.
  - by rewrite length_insert.
  - apply NoDup_singleton.
  - intros s ->%list_elem_of_singleton. by rewrite lookupZ_of_nat.
  - intros s. rewrite lookupZ_insert by done.
    destruct (decide (s = Z.of_nat i)) as [->|Hne].
    + by rewrite decide_True by (apply list_elem_of_singleton; done).
    + by rewrite decide_False by (rewrite list_elem_of_singleton; done).
  - rewrite (NumClear_insert_true _ _ Hi). simpl. lia.
Qed.

Lemma FindAndSet_full fm s fm' :
  Bitmap.FindAndSet fm = (s, fm') → s < 0 →
  s = -1 ∧ fm' = fm ∧ Bitmap.NumClear fm = 0.
Proof.
  unfold Bitmap.FindAndSet. destruct (Bitmap.find_clear fm) as [i|] eqn:E;
    intros [= <- <-] Hs; [lia|].
  by rewrite (find_clear_None _ E).
Qed.

(** ** Allocation *)

Section Allocation.
Context {G : Geometry}.

Lemma alloc_loop_spec (n : Z) (ds0 : list Z) (fm0 : Bitmap.t) ds fm :
  for_loop (seqZ 0 n)
    (λ i '(ds, fm),
       let '(s, fm') := Bitmap.FindAndSet fm in
       ds' ← store ds i s;
       _ ← ASSERT (0 <=? s);
       Ret (ds', fm'))
    (ds0, fm0) = Ret (ds, fm) →
  ∃ new,
    Z.of_nat (length new) = Z.max 0 n ∧
    extends fm0 fm new ∧
    ds = new ++ drop (length new) ds0 ∧
    (length new ≤ length ds0)%nat ∧
    Forall (λ s, 0 ≤ s) new.
Proof.
  intros Hrun.
  set (I := λ (i : Z) (st : list Z * Bitmap.t),
       ∃ new, Z.of_nat (length new) = i ∧ extends fm0 st.2 new ∧
              st.1 = new ++ drop (length new) ds0 ∧
              (length new ≤ length ds0)%nat ∧ Forall (λ s, 0 ≤ s) new).
  cut (I (Z.max 0 n) (ds, fm)); [done|].
  refine (for_loop_inv I _ n (ds0, fm0) (ds, fm) _ _ Hrun); unfold I; clear Hrun I.
  - exists []. simpl. rewrite drop_0. split; [done|]. split; [apply extends_nil|].
    split; [done|]. split; [lia|constructor].
  - intros i [ds1 fm1] [ds2 fm2] Hi (new & Hlen & Hext & Hds & Hle & Hpos) Hbody.
    simpl in *. destruct (Bitmap.FindAndSet fm1) as [s fm'] eqn:Hfs.
    inv_ret Hbody. simplify_eq.
    apply store_Ret in Hrun as [Hb ->].
    apply ASSERT_Ret, Z.leb_le in Hrun0.
    rewrite length_app, length_drop in Hb.
    assert (Hlt : (length new < length ds0)%nat) by lia.
    destruct (lookup_lt_is_Some_2 ds0 (length new) Hlt) as [x Hx].
    exists (new ++ [s]). rewrite length_app. simpl. split_and!.
    + lia.
    + eapply extends_app; [done|]. by apply FindAndSet_found.
    + rewrite Nat2Z.id. replace (length new) with (length new + 0)%nat at 1 by lia.
      rewrite insert_app_r. rewrite (drop_S _ _ _ Hx). simpl.
      rewrite <- app_assoc. simpl. by rewrite Nat.add_1_r.
    + lia.
    + apply Forall_app. split; [done|]. by constructor.
Qed.

Lemma pad_length {A} (n : Z) (x : A) (l : list A) :
  Z.of_nat (length l) ≤ n → Z.of_nat (length (pad n x l)) = n.
Proof. intros H. unfold pad. rewrite length_app, length_replicate. lia. Qed.

Lemma pad_nil {A} (n : Z) (x : A) : pad n x [] = replicate (Z.to_nat n) x.
Proof. unfold pad. simpl. by rewrite Nat.sub_0_r. Qed.

Lemma divRoundUp_nonneg a m :
  0 ≤ a → 0 < m → divRoundUp a m = (a + m - 1) `div` m.
Proof. intros. unfold divRoundUp. apply Z.quot_div_nonneg; lia. Qed.

Lemma divRoundUp_gt i a m :
  0 < a → 0 < m → i < divRoundUp a m → i * m < a.
Proof.
  intros Ha Hm. rewrite divRoundUp_nonneg by lia. intros Hi.
  pose proof (Z.div_mod (a + m - 1) m ltac:(lia)) as Hdm.
  pose proof (Z.mod_pos_bound (a + m - 1) m Hm) as Hb. nia.
Qed.

Lemma divRoundUp_covers a m :
  0 ≤ a → 0 < m → a ≤ divRoundUp a m * m.
Proof.
  intros Ha Hm. rewrite divRoundUp_nonneg by lia.
  pose proof (Z.div_mod (a + m - 1) m ltac:(lia)) as Hdm.
  pose proof (Z.mod_pos_bound (a + m - 1) m Hm) as Hb. nia.
Qed.

Lemma AllocateIndirect_spec fm n ih fm' :
  0 ≤ NumDirect → 0 ≤ NumIndirect → 0 ≤ n →
  FileHdr.AllocateIndirect FileHdr.new_FileHeader fm n = Ret (true, ih, fm') →
  ∃ ds,
    Z.of_nat (length ds) = n ∧
    extends fm fm' ds ∧
    ih = indirect_header ds ∧
    Forall (λ s, 0 ≤ s) ds ∧
    n ≤ NumDirect + NumIndirect.
Proof.
  intros HD HI Hn. unfold FileHdr.AllocateIndirect.
  destruct (Bitmap.NumClear fm <? n); [intros [=]|].
  intros Hrun. apply bind_Ret in Hrun as ([ds fm1] & Hloop & Hrun).
  simplify_eq. apply alloc_loop_spec in Hloop as (new & Hlen & Hext & -> & Hle & Hpos).
  simpl in Hle. rewrite length_replicate in Hle.
  exists new. split_and!; [lia|done| |done|lia].
  unfold indirect_header, pad. simpl. rewrite drop_replicate.
  f_equal; [f_equal|]; lia.
Qed.

Lemma insert_slot {A} (P I : list A) (k : nat) (x y : A) :
  <[(length P + length I)%nat := y]> (P ++ I ++ replicate (S k) x)
  = P ++ (I ++ [y]) ++ replicate k x.
Proof.
  rewrite insert_app_r. f_equal.
  replace (length I) with (length I + 0)%nat at 1 by lia.
  rewrite insert_app_r. simpl. by rewrite <- app_assoc.
Qed.

Lemma insert_slot0 {A} (I : list A) (k : nat) (x y : A) :
  <[length I := y]> (I ++ replicate (S k) x) = (I ++ [y]) ++ replicate k x.
Proof. apply (insert_slot [] I k x y). Qed.

Lemma Allocate_indirect_loop direct fm1 offset0 n st :
  sane_header_geometry →
  Z.of_nat (length direct) ≤ NumDirect →
  0 < offset0 →
  n ≤ divRoundUp offset0 NumMaxSect →
  for_each (seqZ 0 n) FileHdr.Allocate_indirect_body
    (FileHdr.mkAllocState
       (pad NumDirect (-1) direct ++ replicate (Z.to_nat NumIndirect) (-1))
       (replicate (Z.to_nat NumIndirect) None) fm1 offset0) = Ret (Next st) →
  indirect_rounds direct fm1 offset0 (Z.max 0 n) st.
Proof.
  intros (HS & HD & HI & HM) Hdir Hoff Hn Hrun.
  refine (for_each_inv (indirect_rounds direct fm1 offset0) (λ _, True)
            _ n _ (Next st) _ _ Hrun); clear Hrun st.
  - exists []. simpl. rewrite Nat.sub_0_r. split_and!; try done.
    + apply extends_nil.
    + lia.
    + lia.
  - intros i st x Hi (inds & Hlen & Hext & Hsec & Htbl & Hoffs & Hcnt & Hall) Hbody.
    unfold FileHdr.Allocate_indirect_body in Hbody.
    destruct (Bitmap.FindAndSet (FileHdr.as_map st)) as [s fm] eqn:Hfs.
    apply bind_Ret in Hbody as (ds & Hst1 & Hbody).
    apply bind_Ret in Hbody as (? & Has1 & Hbody).
    apply bind_Ret in Hbody as (? & Has2 & Hbody).
    apply bind_Ret in Hbody as ([[result ih] fm'] & Hai & Hbody).
    apply bind_Ret in Hbody as (tbl & Hst2 & Hbody).
    destruct result; [|by simplify_eq]. simplify_eq.
    apply ASSERT_Ret, Z.leb_le in Has1.
    assert (Hpos : Z.of_nat (length inds) * NumMaxSect < offset0)
      by (apply divRoundUp_gt; lia).
    rewrite Hoffs in *.
    set (sectorNum := if NumMaxSect >? Z.max 0 (offset0 - Z.of_nat (length inds) * NumMaxSect)
                      then Z.max 0 (offset0 - Z.of_nat (length inds) * NumMaxSect)
                      else NumMaxSect) in *.
    assert (Hsn : 1 ≤ sectorNum ≤ NumMaxSect ∧
                  sectorNum = Z.min NumMaxSect (offset0 - Z.of_nat (length inds) * NumMaxSect)).
    { unfold sectorNum. destruct (Z.gtb_spec NumMaxSect
        (Z.max 0 (offset0 - Z.of_nat (length inds) * NumMaxSect))); lia. }
    apply AllocateIndirect_spec in Hai as (dsi & Hdl & Hexti & -> & Hposi & Hfit);
      [|lia..].
    apply store_Ret in Hst1 as [Hb1 ->].
    apply store_Ret in Hst2 as [Hb2 ->].
    rewrite Htbl, length_app, length_fmap, length_replicate in Hb2.
    assert (Hk : ∃ k, (Z.to_nat NumIndirect - length inds)%nat = S k) by
      (exists (Z.to_nat NumIndirect - length inds - 1)%nat; lia).
    destruct Hk as [k Hk].
    exists (inds ++ [(s, dsi)]). simpl.
    rewrite !fmap_app, !concat_app, !length_app. simpl.
    rewrite !app_nil_r.
    replace (Z.to_nat NumIndirect - (length inds + 1))%nat with k by lia.
    split_and!.
    + lia.
    + eapply extends_app; [done|].
      change (s :: dsi) with ([s] ++ dsi).
      eapply extends_app; [by apply FindAndSet_found|done].
    + rewrite Hsec, Hk.
      replace (Z.to_nat (NumDirect + Z.of_nat (length inds)))
        with (length (pad NumDirect (-1)%Z direct) + length (inds.*1))%nat.
      * apply insert_slot.
      * pose proof (pad_length NumDirect (-1) direct Hdir). rewrite length_fmap. lia.
    + rewrite Htbl, Hk, Nat2Z.id.
      replace (length inds)
        with (length ((λ x : Z * list Z, Some (indirect_header x.2)) <$> inds))
        at 1 by (by rewrite length_fmap).
      apply insert_slot0.
    + lia.
    + lia.
    + apply Forall_app. split; [done|]. constructor; [|done]. simpl.
      split_and!; [done|done|lia|lia].
Qed.

Lemma divRoundUp_nonpos a m : a ≤ 0 → 0 < m → divRoundUp a m ≤ 0.
Proof.
  intros Ha Hm. unfold divRoundUp.
  etrans; [apply (Z.quot_le_mono _ (m - 1)); lia|].
  rewrite Z.quot_small; lia.
Qed.

Lemma divRoundUp_pos a m : 0 < a → 0 < m → 0 < divRoundUp a m.
Proof.
  intros Ha Hm. rewrite divRoundUp_nonneg by lia.
  apply Z.div_str_pos. lia.
Qed.

Lemma fresh_sectors_layout (direct : list Z) :
  Z.of_nat (length direct) ≤ NumDirect → 0 ≤ NumIndirect →
  direct ++ drop (length direct) (replicate (Z.to_nat (NumDirect + NumIndirect)) (-1))
  = pad NumDirect (-1) direct ++ replicate (Z.to_nat NumIndirect) (-1).
Proof.
  intros Hd HI. unfold pad. rewrite drop_replicate, <- app_assoc. f_equal.
  rewrite <- replicate_add. f_equal. lia.
Qed.

(** What a successful [Allocate] on a fresh header returns. *)
Lemma Allocate_spec fm size h fm' :
  sane_header_geometry →
  FileHdr.Allocate FileHdr.new_FileHeader fm size = Ret (true, h, fm') →
  ∃ direct inds,
    h = header_of size direct inds ∧
    extends fm fm' (sectors_of direct inds) ∧
    Forall (λ s, 0 ≤ s) (sectors_of direct inds) ∧
    Z.of_nat (length direct) = Z.max 0 (Z.min (divRoundUp size SectorSize) NumDirect) ∧
    Z.of_nat (length inds) =
      Z.max 0 (Z.min (divRoundUp (divRoundUp size SectorSize - NumDirect) NumMaxSect)
                     NumIndirect) ∧
    Forall (λ x, 1 ≤ Z.of_nat (length x.2) ≤ NumMaxSect) inds ∧
    Z.of_nat (length (concat (inds.*2))) =
      Z.max 0 (Z.min (divRoundUp size SectorSize - NumDirect)
                     (NumIndirect * NumMaxSect)).
Proof.
  intros Hsane Hrun. pose proof Hsane as (HS & HD & HI & HM).
  unfold FileHdr.Allocate in Hrun. simpl in Hrun.
  set (ns := divRoundUp size SectorSize) in *.
  destruct (Bitmap.NumClear fm <? ns); [discriminate|].
  set (sectorNeeds := if ns <=? NumDirect then ns else NumDirect) in *.
  assert (HsN : sectorNeeds = Z.min ns NumDirect)
    by (unfold sectorNeeds; destruct (Z.leb_spec ns NumDirect); lia).
  apply bind_Ret in Hrun as ([ds fm1] & Hloop & Hrun).
  apply alloc_loop_spec in Hloop as (direct & Hlen & Hext & -> & Hle & Hpos).
  rewrite fresh_sectors_layout in Hrun by lia.
  destruct (Z.ltb_spec 0 (ns - sectorNeeds)) as [Hoff|Hoff].
  - apply bind_Ret in Hrun as (r & Hloop & Hrun).
    destruct r as [st|[[ds' tbl] fm2]]; [|discriminate]. injection Hrun as <- <-.
    set (indexNeeds := divRoundUp (ns - sectorNeeds) NumMaxSect) in *.
    set (indirectSize := if indexNeeds <=? NumIndirect then indexNeeds else NumIndirect) in *.
    assert (HiS : indirectSize = Z.min indexNeeds NumIndirect)
      by (unfold indirectSize; destruct (Z.leb_spec indexNeeds NumIndirect); lia).
    apply Allocate_indirect_loop in Hloop; [|done|lia|lia|lia].
    destruct Hloop as (inds & Hil & Hexti & Hsec & Htbl & Hoffs & Hcnt & Hall).
    assert (Hsn : sectorNeeds = NumDirect) by lia.
    assert (Hidx : indexNeeds = divRoundUp (ns - NumDirect) NumMaxSect)
      by (unfold indexNeeds; by rewrite Hsn).
    assert (Hoff' : 0 < ns - NumDirect) by lia.
    pose proof (divRoundUp_pos (ns - NumDirect) NumMaxSect Hoff' HM) as Hin.
    pose proof (divRoundUp_covers (ns - NumDirect) NumMaxSect (Z.lt_le_incl _ _ Hoff') HM) as Hcov.
    rewrite <- Hidx in Hin, Hcov |- *.
    clearbody indirectSize indexNeeds sectorNeeds. subst sectorNeeds.
    exists direct, inds. split_and!.
    + unfold header_of, pad at 2 3. fold ns. rewrite length_fmap.
      by rewrite Hsec, Htbl, length_fmap.
    + unfold sectors_of. by eapply extends_app.
    + unfold sectors_of. apply Forall_app. split; [done|].
      apply Forall_concat, Forall_fmap. eapply Forall_impl; [exact Hall|].
      intros [s dsi] (? & ? & ?); simpl in *. by constructor.
    + lia.
    + lia.
    + eapply Forall_impl; [exact Hall|]. by intros [s dsi] (? & ? & ?).
    + rewrite Hcnt, Hoffs.
      destruct (decide (indexNeeds ≤ NumIndirect)); nia.
  - injection Hrun as <- <-. exists direct, []. simpl. split_and!.
    + unfold header_of. simpl. by rewrite !pad_nil.
    + unfold sectors_of. simpl. by rewrite app_nil_r.
    + unfold sectors_of. simpl. by rewrite app_nil_r.
    + lia.
    + pose proof (divRoundUp_nonpos (ns - NumDirect) NumMaxSect) as Hnp.
      destruct (decide (ns ≤ NumDirect)); lia.
    + constructor.
    + nia.
Qed.

End Allocation.

(** ** Claims about allocation *)

Section AllocationClaims.
Context {G : Geometry}.

Lemma length_sectors_of direct inds :
  length (sectors_of direct inds)
  = (length direct + length inds + length (concat (inds.*2)))%nat.
Proof.
  unfold sectors_of. rewrite length_app.
  induction inds as [|[s ds] inds IH]; csimpl; [lia|].
  rewrite !length_app in *. lia.
Qed.

Lemma filter_used_slots (used : list Z) (k : nat) :
  Forall (λ s, 0 ≤ s) used →
  filter (λ s, s ≠ -1) (used ++ replicate k (-1)) = used.
Proof.
  intros Hu. rewrite filter_app.
  replace (filter (λ s, s ≠ -1) (replicate k (-1))) with (@nil Z).
  - rewrite app_nil_r. induction Hu as [|x l Hx Hl IH]; [done|].
    rewrite filter_cons_True by (simpl; lia). by rewrite IH.
  - induction k as [|k IH]; [done|]. simpl. by rewrite filter_cons_False by naive_solver.
Qed.

Lemma indirect_sectors_header_of size direct inds :
  Z.of_nat (length direct) ≤ NumDirect →
  Forall (λ s, 0 ≤ s) (inds.*1) →
  indirect_sectors (header_of size direct inds) = Z.of_nat (length inds).
Proof.
  intros Hd Hpos. unfold indirect_sectors, indirect_slots, header_of. simpl.
  rewrite drop_app_length'.
  - unfold pad. rewrite filter_used_slots by done. by rewrite length_fmap.
  - pose proof (pad_length NumDirect (-1) direct Hd). lia.
Qed.

Lemma ceiling_divRoundUp n s : 0 ≤ n → 0 < s → ceiling n s = divRoundUp n s.
Proof.
  intros Hn Hs. rewrite divRoundUp_nonneg by lia. unfold ceiling.
  pose proof (Z.div_mod (- n) s ltac:(lia)) as H1.
  pose proof (Z.mod_pos_bound (- n) s Hs) as B1.
  pose proof (Z.div_mod (n + s - 1) s ltac:(lia)) as H2.
  pose proof (Z.mod_pos_bound (n + s - 1) s Hs) as B2.
  nia.
Qed.

(** [ceiling n s] is the least [q] with [n ≤ q * s]. *)
Lemma ceiling_least n s q : 0 < s → ceiling n s ≤ q ↔ n ≤ q * s.
Proof.
  intros Hs. unfold ceiling.
  pose proof (Z.div_mod (- n) s ltac:(lia)) as H1.
  pose proof (Z.mod_pos_bound (- n) s Hs) as B1.
  split; intros H; nia.
Qed.

Lemma sectors_of_heads_nonneg direct inds :
  Forall (λ s, 0 ≤ s) (sectors_of direct inds) → Forall (λ s, 0 ≤ s) (inds.*1).
Proof.
  unfold sectors_of. rewrite Forall_app. intros [_ H].
  induction inds as [|[s ds] inds IH]; [constructor|].
  simpl in *. apply Forall_cons in H as [Hs H].
  apply Forall_app in H as [_ H]. constructor; auto.
Qed.

(** C4, as the code has it: for a length that a header can address, a
    successful [Allocate] on a fresh header lowers [NumClear] by exactly the
    number of data sectors, [ceil(fileSize / SectorSize)], plus the number of
    indirect-header sectors it took. *)
Theorem Allocate_decrement (fm : Bitmap.t) (fileSize : Z) (h : FileHeader)
    (fm' : Bitmap.t) :
  sane_header_geometry →
  0 ≤ fileSize ≤ MaxFileLength →
  FileHdr.Allocate FileHdr.new_FileHeader fm fileSize = Ret (true, h, fm') →
  Bitmap.NumClear fm - Bitmap.NumClear fm'
  = ceiling fileSize SectorSize + indirect_sectors h.
Proof.
  intros Hsane Hsize Hrun. pose proof Hsane as (HS & HD & HI & HM).
  apply Allocate_spec in Hrun
    as (direct & inds & -> & Hext & Hpos & Hdl & Hil & Hall & Hcnt); [|done].
  destruct Hext as (_ & _ & _ & _ & Hnum).
  rewrite indirect_sectors_header_of;
    [|lia|by eapply sectors_of_heads_nonneg].
  rewrite Hnum, length_sectors_of, ceiling_divRoundUp by lia.
  assert (0 ≤ divRoundUp fileSize SectorSize ≤ NumDirect + NumIndirect * NumMaxSect).
  { rewrite divRoundUp_nonneg by lia. unfold MaxFileLength in Hsize. split.
    - apply Z.div_pos; lia.
    - apply Z.lt_succ_r, Z.div_lt_upper_bound; [lia|]. nia. }
  lia.
Qed.

End AllocationClaims.

Section SmallVolumeAllocation.
#[local] Existing Instance small_volume.

Lemma small_volume_sane : sane_header_geometry.
Proof. unfold sane_header_geometry. simpl. lia. Qed.

Lemma Allocate_decrement_witness :
  ∃ h fm',
    FileHdr.Allocate FileHdr.new_FileHeader (Bitmap.create 64) 640
      = Ret (true, h, fm') ∧
    Bitmap.NumClear (Bitmap.create 64) - Bitmap.NumClear fm'
      = ceiling 640 SectorSize + indirect_sectors h.
Proof.
  eexists _, _. split; [vm_compute; reflexivity|].
  apply Allocate_decrement.
  - exact small_volume_sane.
  - vm_compute. split; discriminate.
  - vm_compute. reflexivity.
Defined.

(** C4, as stated, fails for a length beyond what a header can address:
    on the small volume a file of 21 sectors is given 20 data sectors and 4
    indirect headers, and [Allocate] still answers TRUE. *)
Lemma Allocate_decrement_oversize :
  ∃ h fm',
    FileHdr.Allocate FileHdr.new_FileHeader (Bitmap.create 64) 2688
      = Ret (true, h, fm') ∧
    Bitmap.NumClear (Bitmap.create 64) - Bitmap.NumClear fm'
      ≠ ceiling 2688 SectorSize + indirect_sectors h.
Proof.
  eexists _, _. split; [vm_compute; reflexivity|]. vm_compute. discriminate.
Qed.

End SmallVolumeAllocation.

(** ** Claims about the slots of a header *)

Section HeaderClaims.
Context {G : Geometry}.

Lemma lookupZ_app_r {A} (l1 l2 : list A) (n i : Z) :
  Z.of_nat (length l1) = n → 0 ≤ i →
  lookupZ (l1 ++ l2) (n + i) = lookupZ l2 i.
Proof.
  intros Hn Hi. unfold lookupZ. rewrite !bool_decide_true by lia.
  rewrite lookup_app_r by lia. f_equal. lia.
Qed.

Lemma lookupZ_app_l {A} (l1 l2 : list A) (i : Z) :
  i < Z.of_nat (length l1) → lookupZ (l1 ++ l2) i = lookupZ l1 i.
Proof.
  intros Hi. unfold lookupZ. case_bool_decide; [|done].
  apply lookup_app_l. lia.
Qed.

Lemma lookupZ_replicate {A} (n : nat) (x : A) (i : Z) :
  0 ≤ i < Z.of_nat n → lookupZ (replicate n x) i = Some x.
Proof.
  intros Hi. unfold lookupZ. rewrite bool_decide_true by lia.
  apply lookup_replicate_2. lia.
Qed.

Lemma lookupZ_pad_used {A} (n : Z) (x : A) (l : list A) (i : Z) :
  i < Z.of_nat (length l) → lookupZ (pad n x l) i = lookupZ l i.
Proof. apply lookupZ_app_l. Qed.

Lemma lookupZ_pad_free {A} (n : Z) (x : A) (l : list A) (i : Z) :
  Z.of_nat (length l) ≤ i < n → lookupZ (pad n x l) i = Some x.
Proof.
  intros Hi. unfold pad.
  replace i with (Z.of_nat (length l) + (i - Z.of_nat (length l))) by lia.
  rewrite lookupZ_app_r by lia. apply lookupZ_replicate. lia.
Qed.

Lemma lookupZ_Forall {A} (P : A → Prop) (l : list A) (i : Z) (x : A) :
  Forall P l → lookupZ l i = Some x → P x.
Proof.
  intros H [_ Hx]%lookupZ_Some. by eapply Forall_lookup_1.
Qed.

(** The indirect slot [i] of an allocated header. *)
Lemma header_of_indirect_slot size direct inds i :
  Z.of_nat (length direct) ≤ NumDirect → 0 ≤ i →
  lookupZ (dataSectors (header_of size direct inds)) (NumDirect + i)
  = lookupZ (pad NumIndirect (-1) (inds.*1)) i.
Proof.
  intros Hd Hi. simpl. apply lookupZ_app_r; [|done]. by apply pad_length.
Qed.

Lemma FetchFrom_stops_at_free_slot (d : Disk) (sector : Z) (h0 : FileHeader) :
  0 ≤ NumIndirect →
  FileHdr.FetchFrom d sector FileHdr.new_FileHeader = Ret h0 →
  ∀ i j, 0 ≤ i → i ≤ j → j < NumIndirect →
    lookupZ (dataSectors h0) (NumDirect + i) = Some (-1) →
    lookupZ (indirectTable h0) j = Some None.
Proof.
  intros HI Hrun i j Hi Hij Hj Hslot. unfold FileHdr.FetchFrom in Hrun.
  apply bind_Ret in Hrun as (h1 & Hread & Hrun).
  apply bind_Ret in Hrun as (r & Hloop & Hrun).
  injection Hrun as <-. simpl in *.
  unfold FileHdr.read_image in Hread.
  destruct (ReadSector d sector) as [[nb ns ds| |]|]; try discriminate.
  injection Hread as <-. simpl in *.
  set (I := λ (k : Z) (tbl : list (option FileHeader)),
         Z.of_nat (length tbl) = NumIndirect ∧
         (∀ j, k ≤ j < NumIndirect → lookupZ tbl j = Some None) ∧
         (∀ m, 0 ≤ m < k → lookupZ ds (NumDirect + m) ≠ Some (-1))).
  set (Q := λ (tbl : list (option FileHeader)),
         ∃ k, 0 ≤ k ∧ lookupZ ds (NumDirect + k) = Some (-1) ∧
              (∀ m, 0 ≤ m < k → lookupZ ds (NumDirect + m) ≠ Some (-1)) ∧
              (∀ j, k ≤ j < NumIndirect → lookupZ tbl j = Some None)).
  cut (match r with Next tbl => I (Z.max 0 NumIndirect) tbl | Exit tbl => Q tbl end).
  { destruct r as [tbl|tbl].
    - intros (_ & _ & Hne). exfalso. apply (Hne i); [lia|done].
    - intros (k & Hk & Hk1 & Hne & Hfree).
      apply Hfree. split; [|done].
      destruct (decide (k ≤ i)); [lia|]. exfalso. apply (Hne i); [lia|done]. }
  refine (for_each_inv I Q _ NumIndirect _ r _ _ Hloop); unfold I, Q; clear Hloop I Q.
  - split_and!.
    + rewrite length_replicate; lia.
    + intros; apply lookupZ_replicate; lia.
    + intros; lia.
  - intros k tbl x Hk (Hlen & Hfree & Hne) Hbody.
    apply bind_Ret in Hbody as (s & Hs%load_Ret & Hbody).
    case_bool_decide as Hs1.
    + injection Hbody as <-. exists k. subst s. split_and!; [lia|done|done|done].
    + apply bind_Ret in Hbody as (ih & _ & Hbody).
      apply bind_Ret in Hbody as (tbl' & [Hb ->]%store_Ret & Hbody).
      injection Hbody as <-. split_and!.
      * rewrite length_insert. lia.
      * intros j' Hj'. rewrite lookupZ_insert by lia.
        rewrite decide_False by lia. apply Hfree. lia.
      * intros m Hm. destruct (decide (m = k)) as [->|]; [congruence|].
        apply Hne. lia.
Qed.

(** C9: after a successful [Allocate] on a fresh header the indirect
    slots are filled from the left, so a slot holding -1 is followed only by
    slots holding -1; and [FetchFrom] loads no child header at or after a
    slot holding -1. *)
Theorem Allocate_indirect_slots_contiguous (fm : Bitmap.t) (fileSize : Z)
    (h : FileHeader) (fm' : Bitmap.t) :
  sane_header_geometry →
  FileHdr.Allocate FileHdr.new_FileHeader fm fileSize = Ret (true, h, fm') →
  (∀ i j, 0 ≤ i → i ≤ j → j < NumIndirect →
     lookupZ (dataSectors h) (NumDirect + i) = Some (-1) →
     lookupZ (dataSectors h) (NumDirect + j) = Some (-1)) ∧
  (∀ (d : Disk) sector h0,
     FileHdr.FetchFrom d sector FileHdr.new_FileHeader = Ret h0 →
     ∀ i j, 0 ≤ i → i ≤ j → j < NumIndirect →
       lookupZ (dataSectors h0) (NumDirect + i) = Some (-1) →
       lookupZ (indirectTable h0) j = Some None).
Proof.
  intros Hsane Hrun. pose proof Hsane as (HS & HD & HI & HM). split.
  - apply Allocate_spec in Hrun
      as (direct & inds & -> & Hext & Hpos & Hdl & Hil & Hall & Hcnt); [|done].
    intros i j Hi Hij Hj. rewrite !header_of_indirect_slot by lia.
    intros Hslot. apply lookupZ_pad_free. split; [|done].
    destruct (decide (i < Z.of_nat (length (inds.*1)))) as [Hlt|]; [|lia].
    rewrite lookupZ_pad_used in Hslot by done.
    apply sectors_of_heads_nonneg in Hpos.
    pose proof (lookupZ_Forall _ _ _ _ Hpos Hslot) as Hneg. simpl in Hneg. lia.
  - intros d sector h0. by apply FetchFrom_stops_at_free_slot.
Qed.

(** C3: for an offset inside the file, [ByteToSector] answers as the
    specification words it: the direct slot [offset / SectorSize], or the
    slot [p' mod NumMaxSect] of child [p' / NumMaxSect]. *)
Theorem ByteToSector_refines (h : FileHeader) (offset : Z) :
  sane_header_geometry →
  0 ≤ offset < numBytes h →
  FileHdr.ByteToSector h offset = byte_to_sector h offset.
Proof.
  intros (HS & HD & HI & HM) Hoff. unfold FileHdr.ByteToSector, byte_to_sector.
  rewrite Z.quot_div_nonneg by lia.
  pose proof (Z.div_pos offset SectorSize ltac:(lia) HS) as Hp.
  destruct (Z.ltb_spec (offset `div` SectorSize) NumDirect) as [|Hge]; [done|].
  rewrite (proj2 (Z.leb_le _ _)) by lia.
  rewrite Z.quot_div_nonneg, Z.rem_mod_nonneg by lia. done.
Qed.

End HeaderClaims.

Section SmallVolumeHeaders.
#[local] Existing Instance small_volume.

Lemma Allocate_indirect_slots_contiguous_witness :
  ∃ h fm',
    FileHdr.Allocate FileHdr.new_FileHeader (Bitmap.create 64) 640
      = Ret (true, h, fm') ∧
    (∀ i j, 0 ≤ i → i ≤ j → j < NumIndirect →
       lookupZ (dataSectors h) (NumDirect + i) = Some (-1) →
       lookupZ (dataSectors h) (NumDirect + j) = Some (-1)) ∧
    (∀ (d : Disk) sector h0,
       FileHdr.FetchFrom d sector FileHdr.new_FileHeader = Ret h0 →
       ∀ i j, 0 ≤ i → i ≤ j → j < NumIndirect →
         lookupZ (dataSectors h0) (NumDirect + i) = Some (-1) →
         lookupZ (indirectTable h0) j = Some None).
Proof.
  eexists _, _. split; [vm_compute; reflexivity|].
  eapply (Allocate_indirect_slots_contiguous (Bitmap.create 64) 640).
  - exact small_volume_sane.
  - vm_compute. reflexivity.
Defined.

Lemma ByteToSector_refines_witness :
  FileHdr.ByteToSector (header_of 1000 [5; 6; 7; 8] [(9, [10; 11; 12; 13])]) 700
  = byte_to_sector (header_of 1000 [5; 6; 7; 8] [(9, [10; 11; 12; 13])]) 700.
Proof.
  apply ByteToSector_refines.
  - exact small_volume_sane.
  - simpl. lia.
Defined.

End SmallVolumeHeaders.

(** ** Deallocation *)

Section Deallocation.
Context {G : Geometry}.

(** Once the bit of [dataSectors[i]] of the child is clear, the loop
    without increment cannot test it again. *)
Lemma release_loop_after_clear fuel (ih : FileHeader) (i x : Z) (fm : Bitmap.t) :
  0 < numSectors ih →
  load (dataSectors ih) i = Ret x →
  Bitmap.Test fm x ≠ Ret true →
  ∀ fm',
    c_for fuel (λ j, j <? numSectors ih) (λ j, j)
      (λ _ fm,
         x ← load (dataSectors ih) i;
         t ← Bitmap.Test fm x;
         _ ← ASSERT t;
         Bitmap.Clear fm x)
      0 fm ≠ Ret fm'.
Proof.
  intros Hn Hx Ht fm'. destruct fuel as [|fuel]; simpl.
  - by rewrite (proj2 (Z.ltb_lt _ _) Hn).
  - rewrite (proj2 (Z.ltb_lt _ _) Hn). rewrite Hx. simpl.
    destruct (Bitmap.Test fm x) as [[]| | |]; simpl; done.
Qed.

Lemma Test_after_Clear fm x fm1 :
  Bitmap.Clear fm x = Ret fm1 → Bitmap.Test fm1 x = Ret false.
Proof.
  unfold Bitmap.Clear, Bitmap.Test.
  destruct (lookupZ fm x) as [v|] eqn:E; [|discriminate].
  intros [= <-]. apply lookupZ_Some in E as [Hx E].
  rewrite lookupZ_insert by (by eapply lookup_lt_Some).
  rewrite decide_True by lia. done.
Qed.

(** The inner loop of [Deallocate] never completes for a child header
    that addresses at least one sector. *)
Lemma release_loop_stuck fuel (ih : FileHeader) (i : Z) (fm : Bitmap.t) :
  0 < numSectors ih →
  ∀ fm',
    c_for fuel (λ j, j <? numSectors ih) (λ j, j)
      (λ _ fm,
         x ← load (dataSectors ih) i;
         t ← Bitmap.Test fm x;
         _ ← ASSERT t;
         Bitmap.Clear fm x)
      0 fm ≠ Ret fm'.
Proof.
  intros Hn fm'. destruct fuel as [|fuel]; simpl.
  - by rewrite (proj2 (Z.ltb_lt _ _) Hn).
  - rewrite (proj2 (Z.ltb_lt _ _) Hn). intros Hrun.
    apply bind_Ret in Hrun as (fm1 & Hbody & Hrun).
    apply bind_Ret in Hbody as (x & Hx & Hbody).
    apply bind_Ret in Hbody as (t & Ht & Hbody).
    apply bind_Ret in Hbody as (? & _ & Hc).
    revert Hrun. apply release_loop_after_clear with (x := x); [done|done|].
    rewrite (Test_after_Clear _ _ _ Hc). discriminate.
Qed.

Lemma Deallocate_stuck fuel (h ih : FileHeader) (fm : Bitmap.t) :
  0 < NumMaxSect →
  lookupZ (indirectTable h) 0 = Some (Some ih) →
  0 < numSectors ih →
  ∀ fm', FileHdr.Deallocate fuel h fm ≠ Ret fm'.
Proof.
  intros HM Hchild Hn fm' Hrun. unfold FileHdr.Deallocate in Hrun.
  rewrite seqZ_cons in Hrun by lia. simpl in Hrun.
  apply bind_Ret in Hrun as (fm1 & Hbody & _).
  apply bind_Ret in Hbody as (child & Hload%load_Ret & Hbody).
  rewrite Hchild in Hload. injection Hload as <-.
  apply bind_Ret in Hbody as (fm2 & Hloop & _).
  by eapply release_loop_stuck.
Qed.

End Deallocation.

Section SmallVolumeDeallocation.
#[local] Existing Instance small_volume.

(** C1 fails on the code for a file with an indirect header: the header
    of a file of five sectors on the small volume. The loop over the data
    sectors of the child has no increment and releases the same sector twice,
    so the second test of its bit aborts the kernel; no iteration budget lets
    [Deallocate] return. *)
Theorem Deallocate_aborts_on_indirect :
  ∃ h fm,
    FileHdr.Allocate FileHdr.new_FileHeader (Bitmap.create 64) 640
      = Ret (true, h, fm) ∧
    FileHdr.Deallocate 2 h fm = Abort ∧
    ∀ fuel fm', FileHdr.Deallocate fuel h fm ≠ Ret fm'.
Proof.
  eexists _, _. split; [vm_compute; reflexivity|]. split; [vm_compute; reflexivity|].
  intros fuel fm'. eapply Deallocate_stuck.
  - simpl. lia.
  - vm_compute. reflexivity.
  - simpl. lia.
Qed.

End SmallVolumeDeallocation.

(** ** The table of open files *)

(** C8, as the code has it: closing an identifier whose slot of the
    table holds no open file returns 0 and leaves the table as it was. The
    identifier indexes the array unchecked. *)
Theorem CloseFileId_empty_slot (table : list (option OpenFile)) (id : Z) :
  lookupZ table id = Some None →
  FileSystem.CloseFileId table id = Ret (0, table).
Proof.
  intros H. unfold FileSystem.CloseFileId, load. rewrite H. done.
Qed.

Lemma CloseFileId_empty_slot_witness :
  FileSystem.CloseFileId (replicate 21 (@None OpenFile)) 3
  = Ret (0, replicate 21 None).
Proof. apply CloseFileId_empty_slot. reflexivity. Defined.

(** C8, as stated, fails for an identifier outside the table: with 21
    slots, identifier 21 reads past the end of the array. *)
Lemma CloseFileId_out_of_range :
  FileSystem.CloseFileId (replicate 21 (@None OpenFile)) 21
  ≠ Ret (0, replicate 21 None).
Proof. vm_compute. discriminate. Qed.

(** ** Writing a header and reading it back *)

Section RoundTrip.
Context {G : Geometry}.

Lemma header_of_child size direct inds i :
  0 ≤ i < NumIndirect →
  lookupZ (indirectTable (header_of size direct inds)) i
  = Some ((λ x, indirect_header x.2) <$> inds !! Z.to_nat i).
Proof.
  intros Hi. simpl.
  destruct (decide (i < Z.of_nat (length inds))) as [Hlt|Hge].
  - rewrite lookupZ_pad_used by (by rewrite length_fmap).
    unfold lookupZ. rewrite bool_decide_true by lia. rewrite list_lookup_fmap.
    destruct (lookup_lt_is_Some_2 inds (Z.to_nat i) ltac:(lia)) as [x ->]. done.
  - rewrite lookupZ_pad_free by (rewrite length_fmap; lia).
    by rewrite lookup_ge_None_2 by lia.
Qed.

Lemma header_of_slot size direct inds i :
  Z.of_nat (length direct) ≤ NumDirect →
  0 ≤ i < NumIndirect →
  lookupZ (dataSectors (header_of size direct inds)) (NumDirect + i)
  = Some (default (-1) (fst <$> inds !! Z.to_nat i)).
Proof.
  intros Hd Hi. rewrite header_of_indirect_slot by lia.
  destruct (decide (i < Z.of_nat (length inds))) as [Hlt|Hge].
  - rewrite lookupZ_pad_used by (by rewrite length_fmap).
    unfold lookupZ. rewrite bool_decide_true by lia. rewrite list_lookup_fmap.
    destruct (lookup_lt_is_Some_2 inds (Z.to_nat i) ltac:(lia)) as [x ->]. done.
  - rewrite lookupZ_pad_free by (rewrite length_fmap; lia).
    by rewrite lookup_ge_None_2 by lia.
Qed.

(** [WriteBack] returns, and leaves the image of the header in [sector]
    and the image of every child in its own sector, provided the child
    sectors are pairwise distinct and differ from [sector]. *)
Lemma WriteBack_spec (d : Disk) (sector size : Z) direct inds :
  0 ≤ NumIndirect →
  Z.of_nat (length direct) ≤ NumDirect →
  NoDup (inds.*1) →
  sector ∉ inds.*1 →
  ∃ d',
    FileHdr.WriteBack d sector (header_of size direct inds) = Ret d' ∧
    d' !! sector = Some (FileHdr.image_of (header_of size direct inds)) ∧
    (∀ i x, inds !! i = Some x →
       Z.of_nat i < NumIndirect →
       d' !! x.1 = Some (FileHdr.image_of (indirect_header x.2))) ∧
    (∀ z, z ≠ sector → z ∉ inds.*1 → d' !! z = d !! z).
Proof.
  intros HI Hd Hnd Hs. unfold FileHdr.WriteBack.
  set (h := header_of size direct inds).
  assert (Hl1 : ∀ k, 0 ≤ k < NumIndirect →
            load (indirectTable h) k
            = Ret ((λ x, indirect_header x.2) <$> inds !! Z.to_nat k))
    by (intros; by apply load_Ret, header_of_child).
  assert (Hl2 : ∀ k, 0 ≤ k < NumIndirect →
            load (dataSectors h) (k + NumDirect)
            = Ret (default (-1) (fst <$> inds !! Z.to_nat k))).
  { intros k Hk. replace (k + NumDirect) with (NumDirect + k) by lia.
    by apply load_Ret, header_of_slot. }
  clearbody h.
  set (I := λ (k : Z) (dk : Disk),
         dk !! sector = Some (FileHdr.image_of h) ∧
         (∀ i x, inds !! i = Some x → Z.of_nat i < k →
            dk !! x.1 = Some (FileHdr.image_of (indirect_header x.2))) ∧
         (∀ z, z ≠ sector → z ∉ inds.*1 → dk !! z = d !! z)).
  destruct (for_loop_total I
    (λ i d,
       child ← load (indirectTable h) i;
       match child with
       | Some ih =>
           s ← load (dataSectors h) (i + NumDirect);
           Ret (FileHdr.WriteBackIndirect d s ih)
       | None => Ret d
       end)
    NumIndirect (WriteSector d sector (FileHdr.image_of h)) HI)
    as (d' & Hrun & Hd'); [| |by exists d'].
  - unfold I, WriteSector. split_and!.
    + apply lookup_insert_eq.
    + intros i x _ Hi. lia.
    + intros z Hz _. by apply lookup_insert_ne.
  - intros k dk Hk (Hsec & Hch & Hfr).
    rewrite (Hl1 k Hk), (Hl2 k Hk). simpl.
    destruct (inds !! Z.to_nat k) as [[sk dsk]|] eqn:Hx; simpl.
    + eexists. split; [done|].
      assert (Hsk : sk ∈ inds.*1).
      { apply list_elem_of_fmap. exists (sk, dsk). split; [done|].
        by eapply list_elem_of_lookup_2. }
      unfold I, FileHdr.WriteBackIndirect, WriteSector. split_and!.
      * rewrite lookup_insert_ne; [done|]. intros ->. done.
      * intros i [si dsi] Hxi Hi. simpl.
        destruct (decide (i = Z.to_nat k)) as [->|Hne].
        -- rewrite Hx in Hxi. injection Hxi as <- <-. apply lookup_insert_eq.
        -- rewrite lookup_insert_ne; [apply (Hch i (si, dsi)); [done|lia]|].
           intros <-. apply Hne.
           eapply (NoDup_lookup (inds.*1)); [done| |].
           ++ by rewrite list_lookup_fmap, Hxi.
           ++ by rewrite list_lookup_fmap, Hx.
      * intros z Hz Hz'. rewrite lookup_insert_ne; [by apply Hfr|].
        intros ->. done.
    + eexists. split; [done|]. unfold I. split_and!; [done| |done].
      intros i x Hxi Hi. apply (Hch i x); [done|].
      destruct (decide (Z.of_nat i < k)); [done|].
      assert (i = Z.to_nat k) as -> by lia. congruence.
Qed.

(** [FetchFrom] on a fresh header rebuilds an allocated header from its
    images. *)
Lemma FetchFrom_spec (d : Disk) (sector size : Z) direct inds :
  0 ≤ NumIndirect →
  Z.of_nat (length direct) ≤ NumDirect →
  Z.of_nat (length inds) ≤ NumIndirect →
  Forall (λ s, 0 ≤ s) (inds.*1) →
  d !! sector = Some (FileHdr.image_of (header_of size direct inds)) →
  (∀ i x, inds !! i = Some x →
     d !! x.1 = Some (FileHdr.image_of (indirect_header x.2))) →
  FileHdr.FetchFrom d sector FileHdr.new_FileHeader
  = Ret (header_of size direct inds).
Proof.
  intros HI Hd Hil Hpos Hsec Hch. unfold FileHdr.FetchFrom, FileHdr.read_image.
  unfold ReadSector. rewrite Hsec. simpl.
  set (T := (λ x : Z * list Z, Some (indirect_header x.2)) <$> inds).
  set (ds := pad NumDirect (-1) direct ++ pad NumIndirect (-1) (inds.*1)).
  set (I := λ (k : Z) (tbl : list (option FileHeader)),
         k ≤ Z.of_nat (length inds) ∧
         tbl = take (Z.to_nat k) T ++ replicate (Z.to_nat NumIndirect - Z.to_nat k) None).
  set (Q := λ (tbl : list (option FileHeader)), tbl = pad NumIndirect None T).
  destruct (for_each_total I Q
    (λ i tbl,
       s ← load ds (NumDirect + i);
       if bool_decide (s = -1) then Ret (Exit tbl)
       else
         ih ← FileHdr.FetchFromIndirect d s FileHdr.new_FileHeader;
         tbl' ← store tbl i (Some ih);
         Ret (Next tbl'))
    NumIndirect (replicate (Z.to_nat NumIndirect) None) HI)
    as (r & Hrun & Hr).
  - unfold I. split; [lia|]. simpl. by rewrite Nat.sub_0_r.
  - intros k tbl Hk (Hkl & ->).
    pose proof (header_of_slot size direct inds k Hd Hk) as Hslot.
    simpl in Hslot. fold ds in Hslot.
    rewrite (proj2 (load_Ret _ _ _) Hslot). simpl.
    destruct (inds !! Z.to_nat k) as [[sk dsk]|] eqn:Hx; simpl.
    + assert (Hsk : 0 ≤ sk).
      { eapply (Forall_lookup_1 _ (inds.*1) (Z.to_nat k)); [exact Hpos|].
        by rewrite list_lookup_fmap, Hx. }
      rewrite bool_decide_false by lia.
      unfold FileHdr.FetchFromIndirect, FileHdr.read_image, ReadSector.
      pose proof (Hch _ _ Hx) as Himg. simpl in Himg. rewrite Himg. simpl.
      assert (HkT : T !! Z.to_nat k = Some (Some (indirect_header dsk))).
      { unfold T. by rewrite list_lookup_fmap, Hx. }
      pose proof (lookup_lt_Some _ _ _ Hx) as Hlt.
      assert (Hrep : (Z.to_nat NumIndirect - Z.to_nat k)%nat
                     = S (Z.to_nat NumIndirect - Z.to_nat (k + 1))) by lia.
      rewrite Hrep.
      assert (Hlen : length (take (Z.to_nat k) T) = Z.to_nat k).
      { rewrite length_take. unfold T. rewrite length_fmap. lia. }
      unfold store. rewrite bool_decide_true.
      2:{ rewrite length_app, Hlen, length_replicate. lia. }
      simpl. eexists. split; [done|]. unfold I. split; [lia|].
      rewrite insert_app_r_alt by lia. rewrite Hlen, Nat.sub_diag. simpl.
      replace (Z.to_nat (k + 1)) with (S (Z.to_nat k)) by lia.
      rewrite (take_S_r _ _ _ HkT), <- app_assoc. done.
    + eexists. split; [done|].
      unfold Q, pad. apply lookup_ge_None_1 in Hx.
      assert (Z.to_nat k = length inds) as -> by lia.
      unfold T at 1. rewrite take_ge by (by rewrite length_fmap).
      unfold T. by rewrite length_fmap.
  - rewrite Hrun. simpl. unfold header_of. f_equal. f_equal.
    destruct r as [tbl|tbl]; [|exact Hr].
    destruct Hr as [Hle ->]. unfold pad.
    rewrite take_ge by (unfold T; rewrite length_fmap; lia).
    f_equal. f_equal. unfold T. rewrite length_fmap. lia.
Qed.

Lemma elem_of_concat_2 {A} (x : A) (l : list A) (ls : list (list A)) :
  x ∈ l → l ∈ ls → x ∈ concat ls.
Proof.
  intros Hx Hl. induction ls as [|l' ls IH]; [by apply elem_of_nil in Hl|].
  simpl. apply elem_of_app. apply elem_of_cons in Hl as [->|Hl]; auto.
Qed.

Lemma elem_of_concat_1 {A} (x : A) (ls : list (list A)) :
  x ∈ concat ls → ∃ l, x ∈ l ∧ l ∈ ls.
Proof.
  induction ls as [|l' ls IH]; simpl; [by intros ?%elem_of_nil|].
  intros [H|H]%elem_of_app.
  - exists l'. split; [done|by left].
  - destruct (IH H) as (l & ? & ?). exists l. split; [done|by right].
Qed.

Lemma sectors_of_heads_NoDup direct inds :
  NoDup (sectors_of direct inds) → NoDup (inds.*1).
Proof.
  unfold sectors_of. intros [_ [_ H]]%NoDup_app.
  induction inds as [|[s ds] inds IH]; csimpl in *; [constructor|].
  apply NoDup_cons in H as [Hs H]. apply NoDup_app in H as (_ & _ & H).
  constructor; [|by apply IH].
  intros Hin. apply Hs, elem_of_app. right.
  apply list_elem_of_fmap in Hin as ([s' ds'] & -> & Hin).
  apply (elem_of_concat_2 _ (s' :: ds')); [by left|].
  apply list_elem_of_fmap. by exists (s', ds').
Qed.

Lemma indirect_slots_header_of size direct inds :
  Z.of_nat (length direct) ≤ NumDirect →
  Forall (λ s, 0 ≤ s) (inds.*1) →
  indirect_slots (header_of size direct inds) = inds.*1.
Proof.
  intros Hd Hpos. unfold indirect_slots, header_of. simpl.
  rewrite drop_app_length'.
  - unfold pad. by rewrite filter_used_slots.
  - pose proof (pad_length NumDirect (-1) direct Hd). lia.
Qed.

(** An allocated header written to a sector that is none of its own
    indirect-header sectors is read back as it was. *)
Lemma WriteBack_FetchFrom (fm : Bitmap.t) (L : Z) (h : FileHeader)
    (fm' : Bitmap.t) (d : Disk) (s : Z) :
  sane_header_geometry →
  FileHdr.Allocate FileHdr.new_FileHeader fm L = Ret (true, h, fm') →
  s ∉ indirect_slots h →
  ∃ d',
    FileHdr.WriteBack d s h = Ret d' ∧
    FileHdr.FetchFrom d' s FileHdr.new_FileHeader = Ret h.
Proof.
  intros Hsane Hrun Hs. pose proof Hsane as (HS & HD & HI & HM).
  apply Allocate_spec in Hrun
    as (direct & inds & -> & Hext & Hpos & Hdl & Hil & Hall & Hcnt); [|done].
  pose proof (sectors_of_heads_nonneg _ _ Hpos) as Hpos1.
  rewrite indirect_slots_header_of in Hs by (done || lia).
  destruct Hext as (_ & Hnd & _).
  destruct (WriteBack_spec d s L direct inds) as (d' & Hwb & Hsec & Hch & _);
    [lia|lia|by apply (sectors_of_heads_NoDup direct)|done|].
  exists d'. split; [done|].
  apply FetchFrom_spec; [lia|lia|lia|done|done|].
  intros i x Hx. apply (Hch i x Hx).
  apply lookup_lt_Some in Hx. lia.
Qed.

(** C7, as the code has it: write an allocated header to a sector that
    is not one of its indirect-header sectors, fetch it into a fresh header,
    and every offset of the file translates to the same sector as before. *)
Theorem header_round_trip (fm : Bitmap.t) (L : Z) (h : FileHeader)
    (fm' : Bitmap.t) (d : Disk) (s : Z) :
  sane_header_geometry →
  FileHdr.Allocate FileHdr.new_FileHeader fm L = Ret (true, h, fm') →
  s ∉ indirect_slots h →
  ∃ d' h',
    FileHdr.WriteBack d s h = Ret d' ∧
    FileHdr.FetchFrom d' s FileHdr.new_FileHeader = Ret h' ∧
    ∀ k, 0 ≤ k < L → FileHdr.ByteToSector h' k = FileHdr.ByteToSector h k.
Proof.
  intros Hsane Hrun Hs.
  destruct (WriteBack_FetchFrom fm L h fm' d s Hsane Hrun Hs) as (d' & Hwb & Hff).
  by exists d', h.
Qed.

End RoundTrip.

Section SmallVolumeRoundTrip.
#[local] Existing Instance small_volume.

Lemma header_round_trip_witness :
  ∃ h fm',
    FileHdr.Allocate FileHdr.new_FileHeader (Bitmap.create 64) 640
      = Ret (true, h, fm') ∧
    ∃ d' h',
      FileHdr.WriteBack ∅ 20 h = Ret d' ∧
      FileHdr.FetchFrom d' 20 FileHdr.new_FileHeader = Ret h' ∧
      ∀ k, 0 ≤ k < 640 → FileHdr.ByteToSector h' k = FileHdr.ByteToSector h k.
Proof.
  eexists _, _. split; [vm_compute; reflexivity|].
  eapply (header_round_trip (Bitmap.create 64) 640).
  - exact small_volume_sane.
  - vm_compute. reflexivity.
  - vm_compute. intros H. repeat (apply elem_of_cons in H as [H|H]; [discriminate|]).
    by apply elem_of_nil in H.
Defined.

(** C7, as stated, fails when the sector is one of the header's own
    indirect-header sectors: the child written after the header replaces its
    image. Here sector 4 holds the child of a file of five sectors. *)
Lemma header_round_trip_on_child_sector :
  ∃ h fm' d' h',
    FileHdr.Allocate FileHdr.new_FileHeader (Bitmap.create 64) 640
      = Ret (true, h, fm') ∧
    FileHdr.WriteBack ∅ 4 h = Ret d' ∧
    FileHdr.FetchFrom d' 4 FileHdr.new_FileHeader = Ret h' ∧
    0 ≤ 0 < 640 ∧
    FileHdr.ByteToSector h' 0 ≠ FileHdr.ByteToSector h 0.
Proof.
  eexists _, _, _, _.
  split; [vm_compute; reflexivity|].
  split; [vm_compute; reflexivity|].
  split; [vm_compute; reflexivity|].
  split; [lia|]. vm_compute. discriminate.
Qed.

End SmallVolumeRoundTrip.

(** ** The facade: failing calls *)

Section FacadeFailures.
Context {G : Geometry}.


(** Every run of [Create] that returns is one of the failures, and
    then leaves the disk alone, or the successful run. *)
Lemma Create_inv (fs : FileSystem) (d : Disk) (nm : list ascii)
    (initialSize : Z) (dir : bool) (r : Z) (d' : Disk) :
  FileSystem.Create fs d nm initialSize dir = Ret (r, d') →
  (r = 0 ∧ d' = d ∧ CreateFails fs d nm initialSize dir) ∨
  (r = 1 ∧ CreateSucceeds fs d nm initialSize dir d').
Proof.
  unfold FileSystem.Create. intros Hrun.
  apply bind_Ret in Hrun as (root & Hroot & Hrun).
  apply bind_Ret in Hrun as ([base leaf] & Hext & Hrun).
  apply bind_Ret in Hrun as (sector & Hsp & Hrun).
  assert (Hres : create_resolves fs d nm leaf sector) by (by exists root, base).
  case_bool_decide as Hsec.
  { injection Hrun as <- <-. left. split_and!; [done..|].
    subst sector. by eapply base_not_resolved. }
  apply bind_Ret in Hrun as (targetFile & Hopen & Hrun).
  apply bind_Ret in Hrun as (target & Htgt & Hrun).
  assert (Htarget : create_target fs d nm leaf target)
    by (by exists sector, targetFile).
  case_bool_decide as Hfind.
  { injection Hrun as <- <-. left. split_and!; [done..|].
    by eapply name_exists. }
  assert (Hfind' : Directory.Find target leaf = -1)
    by (destruct (decide (Directory.Find target leaf = -1)); done).
  apply bind_Ret in Hrun as (freeMap & Hfm & Hrun).
  destruct (Bitmap.FindAndSet freeMap) as [s fm] eqn:Hfs.
  assert (Hhs : create_header_sector fs d nm leaf target s fm).
  { split; [done|]. split; [done|]. by exists freeMap. }
  case_bool_decide as Hs.
  { injection Hrun as <- <-. left. split_and!; [done..|].
    subst s. by eapply no_header_sector. }
  destruct (Directory.Add target leaf s dir) as [added target'] eqn:Hadd.
  destruct added; simpl in Hrun.
  2:{ injection Hrun as <- <-. left. split_and!; [done..|].
      by eapply directory_full. }
  apply bind_Ret in Hrun as ([[ok h] fm'] & Halloc & Hrun).
  destruct ok; simpl in Hrun.
  2:{ injection Hrun as <- <-. left. split_and!; [done..|].
      destruct (Z.lt_ge_cases (Bitmap.NumClear fm)
                  (divRoundUp (if dir then DirectoryFileSize else initialSize) SectorSize)).
      - by eapply no_data_space.
      - by eapply no_child_space. }
  apply bind_Ret in Hrun as (d1 & Hw1 & Hrun).
  apply bind_Ret in Hrun as (d2 & Hw2 & Hrun).
  apply bind_Ret in Hrun as (d3 & Hw3 & Hrun).
  apply bind_Ret in Hrun as (d4 & Hw4 & Hrun).
  injection Hrun as <- <-. right. split; [done|].
  eapply create_ok; try done.
  destruct dir; [|by injection Hw4].
  apply bind_Ret in Hw4 as (newFile & Hopen' & Hw4). by exists newFile.
Qed.


(** C6: [Remove] returns FALSE and leaves the disk as it was when the
    leaf is absent from the base directory or its header sector is the
    sector of the root directory. *)
Theorem Remove_refused (fuel : nat) (fs : FileSystem) (d : Disk)
    (nm : list ascii) (recur : bool) (filename : list ascii)
    (baseDirectory : list DirectoryEntry) :
  remove_base fs d nm filename baseDirectory →
  Directory.Find baseDirectory filename = -1 ∨
  Directory.Find baseDirectory filename = DirectorySector →
  FileSystem.Remove fuel fs d nm recur = Ret (false, d).
Proof.
  intros (root & base & sector & baseDir & Hroot & Hext & Hsp & Hne & Hopen & Hbase) Hfind.
  unfold FileSystem.Remove.
  run_with Hroot. run_with Hext. run_with Hsp.
  rewrite bool_decide_false by done. run_with Hopen. run_with Hbase.
  destruct Hfind as [-> | ->]; [done|].
  rewrite (bool_decide_true (DirectorySector = DirectorySector)) by done.
  by rewrite orb_true_r.
Qed.

(** [Remove] also refuses, without touching the disk, when the base
    path does not resolve. *)
Lemma Remove_base_not_resolved (fuel : nat) (fs : FileSystem) (d : Disk)
    (nm : list ascii) (recur : bool) root base filename :
  Directory.OPENDIR d (directoryFile fs) = Ret root →
  FileSystem.ExtractBasePath (MAX_PATH_LEN + 1) (FileNameMaxLen + 1) nm
    = Ret (base, filename) →
  Directory.SearchPath (FileSystem.path_fuel base) d root base 0 = Ret (-1) →
  FileSystem.Remove fuel fs d nm recur = Ret (false, d).
Proof.
  intros Hroot Hext Hsp. unfold FileSystem.Remove.
  run_with Hroot. run_with Hext. by run_with Hsp.
Qed.

End FacadeFailures.

Section SmallVolumeFailures.
#[local] Existing Instance small_volume.



Lemma Remove_refused_witness :
  ∃ fs d0,
    FileSystem.format ∅ = Ret (fs, d0) ∧
    FileSystem.Remove 2 fs d0 (path "//a") false = Ret (false, d0).
Proof.
  eexists _, _. split; [vm_compute; reflexivity|].
  eapply Remove_refused.
  - eexists _, _, _, _. split_and!; [vm_compute; reflexivity..| |vm_compute; reflexivity
                                    |vm_compute; reflexivity].
    vm_compute. discriminate.
  - left. vm_compute. reflexivity.
Defined.

End SmallVolumeFailures.

(** ** Names stored through the facade *)

Section Names.
Context {G : Geometry}.

Lemma char_at_SLASH_lookup (s : list ascii) (i : Z) :
  char_at s i = Ret SLASH → 0 ≤ i ∧ s !! Z.to_nat i = Some SLASH.
Proof.
  unfold char_at. destruct (lookupZ s i) as [c|] eqn:E; simpl.
  - intros [= ->]. by apply lookupZ_Some in E.
  - case_bool_decide; discriminate.
Qed.

(** Up to its terminator a string can be read. *)
Lemma char_at_defined (s : list ascii) (i : Z) :
  0 ≤ i ≤ Z.of_nat (length s) → ∃ c, char_at s i = Ret c.
Proof.
  intros Hi. unfold char_at. destruct (lookupZ s i) as [c|] eqn:E; [by exists c|].
  case_bool_decide as Hl; [by exists NUL|].
  unfold lookupZ in E. rewrite bool_decide_true in E by lia.
  apply lookup_ge_None in E. lia.
Qed.

Lemma last_slash_fold (abs : list ascii) (idx : list Z) (acc : option Z) :
  (∀ m, acc = Some m → char_at abs m = Ret SLASH) →
  ∀ m,
    foldl (λ mark i, if bool_decide (char_at abs i = Ret SLASH) then Some i else mark)
      acc idx = Some m →
    char_at abs m = Ret SLASH.
Proof.
  revert acc. induction idx as [|i idx IH]; intros acc Hacc m; simpl; [by apply Hacc|].
  apply IH. intros m'. case_bool_decide; [|by apply Hacc]. by intros [= <-].
Qed.

Lemma last_slash_Some (abs : list ascii) (m : Z) :
  FileSystem.last_slash abs = Some m → char_at abs m = Ret SLASH.
Proof. apply last_slash_fold. discriminate. Qed.

Lemma char_at_SLASH (abs : list ascii) (n : nat) :
  char_at abs (Z.of_nat n) = Ret SLASH ↔ abs !! n = Some SLASH.
Proof.
  split.
  - intros [_ H]%char_at_SLASH_lookup. by rewrite Nat2Z.id in H.
  - intros H. unfold char_at. by rewrite lookupZ_of_nat, H.
Qed.

(** The scan of [ExtractBasePath] over the first [n] characters leaves in
    [mark] the last '/' among them. *)
Lemma last_slash_prefix (abs : list ascii) (n : nat) :
  match foldl (λ mark i, if bool_decide (char_at abs i = Ret SLASH) then Some i else mark)
          None (seqZ 0 (Z.of_nat n)) with
  | Some m =>
      0 ≤ m < Z.of_nat n ∧ abs !! Z.to_nat m = Some SLASH ∧
      ∀ j, (Z.to_nat m < j < n)%nat → abs !! j ≠ Some SLASH
  | None => ∀ j, (j < n)%nat → abs !! j ≠ Some SLASH
  end.
Proof.
  induction n as [|n IH]; [simpl; lia|].
  rewrite seqZ_S, foldl_snoc, Z.add_0_l. case_bool_decide as Hn.
  - apply char_at_SLASH in Hn. rewrite Nat2Z.id. split_and!; [lia..|done|lia].
  - rewrite char_at_SLASH in Hn.
    destruct (foldl _ None (seqZ 0 (Z.of_nat n))) as [m|].
    + destruct IH as (Hm & Hs & Hlast). split_and!; [lia..|done|].
      intros j Hj. destruct (decide (j = n)) as [->|]; [done|]. apply Hlast. lia.
    + intros j Hj. destruct (decide (j = n)) as [->|]; [done|]. apply IH. lia.
Qed.

Lemma last_slash_spec (abs : list ascii) :
  match FileSystem.last_slash abs with
  | Some m =>
      0 ≤ m ∧ abs !! Z.to_nat m = Some SLASH ∧ SLASH ∉ drop (S (Z.to_nat m)) abs
  | None => SLASH ∉ abs
  end.
Proof.
  unfold FileSystem.last_slash. pose proof (last_slash_prefix abs (length abs)) as H.
  destruct (foldl _ None _) as [m|].
  - destruct H as (Hm & Hs & Hlast). split_and!; [lia|done|].
    intros (j & Hj)%list_elem_of_lookup. rewrite lookup_drop in Hj.
    apply (Hlast (S (Z.to_nat m) + j)%nat); [|done].
    apply lookup_lt_Some in Hj. lia.
  - intros (j & Hj)%list_elem_of_lookup. apply (H j); [|done].
    by eapply lookup_lt_Some.
Qed.

(** The last '/' of [base ++ leaf], when [leaf] begins with its only
    '/'. *)
Lemma last_slash_app (base leaf : list ascii) :
  head leaf = Some SLASH → SLASH ∉ tail leaf →
  FileSystem.last_slash (base ++ leaf) = Some (Z.of_nat (length base)).
Proof.
  intros Hhead Htail. destruct leaf as [|c rest]; simplify_eq/=.
  pose proof (last_slash_spec (base ++ SLASH :: rest)) as H.
  destruct (FileSystem.last_slash _) as [m|].
  - destruct H as (Hm & Hs & Hlast). f_equal.
    destruct (Z.lt_trichotomy m (Z.of_nat (length base))) as [Hlt|[->|Hgt]]; [|done|].
    + exfalso. apply Hlast. apply list_elem_of_lookup.
      exists (length base - S (Z.to_nat m))%nat. rewrite lookup_drop.
      replace (S (Z.to_nat m) + (length base - S (Z.to_nat m)))%nat
        with (length base + 0)%nat by lia.
      by rewrite lookup_app_r, Nat.add_comm, Nat.add_sub by lia.
    + exfalso. apply Htail. apply list_elem_of_lookup.
      exists (Z.to_nat m - S (length base))%nat.
      rewrite lookup_app_r in Hs by lia.
      replace (Z.to_nat m - length base)%nat
        with (S (Z.to_nat m - S (length base))) in Hs by lia. done.
  - exfalso. apply H, elem_of_app. right. by left.
Qed.

Lemma ExtractBasePath_app (baseCap nameCap : Z) (base leaf : list ascii) :
  head leaf = Some SLASH → SLASH ∉ tail leaf →
  Z.of_nat (length base) < baseCap → Z.of_nat (length leaf) < nameCap →
  FileSystem.ExtractBasePath baseCap nameCap (base ++ leaf) = Ret (base, leaf).
Proof.
  intros Hhead Htail Hb Hn. unfold FileSystem.ExtractBasePath.
  rewrite (last_slash_app base leaf Hhead Htail).
  rewrite Nat2Z.id, take_app_length, drop_app_length.
  rewrite (proj2 (Z.leb_gt baseCap _)) by lia.
  by rewrite (proj2 (Z.leb_gt nameCap _)) by lia.
Qed.

(** What a returning [ExtractBasePath] has done. *)
Lemma ExtractBasePath_inv (baseCap nameCap : Z) (abs base leaf : list ascii) :
  FileSystem.ExtractBasePath baseCap nameCap abs = Ret (base, leaf) →
  abs = base ++ leaf ∧
  head leaf = Some SLASH ∧ (SLASH ∉ tail leaf) ∧
  Z.of_nat (length base) < baseCap ∧ Z.of_nat (length leaf) < nameCap.
Proof.
  unfold FileSystem.ExtractBasePath. pose proof (last_slash_spec abs) as H.
  destruct (FileSystem.last_slash abs) as [m|]; [|discriminate].
  destruct H as (Hm & Hs & Hlast).
  destruct (_ || _) eqn:Hcap; [discriminate|]. intros [= <- <-].
  apply orb_false_iff in Hcap as [Hb%Z.leb_gt Hn%Z.leb_gt].
  split_and!; [by rewrite take_drop| | |lia..].
  - by rewrite head_lookup, lookup_drop, Nat.add_0_r.
  - rewrite (drop_S _ _ _ Hs) in *. done.
Qed.


(** The leaf that [ExtractBasePath] returns keeps its leading '/'. *)
Lemma ExtractBasePath_leaf (baseCap nameCap : Z) (abs base leaf : list ascii) :
  FileSystem.ExtractBasePath baseCap nameCap abs = Ret (base, leaf) →
  head leaf = Some SLASH.
Proof.
  unfold FileSystem.ExtractBasePath.
  destruct (FileSystem.last_slash abs) as [m|] eqn:Hm; [|discriminate].
  destruct (_ || _); [discriminate|]. intros [= <- <-].
  apply last_slash_Some, char_at_SLASH_lookup in Hm as [_ Hm].
  by rewrite head_lookup, lookup_drop, Nat.add_0_r.
Qed.

Lemma head_take {A} (n : nat) (l : list A) :
  (0 < n)%nat → head (take n l) = head l.
Proof. destruct n; [lia|]. by destruct l. Qed.

Lemma Add_slash_named (table table' : list DirectoryEntry) (leaf : list ascii)
    (s : Z) (dir added : bool) :
  0 < FileNameMaxLen →
  head leaf = Some SLASH →
  slash_named table →
  Directory.Add table leaf s dir = (added, table') →
  slash_named table'.
Proof.
  intros Hn Hleaf Htable. unfold Directory.Add.
  case_bool_decide; [by intros [= <- <-]|].
  destruct (Directory.first_free 0 table) as [i|]; intros [= <- <-]; [|done].
  apply Forall_insert; [done|]. simpl. intros _.
  rewrite head_take by lia. done.
Qed.

Lemma Remove_slash_named (table : list DirectoryEntry) (nm : list ascii) :
  slash_named table → slash_named (Directory.Remove table nm).2.
Proof.
  intros Htable. unfold Directory.Remove. case_bool_decide; [done|]. simpl.
  unfold slash_named in *. rewrite Forall_lookup in *. intros i e.
  rewrite list_lookup_alter. case_decide.
  - destruct (table !! _); simpl; [|done]. intros [= <-]. simpl. discriminate.
  - apply Htable.
Qed.

Lemma new_slash_named (n : Z) : slash_named (Directory.new n).
Proof. apply Forall_replicate. simpl. discriminate. Qed.

Lemma FindIndex_from_bare (table : list DirectoryEntry) (bare : list ascii) (i : Z) :
  0 < FileNameMaxLen →
  slash_named table →
  head bare ≠ Some SLASH →
  Directory.FindIndex_from i table bare = -1.
Proof.
  intros Hn Htable Hbare. revert i.
  induction Htable as [|e table He Htable IH]; intros i; simpl; [done|].
  destruct (inUse e) eqn:Hu; simpl; [|apply IH].
  unfold Directory.same_name. rewrite bool_decide_false; [apply IH|].
  intros Heq. apply Hbare.
  rewrite <- (head_take (Z.to_nat FileNameMaxLen)) by lia.
  rewrite <- Heq, head_take by lia. by apply He.
Qed.

(** A bare name finds nothing in a table of names that begin with '/'. *)
Lemma Find_bare (table : list DirectoryEntry) (bare : list ascii) :
  0 < FileNameMaxLen →
  slash_named table →
  head bare ≠ Some SLASH →
  Directory.Find table bare = -1.
Proof.
  intros Hn Htable Hbare. unfold Directory.Find, Directory.FindIndex.
  by rewrite FindIndex_from_bare.
Qed.

Lemma Directory_FetchFrom_slash_named (d : Disk) (n : Z) (file : OpenFile)
    (table : list DirectoryEntry) :
  slash_named_disk d →
  Directory.FetchFrom d (Directory.new n) file = Ret table →
  slash_named table.
Proof.
  intros Hd. unfold Directory.FetchFrom. intros Hrun.
  apply bind_Ret in Hrun as ([s|] & _ & Hrun).
  - unfold ReadSector in Hrun.
    destruct (d !! s) as [[| t |]|] eqn:Hs; try discriminate.
    case_bool_decide; [|discriminate]. injection Hrun as <-.
    apply Forall_app. split; [by eapply Hd|].
    apply Forall_drop, new_slash_named.
  - injection Hrun as <-. apply new_slash_named.
Qed.

(** What the writes of the facade leave on the disk. *)
Lemma FileHdr_WriteBack_sectors (d d' : Disk) (sector : Z) (h : FileHeader) :
  FileHdr.WriteBack d sector h = Ret d' →
  ∀ z v, d' !! z = Some v → d !! z = Some v ∨ ∃ nb ns ds, v = SHdr nb ns ds.
Proof.
  unfold FileHdr.WriteBack. intros Hrun.
  set (I := λ (_ : Z) (dk : Disk),
         ∀ z v, dk !! z = Some v → d !! z = Some v ∨ ∃ nb ns ds, v = SHdr nb ns ds).
  cut (I (Z.max 0 NumIndirect) d'); [done|].
  refine (for_loop_inv I _ NumIndirect _ d' _ _ Hrun); unfold I; clear Hrun I.
  - intros z v. unfold WriteSector, FileHdr.image_of.
    destruct (decide (z = sector)) as [->|Hne].
    + rewrite lookup_insert_eq. intros [= <-]. right. eauto.
    + rewrite lookup_insert_ne by done. auto.
  - intros i dk dk' _ IH Hbody.
    apply bind_Ret in Hbody as ([ih|] & _ & Hbody).
    + apply bind_Ret in Hbody as (s & _ & Hbody). injection Hbody as <-.
      intros z v. unfold FileHdr.WriteBackIndirect, WriteSector, FileHdr.image_of.
      destruct (decide (z = s)) as [->|Hne].
      * rewrite lookup_insert_eq. intros [= <-]. right. eauto.
      * rewrite lookup_insert_ne by done. apply IH.
    + by injection Hbody as <-.
Qed.

Lemma FileHdr_WriteBack_slash_named (d d' : Disk) (sector : Z) (h : FileHeader) :
  slash_named_disk d →
  FileHdr.WriteBack d sector h = Ret d' →
  slash_named_disk d'.
Proof.
  intros Hd Hrun s table Hs.
  destruct (FileHdr_WriteBack_sectors _ _ _ _ Hrun _ _ Hs) as [H|(? & ? & ? & [=])].
  by eapply Hd.
Qed.

Lemma Directory_WriteBack_slash_named (d d' : Disk) (table : list DirectoryEntry)
    (file : OpenFile) :
  slash_named_disk d →
  slash_named table →
  Directory.WriteBack d table file = Ret d' →
  slash_named_disk d'.
Proof.
  intros Hd Htable. unfold Directory.WriteBack. intros Hrun.
  apply bind_Ret in Hrun as ([s|] & _ & Hrun); injection Hrun as <-; [|done].
  intros z t. unfold WriteSector. destruct (decide (z = s)) as [->|Hne].
  - rewrite lookup_insert_eq. by intros [= <-].
  - rewrite lookup_insert_ne by done. apply Hd.
Qed.

Lemma PersistentBitmap_WriteBack_slash_named (d d' : Disk) (b : Bitmap.t)
    (file : OpenFile) :
  slash_named_disk d →
  PersistentBitmap.WriteBack d b file = Ret d' →
  slash_named_disk d'.
Proof.
  intros Hd. unfold PersistentBitmap.WriteBack. intros Hrun.
  apply bind_Ret in Hrun as ([s|] & _ & Hrun); injection Hrun as <-; [|done].
  intros z t. unfold WriteSector. destruct (decide (z = s)) as [->|Hne].
  - rewrite lookup_insert_eq. discriminate.
  - rewrite lookup_insert_ne by done. apply Hd.
Qed.

Lemma scan_slash_Some (rest : list ascii) (i0 i : Z) :
  Directory.scan_slash rest i0 = Some i →
  i0 ≤ i ∧ rest !! Z.to_nat (i - i0) = Some SLASH.
Proof.
  revert i0. induction rest as [|c rest IH]; intros i0; simpl; [discriminate|].
  case_bool_decide as Hc.
  - intros [= <-]. rewrite Z.sub_diag. simpl. split; [lia|by rewrite Hc].
  - intros [Hle Hl]%IH. split; [lia|].
    replace (Z.to_nat (i - i0)) with (S (Z.to_nat (i - (i0 + 1)))) by lia. done.
Qed.

Lemma scan_slash_none (l : list ascii) (i : Z) :
  SLASH ∉ l → Directory.scan_slash l i = None.
Proof.
  revert i. induction l as [|c l IH]; intros i Hl; simpl; [done|].
  apply not_elem_of_cons in Hl as [Hc Hl].
  rewrite bool_decide_false by done. by apply IH.
Qed.

Lemma scan_slash_app (l rest : list ascii) (i : Z) :
  SLASH ∉ l → head rest = Some SLASH →
  Directory.scan_slash (l ++ rest) i = Some (i + Z.of_nat (length l)).
Proof.
  revert i. induction l as [|c l IH]; intros i Hl Hrest; simpl.
  - destruct rest as [|c rest]; simplify_eq/=. f_equal. lia.
  - apply not_elem_of_cons in Hl as [Hc Hl].
    rewrite bool_decide_false by done. rewrite IH by done. f_equal. lia.
Qed.

Lemma drop_component (pre c rest : list ascii) :
  (0 < length c)%nat →
  drop (Z.to_nat (Z.of_nat (length pre) + 1)) (pre ++ c ++ rest) = tail c ++ rest ∧
  drop (Z.to_nat (Z.of_nat (length pre))) (pre ++ c ++ rest) = c ++ rest.
Proof.
  intros Hc. split.
  - rewrite drop_app_ge by lia.
    replace (Z.to_nat (Z.of_nat (length pre) + 1) - length pre)%nat with 1%nat by lia.
    destruct c; [simpl in Hc; lia|done].
  - by rewrite Nat2Z.id, drop_app_length.
Qed.

(** The two reads that open [SearchPath], at a position where a
    component begins. *)
Lemma SearchPath_reads (pre c rest : list ascii) :
  (0 < length c)%nat →
  char_at (pre ++ c ++ rest) 1 ≠ Ret NUL →
  (∃ second, char_at (pre ++ c ++ rest) 1 = Ret second ∧ second ≠ NUL) ∧
  ∃ first, char_at (pre ++ c ++ rest) (1 + Z.of_nat (length pre)) = Ret first.
Proof.
  intros Hc Hroot. split.
  - destruct (char_at_defined (pre ++ c ++ rest) 1) as [x Hx].
    { rewrite !length_app. lia. }
    exists x. split; [done|]. intros ->. done.
  - apply char_at_defined. rewrite !length_app. lia.
Qed.

(** [SearchPath] at the last component [c] of a path: [c], with its
    leading '/', is what [Find] is asked for. *)
Lemma SearchPath_last (fuel : nat) (d : Disk) (table : list DirectoryEntry)
    (pre c : list ascii) :
  head c = Some SLASH → SLASH ∉ tail c →
  Z.of_nat (length c) ≤ FileNameMaxLen →
  char_at (pre ++ c) 1 ≠ Ret NUL →
  Directory.SearchPath fuel d table (pre ++ c) (Z.of_nat (length pre))
  = Ret (Directory.Find table c).
Proof.
  intros Hhead Htail Hlen Hroot.
  assert (Hc : (0 < length c)%nat) by (destruct c; [done|simpl; lia]).
  destruct (drop_component pre c [] Hc) as [Hd1 Hd0].
  rewrite <- (app_nil_r c) in Hroot.
  destruct (SearchPath_reads pre c [] Hc Hroot) as [(x & Hx & Hne) (y & Hy)].
  rewrite !app_nil_r in Hd1, Hd0, Hx, Hy.
  assert (Htl : Z.of_nat (length (tail c)) = Z.of_nat (length c) - 1)
    by (destruct c; simpl in *; lia).
  destruct fuel; cbn [Directory.SearchPath];
    rewrite Hx, ret_bind, bool_decide_false by done;
    rewrite Hy, ret_bind;
    rewrite Hd1, Hd0, ?app_nil_r, (scan_slash_none _ _ Htail);
    by rewrite (proj2 (Z.ltb_ge _ _)) by lia.
Qed.

(** [SearchPath] at a component [c] that another one follows: [c], with
    its leading '/', is looked up; the file it names is read as a directory,
    and the search goes on there at the '/' that follows [c]. *)
Lemma SearchPath_next (fuel : nat) (d : Disk) (table : list DirectoryEntry)
    (pre c rest : list ascii) :
  head c = Some SLASH → SLASH ∉ tail c →
  Z.of_nat (length c) ≤ FileNameMaxLen →
  char_at (pre ++ c ++ rest) 1 ≠ Ret NUL →
  head rest = Some SLASH →
  Directory.SearchPath (S fuel) d table (pre ++ c ++ rest) (Z.of_nat (length pre))
  = if bool_decide (Directory.Find table c = -1) then Ret (-1)
    else
      dir ← OpenFile_new d (Directory.Find table c);
      directory ← Directory.FetchFrom d (Directory.new DirectoryFileSize) dir;
      Directory.SearchPath fuel d directory (pre ++ c ++ rest)
        (Z.of_nat (length pre) + Z.of_nat (length c)).
Proof.
  intros Hhead Htail Hlen Hroot Hrest.
  assert (Hc : (0 < length c)%nat) by (destruct c; [done|simpl; lia]).
  destruct (drop_component pre c rest Hc) as [Hd1 Hd0].
  destruct (SearchPath_reads pre c rest Hc Hroot) as [(x & Hx & Hne) (y & Hy)].
  assert (Htl : Z.of_nat (length (tail c)) = Z.of_nat (length c) - 1)
    by (destruct c; simpl in *; lia).
  cbn [Directory.SearchPath].
  rewrite Hx, ret_bind, bool_decide_false by done.
  rewrite Hy, ret_bind.
  rewrite Hd1, Hd0, (scan_slash_app _ _ _ Htail Hrest).
  replace (1 + Z.of_nat (length (tail c))) with (Z.of_nat (length c)) by lia.
  rewrite (proj2 (Z.ltb_ge _ _)) by lia.
  rewrite Nat2Z.id, take_app_length.
  case_bool_decide as Hf; [by rewrite Hf|].
  by rewrite (Z.add_comm (Z.of_nat (length c))).
Qed.

(** C10: [Create] keeps every directory table on the disk free of names
    that do not begin with '/': the leaf it stores keeps its leading '/'.
    Hence [Find] with a bare name matches no entry of any table on the disk.
    And [SearchPath] looks components up with their leading '/': at a
    position of the path where a component [c] begins ('/' and the characters
    up to the next '/'), it is [c], '/' included, that [SearchPath] hands to
    [Find]; at the end of the path the answer of [Find] is returned, and
    otherwise the search goes on, in the directory read from the sector that
    [Find] returned, at the '/' of the next component. *)
Theorem facade_names_begin_with_slash (fs : FileSystem) (d : Disk)
    (nm : list ascii) (initialSize : Z) (dir : bool) (r : Z) (d' : Disk) :
  0 < FileNameMaxLen →
  slash_named_disk d →
  FileSystem.Create fs d nm initialSize dir = Ret (r, d') →
  slash_named_disk d' ∧
  (∀ s table bare,
     d' !! s = Some (SDir table) → head bare ≠ Some SLASH →
     Directory.Find table bare = -1) ∧
  (∀ fuel table pre c rest,
     head c = Some SLASH → SLASH ∉ tail c →
     Z.of_nat (length c) ≤ FileNameMaxLen →
     char_at (pre ++ c ++ rest) 1 ≠ Ret NUL →
     (rest = [] →
      Directory.SearchPath fuel d' table (pre ++ c ++ rest) (Z.of_nat (length pre))
      = Ret (Directory.Find table c)) ∧
     (head rest = Some SLASH →
      Directory.SearchPath (S fuel) d' table (pre ++ c ++ rest) (Z.of_nat (length pre))
      = if bool_decide (Directory.Find table c = -1) then Ret (-1)
        else
          dir ← OpenFile_new d' (Directory.Find table c);
          directory ← Directory.FetchFrom d' (Directory.new DirectoryFileSize) dir;
          Directory.SearchPath fuel d' directory (pre ++ c ++ rest)
            (Z.of_nat (length pre) + Z.of_nat (length c)))).
Proof.
  intros Hn Hd Hrun.
  assert (Hd' : slash_named_disk d').
  { apply Create_inv in Hrun as [(_ & -> & _)|[_ Hok]]; [done|].
    destruct Hok as [leaf sector targetFile target freeMap s fm target' h fm'
                       d1 d2 d3 Hres Hsec Hopen Htgt Hfind Hfm Hfs Hs Hadd Halloc
                       Hw1 Hw2 Hw3 Hw4].
    destruct Hres as (root & base & Hroot & Hext & Hsp).
    assert (Hd1 : slash_named_disk d1) by (by eapply FileHdr_WriteBack_slash_named).
    assert (Ht' : slash_named target').
    { eapply Add_slash_named; [done| | |exact Hadd].
      - by eapply ExtractBasePath_leaf.
      - eapply Directory_FetchFrom_slash_named; [exact Hd|exact Htgt]. }
    assert (Hd2 : slash_named_disk d2) by (by eapply Directory_WriteBack_slash_named).
    assert (Hd3 : slash_named_disk d3) by (by eapply PersistentBitmap_WriteBack_slash_named).
    destruct dir; [|by subst].
    destruct Hw4 as (newFile & _ & Hw4).
    eapply Directory_WriteBack_slash_named; [exact Hd3| |exact Hw4].
    apply new_slash_named. }
  split_and!; [done| |].
  - intros s table bare Hs Hbare. apply Find_bare; [done| |done]. by eapply Hd'.
  - intros fuel table pre c rest Hhead Htail Hlen Hroot. split.
    + intros ->. rewrite app_nil_r in *. by apply SearchPath_last.
    + by apply SearchPath_next.
Qed.

(** Formatting writes an empty root directory. *)
Lemma format_slash_named (d d0 : Disk) (fs : FileSystem) :
  slash_named_disk d →
  FileSystem.format d = Ret (fs, d0) →
  slash_named_disk d0.
Proof.
  intros Hd. unfold FileSystem.format. intros Hrun.
  apply bind_Ret in Hrun as (fm1 & _ & Hrun).
  apply bind_Ret in Hrun as (fm2 & _ & Hrun).
  apply bind_Ret in Hrun as ([[ok1 mapHdr] fm3] & _ & Hrun).
  apply bind_Ret in Hrun as (? & _ & Hrun).
  apply bind_Ret in Hrun as ([[ok2 dirHdr] fm4] & _ & Hrun).
  apply bind_Ret in Hrun as (? & _ & Hrun).
  apply bind_Ret in Hrun as (d1 & Hw1 & Hrun).
  apply bind_Ret in Hrun as (d2 & Hw2 & Hrun).
  apply bind_Ret in Hrun as (fmFile & _ & Hrun).
  apply bind_Ret in Hrun as (dirFile & _ & Hrun).
  apply bind_Ret in Hrun as (d3 & Hw3 & Hrun).
  apply bind_Ret in Hrun as (d4 & Hw4 & Hrun).
  injection Hrun as _ <-.
  eapply Directory_WriteBack_slash_named; [|apply new_slash_named|exact Hw4].
  eapply PersistentBitmap_WriteBack_slash_named; [|exact Hw3].
  eapply FileHdr_WriteBack_slash_named; [|exact Hw2].
  by eapply FileHdr_WriteBack_slash_named.
Qed.

End Names.

Section SmallVolumeNames.
#[local] Existing Instance small_volume.

Lemma facade_names_begin_with_slash_witness :
  ∃ fs d0 d1,
    FileSystem.format ∅ = Ret (fs, d0) ∧
    FileSystem.Create fs d0 (path "//a") 200 false = Ret (1, d1) ∧
    slash_named_disk d1 ∧
    (∀ s table bare,
       d1 !! s = Some (SDir table) → head bare ≠ Some SLASH →
       Directory.Find table bare = -1) ∧
    (∀ fuel table pre c rest,
       head c = Some SLASH → SLASH ∉ tail c →
       Z.of_nat (length c) ≤ FileNameMaxLen →
       char_at (pre ++ c ++ rest) 1 ≠ Ret NUL →
       (rest = [] →
        Directory.SearchPath fuel d1 table (pre ++ c ++ rest) (Z.of_nat (length pre))
        = Ret (Directory.Find table c)) ∧
       (head rest = Some SLASH →
        Directory.SearchPath (S fuel) d1 table (pre ++ c ++ rest) (Z.of_nat (length pre))
        = if bool_decide (Directory.Find table c = -1) then Ret (-1)
          else
            dir ← OpenFile_new d1 (Directory.Find table c);
            directory ← Directory.FetchFrom d1 (Directory.new DirectoryFileSize) dir;
            Directory.SearchPath fuel d1 directory (pre ++ c ++ rest)
              (Z.of_nat (length pre) + Z.of_nat (length c)))).
Proof.
  eexists _, _, _. split; [vm_compute; reflexivity|].
  match goal with
  | |- FileSystem.Create ?fs ?d0 _ _ _ = _ ∧ _ =>
      split; [vm_compute; reflexivity|];
      eapply (facade_names_begin_with_slash fs d0 (path "//a") 200 false 1)
  end.
  - simpl. lia.
  - eapply (format_slash_named ∅).
    + intros s table Hs. by rewrite lookup_empty in Hs.
    + vm_compute. reflexivity.
  - vm_compute. reflexivity.
Defined.

End SmallVolumeNames.


(** ** The free map and the files of the volume *)

Section Accounting.
Context {G : Geometry}.

Lemma concat_heads_perm (inds : list (Z * list Z)) :
  concat ((λ x, x.1 :: x.2) <$> inds) ≡ₚ inds.*1 ++ concat (inds.*2).
Proof.
  induction inds as [|[s ds] inds IH]; csimpl; [done|].
  constructor. rewrite IH. apply Permutation_app_swap_app.
Qed.

Lemma sectors_of_perm direct inds :
  sectors_of direct inds ≡ₚ inds.*1 ++ direct ++ concat (inds.*2).
Proof.
  unfold sectors_of. rewrite concat_heads_perm. apply Permutation_app_swap_app.
Qed.

Lemma extends_perm fm fm' new new' :
  new ≡ₚ new' → extends fm fm' new → extends fm fm' new'.
Proof.
  intros Hp (Hl & Hnd & Hc & Hm & Hn). split_and!.
  - done.
  - by rewrite <- Hp.
  - intros s Hs. apply Hc. by rewrite Hp.
  - intros s. rewrite Hm. destruct (decide (s ∈ new)) as [H|H].
    + by rewrite decide_True by (by rewrite <- Hp).
    + by rewrite decide_False by (by rewrite <- Hp).
  - rewrite Hn. by rewrite Hp.
Qed.

Lemma concat_insert_perm {A} (Ls : list (list A)) (i : nat) (L0 L : list A) :
  Ls !! i = Some L0 →
  concat (<[i := L]> Ls) ++ L0 ≡ₚ L ++ concat Ls.
Proof.
  revert i. induction Ls as [|X Ls IH]; intros [|i] Hi; simplify_eq/=.
  - rewrite <- !app_assoc. f_equiv. apply Permutation_app_comm.
  - rewrite <- app_assoc, (IH i Hi). apply Permutation_app_swap_app.
Qed.

Lemma concat_insert_fresh {A} (Ls : list (list A)) (i : nat) (L : list A) :
  Ls !! i = Some [] → concat (<[i := L]> Ls) ≡ₚ L ++ concat Ls.
Proof. intros Hi. rewrite <- (concat_insert_perm Ls i [] L Hi). by rewrite app_nil_r. Qed.

Lemma concat_insert_drop {A} (Ls : list (list A)) (i : nat) (L : list A) :
  Ls !! i = Some L → concat Ls ≡ₚ L ++ concat (<[i := []]> Ls).
Proof.
  intros Hi. pose proof (concat_insert_perm Ls i L [] Hi) as H. simpl in H.
  rewrite <- H. apply Permutation_app_comm.
Qed.

Lemma filter_padded (used : list Z) (n : Z) :
  Forall (λ s, 0 ≤ s) used → filter (λ s, s ≠ -1) (pad n (-1) used) = used.
Proof. apply filter_used_slots. Qed.

Lemma filter_all_free (k : nat) : filter (λ s : Z, s ≠ -1) (replicate k (-1)) = [].
Proof.
  induction k as [|k IH]; [done|]. simpl. by rewrite filter_cons_False by naive_solver.
Qed.

Lemma child_sectors_concat (inds : list (Z * list Z)) (k : nat) :
  Forall (λ s, 0 ≤ s) (concat (inds.*2)) →
  concat ((λ c : option FileHeader,
             match c with
             | Some ih => filter (λ s, s ≠ -1) (dataSectors ih)
             | None => []
             end) <$> (((λ x : Z * list Z, Some (indirect_header x.2)) <$> inds)
                       ++ replicate k None))
  = concat (inds.*2).
Proof.
  intros Hpos.
  set (f := λ c : option FileHeader,
         match c with
         | Some ih => filter (λ s, s ≠ -1) (dataSectors ih)
         | None => []
         end).
  rewrite fmap_app, concat_app.
  assert (Hfree : concat (f <$> replicate k None) = []).
  { induction k as [|k IH]; [done|]. csimpl. by rewrite IH. }
  rewrite Hfree, app_nil_r.
  induction inds as [|[s ds] inds IH]; csimpl in *; [done|].
  apply Forall_app in Hpos as [Hds Hrest].
  rewrite filter_padded by done. by rewrite IH.
Qed.

(** The sectors a header read back from the disk references are the
    sectors [Allocate] gave the file. *)
Lemma header_sectors_layout (l : layout) :
  well_formed_layout l →
  header_sectors (layout_header l) = lay_direct l ++ (lay_inds l).*1 ++ concat ((lay_inds l).*2).
Proof.
  intros (Hd & Hi & Hpos & _). unfold header_sectors, layout_header, header_of. simpl.
  apply Forall_app in Hpos as [Hheads Hdata].
  unfold data_of in Hdata. apply Forall_app in Hdata as [Hdirect Hchild].
  rewrite filter_app, !filter_padded by done.
  unfold pad at 1. rewrite child_sectors_concat by done. by rewrite <- app_assoc.
Qed.

Lemma header_sectors_perm (hdrSector : Z) (l : layout) :
  well_formed_layout l →
  hdrSector :: header_sectors (layout_header l) ≡ₚ meta_of hdrSector l ++ data_of l.
Proof.
  intros Hwf. rewrite header_sectors_layout by done.
  unfold meta_of, data_of. simpl. constructor. apply Permutation_app_swap_app.
Qed.

Lemma on_disk_fetch (d : Disk) (hdrSector : Z) (l : layout) :
  0 ≤ NumIndirect →
  well_formed_layout l →
  on_disk d hdrSector l →
  FileHdr.FetchFrom d hdrSector FileHdr.new_FileHeader = Ret (layout_header l).
Proof.
  intros HI (Hd & Hi & Hpos & _) [Hh Hc].
  apply FetchFrom_spec; try done.
  by apply Forall_app in Hpos as [? _].
Qed.

Lemma on_disk_frame (d d' : Disk) (hdrSector : Z) (l : layout) :
  on_disk d hdrSector l →
  (∀ z, z ∈ meta_of hdrSector l → d' !! z = d !! z) →
  on_disk d' hdrSector l.
Proof.
  intros [Hh Hc] Hsame. split.
  - rewrite Hsame; [done|]. by left.
  - intros i x Hx. rewrite Hsame; [by eapply Hc|].
    right. apply list_elem_of_fmap. exists x. split; [done|].
    by eapply list_elem_of_lookup_2.
Qed.

End Accounting.

(** ** The two well-known files *)

Section WellKnownFiles.
Context {G : Geometry}.
Hypothesis Hgeo : sane_volume_geometry.

Lemma geometry_facts :
  0 < SectorSize ∧ 0 ≤ NumDirect ∧ 0 ≤ NumIndirect ∧ 0 < NumMaxSect ∧
  0 < NumDirect ∧ NumDirect ≤ NumMaxSect ∧ 0 < FreeMapFileSize ∧
  0 < DirectoryFileSize ∧ DirectoryFileSize = NumDirEntries * DirectoryEntrySize ∧
  0 < NumDirEntries.
Proof. destruct Hgeo as ((? & ? & ? & ?) & ? & ? & ? & ? & ? & ?). by split_and!. Qed.

Lemma first_direct_sector (l : layout) (b0 : Z) :
  well_formed_layout l →
  head (lay_direct l) = Some b0 →
  FileHdr.ByteToSector (layout_header l) 0 = Ret b0.
Proof.
  destruct geometry_facts as (HS & HD & HI & HM & HD1 & _).
  intros (Hd & _) Hb. unfold FileHdr.ByteToSector.
  rewrite Z.quot_0_l by lia. rewrite (proj2 (Z.ltb_lt 0 NumDirect)) by done.
  apply load_Ret. unfold layout_header, header_of. simpl.
  destruct (lay_direct l) as [|b rest] eqn:E; simplify_eq/=. done.
Qed.

Lemma transfer_first_sector (l : layout) (b0 whole : Z) :
  well_formed_layout l →
  head (lay_direct l) = Some b0 →
  0 < whole →
  lay_size l = whole →
  transfer_sector (mkOpenFile (layout_header l) 0) whole whole = Ret (Some b0).
Proof.
  intros Hwf Hb Hw Hsz. unfold transfer_sector. simpl.
  unfold FileHdr.FileLength. simpl. rewrite Hsz.
  rewrite (proj2 (Z.leb_gt whole 0)) by done. simpl.
  rewrite bool_decide_true by lia.
  by rewrite (first_direct_sector l b0).
Qed.

Lemma write_map_file (d' : Disk) (fm : Bitmap.t) (l : layout) (m0 : Z) :
  well_formed_layout l →
  head (lay_direct l) = Some m0 →
  lay_size l = FreeMapFileSize →
  PersistentBitmap.WriteBack d' fm (mkOpenFile (layout_header l) 0)
  = Ret (<[m0 := SMap fm]> d').
Proof.
  destruct geometry_facts as (_ & _ & _ & _ & _ & _ & HF & _).
  intros Hwf Hm0 Hsz. unfold PersistentBitmap.WriteBack.
  by rewrite (transfer_first_sector l m0).
Qed.

Lemma write_directory_file (d' : Disk) (table' : list DirectoryEntry)
    (l : layout) (r0 : Z) :
  well_formed_layout l →
  head (lay_direct l) = Some r0 →
  lay_size l = DirectoryFileSize →
  Z.of_nat (length table') = NumDirEntries →
  Directory.WriteBack d' table' (mkOpenFile (layout_header l) 0)
  = Ret (<[r0 := SDir table']> d').
Proof.
  destruct geometry_facts as (_ & _ & _ & _ & _ & _ & _ & HDF & HDE & HNE).
  intros Hwf Hr0 Hsz Hlen. unfold Directory.WriteBack, Directory.image_size.
  rewrite Hlen, <- HDE. by rewrite (transfer_first_sector l r0).
Qed.

(** The path of a file of the root directory splits into a base path
    of one character and the name, and a base path of one character resolves
    to the root directory: its second character is the terminator. *)
Lemma top_level_split (baseCap nameCap : Z) (c : ascii) (nm base leaf : list ascii) :
  top_level nm →
  FileSystem.ExtractBasePath baseCap nameCap (c :: nm) = Ret (base, leaf) →
  base = [c] ∧ leaf = nm.
Proof.
  intros [Hhead Htail] Hex.
  pose proof (last_slash_app [c] nm Hhead Htail) as Hm. simpl in Hm.
  unfold FileSystem.ExtractBasePath in Hex. rewrite Hm in Hex.
  change (Z.to_nat 1) with 1%nat in Hex. simpl in Hex.
  destruct (_ || _); [discriminate|]. by injection Hex as <- <-.
Qed.

Lemma SearchPath_root_base (fuel : nat) (d : Disk) (root : list DirectoryEntry)
    (c : ascii) :
  Directory.SearchPath fuel d root [c] 0 = Ret DirectorySector.
Proof. by destruct fuel. Qed.

Section Volume.
Variables (fs : FileSystem) (d : Disk) (ml dl : layout) (bits : Bitmap.t)
  (table : list DirectoryEntry) (files : list (option layout)).
Hypothesis Hvol : flat_volume fs d ml dl bits table files.

Lemma volume_open_root :
  OpenFile_new d DirectorySector = Ret (directoryFile fs).
Proof.
  destruct geometry_facts as (HS & HD & HI & HM & _).
  unfold OpenFile_new.
  rewrite (on_disk_fetch d DirectorySector dl HI (fv_dir_wf _ _ _ _ _ _ _ Hvol)
             (fv_dir_on_disk _ _ _ _ _ _ _ Hvol)).
  by rewrite (fv_fs _ _ _ _ _ _ _ Hvol).
Qed.

Lemma volume_read_map :
  PersistentBitmap.FetchFrom d (freeMapFile fs) NumSectors = Ret bits.
Proof.
  destruct geometry_facts as (_ & _ & _ & _ & _ & _ & HF & _).
  destruct (fv_map_body _ _ _ _ _ _ _ Hvol) as (m0 & Hm0 & Hbits).
  unfold PersistentBitmap.FetchFrom. rewrite (fv_fs _ _ _ _ _ _ _ Hvol). simpl.
  rewrite (transfer_first_sector ml m0) by
    (done || apply (fv_map_wf _ _ _ _ _ _ _ Hvol) || apply (fv_map_size _ _ _ _ _ _ _ Hvol)).
  simpl. unfold ReadSector. rewrite Hbits.
  by rewrite bool_decide_true by apply (fv_bits_len _ _ _ _ _ _ _ Hvol).
Qed.

Lemma volume_write_map (d' : Disk) (fm : Bitmap.t) :
  ∃ m0, head (lay_direct ml) = Some m0 ∧
        PersistentBitmap.WriteBack d' fm (freeMapFile fs)
        = Ret (<[m0 := SMap fm]> d').
Proof.
  destruct geometry_facts as (_ & _ & _ & _ & _ & _ & HF & _).
  destruct (fv_map_body _ _ _ _ _ _ _ Hvol) as (m0 & Hm0 & Hbits).
  exists m0. split; [done|].
  unfold PersistentBitmap.WriteBack. rewrite (fv_fs _ _ _ _ _ _ _ Hvol). simpl.
  rewrite (transfer_first_sector ml m0) by
    (done || apply (fv_map_wf _ _ _ _ _ _ _ Hvol) || apply (fv_map_size _ _ _ _ _ _ _ Hvol)).
  done.
Qed.

Lemma volume_read_root :
  Directory.FetchFrom d (Directory.new NumDirEntries) (directoryFile fs) = Ret table.
Proof.
  destruct geometry_facts as (_ & _ & _ & _ & _ & _ & _ & HDF & HDE & HNE).
  destruct (fv_dir_body _ _ _ _ _ _ _ Hvol) as (r0 & Hr0 & Htable).
  pose proof (fv_table_len _ _ _ _ _ _ _ Hvol) as Hlen.
  unfold Directory.FetchFrom, Directory.image_size, Directory.new.
  rewrite (fv_fs _ _ _ _ _ _ _ Hvol). simpl.
  rewrite length_replicate.
  assert (Hnn : 0 ≤ NumDirEntries) by lia.
  rewrite Z2Nat.id by done. rewrite <- HDE.
  rewrite (transfer_first_sector dl r0) by
    (done || apply (fv_dir_wf _ _ _ _ _ _ _ Hvol) || apply (fv_dir_size _ _ _ _ _ _ _ Hvol)).
  simpl. unfold ReadSector. rewrite Htable.
  rewrite bool_decide_true by done.
  rewrite drop_ge by (rewrite length_replicate; lia). by rewrite app_nil_r.
Qed.

Lemma volume_write_root (d' : Disk) (table' : list DirectoryEntry) :
  Z.of_nat (length table') = NumDirEntries →
  ∃ r0, head (lay_direct dl) = Some r0 ∧
        Directory.WriteBack d' table' (directoryFile fs)
        = Ret (<[r0 := SDir table']> d').
Proof.
  destruct geometry_facts as (_ & _ & _ & _ & _ & _ & _ & HDF & HDE & HNE).
  intros Hlen.
  destruct (fv_dir_body _ _ _ _ _ _ _ Hvol) as (r0 & Hr0 & Htable).
  exists r0. split; [done|].
  unfold Directory.WriteBack, Directory.image_size.
  rewrite (fv_fs _ _ _ _ _ _ _ Hvol). simpl. rewrite Hlen, <- HDE.
  rewrite (transfer_first_sector dl r0) by
    (done || apply (fv_dir_wf _ _ _ _ _ _ _ Hvol) || apply (fv_dir_size _ _ _ _ _ _ _ Hvol)).
  done.
Qed.

End Volume.

End WellKnownFiles.

(** ** Formatting *)

Section Format.
Context {G : Geometry}.
Hypothesis Hgeo : sane_volume_geometry.

Lemma Allocate_layout (fm : Bitmap.t) (size : Z) (h : FileHeader) (fm' : Bitmap.t) :
  FileHdr.Allocate FileHdr.new_FileHeader fm size = Ret (true, h, fm') →
  ∃ l,
    lay_size l = size ∧
    h = layout_header l ∧
    well_formed_layout l ∧
    extends fm fm' ((lay_inds l).*1 ++ data_of l) ∧
    (0 < size → ∃ b0, head (lay_direct l) = Some b0).
Proof.
  destruct (geometry_facts Hgeo) as (HS & HD & HI & HM & HD1 & _).
  intros Hrun. apply Allocate_spec in Hrun
    as (direct & inds & -> & Hext & Hpos & Hdl & Hil & Hall & Hcnt);
    [|by destruct Hgeo].
  exists (mkLayout size direct inds). simpl.
  pose proof (sectors_of_perm direct inds) as Hperm.
  split_and!; [done|done| | |].
  - unfold well_formed_layout, data_of. simpl. split_and!; [lia|lia| |].
    + by rewrite <- Hperm.
    + eapply Forall_impl; [exact Hall|]. simpl. intros x ?. lia.
  - by eapply extends_perm.
  - intros Hsz. pose proof (divRoundUp_pos size SectorSize Hsz HS) as Hns.
    destruct direct as [|b0 rest]; [simpl in Hdl; lia|]. by exists b0.
Qed.

Lemma Mark_spec (fm fm' : Bitmap.t) (s : Z) :
  lookupZ fm s = Some false →
  Bitmap.Mark fm s = Ret fm' →
  extends fm fm' [s].
Proof.
  intros Hs. unfold Bitmap.Mark. rewrite Hs. intros [= <-].
  apply lookupZ_Some in Hs as [H0 Hs].
  pose proof (lookup_lt_Some _ _ _ Hs) as Hlt.
  split_and!.
  - by rewrite length_insert.
  - apply NoDup_singleton.
  - intros x ->%list_elem_of_singleton. by apply lookupZ_Some.
  - intros x. rewrite lookupZ_insert by done.
    destruct (decide (x = Z.of_nat (Z.to_nat s))) as [->|Hne].
    + rewrite decide_True; [done|]. apply list_elem_of_singleton. lia.
    + rewrite decide_False; [done|]. rewrite list_elem_of_singleton. lia.
  - rewrite (NumClear_insert_true _ _ Hs). simpl. lia.
Qed.

Lemma lookupZ_create (n s : Z) :
  lookupZ (Bitmap.create n) s = Some true → False.
Proof.
  unfold Bitmap.create. intros [_ H]%lookupZ_Some.
  apply lookup_replicate in H as [? _]. done.
Qed.

Lemma lookupZ_create_Some (n s : Z) (v : bool) :
  lookupZ (Bitmap.create n) s = Some v → v = false ∧ 0 ≤ s < n.
Proof.
  unfold Bitmap.create. intros [H0 H]%lookupZ_Some.
  apply lookup_replicate in H as [? ?]. split; [done|lia].
Qed.

Lemma concat_zip_with_free {A} (f : DirectoryEntry → option layout → list A)
    (table : list DirectoryEntry) (n : nat) :
  (∀ e, f e None = []) →
  concat (zip_with f table (replicate n None)) = [].
Proof.
  intros Hf. revert n. induction table as [|e table IH]; intros [|n]; simpl; try done.
  by rewrite Hf, IH.
Qed.

Lemma WriteBack_layout (d d' : Disk) (hdrSector : Z) (l : layout) :
  well_formed_layout l →
  NoDup (meta_of hdrSector l) →
  FileHdr.WriteBack d hdrSector (layout_header l) = Ret d' →
  on_disk d' hdrSector l ∧ ∀ z, z ∉ meta_of hdrSector l → d' !! z = d !! z.
Proof.
  destruct (geometry_facts Hgeo) as (HS & HD & HI & HM & HD1 & _).
  intros (Hd & Hi & _) [Hs Hnd]%NoDup_cons Hrun.
  destruct (WriteBack_spec d hdrSector (lay_size l) (lay_direct l) (lay_inds l))
    as (d'' & Hrun' & Hh & Hc & Hfr); [done..|].
  unfold layout_header in Hrun. rewrite Hrun' in Hrun. injection Hrun as ->.
  split.
  - split; [done|]. intros i x Hx. apply (Hc i x Hx).
    apply lookup_lt_Some in Hx. lia.
  - intros z Hz. apply not_elem_of_cons in Hz as [? ?]. by apply Hfr.
Qed.

(** A freshly formatted volume. *)
Lemma format_flat_volume (blank d0 : Disk) (fs : FileSystem) :
  FileSystem.format blank = Ret (fs, d0) →
  ∃ ml dl bits,
    flat_volume fs d0 ml dl bits (Directory.new NumDirEntries)
      (replicate (Z.to_nat NumDirEntries) None).
Proof.
  destruct (geometry_facts Hgeo) as (HS & HD & HI & HM & HD1 & HDM & HF & HDF & HDE & HNE).
  unfold FileSystem.format. intros Hrun.
  apply bind_Ret in Hrun as (fm1 & Hm1 & Hrun).
  apply bind_Ret in Hrun as (fm2 & Hm2 & Hrun).
  apply bind_Ret in Hrun as ([[ok1 mapHdr] fm3] & Ha1 & Hrun).
  apply bind_Ret in Hrun as (? & ->%ASSERT_Ret & Hrun).
  apply bind_Ret in Hrun as ([[ok2 dirHdr] fm4] & Ha2 & Hrun).
  apply bind_Ret in Hrun as (? & ->%ASSERT_Ret & Hrun).
  apply bind_Ret in Hrun as (d1 & Hw1 & Hrun).
  apply bind_Ret in Hrun as (d2 & Hw2 & Hrun).
  apply bind_Ret in Hrun as (fmFile & Ho1 & Hrun).
  apply bind_Ret in Hrun as (dirFile & Ho2 & Hrun).
  apply bind_Ret in Hrun as (d3 & Hw3 & Hrun).
  apply bind_Ret in Hrun as (d4 & Hw4 & Hrun).
  injection Hrun as <- <-.
  (* the free map *)
  assert (He1 : extends (Bitmap.create NumSectors) fm1 [FreeMapSector]).
  { apply Mark_spec; [|done]. unfold Bitmap.Mark in Hm1.
    destruct (lookupZ _ FreeMapSector) as [v|] eqn:E; [|discriminate].
    by apply lookupZ_create_Some in E as [-> _]. }
  assert (He2 : extends fm1 fm2 [DirectorySector]).
  { apply Mark_spec; [|done]. unfold Bitmap.Mark in Hm2.
    destruct (lookupZ fm1 DirectorySector) as [v|] eqn:E; [|discriminate].
    destruct He1 as (_ & _ & _ & Hlk & _). rewrite Hlk in E.
    rewrite decide_False in E by (rewrite list_elem_of_singleton; done).
    by apply lookupZ_create_Some in E as [-> _]. }
  apply Allocate_layout in Ha1 as (ml & Hmsz & -> & Hmwf & He3 & Hmh).
  apply Allocate_layout in Ha2 as (dl & Hdsz & -> & Hdwf & He4 & Hdh).
  destruct (Hmh HF) as (m0 & Hm0). destruct (Hdh HDF) as (r0 & Hr0).
  pose proof (extends_app _ _ _ _ _ (extends_app _ _ _ _ _ He1 He2)
                (extends_app _ _ _ _ _ He3 He4)) as Hext.
  set (table := Directory.new NumDirEntries).
  set (files := replicate (Z.to_nat NumDirEntries) (@None layout)).
  assert (Hperm : ([FreeMapSector] ++ [DirectorySector]) ++
                  ((lay_inds ml).*1 ++ data_of ml) ++ (lay_inds dl).*1 ++ data_of dl
                  ≡ₚ volume_meta ml dl table files ++ volume_data ml dl table files).
  { unfold volume_meta, volume_data, meta_of, files.
    rewrite !concat_zip_with_free by done. solve_Permutation. }
  apply (extends_perm _ _ _ _ Hperm) in Hext.
  destruct Hext as (Hlen & Hnd & Hclear & Hlk & _).
  pose proof Hnd as Hnd'.
  unfold volume_meta, volume_data, files in Hnd'.
  rewrite !concat_zip_with_free, !app_nil_r in Hnd' by done.
  apply NoDup_app in Hnd' as (Hmeta & Hmd & Hdata).
  apply NoDup_app in Hmeta as (Hmm & Hmdisj & Hdm).
  apply NoDup_app in Hdata as (_ & Hddisj & _).
  assert (Hm0d : m0 ∈ data_of ml).
  { unfold data_of. apply elem_of_app. left.
    destruct (lay_direct ml); simplify_eq/=. by left. }
  assert (Hr0d : r0 ∈ data_of dl).
  { unfold data_of. apply elem_of_app. left.
    destruct (lay_direct dl); simplify_eq/=. by left. }
  (* the disk *)
  apply WriteBack_layout in Hw1 as [Hon1 Hfr1]; [|done..].
  apply WriteBack_layout in Hw2 as [Hon2 Hfr2]; [|done..].
  assert (Hon1' : on_disk d2 FreeMapSector ml).
  { eapply on_disk_frame; [exact Hon1|]. intros z Hz. apply Hfr2. by apply Hmdisj. }
  unfold OpenFile_new in Ho1, Ho2.
  rewrite (on_disk_fetch d2 FreeMapSector ml HI Hmwf Hon1') in Ho1.
  rewrite (on_disk_fetch d2 DirectorySector dl HI Hdwf Hon2) in Ho2.
  injection Ho1 as <-. injection Ho2 as <-.
  rewrite (write_map_file Hgeo d2 fm4 ml m0 Hmwf Hm0 Hmsz) in Hw3.
  injection Hw3 as <-.
  assert (Htl : Z.of_nat (length table) = NumDirEntries).
  { unfold table, Directory.new. rewrite length_replicate. lia. }
  rewrite (write_directory_file Hgeo _ table dl r0 Hdwf Hr0 Hdsz Htl) in Hw4.
  injection Hw4 as <-.
  assert (Hm0r0 : m0 ≠ r0) by (intros ->; by eapply Hddisj).
  assert (Hmeta_kept : ∀ z, z ∈ meta_of FreeMapSector ml ++ meta_of DirectorySector dl →
            (<[r0:=SDir table]> (<[m0:=SMap fm4]> d2)) !! z = d2 !! z).
  { intros z Hz. rewrite !lookup_insert_ne; [done| |].
    - intros ->. eapply Hmd; [exact Hz|]. apply elem_of_app. by left.
    - intros ->. eapply Hmd; [exact Hz|]. apply elem_of_app. by right. }
  exists ml, dl, fm4. split; try done.
  - eapply on_disk_frame; [exact Hon1'|]. intros z Hz.
    apply Hmeta_kept, elem_of_app. by left.
  - eapply on_disk_frame; [exact Hon2|]. intros z Hz.
    apply Hmeta_kept, elem_of_app. by right.
  - exists m0. split; [done|]. rewrite lookup_insert_ne by done.
    apply lookup_insert_eq.
  - exists r0. split; [done|]. apply lookup_insert_eq.
  - rewrite Hlen. unfold Bitmap.create. rewrite length_replicate.
    destruct He1 as (_ & _ & Hc & _).
    specialize (Hc FreeMapSector ltac:(by left)).
    apply lookupZ_create_Some in Hc as [_ ?]. lia.
  - unfold files, table, Directory.new. by rewrite !length_replicate.
  - intros i e o He Ho. unfold files in Ho. unfold table, Directory.new in He.
    apply lookup_replicate in Ho as [-> _]. by apply lookup_replicate in He as [-> _].
  - intros s. rewrite Hlk. case_decide as Hin; [done|]. split; [|done].
    by intros ?%lookupZ_create.
Qed.

End Format.

(** ** Creating and removing files of the root directory *)

Section FlatSteps.
Context {G : Geometry}.
Hypothesis Hgeo : sane_volume_geometry.

Lemma FindAndSet_range (fm fm' : Bitmap.t) (s : Z) :
  Bitmap.FindAndSet fm = (s, fm') → s = -1 ∨ 0 ≤ s.
Proof.
  unfold Bitmap.FindAndSet. destruct (Bitmap.find_clear fm); intros [= <- _]; lia.
Qed.

Lemma first_free_Some (table : list DirectoryEntry) (k j : nat) :
  Directory.first_free k table = Some j →
  ∃ i e, j = (k + i)%nat ∧ table !! i = Some e ∧ inUse e = false.
Proof.
  revert k. induction table as [|e table IH]; intros k; simpl; [discriminate|].
  destruct (inUse e) eqn:Hu.
  - intros (i & e' & -> & Hi & He')%IH. exists (S i), e'. split_and!; [lia|done..].
  - intros [= <-]. exists O, e. split_and!; [lia|done..].
Qed.

Lemma Add_inv (table table' : list DirectoryEntry) (nm : list ascii) (s : Z)
    (dir : bool) :
  Directory.Add table nm s dir = (true, table') →
  ∃ i e0,
    table !! i = Some e0 ∧ inUse e0 = false ∧
    table' = <[i := mkDirectoryEntry true s (take (Z.to_nat FileNameMaxLen) nm) dir]> table.
Proof.
  unfold Directory.Add. case_bool_decide; [discriminate|].
  destruct (Directory.first_free 0 table) as [j|] eqn:Hj; [|discriminate].
  intros [= <-]. apply first_free_Some in Hj as (i & e & -> & Hi & He).
  by exists i, e.
Qed.

Lemma elem_of_slots {A} (f : DirectoryEntry → option layout → list A)
    (table : list DirectoryEntry) (files : list (option layout)) i e o x :
  table !! i = Some e → files !! i = Some o → x ∈ f e o →
  x ∈ concat (zip_with f table files).
Proof.
  intros He Ho Hx. apply (elem_of_concat_2 _ (f e o)); [done|].
  apply list_elem_of_lookup. exists i. apply lookup_zip_with_Some. by exists e, o.
Qed.

Lemma slots_insert_perm {A} (f : DirectoryEntry → option layout → list A)
    (table : list DirectoryEntry) (files : list (option layout)) i e o e' o' :
  table !! i = Some e → files !! i = Some o →
  concat (zip_with f (<[i := e']> table) (<[i := o']> files)) ++ f e o
  ≡ₚ f e' o' ++ concat (zip_with f table files).
Proof.
  intros He Ho. rewrite <- insert_zip_with. apply concat_insert_perm.
  apply lookup_zip_with_Some. by exists e, o.
Qed.

Lemma volume_insert_perm ml dl (table : list DirectoryEntry)
    (files : list (option layout)) i e o e' o' :
  table !! i = Some e → files !! i = Some o →
  (volume_meta ml dl (<[i := e']> table) (<[i := o']> files) ++
   volume_data ml dl (<[i := e']> table) (<[i := o']> files)) ++
  slot_meta e o ++ slot_data e o
  ≡ₚ (slot_meta e' o' ++ slot_data e' o') ++
     volume_meta ml dl table files ++ volume_data ml dl table files.
Proof.
  intros He Ho. unfold volume_meta, volume_data.
  pose proof (slots_insert_perm slot_meta table files i e o e' o' He Ho) as Hm.
  pose proof (slots_insert_perm slot_data table files i e o e' o' He Ho) as Hd.
  set (M' := concat (zip_with slot_meta (<[i:=e']> table) (<[i:=o']> files))) in *.
  set (D' := concat (zip_with slot_data (<[i:=e']> table) (<[i:=o']> files))) in *.
  set (M := concat (zip_with slot_meta table files)) in *.
  set (D := concat (zip_with slot_data table files)) in *.
  transitivity ((meta_of FreeMapSector ml ++ meta_of DirectorySector dl ++
                 data_of ml ++ data_of dl) ++ (M' ++ slot_meta e o) ++ (D' ++ slot_data e o)).
  { solve_Permutation. }
  rewrite Hm, Hd. solve_Permutation.
Qed.

Section Steps.
Variables (fs : FileSystem) (d : Disk) (ml dl : layout) (bits : Bitmap.t)
  (table : list DirectoryEntry) (files : list (option layout)).
Hypothesis Hvol : flat_volume fs d ml dl bits table files.

(** A free slot of the table holds no file. *)
Lemma free_slot_no_file i e :
  table !! i = Some e → inUse e = false → files !! i = Some None.
Proof.
  intros He Hu.
  destruct (lookup_lt_is_Some_2 files i) as [o Ho].
  { rewrite (fv_files_len _ _ _ _ _ _ _ Hvol). by eapply lookup_lt_Some. }
  pose proof (fv_files _ _ _ _ _ _ _ Hvol i e o He Ho) as H.
  destruct o as [l|]; [|done]. destruct H as [H _]. congruence.
Qed.

(** The sectors that hold headers keep their content when the disk
    changes only in sectors that are free in the map, or hold data. *)
Lemma meta_kept (d' : Disk) :
  (∀ z, lookupZ bits z = Some true →
        z ∉ volume_data ml dl table files → d' !! z = d !! z) →
  ∀ z, z ∈ volume_meta ml dl table files → d' !! z = d !! z.
Proof.
  intros Hsame z Hz. apply Hsame.
  - apply (fv_marked _ _ _ _ _ _ _ Hvol), elem_of_app. by left.
  - pose proof (fv_nodup _ _ _ _ _ _ _ Hvol) as (_ & Hdisj & _)%NoDup_app.
    by apply Hdisj.
Qed.

Lemma map_body_is_data m0 :
  head (lay_direct ml) = Some m0 → m0 ∈ volume_data ml dl table files.
Proof.
  intros H. unfold volume_data, data_of. apply elem_of_app. left.
  apply elem_of_app. left. destruct (lay_direct ml); simplify_eq/=. by left.
Qed.

Lemma root_body_is_data r0 :
  head (lay_direct dl) = Some r0 → r0 ∈ volume_data ml dl table files.
Proof.
  intros H. unfold volume_data, data_of. apply elem_of_app. right.
  apply elem_of_app. left.
  apply elem_of_app. left. destruct (lay_direct dl); simplify_eq/=. by left.
Qed.

Lemma bodies_differ m0 r0 :
  head (lay_direct ml) = Some m0 → head (lay_direct dl) = Some r0 → m0 ≠ r0.
Proof.
  intros Hm Hr ->.
  pose proof (fv_nodup _ _ _ _ _ _ _ Hvol) as (_ & _ & Hnd)%NoDup_app.
  unfold volume_data in Hnd. apply NoDup_app in Hnd as (_ & Hdisj & _).
  apply (Hdisj r0).
  - unfold data_of. apply elem_of_app. left.
    destruct (lay_direct ml); simplify_eq/=. by left.
  - apply elem_of_app. left. unfold data_of. apply elem_of_app. left.
    destruct (lay_direct dl); simplify_eq/=. by left.
Qed.

End Steps.

Lemma Test_true (fm : Bitmap.t) (x : Z) :
  Bitmap.Test fm x = Ret true → lookupZ fm x = Some true.
Proof. unfold Bitmap.Test. destruct (lookupZ fm x); [|discriminate]. by intros [= ->]. Qed.

Lemma Clear_spec (fm fm' : Bitmap.t) (x : Z) :
  Bitmap.Clear fm x = Ret fm' →
  length fm' = length fm ∧
  ∀ z, lookupZ fm' z = if decide (z = x) then Some false else lookupZ fm z.
Proof.
  unfold Bitmap.Clear. destruct (lookupZ fm x) as [v|] eqn:E; [|discriminate].
  intros [= <-]. apply lookupZ_Some in E as [Hx E].
  pose proof (lookup_lt_Some _ _ _ E) as Hlt.
  split; [by rewrite length_insert|].
  intros z. rewrite lookupZ_insert by done.
  destruct (decide (z = x)) as [->|Hne].
  - by rewrite decide_True by lia.
  - by rewrite decide_False by lia.
Qed.

(** [Deallocate] on a header without children clears its direct sectors,
    when the loop over [NumMaxSect] slots reaches them all. *)
Lemma Deallocate_direct (fuel : nat) (l : layout) (fm fm1 : Bitmap.t) :
  well_formed_layout l →
  lay_inds l = [] →
  FileHdr.Deallocate fuel (layout_header l) fm = Ret fm1 →
  releases fm fm1 (lay_direct l).
Proof.
  destruct (geometry_facts Hgeo) as (HS & HD & HI & HM & HD1 & HDM & _).
  intros (Hdl & _ & Hpos & _) Hinds. unfold FileHdr.Deallocate, layout_header, header_of.
  rewrite Hinds. simpl. rewrite !pad_nil.
  unfold data_of in Hpos. rewrite Hinds in Hpos. simpl in Hpos.
  rewrite app_nil_r in Hpos.
  set (direct := lay_direct l) in *. intros Hrun.
  set (I := λ (k : Z) (fmk : Bitmap.t), releases fm fmk (take (Z.to_nat k) direct)).
  cut (I (Z.max 0 NumMaxSect) fm1).
  { unfold I. by rewrite take_ge by lia. }
  refine (for_loop_inv I _ NumMaxSect fm fm1 _ _ Hrun); unfold I; clear Hrun I.
  - simpl. split_and!; [done|by intros s ?%elem_of_nil|].
    intros s. by rewrite decide_False by apply not_elem_of_nil.
  - intros k fmk fmk' Hk (Hlen & Hold & Hlk) Hbody.
    apply bind_Ret in Hbody as (child & Hchild%load_Ret & Hbody).
    apply lookupZ_Some in Hchild as [_ Hchild].
    apply lookup_replicate in Hchild as [-> _].
    apply bind_Ret in Hbody as (fmk1 & [= <-] & Hbody).
    apply bind_Ret in Hbody as (x & Hx%load_Ret & Hbody).
    replace (Z.to_nat (k + 1)) with (S (Z.to_nat k)) by lia.
    destruct (decide (k < Z.of_nat (length direct))) as [Hin|Hout].
    + unfold pad in Hx. rewrite <- app_assoc in Hx.
      rewrite lookupZ_app_l in Hx by done.
      apply lookupZ_Some in Hx as [_ Hx].
      rewrite (take_S_r _ _ _ Hx).
      pose proof (Forall_lookup_1 _ _ _ _ Hpos Hx) as Hx0. simpl in Hx0.
      rewrite bool_decide_true in Hbody by lia.
      apply bind_Ret in Hbody as (t & Ht & Hbody).
      apply bind_Ret in Hbody as (? & ->%ASSERT_Ret & Hbody).
      apply Test_true in Ht. apply Clear_spec in Hbody as [Hlen' Hlk'].
      assert (Hfresh : x ∉ take (Z.to_nat k) direct).
      { intros Hx'. rewrite Hlk, decide_True in Ht by done. discriminate. }
      rewrite Hlk, decide_False in Ht by done.
      split_and!.
      * congruence.
      * intros s [Hs| ->%list_elem_of_singleton]%elem_of_app; [by apply Hold|done].
      * intros s. rewrite Hlk', Hlk.
        destruct (decide (s = x)) as [->|Hne].
        -- by rewrite decide_True by (apply elem_of_app; right; by left).
        -- destruct (decide (s ∈ take (Z.to_nat k) direct)).
           ++ by rewrite decide_True by (apply elem_of_app; by left).
           ++ rewrite decide_False; [done|].
              rewrite elem_of_app, list_elem_of_singleton. tauto.
    + rewrite take_ge by lia. rewrite take_ge in Hold, Hlk by lia.
      assert (x = -1) as ->.
      { apply lookupZ_Some in Hx as [_ Hx].
        assert (Hin : x ∈ pad NumDirect (-1) direct ++ replicate (Z.to_nat NumIndirect) (-1))
          by (by eapply list_elem_of_lookup_2).
        unfold pad in Hx.
        rewrite <- app_assoc, lookup_app_r in Hx by lia.
        rewrite <- replicate_add in Hx. by apply lookup_replicate in Hx as [-> _]. }
      rewrite bool_decide_false in Hbody by (intros H; by apply H).
      injection Hbody as <-. done.
Qed.

Lemma FindIndex_from_found (table : list DirectoryEntry) (nm : list ascii) (k : Z) :
  Directory.FindIndex_from k table nm ≠ -1 →
  ∃ i e, Directory.FindIndex_from k table nm = k + Z.of_nat i ∧
         table !! i = Some e ∧ inUse e = true.
Proof.
  revert k. induction table as [|e table IH]; intros k; simpl; [done|].
  destruct (inUse e && Directory.same_name (name e) nm) eqn:Hu.
  - intros _. exists O, e. apply andb_true_iff in Hu as [Hu _].
    split_and!; [lia|done..].
  - intros Hne. destruct (IH _ Hne) as (i & e' & Hidx & Hi & He').
    exists (S i), e'. split_and!; [lia|done..].
Qed.

Lemma alter_as_insert {A} (f : A → A) (l : list A) (i : nat) (x : A) :
  l !! i = Some x → alter f i l = <[i := f x]> l.
Proof.
  intros Hi. apply list_eq. intros j. destruct (decide (i = j)) as [<-|Hne].
  - rewrite list_lookup_alter_eq, Hi.
    by rewrite list_lookup_insert_eq by (by eapply lookup_lt_Some).
  - by rewrite list_lookup_alter_ne, list_lookup_insert_ne by done.
Qed.

(** A name that [Find] resolves is the name of an entry in use, and
    [Remove] releases that entry. *)
Lemma Find_found (table : list DirectoryEntry) (nm : list ascii) :
  Directory.Find table nm ≠ -1 →
  ∃ i e, table !! i = Some e ∧ inUse e = true ∧
         Directory.Find table nm = sector e ∧
         (Directory.Remove table nm).2 = <[i := Directory.release e]> table.
Proof.
  unfold Directory.Find, Directory.Remove, Directory.FindIndex.
  case_bool_decide as Hne; [|done]. intros _.
  destruct (FindIndex_from_found table nm 0 Hne) as (i & e & Hidx & Hi & Hu).
  exists i, e. rewrite Hidx, Z.add_0_l, lookupZ_of_nat, Hi.
  rewrite bool_decide_false by lia. simpl.
  rewrite Nat2Z.id. split_and!; [done..|]. by apply alter_as_insert.
Qed.

End FlatSteps.

(** ** The free map of a volume of regular files *)
Section Consistency.
Context {G : Geometry}.

Lemma tree_sectors_S (fuel : nat) (d : Disk) (hdrSector : Z) (dir : bool) :
  tree_sectors (S fuel) d hdrSector dir =
  own ← file_sectors d hdrSector;
  if dir then
    file ← OpenFile_new d hdrSector;
    table ← Directory.OPENDIR d file;
    below ← collect
      (λ e, if inUse e then tree_sectors fuel d (sector e) (isDir e) else Ret [])
      table;
    Ret (own ++ below)
  else Ret own.
Proof. reflexivity. Qed.

Lemma file_sectors_layout (d : Disk) (hdrSector : Z) (l : layout) :
  0 ≤ NumIndirect →
  well_formed_layout l →
  on_disk d hdrSector l →
  file_sectors d hdrSector = Ret (hdrSector :: header_sectors (layout_header l)).
Proof.
  intros HI Hwf Hon. unfold file_sectors.
  by rewrite (on_disk_fetch d hdrSector l HI Hwf Hon).
Qed.

(** The walk over a root directory of regular files collects the sectors
    of each of them. *)
Lemma collect_flat (d : Disk) (table : list DirectoryEntry)
    (files : list (option layout)) :
  0 ≤ NumIndirect →
  Forall2 (λ e o, match o with
                  | Some l => inUse e = true ∧ isDir e = false ∧
                              well_formed_layout l ∧ on_disk d (sector e) l
                  | None => inUse e = false
                  end) table files →
  ∃ below,
    collect (λ e, if inUse e then tree_sectors 1 d (sector e) (isDir e) else Ret [])
      table = Ret below ∧
    below ≡ₚ concat (zip_with slot_meta table files) ++
             concat (zip_with slot_data table files).
Proof.
  intros HI. induction 1 as [|e o table files He _ IH].
  - by exists [].
  - destruct IH as (below & Hbelow & Hperm). cbn [collect]. rewrite Hbelow.
    destruct o as [l|].
    + destruct He as (-> & -> & Hwf & Hon).
      rewrite tree_sectors_S, (file_sectors_layout d (sector e) l HI Hwf Hon).
      rewrite !ret_bind. eexists. split; [reflexivity|].
      rewrite Hperm, header_sectors_perm by done.
      cbn [zip_with concat slot_meta slot_data]. solve_Permutation.
    + rewrite He, !ret_bind. eexists. split; [reflexivity|]. by rewrite Hperm.
Qed.

End Consistency.

Section SmallVolumeConsistency.
#[local] Existing Instance small_volume.

Lemma small_volume_geometry : sane_volume_geometry.
Proof. unfold sane_volume_geometry, sane_header_geometry. simpl. lia. Qed.

Lemma top_level_a : top_level (path "/a").
Proof.
  split; [reflexivity|]. simpl. intros H.
  apply elem_of_cons in H as [H|H]; [discriminate|]. by apply elem_of_nil in H.
Qed.

End SmallVolumeConsistency.

(** * Further properties of the code *)

(** ** Directory tables *)
Section DirectoryTables.
Context {G : Geometry}.

Lemma same_name_take (a b : list ascii) :
  Directory.same_name (take (Z.to_nat FileNameMaxLen) a) b = Directory.same_name a b.
Proof. unfold Directory.same_name. by rewrite take_take, Nat.min_id. Qed.

Lemma same_name_true (a b : list ascii) :
  Directory.same_name a b = true ↔
  take (Z.to_nat FileNameMaxLen) a = take (Z.to_nat FileNameMaxLen) b.
Proof. unfold Directory.same_name. apply bool_decide_eq_true. Qed.

(** [FindIndex] is the search for the first entry in use with the name. *)
Lemma FindIndex_from_find (table : list DirectoryEntry) (nm : list ascii) (k : Z) :
  Directory.FindIndex_from k table nm =
  match list_find (names_entry nm) table with
  | Some (i, _) => k + Z.of_nat i
  | None => -1
  end.
Proof.
  revert k. induction table as [|e table IH]; intros k; [done|].
  cbn [Directory.FindIndex_from list_find].
  destruct (decide (names_entry nm e)) as [E|E]; unfold names_entry in E.
  - rewrite E. simpl. lia.
  - apply not_true_is_false in E. rewrite E, IH.
    destruct (list_find (names_entry nm) table) as [[i x]|]; simpl; [lia|done].
Qed.

Lemma Find_find (table : list DirectoryEntry) (nm : list ascii) :
  Directory.Find table nm =
  match list_find (names_entry nm) table with
  | Some (_, e) => sector e
  | None => -1
  end.
Proof.
  unfold Directory.Find, Directory.FindIndex. rewrite FindIndex_from_find.
  destruct (list_find (names_entry nm) table) as [[i x]|] eqn:E.
  - apply list_find_Some in E as (Hi & _).
    rewrite bool_decide_true by lia. by rewrite Z.add_0_l, lookupZ_of_nat, Hi.
  - by rewrite bool_decide_false by (intros H; by apply H).
Qed.

Lemma Remove_find (table : list DirectoryEntry) (nm : list ascii) :
  Directory.Remove table nm =
  match list_find (names_entry nm) table with
  | Some (i, e) => (true, <[i := Directory.release e]> table)
  | None => (false, table)
  end.
Proof.
  unfold Directory.Remove, Directory.FindIndex. rewrite FindIndex_from_find.
  destruct (list_find (names_entry nm) table) as [[i x]|] eqn:E.
  - apply list_find_Some in E as (Hi & _).
    rewrite bool_decide_false by lia. rewrite Z.add_0_l, Nat2Z.id.
    by rewrite (alter_as_insert _ _ _ _ Hi).
  - by rewrite bool_decide_true.
Qed.

Lemma first_free_None (table : list DirectoryEntry) (k : nat) :
  Directory.first_free k table = None ↔ Forall (λ e, inUse e = true) table.
Proof.
  revert k. induction table as [|e table IH]; intros k; simpl.
  - split; [constructor|done].
  - destruct (inUse e) eqn:Hu.
    + rewrite IH. split; [by constructor|by intros [_ ?]%Forall_cons].
    + split; [done|]. intros [? _]%Forall_cons. congruence.
Qed.

(** What a successful [Add] does: [nm] named no entry, and the first
    free slot received the new entry. *)
Lemma Add_true (table table' : list DirectoryEntry) (nm : list ascii) (s : Z)
    (dir : bool) :
  Directory.Add table nm s dir = (true, table') →
  list_find (names_entry nm) table = None ∧
  ∃ i e0,
    table !! i = Some e0 ∧ inUse e0 = false ∧
    table' = <[i := mkDirectoryEntry true s (take (Z.to_nat FileNameMaxLen) nm) dir]> table.
Proof.
  intros Hadd. split; [|by apply Add_inv].
  unfold Directory.Add, Directory.FindIndex in Hadd.
  rewrite FindIndex_from_find in Hadd.
  destruct (list_find (names_entry nm) table) as [[i x]|]; [|done].
  rewrite bool_decide_true in Hadd by lia. discriminate.
Qed.

Lemma find_inserted (table : list DirectoryEntry) (nm : list ascii) i e0 e' :
  list_find (names_entry nm) table = None →
  table !! i = Some e0 →
  names_entry nm e' →
  list_find (names_entry nm) (<[i := e']> table) = Some (i, e').
Proof.
  intros Hnone Hi He'. apply list_find_Some. split_and!.
  - apply list_lookup_insert_eq. by eapply lookup_lt_Some.
  - done.
  - intros j y Hj Hlt. rewrite list_lookup_insert_ne in Hj by lia.
    apply list_find_None in Hnone. by eapply Forall_lookup_1 in Hnone.
Qed.

(** Replacing an entry by another, neither of which [nm] names, does not
    change what [nm] finds. *)
Lemma find_insert_other (table : list DirectoryEntry) (nm : list ascii) i e0 e' :
  table !! i = Some e0 →
  ¬ names_entry nm e0 →
  ¬ names_entry nm e' →
  list_find (names_entry nm) (<[i := e']> table) = list_find (names_entry nm) table.
Proof.
  intros Hi H0 H'.
  destruct (list_find (names_entry nm) table) as [[j y]|] eqn:E.
  - apply list_find_Some in E as (Hj & Hy & Hbefore).
    assert (j ≠ i) by (intros ->; congruence).
    apply list_find_Some. split_and!; [by rewrite list_lookup_insert_ne|done|].
    intros k z Hk Hlt. destruct (decide (k = i)) as [->|Hne].
    + rewrite list_lookup_insert_eq in Hk by (by eapply lookup_lt_Some).
      by injection Hk as <-.
    + rewrite list_lookup_insert_ne in Hk by done. by eapply Hbefore.
  - apply list_find_None. apply list_find_None in E.
    apply Forall_insert; done.
Qed.

Lemma names_entry_new (nm nm' : list ascii) (s : Z) (dir : bool) :
  names_entry nm' (mkDirectoryEntry true s (take (Z.to_nat FileNameMaxLen) nm) dir)
  ↔ take (Z.to_nat FileNameMaxLen) nm = take (Z.to_nat FileNameMaxLen) nm'.
Proof. unfold names_entry. simpl. by rewrite same_name_take, same_name_true. Qed.

(** X1. A name added to a directory is found again: after a successful
    [Add] of [nm] with sector [s], [Find nm] returns [s], and the entry
    [FindIndex] reports carries the directory flag that was given. *)
Theorem Add_then_Find (table table' : list DirectoryEntry) (nm : list ascii)
    (s : Z) (dir : bool) :
  Directory.Add table nm s dir = (true, table') →
  Directory.Find table' nm = s ∧
  isDir <$> lookupZ table' (Directory.FindIndex table' nm) = Some dir.
Proof.
  intros (Hnone & i & e0 & Hi & Hu & ->)%Add_true.
  set (e' := mkDirectoryEntry true s (take (Z.to_nat FileNameMaxLen) nm) dir).
  assert (Hfind : list_find (names_entry nm) (<[i:=e']> table) = Some (i, e')).
  { eapply find_inserted; [done..|]. by apply names_entry_new. }
  split.
  - by rewrite Find_find, Hfind.
  - unfold Directory.FindIndex. rewrite FindIndex_from_find, Hfind.
    rewrite Z.add_0_l, lookupZ_of_nat.
    by rewrite list_lookup_insert_eq by (by eapply lookup_lt_Some).
Qed.

(** X2. [Add] leaves every other name as it was: a name that differs from
    the added one within its first [FileNameMaxLen] characters finds the
    same sector before and after. *)
Theorem Add_keeps_other_names (table table' : list DirectoryEntry)
    (nm nm' : list ascii) (s : Z) (dir : bool) :
  Directory.Add table nm s dir = (true, table') →
  take (Z.to_nat FileNameMaxLen) nm ≠ take (Z.to_nat FileNameMaxLen) nm' →
  Directory.Find table' nm' = Directory.Find table nm'.
Proof.
  intros (Hnone & i & e0 & Hi & Hu & ->)%Add_true Hne.
  rewrite !Find_find. rewrite (find_insert_other table nm' i e0); [done..| |].
  - unfold names_entry. by rewrite Hu.
  - by rewrite names_entry_new.
Qed.

(** X3. [Add] succeeds exactly when the name names no entry in use and
    some entry is free; when it fails, the table is returned as it was. *)
Theorem Add_succeeds_iff (table : list DirectoryEntry) (nm : list ascii)
    (s : Z) (dir : bool) :
  ((Directory.Add table nm s dir).1 = true ↔
   Directory.FindIndex table nm = -1 ∧ ∃ e, e ∈ table ∧ inUse e = false) ∧
  ((Directory.Add table nm s dir).1 = false →
   (Directory.Add table nm s dir).2 = table).
Proof.
  unfold Directory.Add. split.
  - case_bool_decide as Hidx; simpl.
    + split; [done|]. by intros [? _].
    + assert (HI : Directory.FindIndex table nm = -1)
        by (destruct (decide (Directory.FindIndex table nm = -1)); [done|by destruct Hidx]).
      destruct (Directory.first_free 0 table) as [j|] eqn:Hj; simpl.
      * split; [|done]. intros _. split; [done|].
        apply first_free_Some in Hj as (i & e & _ & Hi & He).
        exists e. split; [by eapply list_elem_of_lookup_2|done].
      * split; [done|]. intros (_ & e & He & Hu).
        apply first_free_None in Hj.
        apply (proj1 (Forall_forall _ _) Hj) in He. congruence.
  - case_bool_decide; [done|]. by destruct (Directory.first_free 0 table).
Qed.

(** X4. Names are told apart by their first [FileNameMaxLen] characters
    only: once [nm] is added, adding a name that agrees with it on these
    characters is refused and leaves the table unchanged. *)
Theorem Add_truncated_names_collide (table table' : list DirectoryEntry)
    (nm nm' : list ascii) (s s' : Z) (dir dir' : bool) :
  Directory.Add table nm s dir = (true, table') →
  take (Z.to_nat FileNameMaxLen) nm = take (Z.to_nat FileNameMaxLen) nm' →
  Directory.Add table' nm' s' dir' = (false, table').
Proof.
  intros (Hnone & i & e0 & Hi & Hu & ->)%Add_true Heq.
  set (e' := mkDirectoryEntry true s (take (Z.to_nat FileNameMaxLen) nm) dir).
  assert (Hnone' : list_find (names_entry nm') table = None).
  { apply list_find_None. apply list_find_None in Hnone.
    eapply Forall_impl; [exact Hnone|]. intros e. unfold names_entry.
    rewrite !andb_true_iff, !same_name_true. by rewrite Heq. }
  unfold Directory.Add, Directory.FindIndex. rewrite FindIndex_from_find.
  rewrite (find_inserted table nm' i e0 e' Hnone' Hi) by (by apply names_entry_new).
  by rewrite bool_decide_true by lia.
Qed.

Lemma names_entry_same (nm : list ascii) (e1 e2 : DirectoryEntry) :
  names_entry nm e1 → names_entry nm e2 →
  Directory.same_name (name e1) (name e2) = true.
Proof.
  unfold names_entry. rewrite !andb_true_iff, !same_name_true.
  intros [_ H1] [_ H2]. congruence.
Qed.

Lemma new_not_in_use (n : Z) (i : nat) (e : DirectoryEntry) :
  Directory.new n !! i = Some e → inUse e = false.
Proof. unfold Directory.new. by intros [-> _]%lookup_replicate. Qed.

Lemma Add_distinct_names (table table' : list DirectoryEntry) (nm : list ascii)
    (s : Z) (dir : bool) :
  distinct_names table →
  Directory.Add table nm s dir = (true, table') →
  distinct_names table'.
Proof.
  intros Hd (Hnone & i & e0 & Hi & Hu & ->)%Add_true.
  apply list_find_None in Hnone.
  assert (Hlt : (i < length table)%nat) by (by eapply lookup_lt_Some).
  assert (Hclash : ∀ k y, table !! k = Some y → inUse y = true →
            take (Z.to_nat FileNameMaxLen) (name y) ≠ take (Z.to_nat FileNameMaxLen) nm).
  { intros k y Hk Hy Heq. apply (Forall_lookup_1 _ _ _ _ Hnone Hk).
    unfold names_entry. by rewrite Hy, (proj2 (same_name_true _ _) Heq). }
  intros j k e1 e2 Hj Hk H1 H2 Hsame.
  destruct (decide (j = i)) as [->|Hji], (decide (k = i)) as [->|Hki]; [done| | |].
  - rewrite list_lookup_insert_eq in Hj by done. injection Hj as <-.
    rewrite list_lookup_insert_ne in Hk by done. simpl in Hsame.
    rewrite same_name_take in Hsame. apply same_name_true in Hsame.
    by destruct (Hclash k e2 Hk H2).
  - rewrite list_lookup_insert_eq in Hk by done. injection Hk as <-.
    rewrite list_lookup_insert_ne in Hj by done. simpl in Hsame.
    apply same_name_true in Hsame. rewrite take_take, Nat.min_id in Hsame.
    by destruct (Hclash j e1 Hj H1).
  - rewrite list_lookup_insert_ne in Hj, Hk by done. by eapply Hd.
Qed.

Lemma Remove_distinct_names (table : list DirectoryEntry) (nm : list ascii) :
  distinct_names table → distinct_names (Directory.Remove table nm).2.
Proof.
  intros Hd. rewrite Remove_find.
  destruct (list_find (names_entry nm) table) as [[i e]|] eqn:E; [|done].
  apply list_find_Some in E as (Hi & _). simpl.
  assert (Hlt : (i < length table)%nat) by (by eapply lookup_lt_Some).
  intros j k e1 e2 Hj Hk H1 H2 Hsame.
  destruct (decide (j = i)) as [->|Hji].
  { rewrite list_lookup_insert_eq in Hj by done. by injection Hj as <-. }
  destruct (decide (k = i)) as [->|Hki].
  { rewrite list_lookup_insert_eq in Hk by done. by injection Hk as <-. }
  rewrite list_lookup_insert_ne in Hj, Hk by done. by eapply Hd.
Qed.

(** X5. The names of a directory stay pairwise different: a fresh
    directory has no entry in use, [Add] refuses a name that is present, and
    [Remove] only releases an entry. *)
Theorem distinct_names_kept :
  (∀ n, distinct_names (Directory.new n)) ∧
  (∀ table nm s dir table',
     distinct_names table →
     Directory.Add table nm s dir = (true, table') →
     distinct_names table') ∧
  (∀ table nm,
     distinct_names table → distinct_names (Directory.Remove table nm).2).
Proof.
  split_and!.
  - intros n i j e1 e2 Hi _ H1 _ _. apply new_not_in_use in Hi. congruence.
  - intros table nm s dir table'. apply Add_distinct_names.
  - apply Remove_distinct_names.
Qed.

(** What a successful [Remove] does. *)
Lemma Remove_true (table table' : list DirectoryEntry) (nm : list ascii) :
  Directory.Remove table nm = (true, table') →
  ∃ i e, table !! i = Some e ∧ names_entry nm e ∧
         table' = <[i := Directory.release e]> table.
Proof.
  rewrite Remove_find.
  destruct (list_find (names_entry nm) table) as [[i e]|] eqn:E; [|done].
  intros [= <-]. apply list_find_Some in E as (Hi & He & _). by exists i, e.
Qed.

Lemma Remove_find_gone (table table' : list DirectoryEntry) (nm : list ascii) :
  distinct_names table →
  Directory.Remove table nm = (true, table') →
  list_find (names_entry nm) table' = None.
Proof.
  intros Hd (i & e & Hi & He & ->)%Remove_true.
  assert (Hlt : (i < length table)%nat) by (by eapply lookup_lt_Some).
  apply list_find_None, Forall_lookup_2. intros k y Hk Hy.
  destruct (decide (k = i)) as [->|Hki].
  - rewrite list_lookup_insert_eq in Hk by done. injection Hk as <-.
    unfold names_entry in Hy. done.
  - rewrite list_lookup_insert_ne in Hk by done. apply Hki.
    pose proof (names_entry_same nm y e Hy He) as Hsame.
    unfold names_entry in Hy, He. apply andb_true_iff in Hy as [Hy _].
    apply andb_true_iff in He as [He _]. by eapply (Hd k i y e).
Qed.

Lemma Remove_find_other (table table' : list DirectoryEntry) (nm nm' : list ascii) :
  Directory.Remove table nm = (true, table') →
  take (Z.to_nat FileNameMaxLen) nm ≠ take (Z.to_nat FileNameMaxLen) nm' →
  list_find (names_entry nm') table' = list_find (names_entry nm') table.
Proof.
  intros (i & e & Hi & He & ->)%Remove_true Hne.
  apply (find_insert_other table nm' i e); [done| |].
  - intros He'. unfold names_entry in He, He'.
    apply andb_true_iff in He as [_ He%same_name_true].
    apply andb_true_iff in He' as [_ He'%same_name_true]. congruence.
  - unfold names_entry. done.
Qed.

(** X6. A name removed from a directory whose names are pairwise
    different is found no more, and every other name finds what it found
    before. *)
Theorem Remove_then_Find (table table' : list DirectoryEntry) (nm : list ascii) :
  distinct_names table →
  Directory.Remove table nm = (true, table') →
  Directory.Find table' nm = -1 ∧
  ∀ nm', take (Z.to_nat FileNameMaxLen) nm ≠ take (Z.to_nat FileNameMaxLen) nm' →
         Directory.Find table' nm' = Directory.Find table nm'.
Proof.
  intros Hd Hrem. split.
  - by rewrite Find_find, (Remove_find_gone table table' nm).
  - intros nm' Hne. by rewrite !Find_find, (Remove_find_other table table' nm nm').
Qed.

End DirectoryTables.

Section SmallVolumeTables.
#[local] Existing Instance small_volume.

Lemma Add_then_Find_witness :
  ∃ table',
    Directory.Add (Directory.new 4) (path "/a") 5 false = (true, table') ∧
    Directory.Find table' (path "/a") = 5 ∧
    isDir <$> lookupZ table' (Directory.FindIndex table' (path "/a")) = Some false.
Proof.
  eexists. split; [vm_compute; reflexivity|].
  apply (Add_then_Find (Directory.new 4)). vm_compute. reflexivity.
Defined.

Lemma Add_keeps_other_names_witness :
  ∃ table1 table2,
    Directory.Add (Directory.new 4) (path "/a") 5 false = (true, table1) ∧
    Directory.Add table1 (path "/b") 7 false = (true, table2) ∧
    Directory.Find table2 (path "/a") = Directory.Find table1 (path "/a").
Proof.
  eexists _, _. split; [vm_compute; reflexivity|].
  split; [vm_compute; reflexivity|].
  eapply (Add_keeps_other_names _ _ (path "/b") (path "/a") 7 false).
  - vm_compute. reflexivity.
  - vm_compute. discriminate.
Defined.

Lemma Add_truncated_names_collide_witness :
  ∃ table',
    Directory.Add (Directory.new 4) (path "/notes-2019") 5 false = (true, table') ∧
    Directory.Add table' (path "/notes-2020") 7 false = (false, table').
Proof.
  eexists. split; [vm_compute; reflexivity|].
  eapply (Add_truncated_names_collide (Directory.new 4) _ (path "/notes-2019")).
  - vm_compute. reflexivity.
  - vm_compute. reflexivity.
Defined.

Lemma new_distinct_names (n : Z) : distinct_names (Directory.new n).
Proof. intros i j e1 e2 Hi _ H1 _ _. apply new_not_in_use in Hi. congruence. Qed.

Lemma Remove_then_Find_witness :
  ∃ table1 table2,
    Directory.Add (Directory.new 4) (path "/a") 5 false = (true, table1) ∧
    Directory.Remove table1 (path "/a") = (true, table2) ∧
    Directory.Find table2 (path "/a") = -1 ∧
    ∀ nm', take (Z.to_nat FileNameMaxLen) (path "/a") ≠ take (Z.to_nat FileNameMaxLen) nm' →
           Directory.Find table2 nm' = Directory.Find table1 nm'.
Proof.
  eexists _, _. split; [vm_compute; reflexivity|].
  split; [vm_compute; reflexivity|].
  apply Remove_then_Find.
  - eapply (Add_distinct_names (Directory.new 4) _ (path "/a") 5 false);
      [apply (new_distinct_names 4)|].
    vm_compute. reflexivity.
  - vm_compute. reflexivity.
Defined.

End SmallVolumeTables.

(** ** Paths *)
Section Paths.
Context {G : Geometry}.

(** X7. [ExtractBasePath] splits a path at its last '/': the two parts
    concatenate to the path, the name begins with a '/' and holds no other,
    and both parts, with their terminating NUL, fit the buffers they were
    written to. *)
Theorem ExtractBasePath_splits (baseCap nameCap : Z) (abs base leaf : list ascii) :
  FileSystem.ExtractBasePath baseCap nameCap abs = Ret (base, leaf) →
  abs = base ++ leaf ∧
  head leaf = Some SLASH ∧ (SLASH ∉ tail leaf) ∧
  Z.of_nat (length base) < baseCap ∧ Z.of_nat (length leaf) < nameCap.
Proof. apply ExtractBasePath_inv. Qed.

Lemma ByteToSector_Ret_or_Undef (h : FileHeader) (offset : Z) :
  FileHdr.ByteToSector h offset = Undef ∨ ∃ s, FileHdr.ByteToSector h offset = Ret s.
Proof.
  unfold FileHdr.ByteToSector, load.
  repeat (case_match; simpl; eauto).
Qed.

Lemma transfer_sector_Ret_or_Undef (file : OpenFile) (size whole : Z) :
  transfer_sector file size whole = Undef ∨
  ∃ o, transfer_sector file size whole = Ret o.
Proof.
  unfold transfer_sector. destruct (_ || _); [eauto|].
  case_bool_decide; [|eauto].
  destruct (ByteToSector_Ret_or_Undef (hdr file) 0) as [->|[s ->]]; simpl; eauto.
Qed.

Lemma Directory_FetchFrom_Ret_or_Undef (d : Disk) (table : list DirectoryEntry)
    (file : OpenFile) :
  Directory.FetchFrom d table file = Undef ∨
  ∃ t, Directory.FetchFrom d table file = Ret t.
Proof.
  unfold Directory.FetchFrom.
  destruct (transfer_sector_Ret_or_Undef file (Directory.image_size table)
              (NumDirEntries * DirectoryEntrySize)) as [->|[o ->]]; [by left|].
  simpl. repeat (case_match; simpl; eauto).
Qed.

(** X8. A path without any '/' is undefined behaviour in [Create] and in
    [Remove]: [ExtractBasePath] reads [mark], which only a '/' initialises. *)
Theorem path_without_slash_undefined (fs : FileSystem) (d : Disk)
    (nm : list ascii) (initialSize : Z) (dir : bool) (fuel : nat) (recur : bool) :
  SLASH ∉ nm →
  FileSystem.Create fs d nm initialSize dir = Undef ∧
  FileSystem.Remove fuel fs d nm recur = Undef.
Proof.
  intros Hnm.
  assert (Hex : ∀ b n, FileSystem.ExtractBasePath b n nm = Undef).
  { intros b n. unfold FileSystem.ExtractBasePath.
    pose proof (last_slash_spec nm) as H.
    destruct (FileSystem.last_slash nm) as [m|]; [|done].
    destruct H as (_ & Hs & _). destruct Hnm. by eapply list_elem_of_lookup_2. }
  unfold FileSystem.Create, FileSystem.Remove, Directory.OPENDIR.
  destruct (Directory_FetchFrom_Ret_or_Undef d (Directory.new NumDirEntries)
              (directoryFile fs)) as [->|[t ->]]; [done|].
  by rewrite !ret_bind, !Hex.
Qed.

(** X9. The name buffers are not checked: [Create] copies the name after
    the last '/' into [act_name[10]] and is undefined when that name, '/'
    included, has ten characters or more, whatever [FileNameMaxLen] is;
    [Remove] copies it into [filename[FileNameMaxLen + 1]] and is undefined
    when it has more than [FileNameMaxLen] characters. *)
Theorem name_buffer_overflow (fs : FileSystem) (d : Disk)
    (base leaf : list ascii) (initialSize : Z) (dir : bool) (fuel : nat)
    (recur : bool) :
  head leaf = Some SLASH → SLASH ∉ tail leaf →
  (10 ≤ Z.of_nat (length leaf) →
   FileSystem.Create fs d (base ++ leaf) initialSize dir = Undef) ∧
  (FileNameMaxLen < Z.of_nat (length leaf) →
   FileSystem.Remove fuel fs d (base ++ leaf) recur = Undef).
Proof.
  intros Hhead Htail.
  assert (Hex : ∀ b n, n ≤ Z.of_nat (length leaf) →
            FileSystem.ExtractBasePath b n (base ++ leaf) = Undef).
  { intros b n Hn. unfold FileSystem.ExtractBasePath.
    rewrite (last_slash_app base leaf Hhead Htail), Nat2Z.id.
    rewrite drop_app_length.
    rewrite (proj2 (Z.leb_le n _) Hn). by rewrite orb_true_r. }
  unfold FileSystem.Create, FileSystem.Remove, Directory.OPENDIR.
  destruct (Directory_FetchFrom_Ret_or_Undef d (Directory.new NumDirEntries)
              (directoryFile fs)) as [->|[t ->]]; [done|].
  rewrite !ret_bind. split; intros Hlen; rewrite Hex by lia; done.
Qed.

(** X10. [SearchPath] resolves a path one component at a time. At a
    position where the component [c] ('/' and the characters up to the next
    '/') begins: when [c] ends the path, the answer is what [Find] gives for
    [c] in the directory at hand, and the disk is not read; when another
    component follows, [c] is looked up, the file it names is opened and
    read as a directory, and the search goes on there at the next '/'; a
    missing [c] ends the search with -1. *)
Theorem SearchPath_by_component (fuel : nat) (d : Disk)
    (table : list DirectoryEntry) (pre c rest : list ascii) :
  head c = Some SLASH → SLASH ∉ tail c →
  Z.of_nat (length c) ≤ FileNameMaxLen →
  char_at (pre ++ c ++ rest) 1 ≠ Ret NUL →
  (rest = [] →
   Directory.SearchPath fuel d table (pre ++ c ++ rest) (Z.of_nat (length pre))
   = Ret (Directory.Find table c)) ∧
  (head rest = Some SLASH →
   Directory.SearchPath (S fuel) d table (pre ++ c ++ rest) (Z.of_nat (length pre))
   = if bool_decide (Directory.Find table c = -1) then Ret (-1)
     else
       dir ← OpenFile_new d (Directory.Find table c);
       directory ← Directory.FetchFrom d (Directory.new DirectoryFileSize) dir;
       Directory.SearchPath fuel d directory (pre ++ c ++ rest)
         (Z.of_nat (length pre) + Z.of_nat (length c))).
Proof.
  intros Hhead Htail Hlen Hroot. split.
  - intros ->. rewrite app_nil_r in *. by apply SearchPath_last.
  - by apply SearchPath_next.
Qed.

Lemma for_each_ext {St R} (idx : list Z) (body body' : Z → St → outcome (step St R))
    (s : St) :
  (∀ i s, body i s = body' i s) →
  for_each idx body s = for_each idx body' s.
Proof.
  intros Hb. revert s. induction idx as [|i idx IH]; intros s; simpl; [done|].
  rewrite Hb. destruct (body' i s) as [[s'|r]| | |]; simpl; auto.
Qed.

Lemma names_entry_same_but_isDir (nm : list ascii) (e e' : DirectoryEntry) :
  same_but_isDir e e' → names_entry nm e ↔ names_entry nm e'.
Proof. intros (Hu & _ & Hn). unfold names_entry. by rewrite Hu, Hn. Qed.

Lemma Find_same_but_isDir (table table' : list DirectoryEntry) (nm : list ascii) :
  Forall2 same_but_isDir table table' →
  Directory.Find table nm = Directory.Find table' nm.
Proof.
  intros Hrel. rewrite !Find_find.
  induction Hrel as [|e e' table table' He _ IH]; [done|].
  cbn [list_find].
  pose proof (names_entry_same_but_isDir nm e e' He) as Hiff.
  destruct (decide (names_entry nm e)) as [Hn|Hn].
  - rewrite decide_True by (by apply Hiff). simpl. apply He.
  - rewrite decide_False by (by rewrite <- Hiff).
    destruct (list_find (names_entry nm) table) as [[i x]|],
             (list_find (names_entry nm) table') as [[i' x']|]; simpl in *; done.
Qed.

Lemma read_image_same_but_isDir (d d' : Disk) (s : Z) (h : FileHeader) :
  same_disk_but_isDir d d' →
  FileHdr.read_image d s h = FileHdr.read_image d' s h.
Proof.
  intros Hrel. unfold FileHdr.read_image, ReadSector.
  destruct (Hrel s) as [x y Hxy|]; [|done].
  destruct x, y; simpl in Hxy; simplify_eq; done.
Qed.

Lemma FileHdr_FetchFrom_same_but_isDir (d d' : Disk) (s : Z) (h : FileHeader) :
  same_disk_but_isDir d d' →
  FileHdr.FetchFrom d s h = FileHdr.FetchFrom d' s h.
Proof.
  intros Hrel. unfold FileHdr.FetchFrom, FileHdr.FetchFromIndirect.
  rewrite (read_image_same_but_isDir d d' s h Hrel).
  destruct (FileHdr.read_image d' s h) as [h1| | |]; simpl; try done.
  erewrite for_each_ext; [done|]. intros i tbl. simpl.
  destruct (load (dataSectors h1) (NumDirect + i)) as [x| | |]; simpl; try done.
  case_bool_decide; [done|].
  by rewrite (read_image_same_but_isDir d d' x _ Hrel).
Qed.

Lemma Directory_FetchFrom_same_but_isDir (d d' : Disk) (tbl : list DirectoryEntry)
    (file : OpenFile) :
  same_disk_but_isDir d d' →
  (∃ t t', Directory.FetchFrom d tbl file = Ret t ∧
           Directory.FetchFrom d' tbl file = Ret t' ∧
           Forall2 same_but_isDir t t') ∨
  (Directory.FetchFrom d tbl file = Directory.FetchFrom d' tbl file ∧
   ∀ t, Directory.FetchFrom d tbl file ≠ Ret t).
Proof.
  intros Hrel. unfold Directory.FetchFrom.
  assert (Hrefl : ∀ l : list DirectoryEntry, Forall2 same_but_isDir l l).
  { intros l. apply Forall2_same_length_lookup_2; [done|].
    intros i x y Hx Hy. by simplify_eq. }
  destruct (transfer_sector file _ _) as [[s|]| | |]; simpl;
    [|left; eexists _, _; eauto|right; done..].
  unfold ReadSector. destruct (Hrel s) as [x y Hxy|]; [|right; done].
  destruct x as [| t |], y as [| t' |]; simpl in Hxy; simplify_eq;
    try (right; done).
  pose proof (Forall2_length _ _ _ Hxy) as Hlen. rewrite <- Hlen.
  case_bool_decide; [|right; done].
  left. eexists _, _. split_and!; [done..|]. by apply Forall2_app.
Qed.

(** X11. [SearchPath] never looks at the directory flag of an entry: on
    two tables and two disks that differ at most in the flags [isDir] of
    directory entries it returns the same answer. A path is resolved through
    whatever its components name, directory or regular file. *)
Theorem SearchPath_ignores_isDir (fuel : nat) (d d' : Disk)
    (table table' : list DirectoryEntry) (nm : list ascii) (offset : Z) :
  same_disk_but_isDir d d' →
  Forall2 same_but_isDir table table' →
  Directory.SearchPath fuel d table nm offset
  = Directory.SearchPath fuel d' table' nm offset.
Proof.
  intros Hrel. revert table table' offset.
  induction fuel as [|fuel IH]; intros table table' offset Htab;
    cbn [Directory.SearchPath];
    (destruct (char_at nm 1) as [second| | |]; simpl; try done);
    case_bool_decide; try done;
    (destruct (char_at nm (1 + offset)) as [first| | |]; simpl; try done);
    destruct (Directory.scan_slash _ 1) as [i|];
    rewrite ?(Find_same_but_isDir table table' _ Htab); try done.
  destruct (FileNameMaxLen <? i); [done|]. case_bool_decide; [done|].
  unfold OpenFile_new. rewrite (FileHdr_FetchFrom_same_but_isDir d d' _ _ Hrel).
  destruct (FileHdr.FetchFrom d' _ _) as [h| | |]; simpl; try done.
  destruct (Directory_FetchFrom_same_but_isDir d d'
              (Directory.new DirectoryFileSize) (mkOpenFile h 0) Hrel)
    as [(t & t' & -> & -> & Ht)|[-> Hno]].
  - simpl. by apply IH.
  - destruct (Directory.FetchFrom d' _ _); simpl; try done. by destruct (Hno a).
Qed.

Lemma same_table_refl (l : list DirectoryEntry) : Forall2 same_but_isDir l l.
Proof.
  apply Forall2_same_length_lookup_2; [done|].
  intros i x y Hx Hy. by simplify_eq.
Qed.

Lemma same_sector_refl (x : Sector) : same_sector_but_isDir x x.
Proof. destruct x; simpl; [done| |done]. apply same_table_refl. Qed.

Lemma set_isDir_same (d : Disk) (s : Z) (i : nat) (b : bool) :
  same_disk_but_isDir d (set_isDir d s i b).
Proof.
  intros z. unfold set_isDir.
  destruct (d !! s) as [[| t |]|] eqn:Hs;
    try (destruct (d !! z); constructor; apply same_sector_refl).
  destruct (decide (z = s)) as [->|Hne].
  - rewrite lookup_insert_eq, Hs. constructor. simpl.
    apply Forall2_same_length_lookup_2; [by rewrite length_alter|].
    intros j x y Hx Hy. destruct (decide (i = j)) as [->|Hij].
    + rewrite list_lookup_alter_eq, Hx in Hy. by simplify_eq/=.
    + rewrite list_lookup_alter_ne in Hy by done. by simplify_eq.
  - rewrite lookup_insert_ne by done.
    destruct (d !! z); constructor; apply same_sector_refl.
Qed.

End Paths.

Section SmallVolumePaths.
#[local] Existing Instance small_volume.

Lemma ExtractBasePath_splits_witness :
  ∃ base leaf,
    FileSystem.ExtractBasePath 256 10 (path "/usr/bin/ls") = Ret (base, leaf) ∧
    path "/usr/bin/ls" = base ++ leaf ∧
    head leaf = Some SLASH ∧ (SLASH ∉ tail leaf) ∧
    Z.of_nat (length base) < 256 ∧ Z.of_nat (length leaf) < 10.
Proof.
  eexists _, _. split; [vm_compute; reflexivity|].
  apply (ExtractBasePath_splits 256 10 (path "/usr/bin/ls")).
  vm_compute. reflexivity.
Defined.

Lemma no_slash_in_readme : SLASH ∉ path "readme".
Proof.
  intros H. cbv [path list_ascii_of_string] in H. repeat (apply elem_of_cons in H as [H|H]; [discriminate|]).
  by apply elem_of_nil in H.
Qed.

Lemma path_without_slash_undefined_witness :
  ∃ fs d,
    FileSystem.format ∅ = Ret (fs, d) ∧
    FileSystem.Create fs d (path "readme") 100 false = Undef ∧
    FileSystem.Remove 1 fs d (path "readme") false = Undef.
Proof.
  eexists _, _. split; [vm_compute; reflexivity|].
  apply path_without_slash_undefined. exact no_slash_in_readme.
Defined.

Lemma no_slash_in_notes : SLASH ∉ tail (path "/notes-2019").
Proof.
  intros H. cbv [path list_ascii_of_string tail] in H. repeat (apply elem_of_cons in H as [H|H]; [discriminate|]).
  by apply elem_of_nil in H.
Qed.

Lemma name_buffer_overflow_witness :
  ∃ fs d,
    FileSystem.format ∅ = Ret (fs, d) ∧
    FileSystem.Create fs d (path "/notes-2019") 100 false = Undef ∧
    FileSystem.Remove 1 fs d (path "/notes-2019") false = Undef.
Proof.
  eexists _, _. split; [vm_compute; reflexivity|].
  match goal with
  | |- FileSystem.Create ?fs ?d _ _ _ = _ ∧ _ =>
      destruct (name_buffer_overflow fs d [] (path "/notes-2019") 100 false 1 false
                  eq_refl no_slash_in_notes) as [Hc Hr]
  end.
  split; [apply Hc|apply Hr]; simpl; lia.
Defined.

Lemma no_slash_in_d : SLASH ∉ tail (path "/d").
Proof.
  intros H. cbv [path list_ascii_of_string tail] in H.
  repeat (apply elem_of_cons in H as [H|H]; [discriminate|]).
  by apply elem_of_nil in H.
Qed.

Lemma SearchPath_by_component_witness :
  (path "/x" = [] →
   Directory.SearchPath 1 ∅ (Directory.new 4) ([] ++ path "/d" ++ path "/x")
     (Z.of_nat (length (@nil ascii)))
   = Ret (Directory.Find (Directory.new 4) (path "/d"))) ∧
  (head (path "/x") = Some SLASH →
   Directory.SearchPath 2 ∅ (Directory.new 4) ([] ++ path "/d" ++ path "/x")
     (Z.of_nat (length (@nil ascii)))
   = if bool_decide (Directory.Find (Directory.new 4) (path "/d") = -1) then Ret (-1)
     else
       dir ← OpenFile_new ∅ (Directory.Find (Directory.new 4) (path "/d"));
       directory ← Directory.FetchFrom ∅ (Directory.new DirectoryFileSize) dir;
       Directory.SearchPath 1 ∅ directory ([] ++ path "/d" ++ path "/x")
         (Z.of_nat (length (@nil ascii)) + Z.of_nat (length (path "/d")))).
Proof.
  apply (SearchPath_by_component 1 ∅ (Directory.new 4) [] (path "/d") (path "/x")).
  - reflexivity.
  - exact no_slash_in_d.
  - simpl. lia.
  - vm_compute. discriminate.
Defined.

Lemma SearchPath_ignores_isDir_witness :
  ∃ fs d0 d1 d2 root,
    FileSystem.format ∅ = Ret (fs, d0) ∧
    FileSystem.Create fs d0 (path "//d") 0 true = Ret (1, d1) ∧
    FileSystem.Create fs d1 (path "/d/x") 10 false = Ret (1, d2) ∧
    Directory.OPENDIR d2 (directoryFile fs) = Ret root ∧
    Directory.SearchPath 2 d2 root (path "/d/x") 0 = Ret 6 ∧
    Directory.SearchPath 2 d2 root (path "/d/x") 0
    = Directory.SearchPath 2 (set_isDir d2 3 0 false) root (path "/d/x") 0.
Proof.
  eexists _, _, _, _, _.
  do 5 (split; [vm_compute; reflexivity|]).
  apply SearchPath_ignores_isDir; [apply set_isDir_same|apply same_table_refl].
Defined.

End SmallVolumePaths.

(** ** File headers *)
Section HeaderSectors.
Context {G : Geometry}.
Hypothesis Hsane : sane_header_geometry.

(** The layout behind a header that [Allocate] filled. *)
Lemma Allocate_header_layout (fm : Bitmap.t) (size : Z) (h : FileHeader)
    (fm' : Bitmap.t) :
  FileHdr.Allocate FileHdr.new_FileHeader fm size = Ret (true, h, fm') →
  ∃ l,
    lay_size l = size ∧
    h = layout_header l ∧
    well_formed_layout l ∧
    extends fm fm' ((lay_inds l).*1 ++ data_of l) ∧
    Z.of_nat (length (lay_direct l))
      = Z.max 0 (Z.min (divRoundUp size SectorSize) NumDirect) ∧
    Z.of_nat (length (lay_inds l))
      = Z.max 0 (Z.min (divRoundUp (divRoundUp size SectorSize - NumDirect) NumMaxSect)
                       NumIndirect).
Proof.
  destruct Hsane as (HS & HD & HI & HM).
  intros Hrun. apply Allocate_spec in Hrun
    as (direct & inds & -> & Hext & Hpos & Hdl & Hil & Hall & Hcnt); [|done].
  exists (mkLayout size direct inds). simpl.
  pose proof (sectors_of_perm direct inds) as Hperm.
  split_and!; [done|done| | |done|done].
  - unfold well_formed_layout, data_of. simpl. split_and!; [lia|lia| |].
    + by rewrite <- Hperm.
    + eapply Forall_impl; [exact Hall|]. simpl. intros x ?. lia.
  - by eapply extends_perm.
Qed.

Lemma header_sectors_elem (l : layout) (s : Z) :
  well_formed_layout l →
  s ∈ header_sectors (layout_header l) ↔ s ∈ (lay_inds l).*1 ++ data_of l.
Proof.
  intros Hwf. rewrite header_sectors_layout by done. unfold data_of.
  rewrite !elem_of_app. tauto.
Qed.

(** X12. [Allocate] takes free sectors only, and each once: after a
    successful [Allocate] on a fresh header, the header records the size and
    its number of sectors; the sectors it references (data sectors and
    indirect-header sectors, those of the child headers included) are
    pairwise different, were all free in the map before and are marked
    after; and no other bit of the map has changed. *)
Theorem Allocate_takes_free_sectors (fm : Bitmap.t) (size : Z) (h : FileHeader)
    (fm' : Bitmap.t) :
  FileHdr.Allocate FileHdr.new_FileHeader fm size = Ret (true, h, fm') →
  numBytes h = size ∧ numSectors h = divRoundUp size SectorSize ∧
  NoDup (header_sectors h) ∧
  (∀ s, s ∈ header_sectors h →
        lookupZ fm s = Some false ∧ lookupZ fm' s = Some true) ∧
  (∀ s, s ∉ header_sectors h → lookupZ fm' s = lookupZ fm s) ∧
  length fm' = length fm.
Proof.
  intros (l & Hsz & -> & Hwf & (Hlen & Hnd & Hfree & Hlk & _) & _)%Allocate_header_layout.
  split_and!; [done|by rewrite <- Hsz| | | |done].
  - rewrite header_sectors_layout by done.
    assert (Hp : lay_direct l ++ (lay_inds l).*1 ++ concat (lay_inds l).*2
                 ≡ₚ (lay_inds l).*1 ++ data_of l)
      by (unfold data_of; solve_Permutation).
    by rewrite Hp.
  - intros s Hs%header_sectors_elem; [|done]. split; [by apply Hfree|].
    by rewrite Hlk, decide_True.
  - intros s Hs. rewrite Hlk, decide_False; [done|].
    by rewrite <- header_sectors_elem.
Qed.

(** X14. A file that needs more than [NumDirect] sectors cannot be
    deallocated: on the header a successful [Allocate] built for it,
    [Deallocate] returns for no free map and no iteration budget, since the
    loop over the first child header releases one sector twice. *)
Theorem Deallocate_never_returns_with_indirect (fm : Bitmap.t) (size : Z)
    (h : FileHeader) (fm' : Bitmap.t) :
  0 < NumIndirect →
  FileHdr.Allocate FileHdr.new_FileHeader fm size = Ret (true, h, fm') →
  NumDirect < divRoundUp size SectorSize →
  ∀ fuel fm0 fm1, FileHdr.Deallocate fuel h fm0 ≠ Ret fm1.
Proof.
  destruct Hsane as (HS & HD & HI & HM).
  intros HI1 (l & Hsz & -> & Hwf & _ & _ & Hil)%Allocate_header_layout Hbig fuel fm0 fm1.
  assert (Hpos : 0 < divRoundUp (divRoundUp size SectorSize - NumDirect) NumMaxSect)
    by (apply divRoundUp_pos; lia).
  destruct (lay_inds l) as [|x inds] eqn:E; [simpl in Hil; lia|].
  destruct Hwf as (_ & _ & _ & Hne). rewrite E in Hne.
  apply Forall_cons in Hne as [Hx _].
  apply (Deallocate_stuck fuel _ (indirect_header x.2)); [done| |simpl; lia].
  unfold layout_header. rewrite header_of_child by lia. by rewrite E.
Qed.

(** X15. [WriteBack] writes the header sector and the indirect-header
    sectors of the file, and no other sector of the disk: for an allocated
    header written to a sector that is none of its own indirect-header
    sectors, every other sector, the data sectors of the file included,
    holds what it held before. *)
Theorem WriteBack_writes_header_sectors_only (fm : Bitmap.t) (size : Z)
    (h : FileHeader) (fm' : Bitmap.t) (d : Disk) (s : Z) :
  FileHdr.Allocate FileHdr.new_FileHeader fm size = Ret (true, h, fm') →
  s ∉ indirect_slots h →
  ∃ d',
    FileHdr.WriteBack d s h = Ret d' ∧
    d' !! s = Some (FileHdr.image_of h) ∧
    ∀ z, z ≠ s → z ∉ indirect_slots h → d' !! z = d !! z.
Proof.
  destruct Hsane as (HS & HD & HI & HM).
  intros Hrun Hs. apply Allocate_spec in Hrun
    as (direct & inds & -> & Hext & Hpos & Hdl & Hil & Hall & Hcnt); [|done].
  pose proof (sectors_of_heads_nonneg _ _ Hpos) as Hpos1.
  rewrite indirect_slots_header_of in Hs |- * by (done || lia).
  destruct Hext as (_ & Hnd & _).
  destruct (WriteBack_spec d s size direct inds) as (d' & Hwb & Hsec & _ & Hframe);
    [lia|lia|by apply (sectors_of_heads_NoDup direct)|done|].
  exists d'. split_and!; done.
Qed.

(** X16. [ByteToSector] always leaves through one of its two [return]
    statements: once the offset is past the direct slots, [position -
    NumDirect] is not negative, so the end of the function, which returns
    nothing, is never reached. *)
Theorem ByteToSector_never_falls_through (h : FileHeader) (offset : Z) :
  FileHdr.ByteToSector h offset =
  let position := Z.quot offset SectorSize in
  if position <? NumDirect then load (dataSectors h) position
  else
    child ← load (indirectTable h) (Z.quot (position - NumDirect) NumMaxSect);
    match child with
    | Some ih => load (dataSectors ih) (Z.rem (position - NumDirect) NumMaxSect)
    | None => Undef
    end.
Proof.
  unfold FileHdr.ByteToSector. cbv zeta.
  destruct (Z.quot offset SectorSize <? NumDirect) eqn:E; [done|].
  apply Z.ltb_ge in E. by rewrite (proj2 (Z.leb_le 0 _)) by lia.
Qed.

Lemma lookupZ_ext {A} (a b : list A) :
  (∀ s, lookupZ a s = lookupZ b s) → a = b.
Proof. intros H. apply list_eq. intros i. by rewrite <- !lookupZ_of_nat. Qed.

(** Releasing one more marked sector. *)
Lemma releases_clear (fm fmk : Bitmap.t) (old : list Z) (x : Z) :
  releases fm fmk old → x ∉ old → lookupZ fm x = Some true →
  ∃ fm', Bitmap.Test fmk x = Ret true ∧ Bitmap.Clear fmk x = Ret fm' ∧
         releases fm fm' (old ++ [x]).
Proof.
  intros (Hlen & Hold & Hlk) Hx Hm.
  assert (Hk : lookupZ fmk x = Some true) by (by rewrite Hlk, decide_False).
  unfold Bitmap.Test, Bitmap.Clear. rewrite Hk. eexists. split_and!; [done..|].
  pose proof (lookupZ_lt _ _ _ Hk) as Hr.
  split_and!.
  - rewrite length_insert. done.
  - intros s [Hs| ->%list_elem_of_singleton]%elem_of_app; [by apply Hold|done].
  - intros s. rewrite lookupZ_insert by lia. rewrite Z2Nat.id by lia. rewrite Hlk.
    destruct (decide (s = x)) as [->|Hne].
    + by rewrite decide_True by (apply elem_of_app; right; by left).
    + destruct (decide (s ∈ old)).
      * by rewrite decide_True by (apply elem_of_app; by left).
      * rewrite decide_False; [done|].
        rewrite elem_of_app, list_elem_of_singleton. tauto.
Qed.

(** [Deallocate] on a header without child headers returns, having
    cleared the direct sectors, when its loop stays inside the two tables. *)
Lemma Deallocate_direct_total (fuel : nat) (size : Z) (direct : list Z)
    (fm : Bitmap.t) :
  NumDirect ≤ NumMaxSect → NumMaxSect ≤ NumIndirect →
  Z.of_nat (length direct) ≤ NumDirect →
  Forall (λ s, 0 ≤ s) direct → NoDup direct →
  (∀ s, s ∈ direct → lookupZ fm s = Some true) →
  ∃ fm1, FileHdr.Deallocate fuel (header_of size direct []) fm = Ret fm1 ∧
         releases fm fm1 direct.
Proof.
  destruct Hsane as (HS & HD & HI & HM).
  intros HDM HMI Hdl Hpos Hnd Hmarked.
  unfold FileHdr.Deallocate, header_of. simpl. rewrite !pad_nil.
  set (I := λ (k : Z) (fmk : Bitmap.t), releases fm fmk (take (Z.to_nat k) direct)).
  match goal with
  | |- ∃ fm1, for_loop _ ?body fm = Ret fm1 ∧ _ =>
      destruct (for_loop_total I body NumMaxSect fm) as (fm1 & Hrun & HI1)
  end.
  - lia.
  - unfold I. simpl. split_and!; [done|by intros s ?%elem_of_nil|].
    intros s. by rewrite decide_False by apply not_elem_of_nil.
  - intros k fmk Hk Hinv. unfold I in *.
    assert (Hchild : load (replicate (Z.to_nat NumIndirect) (@None FileHeader)) k
                     = Ret None)
      by (apply load_Ret, lookupZ_replicate; lia).
    run_with Hchild.
    replace (Z.to_nat (k + 1)) with (S (Z.to_nat k)) by lia.
    destruct (decide (k < Z.of_nat (length direct))) as [Hin|Hout].
    + destruct (lookup_lt_is_Some_2 direct (Z.to_nat k) ltac:(lia)) as [x Hx].
      assert (Hload : load (pad NumDirect (-1) direct ++
                            replicate (Z.to_nat NumIndirect) (-1)) k = Ret x).
      { apply load_Ret. unfold pad. rewrite <- app_assoc.
        rewrite lookupZ_app_l by done. apply lookupZ_Some. split; [lia|done]. }
      run_with Hload.
      pose proof (Forall_lookup_1 _ _ _ _ Hpos Hx) as Hx0. simpl in Hx0.
      rewrite bool_decide_true by lia.
      assert (Hfresh : x ∉ take (Z.to_nat k) direct).
      { intros (j & Hj)%list_elem_of_lookup.
        pose proof (lookup_lt_Some _ _ _ Hj) as Hjl. rewrite length_take in Hjl.
        rewrite lookup_take_lt in Hj by lia.
        pose proof (NoDup_lookup _ _ _ _ Hnd Hj Hx). lia. }
      destruct (releases_clear fm fmk _ x Hinv Hfresh) as (fm' & Ht & Hc & Hrel).
      { apply Hmarked. by eapply list_elem_of_lookup_2. }
      run_with Ht. simpl. rewrite Hc. eexists. split; [done|].
      by rewrite (take_S_r _ _ _ Hx).
    + assert (Hload : load (pad NumDirect (-1) direct ++
                            replicate (Z.to_nat NumIndirect) (-1)) k = Ret (-1)).
      { apply load_Ret. unfold pad. rewrite <- app_assoc.
        apply lookupZ_Some. split; [lia|].
        rewrite lookup_app_r by lia. rewrite <- replicate_add.
        apply lookup_replicate. split; [done|]. lia. }
      run_with Hload.
      rewrite bool_decide_false by (intros H; by apply H).
      eexists. split; [done|]. rewrite take_ge by lia.
      by rewrite take_ge in Hinv by lia.
  - exists fm1. split; [done|]. unfold I in HI1. by rewrite take_ge in HI1 by lia.
Qed.

(** X13. Allocating and deallocating a file without indirect blocks
    restores the free map: when the loop of [Deallocate] stays inside the
    tables of the header ([NumDirect ≤ NumMaxSect ≤ NumIndirect]) and the
    file needs at most [NumDirect] sectors, [Deallocate] on the header that
    [Allocate] built returns, and returns the map [Allocate] started from. *)
Theorem Allocate_then_Deallocate (fuel : nat) (fm : Bitmap.t) (size : Z)
    (h : FileHeader) (fm' : Bitmap.t) :
  NumDirect ≤ NumMaxSect → NumMaxSect ≤ NumIndirect →
  FileHdr.Allocate FileHdr.new_FileHeader fm size = Ret (true, h, fm') →
  divRoundUp size SectorSize ≤ NumDirect →
  FileHdr.Deallocate fuel h fm' = Ret fm.
Proof.
  destruct Hsane as (HS & HD & HI & HM).
  intros HDM HMI Hrun Hsmall. apply Allocate_spec in Hrun
    as (direct & inds & -> & Hext & Hpos & Hdl & Hil & Hall & Hcnt); [|done].
  assert (inds = []) as ->.
  { assert (divRoundUp (divRoundUp size SectorSize - NumDirect) NumMaxSect ≤ 0)
      by (apply divRoundUp_nonpos; lia).
    destruct inds; [done|simpl in Hil; lia]. }
  unfold sectors_of in Hext, Hpos. simpl in Hext, Hpos. rewrite app_nil_r in Hext, Hpos.
  destruct Hext as (Hlen & Hnd & Hfree & Hlk & _).
  destruct (Deallocate_direct_total fuel size direct fm')
    as (fm1 & Hd & Hlen1 & _ & Hlk1); [done|done|lia|done|done| |].
  { intros s Hs. by rewrite Hlk, decide_True. }
  rewrite Hd. f_equal. apply lookupZ_ext. intros s. rewrite Hlk1, Hlk.
  destruct (decide (s ∈ direct)); [|done]. symmetry. by apply Hfree.
Qed.

Lemma concat_lookup_disjoint {A} (Ls : list (list A)) (i j : nat)
    (l1 l2 : list A) (a : A) :
  NoDup (concat Ls) → Ls !! i = Some l1 → Ls !! j = Some l2 →
  a ∈ l1 → a ∈ l2 → i = j.
Proof.
  revert i j. induction Ls as [|L Ls IH]; intros i j Hnd Hi Hj H1 H2; [done|].
  simpl in Hnd. apply NoDup_app in Hnd as (_ & Hdisj & Hnd).
  destruct i as [|i], j as [|j]; simplify_eq/=; [done| | |f_equal; eauto].
  - destruct (Hdisj a H1). apply (elem_of_concat_2 _ l2); [done|].
    by eapply list_elem_of_lookup_2.
  - destruct (Hdisj a H2). apply (elem_of_concat_2 _ l1); [done|].
    by eapply list_elem_of_lookup_2.
Qed.

Lemma NoDup_concat_lookup {A} (Ls : list (list A)) (i : nat) (l : list A) :
  NoDup (concat Ls) → Ls !! i = Some l → NoDup l.
Proof.
  revert i. induction Ls as [|L Ls IH]; intros i Hnd Hi; [done|].
  simpl in Hnd. apply NoDup_app in Hnd as (HL & _ & Hnd).
  destruct i as [|i]; simplify_eq/=; eauto.
Qed.

(** Where in the layout a sector that [ByteToSector] returns lies. *)
Lemma ByteToSector_place (size : Z) (direct : list Z) (inds : list (Z * list Z))
    (k s : Z) :
  Z.of_nat (length direct) ≤ NumDirect →
  Z.of_nat (length inds) ≤ NumIndirect →
  0 ≤ k →
  FileHdr.ByteToSector (header_of size direct inds) k = Ret s →
  s ≠ -1 →
  (Z.quot k SectorSize < NumDirect ∧
   direct !! Z.to_nat (Z.quot k SectorSize) = Some s) ∨
  (NumDirect ≤ Z.quot k SectorSize ∧
   ∃ x, inds !! Z.to_nat (Z.quot (Z.quot k SectorSize - NumDirect) NumMaxSect) = Some x ∧
        x.2 !! Z.to_nat (Z.rem (Z.quot k SectorSize - NumDirect) NumMaxSect) = Some s).
Proof.
  destruct Hsane as (HS & HD & HI & HM).
  intros Hdl Hil Hk Hrun Hs. rewrite ByteToSector_never_falls_through in Hrun.
  cbv zeta in Hrun.
  assert (Hp : 0 ≤ Z.quot k SectorSize) by (apply Z.quot_pos; lia).
  set (p := Z.quot k SectorSize) in *.
  destruct (p <? NumDirect) eqn:E.
  - apply Z.ltb_lt in E. left. split; [done|].
    apply load_Ret in Hrun. simpl in Hrun.
    rewrite lookupZ_app_l in Hrun by (rewrite pad_length; lia).
    destruct (decide (p < Z.of_nat (length direct))).
    + rewrite lookupZ_pad_used in Hrun by done. by apply lookupZ_Some in Hrun as [_ ?].
    + rewrite lookupZ_pad_free in Hrun by lia. congruence.
  - apply Z.ltb_ge in E. right. split; [done|].
    assert (Hq : 0 ≤ Z.quot (p - NumDirect) NumMaxSect) by (apply Z.quot_pos; lia).
    assert (Hr : 0 ≤ Z.rem (p - NumDirect) NumMaxSect) by (apply Z.rem_nonneg; lia).
    apply bind_Ret in Hrun as (child & Hchild%load_Ret & Hrun).
    pose proof (lookupZ_lt _ _ _ Hchild) as Hlt. simpl in Hlt.
    rewrite pad_length in Hlt by (rewrite length_fmap; lia).
    unfold header_of in Hchild. fold (header_of size direct inds) in Hchild.
    rewrite header_of_child in Hchild by lia.
    destruct (inds !! Z.to_nat (Z.quot (p - NumDirect) NumMaxSect)) as [x|] eqn:Ex;
      simplify_eq/=.
    exists x. split; [done|]. apply load_Ret, lookupZ_Some in Hrun as [_ Hrun].
    unfold pad in Hrun.
    destruct (decide (Z.to_nat (Z.rem (p - NumDirect) NumMaxSect) < length x.2)%nat).
    + by rewrite lookup_app_l in Hrun by done.
    + rewrite lookup_app_r in Hrun by lia.
      apply lookup_replicate in Hrun as [-> _]. done.
Qed.

(** X17. No two blocks of a file share a sector: on the header of a
    successful [Allocate], two offsets that lie in different blocks and that
    [ByteToSector] translates to sectors, the first of them an allocated one
    (not the filler -1 of an unused slot), are translated to different
    sectors; and that sector is one the header references. *)
Theorem blocks_have_distinct_sectors (fm : Bitmap.t) (size : Z) (h : FileHeader)
    (fm' : Bitmap.t) (k1 k2 s1 s2 : Z) :
  FileHdr.Allocate FileHdr.new_FileHeader fm size = Ret (true, h, fm') →
  0 ≤ k1 → 0 ≤ k2 →
  Z.quot k1 SectorSize ≠ Z.quot k2 SectorSize →
  FileHdr.ByteToSector h k1 = Ret s1 →
  FileHdr.ByteToSector h k2 = Ret s2 →
  s1 ≠ -1 →
  s1 ≠ s2 ∧ s1 ∈ header_sectors h.
Proof.
  destruct Hsane as (HS & HD & HI & HM).
  intros Hrun Hk1 Hk2 Hblocks H1 H2 Hs1.
  apply Allocate_spec in Hrun
    as (direct & inds & -> & Hext & Hpos & Hdl & Hil & Hall & Hcnt); [|done].
  destruct Hext as (_ & Hnd & _).
  rewrite sectors_of_perm in Hnd, Hpos.
  apply NoDup_app in Hnd as (_ & _ & Hnd). apply NoDup_app in Hnd as (Hnd1 & Hdisj & Hnd2).
  assert (Hwf : well_formed_layout (mkLayout size direct inds)).
  { unfold well_formed_layout, data_of. simpl. split_and!; [lia|lia|done|].
    eapply Forall_impl; [exact Hall|]. simpl. intros x ?. lia. }
  assert (Hdl' : Z.of_nat (length direct) ≤ NumDirect) by lia.
  assert (Hil' : Z.of_nat (length inds) ≤ NumIndirect) by lia.
  pose proof (ByteToSector_place size direct inds k1 s1 Hdl' Hil' Hk1 H1 Hs1) as Hp1.
  assert (Hin1 : s1 ∈ direct ++ concat (inds.*2)).
  { apply elem_of_app. destruct Hp1 as [[_ Hd]|(_ & x & Hx & Hd)].
    - left. by eapply list_elem_of_lookup_2.
    - right. apply (elem_of_concat_2 _ x.2); [by eapply list_elem_of_lookup_2|].
      apply list_elem_of_fmap. exists x. split; [done|by eapply list_elem_of_lookup_2]. }
  split.
  - intros <-.
    pose proof (ByteToSector_place size direct inds k2 s1 Hdl' Hil' Hk2 H2 Hs1) as Hp2.
    set (p1 := Z.quot k1 SectorSize) in *. set (p2 := Z.quot k2 SectorSize) in *.
    assert (0 ≤ p1) by (apply Z.quot_pos; lia).
    assert (0 ≤ p2) by (apply Z.quot_pos; lia).
    destruct Hp1 as [[Hlt1 Hd1]|(Hge1 & x1 & Hx1 & Hd1)],
             Hp2 as [[Hlt2 Hd2]|(Hge2 & x2 & Hx2 & Hd2)].
    + pose proof (NoDup_lookup _ _ _ _ Hnd1 Hd1 Hd2). lia.
    + apply (Hdisj s1); [by eapply list_elem_of_lookup_2|].
      apply (elem_of_concat_2 _ x2.2); [by eapply list_elem_of_lookup_2|].
      apply list_elem_of_fmap. exists x2. split; [done|by eapply list_elem_of_lookup_2].
    + apply (Hdisj s1); [by eapply list_elem_of_lookup_2|].
      apply (elem_of_concat_2 _ x1.2); [by eapply list_elem_of_lookup_2|].
      apply list_elem_of_fmap. exists x1. split; [done|by eapply list_elem_of_lookup_2].
    + assert (Hq1 : 0 ≤ Z.quot (p1 - NumDirect) NumMaxSect) by (apply Z.quot_pos; lia).
      assert (Hq2 : 0 ≤ Z.quot (p2 - NumDirect) NumMaxSect) by (apply Z.quot_pos; lia).
      assert (Hr1 : 0 ≤ Z.rem (p1 - NumDirect) NumMaxSect) by (apply Z.rem_nonneg; lia).
      assert (Hr2 : 0 ≤ Z.rem (p2 - NumDirect) NumMaxSect) by (apply Z.rem_nonneg; lia).
      pose proof (Z.quot_rem' (p1 - NumDirect) NumMaxSect) as E1.
      pose proof (Z.quot_rem' (p2 - NumDirect) NumMaxSect) as E2.
      assert (Hi : Z.to_nat (Z.quot (p1 - NumDirect) NumMaxSect)
                   = Z.to_nat (Z.quot (p2 - NumDirect) NumMaxSect)).
      { apply (concat_lookup_disjoint (inds.*2) _ _ x1.2 x2.2 s1 Hnd2).
        - by rewrite list_lookup_fmap, Hx1.
        - by rewrite list_lookup_fmap, Hx2.
        - by eapply list_elem_of_lookup_2.
        - by eapply list_elem_of_lookup_2. }
      rewrite Hi in Hx1. assert (x1 = x2) as -> by congruence.
      assert (Hx : NoDup x2.2).
      { apply (NoDup_concat_lookup (inds.*2)
                 (Z.to_nat (Z.quot (p2 - NumDirect) NumMaxSect)) _ Hnd2).
        by rewrite list_lookup_fmap, Hx2. }
      pose proof (NoDup_lookup _ _ _ _ Hx Hd1 Hd2). nia.
  - apply (header_sectors_elem (mkLayout size direct inds) s1 Hwf).
    apply elem_of_app. by right.
Qed.

End HeaderSectors.

Section SmallVolumeHeaderSectors.
#[local] Existing Instance small_volume.

Lemma Allocate_takes_free_sectors_witness :
  ∃ h fm',
    FileHdr.Allocate FileHdr.new_FileHeader (Bitmap.create 64) 640 = Ret (true, h, fm') ∧
    numBytes h = 640 ∧ numSectors h = divRoundUp 640 SectorSize ∧
    NoDup (header_sectors h) ∧
    (∀ s, s ∈ header_sectors h →
          lookupZ (Bitmap.create 64) s = Some false ∧ lookupZ fm' s = Some true) ∧
    (∀ s, s ∉ header_sectors h → lookupZ fm' s = lookupZ (Bitmap.create 64) s) ∧
    length fm' = length (Bitmap.create 64).
Proof.
  eexists _, _. split; [vm_compute; reflexivity|].
  apply (Allocate_takes_free_sectors small_volume_sane (Bitmap.create 64) 640).
  vm_compute. reflexivity.
Defined.

Lemma Allocate_then_Deallocate_witness :
  ∃ h fm',
    FileHdr.Allocate FileHdr.new_FileHeader (Bitmap.create 64) 300 = Ret (true, h, fm') ∧
    FileHdr.Deallocate 0 h fm' = Ret (Bitmap.create 64).
Proof.
  eexists _, _. split; [vm_compute; reflexivity|].
  apply (Allocate_then_Deallocate small_volume_sane 0 (Bitmap.create 64) 300).
  - simpl. lia.
  - simpl. lia.
  - vm_compute. reflexivity.
  - vm_compute. discriminate.
Defined.

Lemma Deallocate_never_returns_with_indirect_witness :
  ∃ h fm',
    FileHdr.Allocate FileHdr.new_FileHeader (Bitmap.create 64) 640 = Ret (true, h, fm') ∧
    ∀ fuel fm0 fm1, FileHdr.Deallocate fuel h fm0 ≠ Ret fm1.
Proof.
  eexists _, _. split; [vm_compute; reflexivity|].
  eapply (Deallocate_never_returns_with_indirect small_volume_sane (Bitmap.create 64) 640).
  - simpl. lia.
  - vm_compute. reflexivity.
  - vm_compute. reflexivity.
Defined.

Lemma WriteBack_writes_header_sectors_only_witness :
  ∃ h fm' d',
    FileHdr.Allocate FileHdr.new_FileHeader (Bitmap.create 64) 640 = Ret (true, h, fm') ∧
    FileHdr.WriteBack ∅ 10 h = Ret d' ∧
    d' !! 10 = Some (FileHdr.image_of h) ∧
    ∀ z, z ≠ 10 → z ∉ indirect_slots h → d' !! z = (∅ : Disk) !! z.
Proof.
  eexists _, _.
  match goal with
  | |- ∃ d', FileHdr.Allocate _ ?fm ?size = Ret (true, ?h, ?fm') ∧ _ =>
      destruct (WriteBack_writes_header_sectors_only small_volume_sane fm size
                  (header_of 640 [0; 1; 2; 3] [(4, [5])])
                  (replicate 6 true ++ replicate 58 false) ∅ 10)
        as (d' & Hw & Hs & Hframe)
  end.
  - vm_compute. reflexivity.
  - vm_compute. intros H. apply elem_of_cons in H as [H|H]; [discriminate|].
    by apply elem_of_nil in H.
  - exists d'. split; [vm_compute; reflexivity|]. split_and!; done.
Defined.

Lemma blocks_have_distinct_sectors_witness :
  ∃ h fm' s1 s2,
    FileHdr.Allocate FileHdr.new_FileHeader (Bitmap.create 64) 640 = Ret (true, h, fm') ∧
    FileHdr.ByteToSector h 0 = Ret s1 ∧
    FileHdr.ByteToSector h 600 = Ret s2 ∧
    s1 ≠ s2 ∧ s1 ∈ header_sectors h.
Proof.
  eexists _, _, _, _.
  do 3 (split; [vm_compute; reflexivity|]).
  eapply (blocks_have_distinct_sectors small_volume_sane (Bitmap.create 64) 640 _ _ 0 600).
  - vm_compute. reflexivity.
  - lia.
  - lia.
  - vm_compute. discriminate.
  - vm_compute. reflexivity.
  - vm_compute. reflexivity.
  - lia.
Defined.

End SmallVolumeHeaderSectors.

(** ** The facade on a volume of regular files *)
Section FlatFacade.
Context {G : Geometry}.
Hypothesis Hgeo : sane_volume_geometry.

(** What a successful creation in the root directory does to the state
    of the volume. *)
Lemma Create_flat_step (fs : FileSystem) (d : Disk) (ml dl : layout)
    (bits : Bitmap.t) (table : list DirectoryEntry) (files : list (option layout))
    (c : ascii) (nm : list ascii) (size : Z) (d' : Disk) :
  flat_volume fs d ml dl bits table files →
  top_level nm →
  FileSystem.Create fs d (c :: nm) size false = Ret (1, d') →
  ∃ i s l fm',
    Directory.Add table nm s false
    = (true, <[i := mkDirectoryEntry true s (take (Z.to_nat FileNameMaxLen) nm) false]> table) ∧
    Directory.Find table nm = -1 ∧
    (i < length table)%nat ∧ files !! i = Some None ∧
    lay_size l = size ∧ well_formed_layout l ∧
    Z.of_nat (length (lay_inds l))
      = Z.max 0 (Z.min (divRoundUp (divRoundUp size SectorSize - NumDirect) NumMaxSect)
                       NumIndirect) ∧
    extends bits fm' (meta_of s l ++ data_of l) ∧
    Z.of_nat (length nm) < 10 ∧ 1 < MAX_PATH_LEN + 1 ∧
    flat_volume fs d' ml dl fm'
      (<[i := mkDirectoryEntry true s (take (Z.to_nat FileNameMaxLen) nm) false]> table)
      (<[i := Some l]> files).
Proof.
  intros Hvol Htop Hrun.
  apply Create_inv in Hrun as [(? & _)|[_ Hok]]; [lia|].
  destruct Hok as [leaf sector targetFile target freeMap s fm target' h fm'
                     d1 d2 d3 Hres Hsec Hopen Htgt Hfind Hfm Hfs Hs Hadd Halloc
                     Hw1 Hw2 Hw3 ->].
  destruct Hres as (root & base & Hroot & Hext & Hsp).
  rewrite (volume_read_root Hgeo _ _ _ _ _ _ _ Hvol) in Hroot. injection Hroot as <-.
  assert (Hcap : Z.of_nat (length nm) < 10 ∧ 1 < MAX_PATH_LEN + 1).
  { destruct (top_level_split _ _ _ _ _ _ Htop Hext) as [-> ->].
    apply ExtractBasePath_inv in Hext as (_ & _ & _ & Hb & Hn). simpl in Hb.
    split; lia. }
  destruct (top_level_split _ _ _ _ _ _ Htop Hext) as [-> ->].
  rewrite SearchPath_root_base in Hsp. injection Hsp as <-.
  rewrite (volume_open_root Hgeo _ _ _ _ _ _ _ Hvol) in Hopen. injection Hopen as <-.
  rewrite (volume_read_root Hgeo _ _ _ _ _ _ _ Hvol) in Htgt. injection Htgt as <-.
  rewrite (volume_read_map Hgeo _ _ _ _ _ _ _ Hvol) in Hfm. injection Hfm as <-.
  assert (Hs0 : 0 ≤ s) by (destruct (FindAndSet_range _ _ _ Hfs); [done|lia]).
  pose proof (FindAndSet_found _ _ _ Hfs Hs0) as Es.
  pose proof Hadd as Hadd0.
  apply Add_inv in Hadd as (i & e0 & Hi & Hu & ->).
  apply (Allocate_header_layout (proj1 Hgeo)) in Halloc
    as (l & Hlsz & -> & Hlwf & El & _ & Hlil).
  pose proof (extends_app _ _ _ _ _ Es El) as Enew.
  change ([s] ++ (lay_inds l).*1 ++ data_of l) with (meta_of s l ++ data_of l) in Enew.
  pose proof Enew as Enew0.
  destruct Enew as (Hlen & Hnd & Hclear & Hlk & _).
  pose proof Hnd as (Hndm & _ & _)%NoDup_app.
  apply (WriteBack_layout Hgeo) in Hw1 as [Hon1 Hfr1]; [|done..].
  set (e' := mkDirectoryEntry true s (take (Z.to_nat FileNameMaxLen) nm) false) in *.
  assert (Htl : Z.of_nat (length (<[i:=e']> table)) = NumDirEntries)
    by (rewrite length_insert; apply (fv_table_len _ _ _ _ _ _ _ Hvol)).
  destruct (volume_write_root Hgeo _ _ _ _ _ _ _ Hvol d1 _ Htl) as (r0 & Hr0 & Hw2').
  rewrite Hw2' in Hw2. injection Hw2 as <-.
  destruct (volume_write_map Hgeo _ _ _ _ _ _ _ Hvol (<[r0:=SDir (<[i:=e']> table)]> d1) fm')
    as (m0 & Hm0 & Hw3').
  rewrite Hw3' in Hw3. injection Hw3 as <-.
  pose proof (map_body_is_data ml dl table files m0 Hm0) as Hm0d.
  pose proof (root_body_is_data ml dl table files r0 Hr0) as Hr0d.
  pose proof (bodies_differ _ _ _ _ _ _ _ Hvol m0 r0 Hm0 Hr0) as Hmr.
  pose proof (free_slot_no_file _ _ _ _ _ _ _ Hvol i e0 Hi Hu) as Hfi.
  assert (Hold : ∀ z, z ∈ volume_meta ml dl table files ++ volume_data ml dl table files →
                      z ∉ meta_of s l ++ data_of l).
  { intros z Hz%(fv_marked _ _ _ _ _ _ _ Hvol) Hz'%Hclear. congruence. }
  assert (Hkept : ∀ z, z ∈ volume_meta ml dl table files →
            (<[m0:=SMap fm']> (<[r0:=SDir (<[i:=e']> table)]> d1)) !! z = d !! z).
  { apply (meta_kept _ _ _ _ _ _ _ Hvol). intros z Hz Hzd.
    rewrite !lookup_insert_ne by (intros ->; done).
    apply Hfr1. intros Hzm.
    assert (lookupZ bits z = Some false) by (apply Hclear, elem_of_app; by left).
    congruence. }
  assert (Hnew : ∀ z, z ∈ meta_of s l →
            (<[m0:=SMap fm']> (<[r0:=SDir (<[i:=e']> table)]> d1)) !! z = d1 !! z).
  { intros z Hz. rewrite !lookup_insert_ne; [done| |].
    - intros ->. apply (Hold z); apply elem_of_app; [by right|by left].
    - intros ->. apply (Hold z); apply elem_of_app; [by right|by left]. }
  assert (Hperm :
    volume_meta ml dl (<[i:=e']> table) (<[i:=Some l]> files) ++
    volume_data ml dl (<[i:=e']> table) (<[i:=Some l]> files)
    ≡ₚ (meta_of s l ++ data_of l) ++
       volume_meta ml dl table files ++ volume_data ml dl table files).
  { pose proof (volume_insert_perm ml dl table files i e0 None e' (Some l) Hi Hfi) as H.
    change (slot_meta e0 None ++ slot_data e0 None) with (@nil Z) in H.
    by rewrite app_nil_r in H. }
  exists i, s, l, fm'.
  split_and!; [done|done|by eapply lookup_lt_Some|done|done|done|done|done|
               apply Hcap|apply Hcap|].
  fold e'. split.
  - apply (fv_fs _ _ _ _ _ _ _ Hvol).
  - apply (fv_map_size _ _ _ _ _ _ _ Hvol).
  - apply (fv_dir_size _ _ _ _ _ _ _ Hvol).
  - apply (fv_map_wf _ _ _ _ _ _ _ Hvol).
  - apply (fv_dir_wf _ _ _ _ _ _ _ Hvol).
  - eapply on_disk_frame; [apply (fv_map_on_disk _ _ _ _ _ _ _ Hvol)|].
    intros z Hz. apply Hkept. unfold volume_meta. apply elem_of_app. by left.
  - eapply on_disk_frame; [apply (fv_dir_on_disk _ _ _ _ _ _ _ Hvol)|].
    intros z Hz. apply Hkept. unfold volume_meta.
    apply elem_of_app. right. apply elem_of_app. by left.
  - exists m0. split; [done|]. apply lookup_insert_eq.
  - exists r0. split; [done|]. rewrite lookup_insert_ne by done. apply lookup_insert_eq.
  - rewrite Hlen. apply (fv_bits_len _ _ _ _ _ _ _ Hvol).
  - done.
  - rewrite !length_insert. apply (fv_files_len _ _ _ _ _ _ _ Hvol).
  - intros j e o He Ho. destruct (decide (j = i)) as [->|Hne].
    + rewrite list_lookup_insert_eq in He by (by eapply lookup_lt_Some).
      rewrite list_lookup_insert_eq in Ho by (by eapply lookup_lt_Some).
      injection He as <-. injection Ho as <-. split_and!; [done..|].
      eapply on_disk_frame; [exact Hon1|]. exact Hnew.
    + rewrite list_lookup_insert_ne in He by done.
      rewrite list_lookup_insert_ne in Ho by done.
      pose proof (fv_files _ _ _ _ _ _ _ Hvol j e o He Ho) as H.
      destruct o as [lj|]; [|done]. destruct H as (? & ? & ? & Hon).
      split_and!; [done..|].
      eapply on_disk_frame; [exact Hon|]. intros z Hz. apply Hkept.
      unfold volume_meta. apply elem_of_app. right. apply elem_of_app. right.
      by apply (elem_of_slots slot_meta table files j e (Some lj)).
  - rewrite Hperm. apply NoDup_app. split_and!; [done| |].
    + intros z Hz Hz'. by apply (Hold z).
    + apply (fv_nodup _ _ _ _ _ _ _ Hvol).
  - intros z.
    assert (Hin : z ∈ volume_meta ml dl (<[i:=e']> table) (<[i:=Some l]> files) ++
                      volume_data ml dl (<[i:=e']> table) (<[i:=Some l]> files)
                  ↔ z ∈ meta_of s l ++ data_of l ∨ lookupZ bits z = Some true).
    { rewrite (fv_marked _ _ _ _ _ _ _ Hvol z), <- elem_of_app. by rewrite Hperm. }
    rewrite Hin, Hlk. case_decide; naive_solver.
Qed.

(** What a successful plain removal from the root directory does to the
    state of the volume. *)
Lemma Remove_flat_step (fs : FileSystem) (d : Disk) (ml dl : layout)
    (bits : Bitmap.t) (table : list DirectoryEntry) (files : list (option layout))
    (c : ascii) (nm : list ascii) (fuel : nat) (d' : Disk) :
  flat_volume fs d ml dl bits table files →
  top_level nm →
  FileSystem.Remove fuel fs d (c :: nm) false = Ret (true, d') →
  ∃ i e l fm2,
    table !! i = Some e ∧ inUse e = true ∧
    Directory.Find table nm = sector e ∧
    (Directory.Remove table nm).2 = <[i := Directory.release e]> table ∧
    files !! i = Some (Some l) ∧ lay_inds l = [] ∧
    (∀ z, lookupZ fm2 z =
          if decide (z = sector e) then Some false
          else if decide (z ∈ lay_direct l) then Some false
          else lookupZ bits z) ∧
    length fm2 = length bits ∧
    flat_volume fs d' ml dl fm2 (<[i := Directory.release e]> table)
      (<[i := None]> files).
Proof.
  destruct (geometry_facts Hgeo) as (HS & HD & HI & HM & HD1 & HDM & _).
  intros Hvol Htop Hrun. unfold FileSystem.Remove in Hrun.
  unfold Directory.OPENDIR in Hrun.
  rewrite (volume_read_root Hgeo _ _ _ _ _ _ _ Hvol), ret_bind in Hrun.
  apply bind_Ret in Hrun as ([base leaf] & Hext & Hrun).
  destruct (top_level_split _ _ _ _ _ _ Htop Hext) as [-> ->].
  rewrite SearchPath_root_base, ret_bind in Hrun.
  rewrite bool_decide_false in Hrun by done.
  rewrite (volume_open_root Hgeo _ _ _ _ _ _ _ Hvol), ret_bind in Hrun.
  rewrite (volume_read_root Hgeo _ _ _ _ _ _ _ Hvol), ret_bind in Hrun.
  cbv beta iota zeta in Hrun.
  destruct (bool_decide (Directory.Find table nm = -1) ||
            bool_decide (Directory.Find table nm = DirectorySector)) eqn:Hfind;
    [discriminate|].
  apply orb_false_iff in Hfind as [Hf1%bool_decide_eq_false Hf2%bool_decide_eq_false].
  destruct (Find_found table nm Hf1) as (i & e & Hi & Hu & Hsec & Hrem).
  pose proof Hsec as Hsec0. pose proof Hrem as Hrem0.
  rewrite Hsec, Hrem in Hrun. clear Hsec Hrem Hf1 Hf2.
  rewrite (volume_read_map Hgeo _ _ _ _ _ _ _ Hvol), !ret_bind in Hrun.
  cbv beta iota in Hrun.
  destruct (lookup_lt_is_Some_2 files i) as [o Ho].
  { rewrite (fv_files_len _ _ _ _ _ _ _ Hvol). by eapply lookup_lt_Some. }
  pose proof (fv_files _ _ _ _ _ _ _ Hvol i e o Hi Ho) as Hfile.
  destruct o as [l|]; [|congruence].
  destruct Hfile as (_ & _ & Hlwf & Hon).
  rewrite (on_disk_fetch d (sector e) l HI Hlwf Hon), ret_bind in Hrun.
  apply bind_Ret in Hrun as (fm1 & Hdealloc & Hrun).
  assert (Hinds : lay_inds l = []).
  { destruct (lay_inds l) as [|x inds] eqn:E; [done|]. exfalso.
    destruct Hlwf as (_ & Hil & _ & Hne). rewrite E in Hil, Hne.
    apply Forall_cons in Hne as [Hx _]. simpl in Hil.
    revert Hdealloc.
    apply (Deallocate_stuck fuel _ (indirect_header x.2)); [done| |simpl; lia].
    unfold layout_header. rewrite header_of_child by lia. by rewrite E. }
  apply Deallocate_direct in Hdealloc as (Hlen1 & _ & Hlk1); [|done..].
  apply bind_Ret in Hrun as (fm2 & (Hlen2 & Hlk2)%Clear_spec & Hrun).
  destruct (volume_write_map Hgeo _ _ _ _ _ _ _ Hvol d fm2) as (m0 & Hm0 & Hw1).
  rewrite Hw1, ret_bind in Hrun.
  set (e' := Directory.release e) in *.
  assert (Htl : Z.of_nat (length (<[i:=e']> table)) = NumDirEntries)
    by (rewrite length_insert; apply (fv_table_len _ _ _ _ _ _ _ Hvol)).
  destruct (volume_write_root Hgeo _ _ _ _ _ _ _ Hvol (<[m0:=SMap fm2]> d) _ Htl)
    as (r0 & Hr0 & Hw2).
  rewrite Hw2, ret_bind in Hrun. injection Hrun as <-.
  pose proof (map_body_is_data ml dl table files m0 Hm0) as Hm0d.
  pose proof (root_body_is_data ml dl table files r0 Hr0) as Hr0d.
  pose proof (bodies_differ _ _ _ _ _ _ _ Hvol m0 r0 Hm0 Hr0) as Hmr.
  assert (Hperm :
    (volume_meta ml dl (<[i:=e']> table) (<[i:=None]> files) ++
     volume_data ml dl (<[i:=e']> table) (<[i:=None]> files)) ++
    meta_of (sector e) l ++ data_of l
    ≡ₚ volume_meta ml dl table files ++ volume_data ml dl table files).
  { exact (volume_insert_perm ml dl table files i e (Some l) e' None Hi Ho). }
  assert (Hgone : ∀ z, z ∈ meta_of (sector e) l ++ data_of l ↔
                       z = sector e ∨ z ∈ lay_direct l).
  { intros z. unfold meta_of, data_of. rewrite Hinds. simpl.
    rewrite app_nil_r. apply elem_of_cons. }
  pose proof (fv_nodup _ _ _ _ _ _ _ Hvol) as Hnd.
  rewrite <- Hperm in Hnd. apply NoDup_app in Hnd as (Hnd & Hdisj & _).
  assert (Hkept : ∀ z, z ∈ volume_meta ml dl table files →
            (<[r0:=SDir (<[i:=e']> table)]> (<[m0:=SMap fm2]> d)) !! z = d !! z).
  { apply (meta_kept _ _ _ _ _ _ _ Hvol). intros z Hz Hzd.
    by rewrite !lookup_insert_ne by (intros ->; done). }
  exists i, e, l, fm2.
  split_and!; [done|done|done|done|done|done| |congruence|].
  { intros z. by rewrite Hlk2, Hlk1. }
  fold e'. split.
  - apply (fv_fs _ _ _ _ _ _ _ Hvol).
  - apply (fv_map_size _ _ _ _ _ _ _ Hvol).
  - apply (fv_dir_size _ _ _ _ _ _ _ Hvol).
  - apply (fv_map_wf _ _ _ _ _ _ _ Hvol).
  - apply (fv_dir_wf _ _ _ _ _ _ _ Hvol).
  - eapply on_disk_frame; [apply (fv_map_on_disk _ _ _ _ _ _ _ Hvol)|].
    intros z Hz. apply Hkept. unfold volume_meta. apply elem_of_app. by left.
  - eapply on_disk_frame; [apply (fv_dir_on_disk _ _ _ _ _ _ _ Hvol)|].
    intros z Hz. apply Hkept. unfold volume_meta.
    apply elem_of_app. right. apply elem_of_app. by left.
  - exists m0. split; [done|]. rewrite lookup_insert_ne by done. apply lookup_insert_eq.
  - exists r0. split; [done|]. apply lookup_insert_eq.
  - rewrite Hlen2, Hlen1. apply (fv_bits_len _ _ _ _ _ _ _ Hvol).
  - done.
  - rewrite !length_insert. apply (fv_files_len _ _ _ _ _ _ _ Hvol).
  - intros j ej o He Ho'. destruct (decide (j = i)) as [->|Hne].
    + rewrite list_lookup_insert_eq in He by (by eapply lookup_lt_Some).
      rewrite list_lookup_insert_eq in Ho' by (by eapply lookup_lt_Some).
      injection He as <-. injection Ho' as <-. done.
    + rewrite list_lookup_insert_ne in He by done.
      rewrite list_lookup_insert_ne in Ho' by done.
      pose proof (fv_files _ _ _ _ _ _ _ Hvol j ej o He Ho') as H.
      destruct o as [lj|]; [|done]. destruct H as (? & ? & ? & Honj).
      split_and!; [done..|].
      eapply on_disk_frame; [exact Honj|]. intros z Hz. apply Hkept.
      unfold volume_meta. apply elem_of_app. right. apply elem_of_app. right.
      by apply (elem_of_slots slot_meta table files j ej (Some lj)).
  - done.
  - intros z.
    assert (Hin : lookupZ bits z = Some true ↔
                  z ∈ volume_meta ml dl (<[i:=e']> table) (<[i:=None]> files) ++
                      volume_data ml dl (<[i:=e']> table) (<[i:=None]> files)
                  ∨ z ∈ meta_of (sector e) l ++ data_of l).
    { rewrite (fv_marked _ _ _ _ _ _ _ Hvol z), <- elem_of_app. by rewrite Hperm. }
    specialize (Hdisj z). specialize (Hgone z).
    rewrite Hlk2, Hlk1. repeat case_decide; naive_solver.
Qed.

(** The states of a volume of regular files, with the names of the root
    directory pairwise different. *)
Lemma flat_reachable_state (fs : FileSystem) (d : Disk) :
  flat_reachable fs d →
  ∃ ml dl bits table files,
    flat_volume fs d ml dl bits table files ∧ distinct_names table.
Proof.
  induction 1 as [blank d0 Hfmt|d c nm size d' _ IH Htop Hrun
                  |d c nm fuel d' _ IH Htop Hrun].
  - destruct (format_flat_volume Hgeo _ _ _ Hfmt) as (ml & dl & bits & Hvol).
    exists ml, dl, bits, (Directory.new NumDirEntries),
      (replicate (Z.to_nat NumDirEntries) None). split; [done|].
    intros i j e1 e2 Hi _ H1 _ _. apply new_not_in_use in Hi. congruence.
  - destruct IH as (ml & dl & bits & table & files & Hvol & Hd).
    destruct (Create_flat_step _ _ _ _ _ _ _ _ _ _ _ Hvol Htop Hrun)
      as (i & s & l & fm' & Hadd & _ & _ & _ & _ & _ & _ & _ & _ & _ & Hvol').
    eexists ml, dl, fm', _, _. split; [exact Hvol'|].
    by eapply Add_distinct_names.
  - destruct IH as (ml & dl & bits & table & files & Hvol & Hd).
    destruct (Remove_flat_step _ _ _ _ _ _ _ _ _ _ _ Hvol Htop Hrun)
      as (i & e & l & fm2 & _ & _ & _ & Hrem & _ & _ & _ & _ & Hvol').
    eexists ml, dl, fm2, _, _. split; [exact Hvol'|].
    rewrite <- Hrem. by apply Remove_distinct_names.
Qed.

Lemma Find_new (n : Z) (nm : list ascii) : Directory.Find (Directory.new n) nm = -1.
Proof.
  rewrite Find_find.
  destruct (list_find (names_entry nm) (Directory.new n)) as [[i e]|] eqn:E; [|done].
  apply list_find_Some in E as (Hi & He & _).
  apply new_not_in_use in Hi. unfold names_entry in He. by rewrite Hi in He.
Qed.

(** A path of one component is looked up in the directory at hand. *)
Lemma SearchPath_single (fuel : nat) (d : Disk) (table : list DirectoryEntry)
    (nm : list ascii) :
  top_level nm → char_at nm 1 ≠ Ret NUL →
  Z.of_nat (length nm) ≤ FileNameMaxLen →
  Directory.SearchPath fuel d table nm 0 = Ret (Directory.Find table nm).
Proof.
  intros [Hhead Htail] Hroot Hlen.
  exact (SearchPath_last fuel d table [] nm Hhead Htail Hlen Hroot).
Qed.

Section Volume.
Variables (fs : FileSystem) (d : Disk) (ml dl : layout) (bits : Bitmap.t)
  (table : list DirectoryEntry) (files : list (option layout)).
Hypothesis Hvol : flat_volume fs d ml dl bits table files.

(** The file of an entry in use can be opened, and its header is the one
    of its layout. *)
Lemma open_entry (j : nat) (e : DirectoryEntry) :
  table !! j = Some e → inUse e = true →
  ∃ l, files !! j = Some (Some l) ∧ 0 ≤ sector e ∧
       OpenFile_new d (sector e) = Ret (mkOpenFile (layout_header l) 0).
Proof.
  destruct (geometry_facts Hgeo) as (HS & HD & HI & _).
  intros Hj Hu.
  destruct (lookup_lt_is_Some_2 files j) as [o Ho].
  { rewrite (fv_files_len _ _ _ _ _ _ _ Hvol). by eapply lookup_lt_Some. }
  pose proof (fv_files _ _ _ _ _ _ _ Hvol j e o Hj Ho) as H.
  destruct o as [l|]; [|congruence]. destruct H as (_ & _ & Hwf & Hon).
  exists l. split_and!; [done| |].
  - assert (Hm : lookupZ bits (sector e) = Some true).
    { apply (fv_marked _ _ _ _ _ _ _ Hvol), elem_of_app. left.
      unfold volume_meta. apply elem_of_app. right. apply elem_of_app. right.
      apply (elem_of_slots slot_meta table files j e (Some l)); [done..|].
      simpl. unfold meta_of. by left. }
    apply lookupZ_lt in Hm. lia.
  - unfold OpenFile_new. by rewrite (on_disk_fetch d (sector e) l HI Hwf Hon).
Qed.

(** [Open] on a path of the root directory. *)
Lemma Open_flat (nm : list ascii) :
  top_level nm → char_at nm 1 ≠ Ret NUL →
  Z.of_nat (length nm) ≤ FileNameMaxLen →
  FileSystem.Open fs d nm =
  match list_find (names_entry nm) table with
  | Some (j, _) =>
      match files !! j with
      | Some (Some l) => Ret (Some (mkOpenFile (layout_header l) 0))
      | _ => Undef
      end
  | None => Ret None
  end.
Proof.
  intros Htop Hroot Hlen. unfold FileSystem.Open.
  rewrite (volume_read_root Hgeo _ _ _ _ _ _ _ Hvol), ret_bind.
  rewrite (SearchPath_single _ _ _ _ Htop Hroot Hlen), ret_bind.
  rewrite Find_find.
  destruct (list_find (names_entry nm) table) as [[j e]|] eqn:E; [|done].
  apply list_find_Some in E as (Hj & He & _).
  unfold names_entry in He. apply andb_true_iff in He as [Hu _].
  destruct (open_entry j e Hj Hu) as (l & -> & Hs & ->).
  by rewrite (proj2 (Z.leb_le 0 _) Hs).
Qed.

End Volume.

(** X18. The two well-known files can be opened again at any time: on
    every volume reached from a formatted one by creations and plain removals
    of regular files in the root directory (paths of one character followed
    by a name "/name"), [FileSystem(false)] opens the
    same free-map file and the same directory file that [FileSystem(true)]
    returned, since no operation rewrites the headers in sectors 0 and 1. *)
Theorem mount_reachable (fs : FileSystem) (d : Disk) :
  flat_reachable fs d → FileSystem.mount d = Ret fs.
Proof.
  destruct (geometry_facts Hgeo) as (HS & HD & HI & _).
  intros (ml & dl & bits & table & files & Hvol & _)%flat_reachable_state.
  unfold FileSystem.mount.
  rewrite (volume_open_root Hgeo _ _ _ _ _ _ _ Hvol).
  unfold OpenFile_new.
  rewrite (on_disk_fetch d FreeMapSector ml HI (fv_map_wf _ _ _ _ _ _ _ Hvol)
             (fv_map_on_disk _ _ _ _ _ _ _ Hvol)).
  by rewrite (fv_fs _ _ _ _ _ _ _ Hvol).
Qed.

Lemma SearchPath_new (fuel : nat) (d : Disk) (n : Z) (nm : list ascii) :
  nm ≠ [] →
  char_at nm 1 ≠ Ret NUL →
  Z.of_nat (length nm) ≤ FileNameMaxLen →
  Directory.SearchPath fuel d (Directory.new n) nm 0 = Ret (-1).
Proof.
  intros Hnm Hroot Hlen.
  assert (Hscan : ∀ i, Directory.scan_slash (drop (Z.to_nat (0 + 1)) nm) 1 = Some i →
                       i ≤ FileNameMaxLen).
  { intros i [Hi Hs]%scan_slash_Some. apply lookup_lt_Some in Hs.
    rewrite length_drop in Hs. lia. }
  destruct (char_at_defined nm 1) as [x Hx].
  { destruct nm; [done|simpl; lia]. }
  assert (Hne : x ≠ NUL) by (intros ->; done).
  destruct fuel; cbn [Directory.SearchPath];
    rewrite Hx, ret_bind, bool_decide_false by done;
    change (1 + 0) with 1; rewrite Hx, ret_bind;
    destruct (Directory.scan_slash _ 1) as [i|];
    rewrite ?(proj2 (Z.ltb_ge _ _)) by (by apply Hscan);
    rewrite ?Find_new, ?bool_decide_true by done; try done;
    rewrite length_drop, (proj2 (Z.ltb_ge _ _)) by lia; done.
Qed.

(** X19. A freshly formatted volume holds no file. [Open] of a path of
    one character, whose second character is the terminator, returns the
    root directory file; [Open] of any longer path of at most
    [FileNameMaxLen] characters returns NULL; and [Open] of the empty path
    is undefined, since [SearchPath] reads the character behind the
    terminator. *)
Theorem Open_on_fresh_volume (blank d0 : Disk) (fs : FileSystem) (nm : list ascii) :
  FileSystem.format blank = Ret (fs, d0) →
  (nm = [] → FileSystem.Open fs d0 nm = Undef) ∧
  (char_at nm 1 = Ret NUL →
   FileSystem.Open fs d0 nm = Ret (Some (directoryFile fs))) ∧
  (nm ≠ [] → char_at nm 1 ≠ Ret NUL → Z.of_nat (length nm) ≤ FileNameMaxLen →
   FileSystem.Open fs d0 nm = Ret None).
Proof.
  intros Hfmt.
  destruct (format_flat_volume Hgeo _ _ _ Hfmt) as (ml & dl & bits & Hvol).
  unfold FileSystem.Open.
  rewrite (volume_read_root Hgeo _ _ _ _ _ _ _ Hvol), ret_bind. split_and!.
  - by intros ->.
  - intros Hroot. unfold FileSystem.path_fuel. cbn [Directory.SearchPath].
    rewrite Hroot, ret_bind, bool_decide_true by done. rewrite ret_bind.
    change (0 <=? DirectorySector) with true. cbv iota.
    by rewrite (volume_open_root Hgeo _ _ _ _ _ _ _ Hvol).
  - intros Hnm Hroot Hlen. by rewrite SearchPath_new.
Qed.

(** The entry a creation adds is the one its name finds. *)
Lemma find_created (table : list DirectoryEntry) (nm : list ascii) (s : Z)
    (dir : bool) (i : nat) (e' : DirectoryEntry) :
  e' = mkDirectoryEntry true s (take (Z.to_nat FileNameMaxLen) nm) dir →
  Directory.Add table nm s dir = (true, <[i := e']> table) →
  (i < length table)%nat →
  list_find (names_entry nm) (<[i := e']> table) = Some (i, e').
Proof.
  intros -> [Hnone _]%Add_true Hi.
  destruct (lookup_lt_is_Some_2 table i Hi) as [e0 He0].
  eapply find_inserted; [done..|]. by apply names_entry_new.
Qed.

(** X20. A file that was created can be opened. [Create] and [Remove]
    reach a file of the root directory by a path of one character followed
    by the name "/name", such as "//a": the base path is that one character
    and resolves to the root directory; [Open] reaches it by "/name". On a
    volume of regular files, after [Create] of such a path returns 1, [Open]
    of the name returns an open file positioned at 0 whose length is the size
    that was asked for. *)
Theorem Create_then_Open (fs : FileSystem) (d : Disk) (c : ascii) (nm : list ascii)
    (size : Z) (d' : Disk) :
  flat_reachable fs d →
  top_level nm → char_at nm 1 ≠ Ret NUL →
  Z.of_nat (length nm) ≤ FileNameMaxLen →
  FileSystem.Create fs d (c :: nm) size false = Ret (1, d') →
  ∃ f, FileSystem.Open fs d' nm = Ret (Some f) ∧
       FileHdr.FileLength (hdr f) = size ∧ seekPosition f = 0.
Proof.
  intros (ml & dl & bits & table & files & Hvol & _)%flat_reachable_state
    Htop Hroot Hlen Hrun.
  destruct (Create_flat_step _ _ _ _ _ _ _ _ _ _ _ Hvol Htop Hrun)
    as (i & s & l & fm' & Hadd & _ & Hi & _ & Hsz & _ & _ & _ & _ & _ & Hvol').
  rewrite (Open_flat _ _ _ _ _ _ _ Hvol' nm Htop Hroot Hlen).
  rewrite (find_created table nm s false i _ eq_refl Hadd Hi).
  rewrite list_lookup_insert_eq
    by (by rewrite (fv_files_len _ _ _ _ _ _ _ Hvol)).
  eexists. split_and!; [done| |done]. done.
Qed.

(** X21. Creating a file leaves the other files as they were: after
    [Create] of a path of one character followed by the name "/name" has
    returned 1, a name "/other" that differs from "/name" within the first
    [FileNameMaxLen] characters opens to what it opened before. *)
Theorem Create_keeps_other_files (fs : FileSystem) (d : Disk) (c : ascii) (nm nm' : list ascii)
    (size : Z) (d' : Disk) :
  flat_reachable fs d →
  top_level nm →
  FileSystem.Create fs d (c :: nm) size false = Ret (1, d') →
  top_level nm' → char_at nm' 1 ≠ Ret NUL →
  Z.of_nat (length nm') ≤ FileNameMaxLen →
  take (Z.to_nat FileNameMaxLen) nm ≠ take (Z.to_nat FileNameMaxLen) nm' →
  FileSystem.Open fs d' nm' = FileSystem.Open fs d nm'.
Proof.
  intros (ml & dl & bits & table & files & Hvol & _)%flat_reachable_state
    Htop Hrun Htop' Hroot Hlen Hne.
  destruct (Create_flat_step _ _ _ _ _ _ _ _ _ _ _ Hvol Htop Hrun)
    as (i & s & l & fm' & Hadd & _ & Hi & Hfi & _ & _ & _ & _ & _ & _ & Hvol').
  rewrite (Open_flat _ _ _ _ _ _ _ Hvol' nm' Htop' Hroot Hlen).
  rewrite (Open_flat _ _ _ _ _ _ _ Hvol nm' Htop' Hroot Hlen).
  destruct (lookup_lt_is_Some_2 table i Hi) as [e0 He0].
  pose proof (fv_files _ _ _ _ _ _ _ Hvol i e0 None He0 Hfi) as Hu. simpl in Hu.
  rewrite (find_insert_other table nm' i e0); [|done| |].
  - destruct (list_find (names_entry nm') table) as [[j y]|] eqn:E; [|done].
    apply list_find_Some in E as (Hj & Hy & _).
    assert (j ≠ i).
    { intros ->. unfold names_entry in Hy. rewrite He0 in Hj. injection Hj as <-.
      by rewrite Hu in Hy. }
    by rewrite list_lookup_insert_ne.
  - unfold names_entry. by rewrite Hu.
  - by rewrite names_entry_new.
Qed.

Lemma ExtractBasePath_top (baseCap nameCap : Z) (c : ascii) (nm : list ascii) :
  top_level nm → 1 < baseCap → Z.of_nat (length nm) < nameCap →
  FileSystem.ExtractBasePath baseCap nameCap (c :: nm) = Ret ([c], nm).
Proof.
  intros [Hhead Htail] Hb Hn.
  by apply (ExtractBasePath_app baseCap nameCap [c] nm).
Qed.

(** X22. A name is created once: on a volume of regular files, after
    [Create] of a path of one character followed by the name "/name" has
    returned 1, every further [Create] of that path, with any size and either
    kind, returns 0 and leaves the disk as it is. *)
Theorem Create_twice (fs : FileSystem) (d : Disk) (c : ascii) (nm : list ascii)
    (size : Z) (d' : Disk) (size' : Z) (dir' : bool) :
  flat_reachable fs d →
  top_level nm →
  FileSystem.Create fs d (c :: nm) size false = Ret (1, d') →
  FileSystem.Create fs d' (c :: nm) size' dir' = Ret (0, d').
Proof.
  intros (ml & dl & bits & table & files & Hvol & _)%flat_reachable_state Htop Hrun.
  destruct (Create_flat_step _ _ _ _ _ _ _ _ _ _ _ Hvol Htop Hrun)
    as (i & s & l & fm' & Hadd & _ & Hi & _ & _ & _ & _ & Hext & Hn & Hb & Hvol').
  assert (Hs : 0 ≤ s).
  { destruct Hext as (_ & _ & Hfree & _).
    assert (Hf : lookupZ bits s = Some false) by (apply Hfree; by left).
    apply lookupZ_lt in Hf. lia. }
  unfold FileSystem.Create.
  rewrite (volume_read_root Hgeo _ _ _ _ _ _ _ Hvol'), ret_bind.
  rewrite (ExtractBasePath_top _ _ c nm Htop Hb Hn), ret_bind. cbv beta iota.
  rewrite SearchPath_root_base, ret_bind.
  rewrite bool_decide_false by done.
  rewrite (volume_open_root Hgeo _ _ _ _ _ _ _ Hvol'), ret_bind.
  rewrite (volume_read_root Hgeo _ _ _ _ _ _ _ Hvol'), ret_bind.
  rewrite Find_find, (find_created table nm s false i _ eq_refl Hadd Hi).
  simpl. by rewrite bool_decide_true by lia.
Qed.

Lemma length_Remove (table : list DirectoryEntry) (nm : list ascii) :
  length (Directory.Remove table nm).2 = length table.
Proof.
  rewrite Remove_find.
  destruct (list_find _ _) as [[i e]|]; simpl; [by rewrite length_insert|done].
Qed.

Lemma insert_release_same (table : list DirectoryEntry) (i j : nat)
    (e e' : DirectoryEntry) :
  table !! i = Some e' → inUse e' = true →
  <[j := Directory.release e]> table = <[i := Directory.release e']> table →
  j = i.
Proof.
  intros Hi Hu Heq. destruct (decide (j = i)) as [|Hne]; [done|].
  assert (H : (<[j := Directory.release e]> table) !! i
              = (<[i := Directory.release e']> table) !! i) by (by rewrite Heq).
  rewrite list_lookup_insert_ne in H by done.
  rewrite list_lookup_insert_eq in H by (by eapply lookup_lt_Some).
  rewrite Hi in H. injection H as H. rewrite H in Hu. done.
Qed.

(** The state a creation in the root directory leaves, as the steps of a
    removal of the same path see it. *)
Lemma created_file (fs : FileSystem) (d : Disk) (c : ascii) (nm : list ascii) (size : Z)
    (d1 : Disk) :
  flat_reachable fs d → top_level nm →
  FileSystem.Create fs d (c :: nm) size false = Ret (1, d1) →
  ∃ ml dl bits table files i s l fm' e',
    flat_volume fs d ml dl bits table files ∧
    flat_volume fs d1 ml dl fm' (<[i := e']> table) (<[i := Some l]> files) ∧
    sector e' = s ∧ inUse e' = true ∧ (i < length table)%nat ∧
    list_find (names_entry nm) (<[i := e']> table) = Some (i, e') ∧
    lay_size l = size ∧ well_formed_layout l ∧ on_disk d1 s l ∧
    Z.of_nat (length (lay_inds l))
      = Z.max 0 (Z.min (divRoundUp (divRoundUp size SectorSize - NumDirect) NumMaxSect)
                       NumIndirect) ∧
    extends bits fm' (meta_of s l ++ data_of l) ∧
    0 ≤ s ∧ s ≠ DirectorySector ∧
    Z.of_nat (length nm) < 10 ∧ 1 < MAX_PATH_LEN + 1.
Proof.
  intros (ml & dl & bits & table & files & Hvol & _)%flat_reachable_state Htop Hrun.
  destruct (Create_flat_step _ _ _ _ _ _ _ _ _ _ _ Hvol Htop Hrun)
    as (i & s & l & fm' & Hadd & _ & Hi & _ & Hsz & Hwf & Hlil & Hext & Hn & Hb & Hvol').
  set (e' := mkDirectoryEntry true s (take (Z.to_nat FileNameMaxLen) nm) false) in *.
  assert (Hf : lookupZ bits s = Some false).
  { destruct Hext as (_ & _ & Hfree & _). apply Hfree. by left. }
  assert (Hon : on_disk d1 s l).
  { assert (He : (<[i:=e']> table) !! i = Some e') by (by apply list_lookup_insert_eq).
    assert (Hl : (<[i:=Some l]> files) !! i = Some (Some l)).
    { apply list_lookup_insert_eq. by rewrite (fv_files_len _ _ _ _ _ _ _ Hvol). }
    by destruct (fv_files _ _ _ _ _ _ _ Hvol' i e' (Some l) He Hl) as (_ & _ & _ & ?). }
  exists ml, dl, bits, table, files, i, s, l, fm', e'.
  split_and!; try done.
  - by apply (find_created table nm s false).
  - apply lookupZ_lt in Hf. lia.
  - intros ->.
    assert (Hm : lookupZ bits DirectorySector = Some true); [|congruence].
    apply (fv_marked _ _ _ _ _ _ _ Hvol), elem_of_app. left.
    unfold volume_meta. apply elem_of_app. right. apply elem_of_app. left.
    unfold meta_of. by left.
Qed.

(** X23. Creating and then removing a file without indirect blocks
    succeeds and restores the free map on the disk: on a volume of regular
    files (with [NumMaxSect ≤ NumIndirect], so that [Deallocate] stays
    inside the tables of the header), after [Create] of a path of one
    character followed by the name "/name" with a size of at most [NumDirect]
    sectors, [Remove] of that path without recursion returns TRUE, and the
    free map stored on the disk is then the one stored before the
    creation. *)
Theorem Create_then_Remove (fs : FileSystem) (d : Disk) (c : ascii) (nm : list ascii)
    (size : Z) (d1 : Disk) (fuel : nat) :
  NumMaxSect ≤ NumIndirect →
  flat_reachable fs d → top_level nm →
  Z.of_nat (length nm) ≤ FileNameMaxLen →
  FileSystem.Create fs d (c :: nm) size false = Ret (1, d1) →
  divRoundUp size SectorSize ≤ NumDirect →
  ∃ d2, FileSystem.Remove fuel fs d1 (c :: nm) false = Ret (true, d2) ∧
        persisted_map fs d2 = persisted_map fs d.
Proof.
  destruct (geometry_facts Hgeo) as (HS & HD & HI & HM & HD1 & HDM & _).
  intros HMI Hreach Htop Hlen Hrun Hsmall.
  destruct (created_file fs d c nm size d1 Hreach Htop Hrun)
    as (ml & dl & bits & table & files & i & s & l & fm' & e' & Hvol & Hvol' &
        Hse & Hue & Hi & Hfind & Hsz & Hwf & Hon & Hlil & Hext & Hs & Hs1 & Hn & Hb).
  assert (Hinds : lay_inds l = []).
  { assert (divRoundUp (divRoundUp size SectorSize - NumDirect) NumMaxSect ≤ 0)
      by (apply divRoundUp_nonpos; lia).
    destruct (lay_inds l); [done|simpl in Hlil; lia]. }
  assert (Hnew : meta_of s l ++ data_of l = s :: lay_direct l).
  { unfold meta_of, data_of. rewrite Hinds. simpl. by rewrite app_nil_r. }
  rewrite Hnew in Hext. destruct Hext as (Hlen' & Hnd & Hfree & Hlk & _).
  apply NoDup_cons in Hnd as [Hsd Hnd].
  destruct Hwf as (Hdl & _ & Hpos & _).
  unfold data_of in Hpos. rewrite Hinds in Hpos. simpl in Hpos.
  rewrite app_nil_r in Hpos.
  destruct (Deallocate_direct_total (proj1 Hgeo) fuel (lay_size l) (lay_direct l) fm')
    as (fm1 & Hd & Hlen1 & _ & Hlk1); [done..| |].
  { intros z Hz. rewrite Hlk, decide_True; [done|by right]. }
  assert (Hc : ∃ fm2, Bitmap.Clear fm1 s = Ret fm2).
  { unfold Bitmap.Clear. rewrite Hlk1, decide_False by done.
    rewrite Hlk, decide_True by (by left). eauto. }
  destruct Hc as [fm2 Hc].
  destruct (volume_write_map Hgeo _ _ _ _ _ _ _ Hvol' d1 fm2) as (m0 & Hm0 & Hw1).
  assert (Hrem : (Directory.Remove (<[i:=e']> table) nm).2
                 = <[i := Directory.release e']> (<[i:=e']> table))
    by (by rewrite Remove_find, Hfind).
  assert (Htl : Z.of_nat (length (Directory.Remove (<[i:=e']> table) nm).2)
                = NumDirEntries).
  { rewrite length_Remove. apply (fv_table_len _ _ _ _ _ _ _ Hvol'). }
  destruct (volume_write_root Hgeo _ _ _ _ _ _ _ Hvol' (<[m0:=SMap fm2]> d1) _ Htl)
    as (r0 & Hr0 & Hw2).
  assert (Hrun2 : FileSystem.Remove fuel fs d1 (c :: nm) false
                  = Ret (true, <[r0:=SDir (Directory.Remove (<[i:=e']> table) nm).2]>
                                 (<[m0:=SMap fm2]> d1))).
  { unfold FileSystem.Remove, Directory.OPENDIR.
    rewrite (volume_read_root Hgeo _ _ _ _ _ _ _ Hvol'), ret_bind.
    rewrite (ExtractBasePath_top _ _ c nm Htop Hb) by lia. rewrite ret_bind.
    cbv beta iota.
    rewrite SearchPath_root_base, ret_bind.
    rewrite bool_decide_false by done.
    rewrite (volume_open_root Hgeo _ _ _ _ _ _ _ Hvol'), ret_bind.
    rewrite (volume_read_root Hgeo _ _ _ _ _ _ _ Hvol'), ret_bind.
    cbv beta iota zeta.
    assert (Hf : Directory.Find (<[i:=e']> table) nm = s)
      by (by rewrite Find_find, Hfind).
    rewrite Hf. rewrite !bool_decide_false by (done || lia). simpl orb. cbv iota.
    rewrite (volume_read_map Hgeo _ _ _ _ _ _ _ Hvol'), !ret_bind.
    cbv beta iota.
    assert (Hwf' : well_formed_layout l).
    { unfold well_formed_layout, data_of. rewrite Hinds. simpl.
      rewrite app_nil_r. split_and!; [done|lia|done|done]. }
    rewrite (on_disk_fetch d1 s l HI Hwf' Hon), ret_bind.
    unfold layout_header. rewrite Hinds, Hd, ret_bind, Hc, ret_bind.
    cbv beta iota zeta. by rewrite Hw1, ret_bind, Hw2. }
  eexists. split; [exact Hrun2|].
  destruct (Remove_flat_step _ _ _ _ _ _ _ _ _ _ _ Hvol' Htop Hrun2)
    as (i2 & e2 & l2 & fm2' & Hi2 & Hu2 & _ & Hrem2 & Hfl2 & _ & Hlk2 & Hlen2 & Hvol2).
  assert (He' : (<[i:=e']> table) !! i = Some e') by (by apply list_lookup_insert_eq).
  assert (i2 = i) as ->.
  { rewrite Hrem in Hrem2. symmetry in Hrem2.
    by apply (insert_release_same _ _ _ _ _ He' Hue Hrem2). }
  assert (e2 = e') as -> by congruence.
  rewrite list_lookup_insert_eq in Hfl2
    by (by rewrite (fv_files_len _ _ _ _ _ _ _ Hvol)).
  assert (l2 = l) as -> by congruence.
  unfold persisted_map.
  rewrite (volume_read_map Hgeo _ _ _ _ _ _ _ Hvol2).
  rewrite (volume_read_map Hgeo _ _ _ _ _ _ _ Hvol).
  f_equal. apply lookupZ_ext. intros z. rewrite Hlk2, Hlk, Hse.
  destruct (decide (z = s)) as [->|Hzs].
  - symmetry. apply Hfree. by left.
  - destruct (decide (z ∈ lay_direct l)) as [Hz|Hz].
    + symmetry. apply Hfree. by right.
    + rewrite decide_False; [done|]. by intros [?|?]%elem_of_cons.
Qed.

(** X24. A file with indirect blocks cannot be removed: on a volume of
    regular files, after [Create] of a path of one character followed by the
    name "/name" with a size of more than [NumDirect] sectors has returned 1,
    [Remove] of that path without recursion returns for no iteration budget:
    it stops in [Deallocate]. *)
Theorem Remove_never_returns_big_file (fs : FileSystem) (d : Disk)
    (c : ascii) (nm : list ascii) (size : Z) (d1 : Disk) :
  0 < NumIndirect →
  flat_reachable fs d → top_level nm →
  FileSystem.Create fs d (c :: nm) size false = Ret (1, d1) →
  NumDirect < divRoundUp size SectorSize →
  ∀ fuel r, FileSystem.Remove fuel fs d1 (c :: nm) false ≠ Ret r.
Proof.
  destruct (geometry_facts Hgeo) as (HS & HD & HI & HM & HD1 & HDM & _).
  intros HI1 Hreach Htop Hrun Hbig fuel r Hrun2.
  destruct (created_file fs d c nm size d1 Hreach Htop Hrun)
    as (ml & dl & bits & table & files & i & s & l & fm' & e' & Hvol & Hvol' &
        Hse & Hue & Hi & Hfind & Hsz & Hwf & Hon & Hlil & Hext & Hs & Hs1 & Hn & Hb).
  unfold FileSystem.Remove, Directory.OPENDIR in Hrun2.
  rewrite (volume_read_root Hgeo _ _ _ _ _ _ _ Hvol'), ret_bind in Hrun2.
  apply bind_Ret in Hrun2 as ([base leaf] & Hex & Hrun2).
  destruct (top_level_split _ _ _ _ _ _ Htop Hex) as [-> ->].
  rewrite SearchPath_root_base, ret_bind in Hrun2.
  rewrite bool_decide_false in Hrun2 by done.
  rewrite (volume_open_root Hgeo _ _ _ _ _ _ _ Hvol'), ret_bind in Hrun2.
  rewrite (volume_read_root Hgeo _ _ _ _ _ _ _ Hvol'), ret_bind in Hrun2.
  cbv beta iota zeta in Hrun2.
  assert (Hf : Directory.Find (<[i:=e']> table) nm = s)
    by (by rewrite Find_find, Hfind).
  rewrite Hf in Hrun2. rewrite !bool_decide_false in Hrun2 by (done || lia).
  simpl orb in Hrun2. cbv iota in Hrun2.
  rewrite (volume_read_map Hgeo _ _ _ _ _ _ _ Hvol'), !ret_bind in Hrun2.
  cbv beta iota in Hrun2.
  rewrite (on_disk_fetch d1 s l HI Hwf Hon), ret_bind in Hrun2.
  apply bind_Ret in Hrun2 as (fm1 & Hdealloc & _).
  assert (Hpos : 0 < divRoundUp (divRoundUp size SectorSize - NumDirect) NumMaxSect)
    by (apply divRoundUp_pos; lia).
  destruct (lay_inds l) as [|x inds] eqn:E; [simpl in Hlil; lia|].
  destruct Hwf as (_ & _ & _ & Hne). rewrite E in Hne.
  apply Forall_cons in Hne as [Hx _].
  revert Hdealloc.
  apply (Deallocate_stuck fuel _ (indirect_header x.2)); [done| |simpl; lia].
  unfold layout_header. rewrite header_of_child by lia. by rewrite E.
Qed.

(** The removal of a name that names an entry. *)
Lemma removed_file (fs : FileSystem) (d : Disk) (c : ascii) (nm : list ascii) (fuel : nat)
    (d' : Disk) :
  flat_reachable fs d → top_level nm →
  FileSystem.Remove fuel fs d (c :: nm) false = Ret (true, d') →
  ∃ ml dl bits table files fm2 i e table',
    flat_volume fs d ml dl bits table files ∧
    distinct_names table ∧
    Directory.Remove table nm = (true, table') ∧
    table !! i = Some e ∧ names_entry nm e ∧
    flat_volume fs d' ml dl fm2 table' (<[i := None]> files).
Proof.
  intros (ml & dl & bits & table & files & Hvol & Hdist)%flat_reachable_state Htop Hrun.
  destruct (Remove_flat_step _ _ _ _ _ _ _ _ _ _ _ Hvol Htop Hrun)
    as (i & e & l & fm2 & Hi & Hu & Hf & Hrem & _ & _ & _ & _ & Hvol').
  rewrite Remove_find in Hrem. rewrite Find_find in Hf.
  destruct (list_find (names_entry nm) table) as [[j y]|] eqn:E; simpl in *.
  - apply list_find_Some in E as (Hj & Hy & _).
    assert (Hyu : inUse y = true)
      by (unfold names_entry in Hy; by apply andb_true_iff in Hy as [? _]).
    symmetry in Hrem.
    pose proof (insert_release_same table j i e y Hj Hyu Hrem) as ->.
    assert (y = e) as -> by congruence.
    exists ml, dl, bits, table, files, fm2, j, e, (<[j := Directory.release e]> table).
    split_and!; try done.
    rewrite Remove_find.
    assert (E : list_find (names_entry nm) table = Some (j, e)); [|by rewrite E].
    apply list_find_Some. split_and!; [done|done|].
    intros k z Hk Hlt Hz.
    enough (k = j) by lia. apply (Hdist k j z e Hk Hj); [|done|].
    + unfold names_entry in Hz. by apply andb_true_iff in Hz as [? _].
    + by apply (names_entry_same nm).
  - destruct (open_entry _ _ _ _ _ _ _ Hvol i e Hi Hu) as (? & _ & ? & _). lia.
Qed.

(** X25. A file that was removed is gone: on a volume of regular files,
    after [Remove] without recursion of a path of one character followed by
    the name "/name" has returned TRUE, [Open] of "/name" returns NULL. *)
Theorem Remove_then_Open (fs : FileSystem) (d : Disk) (c : ascii) (nm : list ascii)
    (fuel : nat) (d' : Disk) :
  flat_reachable fs d →
  top_level nm → char_at nm 1 ≠ Ret NUL →
  Z.of_nat (length nm) ≤ FileNameMaxLen →
  FileSystem.Remove fuel fs d (c :: nm) false = Ret (true, d') →
  FileSystem.Open fs d' nm = Ret None.
Proof.
  intros Hreach Htop Hroot Hlen Hrun.
  destruct (removed_file fs d c nm fuel d' Hreach Htop Hrun)
    as (ml & dl & bits & table & files & fm2 & i & e & table' &
        Hvol & Hdist & Hrem & _ & _ & Hvol').
  rewrite (Open_flat _ _ _ _ _ _ _ Hvol' nm Htop Hroot Hlen).
  by rewrite (Remove_find_gone table table' nm Hdist Hrem).
Qed.

(** X26. Removing a file leaves the other files as they were: after
    [Remove] without recursion of a path of one character followed by the
    name "/name" has returned TRUE, a name "/other" that differs from "/name"
    within the first [FileNameMaxLen] characters opens to what it opened
    before. *)
Theorem Remove_keeps_other_files (fs : FileSystem) (d : Disk) (c : ascii) (nm nm' : list ascii)
    (fuel : nat) (d' : Disk) :
  flat_reachable fs d →
  top_level nm →
  FileSystem.Remove fuel fs d (c :: nm) false = Ret (true, d') →
  top_level nm' → char_at nm' 1 ≠ Ret NUL →
  Z.of_nat (length nm') ≤ FileNameMaxLen →
  take (Z.to_nat FileNameMaxLen) nm ≠ take (Z.to_nat FileNameMaxLen) nm' →
  FileSystem.Open fs d' nm' = FileSystem.Open fs d nm'.
Proof.
  intros Hreach Htop Hrun Htop' Hroot Hlen Hne.
  destruct (removed_file fs d c nm fuel d' Hreach Htop Hrun)
    as (ml & dl & bits & table & files & fm2 & i & e & table' &
        Hvol & Hdist & Hrem & Hi & He & Hvol').
  rewrite (Open_flat _ _ _ _ _ _ _ Hvol' nm' Htop' Hroot Hlen).
  rewrite (Open_flat _ _ _ _ _ _ _ Hvol nm' Htop' Hroot Hlen).
  rewrite (Remove_find_other table table' nm nm' Hrem Hne).
  destruct (list_find (names_entry nm') table) as [[j y]|] eqn:E; [|done].
  apply list_find_Some in E as (Hj & Hy & _).
  rewrite list_lookup_insert_ne; [done|]. intros ->.
  assert (y = e) as -> by congruence.
  unfold names_entry in He, Hy.
  apply andb_true_iff in He as [_ He%same_name_true].
  apply andb_true_iff in Hy as [_ Hy%same_name_true]. congruence.
Qed.

End FlatFacade.

Section SmallVolumeFacade.
#[local] Existing Instance small_volume.

Lemma top_level_b : top_level (path "/b").
Proof.
  split; [reflexivity|]. simpl. intros H.
  apply elem_of_cons in H as [H|H]; [discriminate|]. by apply elem_of_nil in H.
Qed.

Lemma names_a_b_differ :
  take (Z.to_nat FileNameMaxLen) (path "/a") ≠ take (Z.to_nat FileNameMaxLen) (path "/b").
Proof. vm_compute. discriminate. Qed.

Lemma names_b_a_differ :
  take (Z.to_nat FileNameMaxLen) (path "/b") ≠ take (Z.to_nat FileNameMaxLen) (path "/a").
Proof. vm_compute. discriminate. Qed.

Lemma second_char_a : char_at (path "/a") 1 ≠ Ret NUL.
Proof. vm_compute. discriminate. Qed.

Lemma second_char_b : char_at (path "/b") 1 ≠ Ret NUL.
Proof. vm_compute. discriminate. Qed.

(** The volume after formatting, and after creating "/a" with a size. *)
Ltac formatted := eapply (flat_format _ ∅); vm_compute; reflexivity.
Ltac created_a size :=
  eapply (flat_create _ _ SLASH (path "/a") size);
    [formatted | exact top_level_a | vm_compute; reflexivity].

Lemma mount_reachable_witness :
  ∃ fs d0 d1,
    FileSystem.format ∅ = Ret (fs, d0) ∧
    FileSystem.Create fs d0 (path "//a") 200 false = Ret (1, d1) ∧
    FileSystem.mount d1 = Ret fs.
Proof.
  eexists _, _, _. do 2 (split; [vm_compute; reflexivity|]).
  apply (mount_reachable small_volume_geometry). created_a 200.
Defined.

Lemma Open_on_fresh_volume_witness :
  ∃ fs d0,
    FileSystem.format ∅ = Ret (fs, d0) ∧
    FileSystem.Open fs d0 [] = Undef ∧
    FileSystem.Open fs d0 (path "/") = Ret (Some (directoryFile fs)) ∧
    FileSystem.Open fs d0 (path "/a") = Ret None.
Proof.
  eexists _, _. split; [vm_compute; reflexivity|].
  match goal with
  | |- FileSystem.Open ?fs ?d0 _ = _ ∧ _ =>
      assert (Hfmt : FileSystem.format ∅ = Ret (fs, d0)) by (vm_compute; reflexivity);
      pose proof (Open_on_fresh_volume small_volume_geometry ∅ d0 fs [] Hfmt)
        as (Hempty & _ & _);
      pose proof (Open_on_fresh_volume small_volume_geometry ∅ d0 fs (path "/") Hfmt)
        as (_ & Hroot & _);
      pose proof (Open_on_fresh_volume small_volume_geometry ∅ d0 fs (path "/a") Hfmt)
        as (_ & _ & Hnone)
  end.
  split_and!.
  - by apply Hempty.
  - apply Hroot. vm_compute. reflexivity.
  - apply Hnone; [done|vm_compute; discriminate|simpl; lia].
Defined.

Lemma Create_then_Open_witness :
  ∃ fs d0 d1,
    FileSystem.format ∅ = Ret (fs, d0) ∧
    FileSystem.Create fs d0 (path "//a") 200 false = Ret (1, d1) ∧
    ∃ f, FileSystem.Open fs d1 (path "/a") = Ret (Some f) ∧
         FileHdr.FileLength (hdr f) = 200 ∧ seekPosition f = 0.
Proof.
  eexists _, _, _. split; [vm_compute; reflexivity|].
  match goal with
  | |- FileSystem.Create ?fs ?d0 _ _ _ = _ ∧ _ =>
      split; [vm_compute; reflexivity|];
      eapply (Create_then_Open small_volume_geometry fs d0 SLASH (path "/a") 200)
  end.
  - formatted.
  - exact top_level_a.
  - exact second_char_a.
  - simpl. lia.
  - vm_compute. reflexivity.
Defined.

Lemma Create_keeps_other_files_witness :
  ∃ fs d0 d1 d2,
    FileSystem.format ∅ = Ret (fs, d0) ∧
    FileSystem.Create fs d0 (path "//a") 200 false = Ret (1, d1) ∧
    FileSystem.Create fs d1 (path "//b") 100 false = Ret (1, d2) ∧
    FileSystem.Open fs d2 (path "/a") = FileSystem.Open fs d1 (path "/a").
Proof.
  eexists _, _, _, _. do 2 (split; [vm_compute; reflexivity|]).
  match goal with
  | |- FileSystem.Create ?fs ?d1 _ _ _ = _ ∧ _ =>
      split; [vm_compute; reflexivity|];
      eapply (Create_keeps_other_files small_volume_geometry fs d1 SLASH (path "/b")
                (path "/a") 100)
  end.
  - created_a 200.
  - exact top_level_b.
  - vm_compute. reflexivity.
  - exact top_level_a.
  - exact second_char_a.
  - simpl. lia.
  - exact names_b_a_differ.
Defined.

Lemma Create_twice_witness :
  ∃ fs d0 d1,
    FileSystem.format ∅ = Ret (fs, d0) ∧
    FileSystem.Create fs d0 (path "//a") 200 false = Ret (1, d1) ∧
    FileSystem.Create fs d1 (path "//a") 50 true = Ret (0, d1).
Proof.
  eexists _, _, _. split; [vm_compute; reflexivity|].
  match goal with
  | |- FileSystem.Create ?fs ?d0 _ _ _ = _ ∧ _ =>
      split; [vm_compute; reflexivity|];
      eapply (Create_twice small_volume_geometry fs d0 SLASH (path "/a") 200 _ 50 true)
  end.
  - formatted.
  - exact top_level_a.
  - vm_compute. reflexivity.
Defined.

Lemma Create_then_Remove_witness :
  ∃ fs d0 d1,
    FileSystem.format ∅ = Ret (fs, d0) ∧
    FileSystem.Create fs d0 (path "//a") 200 false = Ret (1, d1) ∧
    ∃ d2, FileSystem.Remove 0 fs d1 (path "//a") false = Ret (true, d2) ∧
          persisted_map fs d2 = persisted_map fs d0.
Proof.
  eexists _, _, _. split; [vm_compute; reflexivity|].
  match goal with
  | |- FileSystem.Create ?fs ?d0 _ _ _ = _ ∧ _ =>
      split; [vm_compute; reflexivity|];
      eapply (Create_then_Remove small_volume_geometry fs d0 SLASH (path "/a") 200 _ 0)
  end.
  - simpl. lia.
  - formatted.
  - exact top_level_a.
  - simpl. lia.
  - vm_compute. reflexivity.
  - vm_compute. discriminate.
Defined.

Lemma Remove_never_returns_big_file_witness :
  ∃ fs d0 d1,
    FileSystem.format ∅ = Ret (fs, d0) ∧
    FileSystem.Create fs d0 (path "//a") 640 false = Ret (1, d1) ∧
    ∀ fuel r, FileSystem.Remove fuel fs d1 (path "//a") false ≠ Ret r.
Proof.
  eexists _, _, _. split; [vm_compute; reflexivity|].
  match goal with
  | |- FileSystem.Create ?fs ?d0 _ _ _ = _ ∧ _ =>
      split; [vm_compute; reflexivity|];
      eapply (Remove_never_returns_big_file small_volume_geometry fs d0 SLASH (path "/a") 640)
  end.
  - simpl. lia.
  - formatted.
  - exact top_level_a.
  - vm_compute. reflexivity.
  - vm_compute. reflexivity.
Defined.

Lemma Remove_then_Open_witness :
  ∃ fs d0 d1 d2,
    FileSystem.format ∅ = Ret (fs, d0) ∧
    FileSystem.Create fs d0 (path "//a") 200 false = Ret (1, d1) ∧
    FileSystem.Remove 0 fs d1 (path "//a") false = Ret (true, d2) ∧
    FileSystem.Open fs d2 (path "/a") = Ret None.
Proof.
  eexists _, _, _, _. do 2 (split; [vm_compute; reflexivity|]).
  match goal with
  | |- FileSystem.Remove _ ?fs ?d1 _ _ = _ ∧ _ =>
      split; [vm_compute; reflexivity|];
      eapply (Remove_then_Open small_volume_geometry fs d1 SLASH (path "/a") 0)
  end.
  - created_a 200.
  - exact top_level_a.
  - exact second_char_a.
  - simpl. lia.
  - vm_compute. reflexivity.
Defined.

Lemma Remove_keeps_other_files_witness :
  ∃ fs d0 d1 d2 d3,
    FileSystem.format ∅ = Ret (fs, d0) ∧
    FileSystem.Create fs d0 (path "//a") 200 false = Ret (1, d1) ∧
    FileSystem.Create fs d1 (path "//b") 100 false = Ret (1, d2) ∧
    FileSystem.Remove 0 fs d2 (path "//a") false = Ret (true, d3) ∧
    FileSystem.Open fs d3 (path "/b") = FileSystem.Open fs d2 (path "/b").
Proof.
  eexists _, _, _, _, _. do 3 (split; [vm_compute; reflexivity|]).
  match goal with
  | |- FileSystem.Remove _ ?fs ?d2 _ _ = _ ∧ _ =>
      split; [vm_compute; reflexivity|];
      eapply (Remove_keeps_other_files small_volume_geometry fs d2 SLASH (path "/a")
                (path "/b") 0)
  end.
  - eapply (flat_create _ _ SLASH (path "/b") 100);
      [created_a 200 | exact top_level_b | vm_compute; reflexivity].
  - exact top_level_a.
  - vm_compute. reflexivity.
  - exact top_level_b.
  - exact second_char_b.
  - simpl. lia.
  - exact names_a_b_differ.
Defined.

End SmallVolumeFacade.

(** ** The table of open files, continued *)
Section OpenFiles.
Context {G : Geometry}.

(** The loop of [OpenFileForId] stops at the lowest free slot. *)
Lemma OpenFileForId_loop (MAX_SYS_OPENF : Z) (table : list (option OpenFile))
    (file : option OpenFile) (fd : Z) :
  1 ≤ fd ≤ MAX_SYS_OPENF →
  lookupZ table fd = Some None →
  (∀ k, 1 ≤ k < fd → ∃ f, lookupZ table k = Some (Some f)) →
  for_each (seqZ 0 (MAX_SYS_OPENF + 1))
    (λ fd table,
       let fd := fd + 1 in
       slot ← load table fd;
       match slot with
       | None => table' ← store table fd file; Ret (Exit (fd, table'))
       | Some _ => Ret (Next table)
       end)
    table
  = Ret (Exit (fd, <[Z.to_nat fd := file]> table)).
Proof.
  intros Hfd Hfree Hbusy.
  set (I := λ (i : Z) (tbl : list (option OpenFile)), tbl = table ∧ i ≤ fd - 1).
  set (Q := λ q : Z * list (option OpenFile), q = (fd, <[Z.to_nat fd := file]> table)).
  match goal with
  | |- for_each _ ?body _ = _ =>
      destruct (for_each_total I Q body (MAX_SYS_OPENF + 1) table) as (r & Hrun & Hr)
  end.
  - lia.
  - unfold I. split; [done|lia].
  - intros i tbl Hi [-> Hle]. cbv zeta.
    destruct (decide (i + 1 = fd)) as [Heq|Hne].
    + rewrite Heq. rewrite (proj2 (load_Ret _ _ _) Hfree), ret_bind.
      pose proof (lookupZ_lt _ _ _ Hfree) as Hlt.
      unfold store. rewrite bool_decide_true by lia. rewrite ret_bind.
      eexists. split; [done|]. by unfold Q.
    + destruct (Hbusy (i + 1)) as [f Hf]; [lia|].
      rewrite (proj2 (load_Ret _ _ _) Hf), ret_bind.
      eexists. split; [done|]. unfold I. split; [done|lia].
  - rewrite Hrun. destruct r as [tbl|q].
    + destruct Hr as [_ Hr]. lia.
    + by rewrite Hr.
Qed.

(** X27. [OpenFileForId] hands out the lowest free descriptor from 1 on:
    when slot [fd] of the table, with [1 ≤ fd ≤ MAX_SYS_OPENF], is the first
    after slot 0 that holds no open file, the call returns [fd], and the table
    it leaves is the table with the result of [Open] stored in slot [fd];
    slot 0 is never used. *)
Theorem OpenFileForId_lowest_free (MAX_SYS_OPENF : Z) (fs : FileSystem)
    (d : Disk) (table : list (option OpenFile)) (nm : list ascii)
    (file : option OpenFile) (fd : Z) :
  FileSystem.Open fs d nm = Ret file →
  1 ≤ fd ≤ MAX_SYS_OPENF →
  lookupZ table fd = Some None →
  (∀ k, 1 ≤ k < fd → ∃ f, lookupZ table k = Some (Some f)) →
  FileSystem.OpenFileForId MAX_SYS_OPENF fs d table nm
  = Ret (fd, <[Z.to_nat fd := file]> table).
Proof.
  intros Hopen Hfd Hfree Hbusy. unfold FileSystem.OpenFileForId.
  run_with Hopen.
  pose proof (OpenFileForId_loop MAX_SYS_OPENF table file fd Hfd Hfree Hbusy) as Hloop.
  cbv zeta in Hloop. run_with Hloop.
  by rewrite (proj2 (Z.leb_le fd MAX_SYS_OPENF)) by lia.
Qed.

(** X28. A descriptor that [OpenFileForId] returned can be closed, and
    closing it restores the table. The call returns a descriptor also when
    [Open] found no file: then NULL is stored, the table is unchanged, and
    [CloseFileId] on the descriptor returns 0. *)
Theorem OpenFileForId_then_CloseFileId (MAX_SYS_OPENF : Z) (fs : FileSystem)
    (d : Disk) (table : list (option OpenFile)) (nm : list ascii)
    (fd : Z) (table' : list (option OpenFile)) :
  FileSystem.OpenFileForId MAX_SYS_OPENF fs d table nm = Ret (fd, table') →
  ∃ file,
    FileSystem.Open fs d nm = Ret file ∧
    1 ≤ fd ≤ MAX_SYS_OPENF ∧
    lookupZ table fd = Some None ∧
    FileSystem.CloseFileId table' fd
    = Ret (match file with Some _ => 1 | None => 0 end, table).
Proof.
  unfold FileSystem.OpenFileForId. intros Hrun.
  apply bind_Ret in Hrun as (file & Hopen & Hrun).
  apply bind_Ret in Hrun as (r & Hloop & Hrun).
  exists file. split; [done|].
  set (I := λ (i : Z) (tbl : list (option OpenFile)), tbl = table).
  set (Q := λ q : Z * list (option OpenFile),
         1 ≤ q.1 ≤ MAX_SYS_OPENF + 1 ∧ lookupZ table q.1 = Some None ∧
         q.2 = <[Z.to_nat q.1 := file]> table).
  assert (Hr : match r with Next s' => I (Z.max 0 (MAX_SYS_OPENF + 1)) s' | Exit q => Q q end).
  { refine (for_each_inv I Q _ (MAX_SYS_OPENF + 1) table r _ _ Hloop);
      [reflexivity|].
    intros i tbl x Hi Htbl Hbody. unfold I in Htbl. subst tbl. cbv zeta in Hbody.
    apply bind_Ret in Hbody as (slot & Hslot%load_Ret & Hbody).
    destruct slot as [f|].
    - by injection Hbody as <-.
    - apply bind_Ret in Hbody as (tbl' & [_ ->]%store_Ret & Hbody).
      injection Hbody as <-. unfold Q. simpl. split_and!; [lia|lia|done|done]. }
  destruct r as [tbl|[fd' tbl']].
  - cbv beta iota in Hrun. apply bind_Ret in Hrun as (? & Ha%ASSERT_Ret & _).
    apply Z.leb_le in Ha. lia.
  - cbv beta iota in Hrun. apply bind_Ret in Hrun as (? & Ha%ASSERT_Ret & Hrun).
    apply Z.leb_le in Ha. injection Hrun as -> ->.
    unfold Q in Hr. simpl in Hr. destruct Hr as ([Hfd _] & Hfree & ->).
    split_and!; [lia|lia|done|].
    pose proof (lookupZ_lt _ _ _ Hfree) as Hlt.
    apply lookupZ_Some in Hfree as [_ Hfree].
    unfold FileSystem.CloseFileId.
    assert (Hload : load (<[Z.to_nat fd := file]> table) fd = Ret file).
    { apply load_Ret. rewrite lookupZ_insert by lia.
      by rewrite decide_True by lia. }
    rewrite Hload, ret_bind. destruct file as [f|].
    + unfold store. rewrite length_insert, bool_decide_true by lia. rewrite ret_bind.
      rewrite list_insert_insert_eq. by rewrite list_insert_id.
    + by rewrite list_insert_id.
Qed.

End OpenFiles.

Section SmallVolumeOpenFiles.
#[local] Existing Instance small_volume.

Lemma OpenFileForId_lowest_free_witness :
  ∃ fs d0 d1 f,
    FileSystem.format ∅ = Ret (fs, d0) ∧
    FileSystem.Create fs d0 (path "//a") 200 false = Ret (1, d1) ∧
    FileSystem.Open fs d1 (path "/a") = Ret (Some f) ∧
    FileSystem.OpenFileForId 4 fs d1 (replicate 6 None) (path "/a")
    = Ret (1, <[Z.to_nat 1 := Some f]> (replicate 6 None)).
Proof.
  eexists _, _, _, _. do 3 (split; [vm_compute; reflexivity|]).
  apply OpenFileForId_lowest_free.
  - vm_compute. reflexivity.
  - lia.
  - reflexivity.
  - intros k Hk. lia.
Defined.

Lemma OpenFileForId_then_CloseFileId_witness :
  ∃ fs d0 d1 fd table',
    FileSystem.format ∅ = Ret (fs, d0) ∧
    FileSystem.Create fs d0 (path "//a") 200 false = Ret (1, d1) ∧
    FileSystem.OpenFileForId 4 fs d1 (replicate 6 None) (path "/a") = Ret (fd, table') ∧
    ∃ file,
      FileSystem.Open fs d1 (path "/a") = Ret file ∧
      1 ≤ fd ≤ 4 ∧
      lookupZ (replicate 6 (@None OpenFile)) fd = Some None ∧
      FileSystem.CloseFileId table' fd
      = Ret (match file with Some _ => 1 | None => 0 end, replicate 6 None).
Proof.
  eexists _, _, _, _, _. do 3 (split; [vm_compute; reflexivity|]).
  apply OpenFileForId_then_CloseFileId. vm_compute. reflexivity.
Defined.

End SmallVolumeOpenFiles.

(** ** Destroying a directory *)
Section Destroying.
Context {G : Geometry}.

Lemma release_not_in_use (e : DirectoryEntry) :
  inUse e = false → Directory.release e = e.
Proof. destruct e as [u s n dr]. simpl. by intros ->. Qed.

Lemma release_prefix_step (table : list DirectoryEntry) (i : nat) (e : DirectoryEntry) :
  table !! i = Some e →
  <[i := Directory.release e]>
    ((Directory.release <$> take i table) ++ drop i table)
  = (Directory.release <$> take (S i) table) ++ drop (S i) table.
Proof.
  intros Hi. pose proof (lookup_lt_Some _ _ _ Hi) as Hlt.
  rewrite (take_S_r _ _ _ Hi), (drop_S _ _ _ Hi), fmap_app. simpl.
  rewrite <- app_assoc. simpl.
  replace i with (length (Directory.release <$> take i table) + 0)%nat at 1
    by (rewrite length_fmap, length_take; lia).
  by rewrite insert_app_r.
Qed.

Lemma released_prefix_lookup (table : list DirectoryEntry) (i : nat) :
  (i ≤ length table)%nat →
  ((Directory.release <$> take i table) ++ drop i table) !! i = table !! i ∧
  ∀ j y, (j < i)%nat →
         ((Directory.release <$> take i table) ++ drop i table) !! j = Some y →
         inUse y = false.
Proof.
  intros Hi. split.
  - rewrite lookup_app_r by (rewrite length_fmap, length_take; lia).
    rewrite length_fmap, length_take, lookup_drop. f_equal. lia.
  - intros j y Hj Hy.
    rewrite lookup_app_l in Hy by (rewrite length_fmap, length_take; lia).
    rewrite list_lookup_fmap in Hy.
    destruct (take i table !! j); simplify_eq/=. done.
Qed.

(** X29. [Destroy] leaves no entry of the directory in use: whenever it
    returns, the table is the one it was called with, every entry released
    and otherwise unchanged (names, sectors and flags stay), and that table
    has been written to the directory file. *)
Theorem Destroy_releases_every_entry (fuel : nat) (d : Disk)
    (table : list DirectoryEntry) (fm : Bitmap.t) (path : list ascii)
    (file : OpenFile)
    (table' : list DirectoryEntry) (fm' : Bitmap.t) (d' : Disk) :
  Directory.Destroy fuel d table fm path file = Ret (table', fm', d') →
  table' = Directory.release <$> table ∧
  Forall (λ e, inUse e = false) table' ∧
  ∃ d1, Directory.WriteBack d1 table' file = Ret d'.
Proof.
  destruct fuel as [|fuel]; [discriminate|]. cbn [Directory.Destroy]. intros Hrun.
  apply bind_Ret in Hrun as ([[tbl1 fm1] d1] & Hloop & Hrun).
  apply bind_Ret in Hrun as (d2 & Hw & Hrun). injection Hrun as <- <- <-.
  set (I := λ (k : Z) (st : list DirectoryEntry * Bitmap.t * Disk),
         st.1.1 = (Directory.release <$> take (Z.to_nat k) table)
                  ++ drop (Z.to_nat k) table).
  assert (HI : I (Z.max 0 (Z.of_nat (length table))) (tbl1, fm1, d1)).
  { refine (for_loop_inv I _ (Z.of_nat (length table)) (table, fm, d) _ _ _ Hloop).
    - unfold I. simpl. by rewrite drop_0.
    - intros k [[tbl fmk] dk] st1 Hk Hinv Hbody. unfold I in Hinv |- *. simpl in Hinv.
      subst tbl.
      destruct (released_prefix_lookup table (Z.to_nat k) ltac:(lia)) as [Hat Hbefore].
      apply bind_Ret in Hbody as (e & He%load_Ret & Hbody).
      apply lookupZ_Some in He as [_ He]. rewrite Hat in He.
      replace (Z.to_nat (k + 1)) with (S (Z.to_nat k)) by lia.
      rewrite <- (release_prefix_step table (Z.to_nat k) e He).
      destruct (inUse e) eqn:Hu.
      + apply bind_Ret in Hbody as ([fmA dA] & _ & Hbody).
        apply bind_Ret in Hbody as (fileHdr & _ & Hbody).
        apply bind_Ret in Hbody as (fm2 & _ & Hbody).
        apply bind_Ret in Hbody as (fm3 & _ & Hbody).
        injection Hbody as <-. simpl.
        rewrite Remove_find.
        assert (Hfind : list_find (names_entry (name e))
                          ((Directory.release <$> take (Z.to_nat k) table)
                           ++ drop (Z.to_nat k) table)
                        = Some (Z.to_nat k, e)).
        { apply list_find_Some. split_and!.
          - by rewrite Hat.
          - unfold names_entry. rewrite Hu. simpl. by apply same_name_true.
          - intros j y Hj Hlt Hy. unfold names_entry in Hy.
            rewrite (Hbefore j y Hlt Hj) in Hy. done. }
        by rewrite Hfind.
      + injection Hbody as <-. simpl.
        rewrite (release_not_in_use e Hu). symmetry. apply list_insert_id.
        by rewrite Hat. }
  unfold I in HI. simpl in HI.
  rewrite take_ge, drop_ge, app_nil_r in HI by lia. subst tbl1.
  split_and!; [done| |by exists d1].
  apply Forall_fmap, Forall_true. done.
Qed.

Lemma shrinks_refl (fm : Bitmap.t) : shrinks fm fm.
Proof. by split. Qed.

Lemma shrinks_trans (fm1 fm2 fm3 : Bitmap.t) :
  shrinks fm1 fm2 → shrinks fm2 fm3 → shrinks fm1 fm3.
Proof. intros [H1 H1'] [H2 H2']. split; [congruence|auto]. Qed.

Lemma Clear_shrinks (fm fm' : Bitmap.t) (x : Z) :
  Bitmap.Clear fm x = Ret fm' → shrinks fm fm'.
Proof.
  intros [Hlen Hlk]%Clear_spec. split; [done|].
  intros s. rewrite Hlk. by case_decide.
Qed.

Lemma release_loop_shrinks (fuel : nat) (ih : FileHeader) (i j : Z)
    (fm fm' : Bitmap.t) :
  c_for fuel (λ j, j <? numSectors ih) (λ j, j)
    (λ _ fm,
       x ← load (dataSectors ih) i;
       t ← Bitmap.Test fm x;
       _ ← ASSERT t;
       Bitmap.Clear fm x)
    j fm = Ret fm' →
  shrinks fm fm'.
Proof.
  revert fm. induction fuel as [|fuel IH]; intros fm; simpl;
    destruct (j <? numSectors ih); try discriminate;
    try (intros [= <-]; apply shrinks_refl).
  intros Hrun. apply bind_Ret in Hrun as (fm1 & Hbody & Hrun).
  apply bind_Ret in Hbody as (x & _ & Hbody).
  apply bind_Ret in Hbody as (t & _ & Hbody).
  apply bind_Ret in Hbody as (? & _ & Hc%Clear_shrinks).
  eapply shrinks_trans; [exact Hc|]. by apply IH.
Qed.

Lemma Deallocate_shrinks (fuel : nat) (h : FileHeader) (fm fm' : Bitmap.t) :
  FileHdr.Deallocate fuel h fm = Ret fm' → shrinks fm fm'.
Proof.
  unfold FileHdr.Deallocate. intros Hrun.
  set (I := λ (_ : Z) (fmk : Bitmap.t), shrinks fm fmk).
  cut (I (Z.max 0 NumMaxSect) fm'); [done|].
  refine (for_loop_inv I _ NumMaxSect fm fm' _ _ Hrun); unfold I.
  - apply shrinks_refl.
  - intros k fmk fmk' Hk Hinv Hbody.
    apply bind_Ret in Hbody as (child & _ & Hbody).
    apply bind_Ret in Hbody as (fm1 & H1 & Hbody).
    assert (Hs1 : shrinks fmk fm1).
    { destruct child as [ih|]; [by eapply release_loop_shrinks|].
      injection H1 as <-. apply shrinks_refl. }
    apply bind_Ret in Hbody as (x & _ & Hbody).
    eapply shrinks_trans; [exact Hinv|]. eapply shrinks_trans; [exact Hs1|].
    case_bool_decide.
    + apply bind_Ret in Hbody as (t & _ & Hbody).
      apply bind_Ret in Hbody as (? & _ & Hc%Clear_shrinks). done.
    + injection Hbody as <-. apply shrinks_refl.
Qed.

(** X30. Releasing never allocates: whenever [Deallocate] or [Destroy]
    returns, the free map it leaves has the length of the map it was given
    and marks no sector that was not marked before. *)
Theorem releasing_never_allocates :
  (∀ fuel h fm fm',
     FileHdr.Deallocate fuel h fm = Ret fm' → shrinks fm fm') ∧
  (∀ fuel d table fm path file table' fm' d',
     Directory.Destroy fuel d table fm path file = Ret (table', fm', d') →
     shrinks fm fm').
Proof.
  split; [apply Deallocate_shrinks|].
  induction fuel as [|fuel IH]; intros d table fm path file table' fm' d';
    [discriminate|].
  cbn [Directory.Destroy]. intros Hrun.
  apply bind_Ret in Hrun as ([[tbl1 fm1] d1] & Hloop & Hrun).
  apply bind_Ret in Hrun as (d2 & Hw & Hrun). injection Hrun as <- <- <-.
  set (I := λ (_ : Z) (st : list DirectoryEntry * Bitmap.t * Disk),
         shrinks fm st.1.2).
  cut (I (Z.max 0 (Z.of_nat (length table))) (tbl1, fm1, d1)); [done|].
  refine (for_loop_inv I _ (Z.of_nat (length table)) (table, fm, d) _ _ _ Hloop);
    unfold I; simpl.
  - apply shrinks_refl.
  - intros k [[tbl fmk] dk] st1 Hk Hinv Hbody. simpl in Hinv.
    apply bind_Ret in Hbody as (e & _ & Hbody).
    destruct (inUse e); [|injection Hbody as <-; done].
    apply bind_Ret in Hbody as ([fmA dA] & HA & Hbody).
    assert (HsA : shrinks fmk fmA).
    { destruct (isDir e); [|injection HA as <- <-; apply shrinks_refl].
      apply bind_Ret in HA as (tarDir & _ & HA).
      apply bind_Ret in HA as (directory & _ & HA).
      apply bind_Ret in HA as (tarPath & _ & HA).
      apply bind_Ret in HA as ([[t' fmB] dB] & HD & HA).
      injection HA as <- <-. by eapply IH. }
    apply bind_Ret in Hbody as (fileHdr & _ & Hbody).
    apply bind_Ret in Hbody as (fm2 & H2%Deallocate_shrinks & Hbody).
    apply bind_Ret in Hbody as (fm3 & H3%Clear_shrinks & Hbody).
    injection Hbody as <-. simpl.
    eauto using shrinks_trans.
Qed.

End Destroying.

Section SmallVolumeDestroying.
#[local] Existing Instance small_volume.

Lemma Destroy_releases_every_entry_witness :
  ∃ fs d0 d1 d2 tarDir tbl bits table' fm' d',
    FileSystem.format ∅ = Ret (fs, d0) ∧
    FileSystem.Create fs d0 (path "//d") 0 true = Ret (1, d1) ∧
    FileSystem.Create fs d1 (path "/d/x") 10 false = Ret (1, d2) ∧
    OpenFile_new d2 4 = Ret tarDir ∧
    Directory.OPENDIR d2 tarDir = Ret tbl ∧
    Directory.Find tbl (path "/x") = 6 ∧
    persisted_map fs d2 = Ret bits ∧
    Directory.Destroy 2 d2 tbl bits (path "//d") tarDir = Ret (table', fm', d') ∧
    table' = Directory.release <$> tbl ∧
    Forall (λ e, inUse e = false) table' ∧
    ∃ d1', Directory.WriteBack d1' table' tarDir = Ret d'.
Proof.
  eexists _, _, _, _, _, _, _, _, _, _.
  do 7 (split; [vm_compute; reflexivity|]).
  match goal with
  | |- Directory.Destroy ?fuel ?d ?t ?fm ?p ?file = Ret (?t', ?fm', ?d') ∧ _ =>
      split; [vm_compute; reflexivity|];
      apply (Destroy_releases_every_entry fuel d t fm p file t' fm' d')
  end.
  vm_compute. reflexivity.
Defined.

End SmallVolumeDestroying.

(** ** The free map of a volume with directories *)

(** *** Trees *)

Lemma tree_ind' (P : tree → Prop) :
  (∀ l, P (File l)) →
  (∀ l slots, Forall (λ x, match x with Used _ _ t => P t | Free _ => True end) slots →
              P (Folder l slots)) →
  ∀ t, P t.
Proof.
  intros HF HD. fix IH 1. intros [l|l slots]; [apply HF|]. apply HD.
  induction slots as [|x slots IHs]; [constructor|].
  constructor; [|exact IHs]. destruct x as [e|s nm t]; [exact I|apply IH].
Qed.

Lemma is_folder_graft p f t :
  (∀ t0, is_folder (f t0) = is_folder t0) → is_folder (graft p f t) = is_folder t.
Proof.
  intros Hf. destruct p as [|i p]; simpl; [done|].
  destruct t as [l|l slots]; [done|]. destruct (slots !! i) as [[e|s' nm t']|]; done.
Qed.

Lemma tree_layout_graft p f t :
  (∀ t0, tree_layout (f t0) = tree_layout t0) → tree_layout (graft p f t) = tree_layout t.
Proof.
  intros Hf. destruct p as [|i p]; simpl; [done|].
  destruct t as [l|l slots]; [done|]. destruct (slots !! i) as [[e|s' nm t']|]; done.
Qed.

Lemma concat_fmap_split {A B} (f : A → list B) (l : list A) (i : nat) (x : A) :
  l !! i = Some x →
  concat (f <$> l) = concat (f <$> take i l) ++ f x ++ concat (f <$> drop (S i) l).
Proof.
  intros Hi. rewrite <- (take_drop_middle l i x Hi) at 1.
  by rewrite fmap_app, concat_app, fmap_cons.
Qed.

Lemma concat_fmap_insert {A B} (f : A → list B) (l : list A) (i : nat) (x y : A) :
  l !! i = Some x →
  concat (f <$> <[i := y]> l)
  = concat (f <$> take i l) ++ f y ++ concat (f <$> drop (S i) l).
Proof.
  intros Hi. pose proof (lookup_lt_Some _ _ _ Hi) as Hlt.
  rewrite (concat_fmap_split f (<[i := y]> l) i y)
    by (by apply list_lookup_insert_eq).
  rewrite take_insert_ge by lia. by rewrite drop_insert_lt by lia.
Qed.

Lemma nodes_File s l : nodes s (File l) = [(s, l, None)].
Proof. reflexivity. Qed.

Lemma nodes_Folder s l slots :
  nodes s (Folder l slots)
  = (s, l, Some (entry_of <$> slots)) :: concat (slot_below nodes <$> slots).
Proof. reflexivity. Qed.

(** Grafting changes the nodes of the subtree it is applied to, and no
    other node. *)
Lemma nodes_graft (p : list nat) (f : tree → tree) (s : Z) (t : tree) b tb :
  (∀ t0, is_folder (f t0) = is_folder t0) →
  subtree_at p s t = Some (b, tb) →
  ∃ rest, nodes s t ≡ₚ nodes b tb ++ rest ∧
          nodes s (graft p f t) ≡ₚ nodes b (f tb) ++ rest.
Proof.
  intros Hf. revert s t. induction p as [|i p IH]; intros s t Hat.
  - injection Hat as <- <-. exists []. by rewrite !app_nil_r.
  - destruct t as [l|l slots]; [done|]. cbn [subtree_at graft] in *.
    destruct (slots !! i) as [[e|s' nm t']|] eqn:Hi; try done.
    destruct (IH s' t' Hat) as (rest' & H1 & H2).
    exists ((s, l, Some (entry_of <$> slots)) ::
            concat (slot_below nodes <$> take i slots) ++ rest' ++
            concat (slot_below nodes <$> drop (S i) slots)).
    split.
    + rewrite nodes_Folder.
      rewrite (concat_fmap_split (slot_below nodes) slots i _ Hi). cbn [slot_below].
      rewrite H1. solve_Permutation.
    + rewrite nodes_Folder.
      rewrite (concat_fmap_insert (slot_below nodes) slots i _ _ Hi). cbn [slot_below].
      rewrite H2. rewrite list_fmap_insert. cbn [entry_of].
      rewrite (is_folder_graft _ _ _ Hf).
      rewrite (list_insert_id (entry_of <$> slots) i)
        by (by rewrite list_lookup_fmap, Hi).
      solve_Permutation.
Qed.

Lemma subtree_at_app p q s t s1 t1 :
  subtree_at p s t = Some (s1, t1) →
  subtree_at (p ++ q) s t = subtree_at q s1 t1.
Proof.
  revert s t. induction p as [|i p IH]; intros s t; simpl.
  - by intros [= <- <-].
  - destruct t as [l|l slots]; [done|].
    destruct (slots !! i) as [[e|s' nm t']|]; try done. apply IH.
Qed.

(** Every node of a tree is the root of a subtree. *)
Lemma nodes_position (n : node) (s : Z) (t : tree) :
  n ∈ nodes s t →
  ∃ p t0, subtree_at p s t = Some (n.1.1, t0) ∧
          tree_layout t0 = n.1.2 ∧ tree_table t0 = n.2.
Proof.
  revert s. induction t as [l|l slots IH] using tree_ind'; intros s;
    rewrite ?nodes_File, ?nodes_Folder.
  - intros Hn. apply elem_of_cons in Hn as [->|Hn].
    + by exists [], (File l).
    + by apply elem_of_nil in Hn.
  - intros Hn. apply elem_of_cons in Hn as [->|Hn].
    + by exists [], (Folder l slots).
    + apply elem_of_concat_1 in Hn as (L & Hn & HL).
      apply list_elem_of_fmap in HL as (x & -> & Hx).
      apply list_elem_of_lookup in Hx as (i & Hi).
      rewrite Forall_lookup in IH. specialize (IH i x Hi).
      destruct x as [e|s' nm t']; [by apply elem_of_nil in Hn|].
      destruct (IH s' Hn) as (p & t0 & Hat & H1 & H2).
      exists (i :: p), t0. cbn [subtree_at]. by rewrite Hi.
Qed.

Section TreeWalks.
Context {G : Geometry}.
Hypothesis Hgeo : sane_volume_geometry.


Lemma node_ok_frame (d d' : Disk) (n : node) :
  node_ok d n →
  (∀ z, z ∈ node_sectors n → d' !! z = d !! z) →
  node_ok d' n.
Proof.
  intros (Hwf & Hon & Hdir) Hsame. split_and!; [done| |].
  - eapply on_disk_frame; [exact Hon|]. intros z Hz. apply Hsame.
    apply elem_of_app. by left.
  - destruct n.2 as [table|]; [|done].
    destruct Hdir as (Hsz & Hlen & r0 & Hr0 & Hbody). split_and!; [done..|].
    exists r0. split; [done|]. rewrite Hsame; [done|].
    apply elem_of_app. right. unfold node_data, data_of. apply elem_of_app. left.
    destruct (lay_direct n.1.2); simplify_eq/=. by left.
Qed.

Lemma header_open (d : Disk) (s : Z) (l : layout) :
  well_formed_layout l →
  on_disk d s l →
  OpenFile_new d s = Ret (mkOpenFile (layout_header l) 0).
Proof.
  destruct (geometry_facts Hgeo) as (HS & HD & HI & _).
  intros Hwf Hon. unfold OpenFile_new.
  by rewrite (on_disk_fetch d s l HI Hwf Hon).
Qed.

Lemma node_open (d : Disk) (s : Z) (l : layout) tbl :
  node_ok d (s, l, tbl) →
  OpenFile_new d s = Ret (mkOpenFile (layout_header l) 0).
Proof. intros (Hwf & Hon & _). by apply header_open. Qed.

Lemma folder_read (d : Disk) (s : Z) (l : layout) (table : list DirectoryEntry) :
  node_ok d (s, l, Some table) →
  Directory.FetchFrom d (Directory.new NumDirEntries) (mkOpenFile (layout_header l) 0)
  = Ret table.
Proof.
  destruct (geometry_facts Hgeo) as (_ & _ & _ & _ & _ & _ & _ & HDF & HDE & HNE).
  intros (Hwf & Hon & Hsz & Hlen & r0 & Hr0 & Hbody). simpl in *.
  unfold Directory.FetchFrom, Directory.image_size, Directory.new.
  rewrite length_replicate.
  assert (Hnn : 0 ≤ NumDirEntries) by lia.
  rewrite Z2Nat.id by done. rewrite <- HDE.
  rewrite (transfer_first_sector Hgeo l r0) by done.
  simpl. unfold ReadSector. rewrite Hbody.
  rewrite bool_decide_true by done.
  rewrite drop_ge by (rewrite length_replicate; lia). by rewrite app_nil_r.
Qed.

Lemma folder_write (d d' : Disk) (s : Z) (l : layout)
    (table table' : list DirectoryEntry) :
  node_ok d (s, l, Some table) →
  Z.of_nat (length table') = NumDirEntries →
  ∃ r0, head (lay_direct l) = Some r0 ∧ d !! r0 = Some (SDir table) ∧
        Directory.WriteBack d' table' (mkOpenFile (layout_header l) 0)
        = Ret (<[r0 := SDir table']> d').
Proof.
  intros (Hwf & Hon & Hsz & Hlen & r0 & Hr0 & Hbody) Hlen'. simpl in *.
  exists r0. split_and!; [done..|].
  by apply (write_directory_file Hgeo).
Qed.

Lemma concat_fmap_concat {A B} (f : A → list B) (Ls : list (list A)) :
  concat (f <$> concat Ls) = concat ((λ L, concat (f <$> L)) <$> Ls).
Proof.
  induction Ls as [|L Ls IH]; [done|]. simpl.
  by rewrite fmap_app, concat_app, IH.
Qed.

Lemma height_child (l : layout) (slots : list (slot tree)) s nm t :
  Used s nm t ∈ slots → (height t < height (Folder l slots))%nat.
Proof.
  intros Hin. simpl. apply Nat.lt_succ_r.
  induction slots as [|x slots IH]; [by apply elem_of_nil in Hin|].
  apply elem_of_cons in Hin as [<-|Hin]; rewrite fmap_cons; cbn [foldr].
  - apply Nat.le_max_l.
  - etransitivity; [apply IH, Hin|apply Nat.le_max_r].
Qed.

Lemma Forall_nodes_Folder (P : node → Prop) s l slots :
  Forall P (nodes s (Folder l slots)) ↔
  P (s, l, Some (entry_of <$> slots)) ∧
  Forall (λ x, Forall P (slot_below nodes x)) slots.
Proof.
  rewrite nodes_Folder, Forall_cons. f_equiv.
  rewrite Forall_concat, Forall_fmap. done.
Qed.

(** The walk over the volume collects the sectors of every node. *)
Lemma tree_walk (d : Disk) (t : tree) :
  ∀ s fuel,
    Forall (node_ok d) (nodes s t) →
    (height t < fuel)%nat →
    tree_sectors fuel d s (is_folder t) = Ret (concat (node_file_sectors <$> nodes s t)).
Proof.
  destruct (geometry_facts Hgeo) as (HS & HD & HI & _).
  induction t as [l|l slots IH] using tree_ind'; intros s fuel Hok Hfuel.
  - destruct fuel as [|fuel]; [lia|]. rewrite tree_sectors_S.
    rewrite nodes_File in *. apply Forall_singleton in Hok as (Hwf & Hon & _).
    rewrite (file_sectors_layout d s l HI Hwf Hon), ret_bind. simpl.
    by rewrite app_nil_r.
  - destruct fuel as [|fuel]; [lia|]. rewrite tree_sectors_S.
    apply Forall_nodes_Folder in Hok as [Hn Hsub].
    pose proof Hn as (Hwf & Hon & _). simpl in Hwf, Hon.
    rewrite (file_sectors_layout d s l HI Hwf Hon), ret_bind.
    cbn [is_folder].
    rewrite (node_open d _ _ _ Hn), ret_bind. unfold Directory.OPENDIR.
    rewrite (folder_read d s l _ Hn), ret_bind.
    rewrite nodes_Folder, fmap_cons. cbn [concat].
    rewrite concat_fmap_concat, <- list_fmap_compose.
    assert (Hc : collect
              (λ e, if inUse e then tree_sectors fuel d (sector e) (isDir e) else Ret [])
              (entry_of <$> slots)
            = Ret (concat ((λ x, concat (node_file_sectors <$> slot_below nodes x)) <$> slots))).
    { assert (Hh : ∀ s' nm t', Used s' nm t' ∈ slots → (height t' < fuel)%nat).
      { intros s' nm t' Hin. pose proof (height_child l slots s' nm t' Hin). lia. }
      clear Hfuel Hn Hwf Hon.
      induction slots as [|x slots IHs]; [done|].
      apply Forall_cons in IH as [IHx IH]. apply Forall_cons in Hsub as [Hx Hsub].
      rewrite fmap_cons. cbn [collect].
      rewrite IHs; [|done|done|intros; eapply Hh; by right].
      destruct x as [e|s' nm t']; simpl.
      - done.
      - rewrite (IHx s' fuel Hx) by (eapply Hh; by left). done. }
    unfold compose. by rewrite Hc, ret_bind.
Qed.

Lemma folder_heads_app (a b : list node) :
  folder_heads (a ++ b) = folder_heads a ++ folder_heads b.
Proof. unfold folder_heads. apply omap_app. Qed.

Lemma folder_heads_concat (Ls : list (list node)) :
  folder_heads (concat Ls) = concat (folder_heads <$> Ls).
Proof.
  induction Ls as [|L Ls IH]; [done|]. simpl. by rewrite folder_heads_app, IH.
Qed.

(** The walk over the directories returns the header sectors of the
    folders. *)
Lemma directories_exact (d : Disk) (t : tree) :
  ∀ s fuel dirs,
    Forall (node_ok d) (nodes s t) →
    is_folder t = true →
    directories fuel d s = Ret dirs →
    dirs = folder_heads (nodes s t).
Proof.
  induction t as [l|l slots IH] using tree_ind'; intros s fuel dirs Hok Hf Hrun; [done|].
  destruct fuel as [|fuel]; [done|]. cbn [directories] in Hrun.
  apply Forall_nodes_Folder in Hok as [Hn Hsub].
  rewrite (node_open d _ _ _ Hn), ret_bind in Hrun. unfold Directory.OPENDIR in Hrun.
  rewrite (folder_read d s l _ Hn), ret_bind in Hrun.
  apply bind_Ret in Hrun as (bl & Hc & Hrun). injection Hrun as <-.
  rewrite nodes_Folder. unfold folder_heads at 1. cbn [omap]. simpl. f_equal.
  fold (folder_heads (concat (slot_below nodes <$> slots))).
  rewrite folder_heads_concat, <- list_fmap_compose.
  clear Hn Hf. revert bl Hc.
  induction slots as [|x slots IHs]; intros bl Hc.
  - by injection Hc as <-.
  - apply Forall_cons in IH as [IHx IH]. apply Forall_cons in Hsub as [Hx Hsub].
    rewrite fmap_cons in Hc. cbn [collect] in Hc.
    apply bind_Ret in Hc as (a & Ha & Hc). apply bind_Ret in Hc as (b & Hb & Hc).
    injection Hc as <-. rewrite fmap_cons. cbn [concat]. f_equal.
    + destruct x as [e|s' nm t']; simpl in *; [by injection Ha as <-|].
      destruct t' as [l'|l' slots']; simpl in *; [by injection Ha as <-|].
      by apply (IHx s' fuel a Hx).
    + by apply IHs.
Qed.

End TreeWalks.

Section TreeVolumes.
Context {G : Geometry}.
Hypothesis Hgeo : sane_volume_geometry.


Lemma concat_below_free {A} (f : Z → tree → list A) (n : nat) (e : DirectoryEntry) :
  concat (slot_below f <$> replicate n (Free e)) = [].
Proof. induction n as [|n IH]; simpl; done. Qed.

Lemma entry_of_free (n : nat) :
  entry_of <$> replicate n (Free Directory.emptyEntry) = replicate n Directory.emptyEntry.
Proof. by rewrite fmap_replicate. Qed.

Lemma elem_of_folder_heads (b : Z) (L : list node) :
  b ∈ folder_heads L → ∃ l tbl, (b, l, Some tbl) ∈ L.
Proof.
  unfold folder_heads. intros ([[s l] [tbl|]] & Hin & Hb)%list_elem_of_omap;
    simplify_eq/=. eauto.
Qed.

Lemma tree_table_Some (t : tree) (tbl : list DirectoryEntry) :
  tree_table t = Some tbl →
  ∃ slots, t = Folder (tree_layout t) slots ∧ tbl = entry_of <$> slots.
Proof. destruct t as [l|l slots]; [done|]. intros [= <-]. by exists slots. Qed.

Lemma slot_free (slots : list (slot tree)) (i : nat) (e : DirectoryEntry) :
  (entry_of <$> slots) !! i = Some e → inUse e = false →
  ∃ e0, slots !! i = Some (Free e0) ∧ Directory.release e0 = e.
Proof.
  rewrite list_lookup_fmap. destruct (slots !! i) as [[e0|s nm t]|]; intros; simplify_eq/=.
  by exists e0.
Qed.

Lemma slot_used (slots : list (slot tree)) (i : nat) (e : DirectoryEntry) :
  (entry_of <$> slots) !! i = Some e → inUse e = true →
  ∃ t, slots !! i = Some (Used (sector e) (name e) t) ∧ isDir e = is_folder t.
Proof.
  rewrite list_lookup_fmap. destruct (slots !! i) as [[e0|s nm t]|]; intros; simplify_eq/=.
  by exists t.
Qed.

Section OneVolume.
Variables (fs : FileSystem) (d : Disk) (ml : layout) (bits : Bitmap.t) (root : tree).
Hypothesis Hvol : tree_volume fs d ml bits root.

Lemma tree_read_map :
  PersistentBitmap.FetchFrom d (freeMapFile fs) NumSectors = Ret bits.
Proof.
  destruct (geometry_facts Hgeo) as (_ & _ & _ & _ & _ & _ & HF & _).
  destruct (tv_map_body _ _ _ _ _ Hvol) as (m0 & Hm0 & Hbits).
  unfold PersistentBitmap.FetchFrom. rewrite (tv_fs _ _ _ _ _ Hvol). simpl.
  rewrite (transfer_first_sector Hgeo ml m0) by
    (done || apply (tv_map_wf _ _ _ _ _ Hvol) || apply (tv_map_size _ _ _ _ _ Hvol)).
  simpl. unfold ReadSector. rewrite Hbits.
  by rewrite bool_decide_true by apply (tv_bits_len _ _ _ _ _ Hvol).
Qed.

Lemma tree_write_map (d' : Disk) (fm : Bitmap.t) :
  ∃ m0, head (lay_direct ml) = Some m0 ∧
        PersistentBitmap.WriteBack d' fm (freeMapFile fs)
        = Ret (<[m0 := SMap fm]> d').
Proof.
  destruct (tv_map_body _ _ _ _ _ Hvol) as (m0 & Hm0 & Hbits).
  exists m0. split; [done|].
  rewrite (tv_fs _ _ _ _ _ Hvol). simpl.
  apply (write_map_file Hgeo); [apply (tv_map_wf _ _ _ _ _ Hvol)|done|].
  apply (tv_map_size _ _ _ _ _ Hvol).
Qed.

Lemma tree_root_node :
  ∃ slots, root = Folder (tree_layout root) slots ∧
           node_ok d (DirectorySector, tree_layout root, Some (entry_of <$> slots)).
Proof.
  pose proof (tv_root _ _ _ _ _ Hvol) as Hf.
  pose proof (tv_nodes _ _ _ _ _ Hvol) as Hn.
  destruct root as [l|l slots]; [done|]. exists slots. split; [done|].
  rewrite nodes_Folder in Hn. by apply Forall_cons in Hn as [? _].
Qed.

Lemma tree_read_root :
  ∃ slots, root = Folder (tree_layout root) slots ∧
    Directory.FetchFrom d (Directory.new NumDirEntries) (directoryFile fs)
    = Ret (entry_of <$> slots).
Proof.
  destruct tree_root_node as (slots & Hr & Hn). exists slots. split; [done|].
  rewrite (tv_fs _ _ _ _ _ Hvol). simpl. by eapply (folder_read Hgeo).
Qed.

Lemma map_body_apart (m0 : Z) (n : node) :
  head (lay_direct ml) = Some m0 →
  n ∈ nodes DirectorySector root →
  (m0 ∉ node_sectors n) ∧ (m0 ∉ meta_of FreeMapSector ml).
Proof.
  intros Hm0 Hn.
  assert (Hd : m0 ∈ data_of ml).
  { unfold data_of. apply elem_of_app. left.
    destruct (lay_direct ml); simplify_eq/=. by left. }
  pose proof (tv_nodup _ _ _ _ _ Hvol) as Hnd. unfold volume_sectors in Hnd.
  apply NoDup_app in Hnd as (_ & Hmd & Hnd).
  apply NoDup_app in Hnd as (_ & Hdt & _). split.
  - intros Hin. apply (Hdt m0 Hd).
    eapply elem_of_concat_2; [exact Hin|]. apply list_elem_of_fmap. by exists n.
  - intros Hin. apply (Hmd m0 Hin). apply elem_of_app. by left.
Qed.

End OneVolume.

Lemma own_perm (L : list node) :
  Forall (λ n, well_formed_layout n.1.2) L →
  concat (node_file_sectors <$> L) ≡ₚ concat (node_sectors <$> L).
Proof.
  induction 1 as [|n L Hn _ IH]; [done|]. rewrite !fmap_cons. cbn [concat].
  apply Permutation_app; [|exact IH].
  apply (header_sectors_perm n.1.1 n.1.2 Hn).
Qed.

(** The free map of a volume in order is consistent. *)
Lemma tree_volume_consistent (fs : FileSystem) (d : Disk) (ml : layout)
    (bits : Bitmap.t) (root : tree) :
  tree_volume fs d ml bits root → bitmap_consistent fs d.
Proof.
  destruct (geometry_facts Hgeo) as (HS & HD & HI & _).
  intros Hvol.
  exists bits, (FreeMapSector :: header_sectors (layout_header ml)),
    (S (height root)), (concat (node_file_sectors <$> nodes DirectorySector root)).
  split_and!.
  - by eapply tree_read_map.
  - apply file_sectors_layout; [done|apply (tv_map_wf _ _ _ _ _ Hvol)|].
    apply (tv_map_on_disk _ _ _ _ _ Hvol).
  - rewrite <- (tv_root _ _ _ _ _ Hvol).
    apply (tree_walk Hgeo); [apply (tv_nodes _ _ _ _ _ Hvol)|lia].
  - intros s. rewrite (tv_marked _ _ _ _ _ Hvol s). unfold volume_sectors.
    rewrite (header_sectors_perm FreeMapSector ml (tv_map_wf _ _ _ _ _ Hvol)).
    rewrite own_perm.
    + by rewrite <- !app_assoc.
    + eapply Forall_impl; [apply (tv_nodes _ _ _ _ _ Hvol)|]. by intros n (? & _).
Qed.

(** A freshly formatted volume is in order. *)
Lemma format_tree_volume (blank d0 : Disk) (fs : FileSystem) :
  FileSystem.format blank = Ret (fs, d0) →
  ∃ ml bits root, tree_volume fs d0 ml bits root.
Proof.
  intros Hfmt.
  destruct (format_flat_volume Hgeo _ _ _ Hfmt) as (ml & dl & bits & Hvol).
  exists ml, bits, (Folder dl (replicate (Z.to_nat NumDirEntries) (Free Directory.emptyEntry))).
  assert (Hnodes : nodes DirectorySector
            (Folder dl (replicate (Z.to_nat NumDirEntries) (Free Directory.emptyEntry)))
          = [(DirectorySector, dl, Some (Directory.new NumDirEntries))]).
  { by rewrite nodes_Folder, concat_below_free, entry_of_free. }
  assert (Hsec : volume_sectors ml
            (Folder dl (replicate (Z.to_nat NumDirEntries) (Free Directory.emptyEntry)))
          ≡ₚ volume_meta ml dl (Directory.new NumDirEntries)
               (replicate (Z.to_nat NumDirEntries) None) ++
             volume_data ml dl (Directory.new NumDirEntries)
               (replicate (Z.to_nat NumDirEntries) None)).
  { unfold volume_sectors, volume_meta, volume_data. rewrite Hnodes.
    rewrite !concat_zip_with_free by done. simpl.
    unfold node_sectors, node_meta, node_data. simpl. rewrite !app_nil_r.
    solve_Permutation. }
  split.
  - apply (fv_fs _ _ _ _ _ _ _ Hvol).
  - done.
  - apply (fv_map_size _ _ _ _ _ _ _ Hvol).
  - apply (fv_map_wf _ _ _ _ _ _ _ Hvol).
  - apply (fv_map_on_disk _ _ _ _ _ _ _ Hvol).
  - apply (fv_map_body _ _ _ _ _ _ _ Hvol).
  - apply (fv_bits_len _ _ _ _ _ _ _ Hvol).
  - rewrite Hnodes. apply Forall_singleton. unfold node_ok. simpl. split_and!.
    + apply (fv_dir_wf _ _ _ _ _ _ _ Hvol).
    + apply (fv_dir_on_disk _ _ _ _ _ _ _ Hvol).
    + apply (fv_dir_size _ _ _ _ _ _ _ Hvol).
    + apply (fv_table_len _ _ _ _ _ _ _ Hvol).
    + apply (fv_dir_body _ _ _ _ _ _ _ Hvol).
  - rewrite Hsec. apply (fv_nodup _ _ _ _ _ _ _ Hvol).
  - intros s. rewrite Hsec. apply (fv_marked _ _ _ _ _ _ _ Hvol).
Qed.

End TreeVolumes.

Ltac by_app :=
  unfold node_sectors, node_meta, node_data; cbn [fst snd];
  rewrite ?elem_of_app; tauto.

(** *** Creating files and directories *)

Section TreeSteps.
Context {G : Geometry}.
Hypothesis Hgeo : sane_volume_geometry.


Lemma concat_perm {A} (Ls Ls' : list (list A)) : Ls ≡ₚ Ls' → concat Ls ≡ₚ concat Ls'.
Proof.
  induction 1 as [|X Ls Ls' _ IH|X Y Ls|Ls1 Ls2 Ls3 _ IH1 _ IH2]; simpl.
  - done.
  - by rewrite IH.
  - apply Permutation_app_swap_app.
  - by etrans.
Qed.

Lemma sectors_perm (L L' : list node) :
  L ≡ₚ L' → concat (node_sectors <$> L) ≡ₚ concat (node_sectors <$> L').
Proof. intros H. apply concat_perm. by rewrite H. Qed.

Lemma children_insert_free (slots : list (slot tree)) (i : nat) (e : DirectoryEntry)
    (x : slot tree) :
  slots !! i = Some (Free e) →
  concat (slot_below nodes <$> <[i := x]> slots)
  ≡ₚ slot_below nodes x ++ concat (slot_below nodes <$> slots).
Proof.
  intros Hi. rewrite list_fmap_insert. apply concat_insert_fresh.
  by rewrite list_lookup_fmap, Hi.
Qed.

Lemma children_insert_used (slots : list (slot tree)) (i : nat) (s : Z)
    (nm : list ascii) (t : tree) (e : DirectoryEntry) :
  slots !! i = Some (Used s nm t) →
  concat (slot_below nodes <$> slots)
  ≡ₚ nodes s t ++ concat (slot_below nodes <$> <[i := Free e]> slots).
Proof.
  intros Hi. rewrite list_fmap_insert.
  apply (concat_insert_drop (slot_below nodes <$> slots) i (nodes s t)).
  by rewrite list_lookup_fmap, Hi.
Qed.

Lemma graft_slot_nodes (p : list nat) (root : tree) (b : Z) (l : layout)
    (slots : list (slot tree)) (i : nat) (x : slot tree) :
  subtree_at p DirectorySector root = Some (b, Folder l slots) →
  is_folder (graft p (set_slot i x) root) = is_folder root ∧
  tree_layout (graft p (set_slot i x) root) = tree_layout root ∧
  ∃ rest,
    nodes DirectorySector root
    ≡ₚ (b, l, Some (entry_of <$> slots)) :: concat (slot_below nodes <$> slots) ++ rest ∧
    nodes DirectorySector (graft p (set_slot i x) root)
    ≡ₚ (b, l, Some (entry_of <$> <[i := x]> slots)) ::
       concat (slot_below nodes <$> <[i := x]> slots) ++ rest.
Proof.
  intros Hat.
  assert (Hf : ∀ t0, is_folder (set_slot i x t0) = is_folder t0) by (by intros []).
  assert (Hl : ∀ t0, tree_layout (set_slot i x t0) = tree_layout t0) by (by intros []).
  split_and!; [by apply is_folder_graft|by apply tree_layout_graft|].
  destruct (nodes_graft p (set_slot i x) _ _ _ _ Hf Hat) as (rest & H1 & H2).
  exists rest. by rewrite H1, H2.
Qed.

Lemma base_position (fs : FileSystem) (d : Disk) (ml : layout) (bits : Bitmap.t)
    (root : tree) (fuel : nat) (dirs : list Z) (b : Z) :
  tree_volume fs d ml bits root →
  directories fuel d DirectorySector = Ret dirs →
  b ∈ dirs →
  ∃ p l slots,
    subtree_at p DirectorySector root = Some (b, Folder l slots) ∧
    (b, l, Some (entry_of <$> slots)) ∈ nodes DirectorySector root.
Proof.
  intros Hvol Hdirs Hb.
  rewrite (directories_exact Hgeo d root _ _ _ (tv_nodes _ _ _ _ _ Hvol)
             (tv_root _ _ _ _ _ Hvol) Hdirs) in Hb.
  apply elem_of_folder_heads in Hb as (l & tbl & Hin).
  destruct (nodes_position _ _ _ Hin) as (p & t0 & Hat & Hl & Ht). simpl in *.
  apply tree_table_Some in Ht as (slots & Ht0 & ->). rewrite Hl in Ht0. subst t0.
  by exists p, l, slots.
Qed.

Lemma tree_volume_update (fs : FileSystem) (d d' : Disk) (ml : layout)
    (bits bits' : Bitmap.t) (root root' : tree) :
  tree_volume fs d ml bits root →
  is_folder root' = is_folder root →
  tree_layout root' = tree_layout root →
  (∀ z, z ∈ meta_of FreeMapSector ml → d' !! z = d !! z) →
  (∀ m0, head (lay_direct ml) = Some m0 → d' !! m0 = Some (SMap bits')) →
  length bits' = length bits →
  Forall (node_ok d') (nodes DirectorySector root') →
  NoDup (volume_sectors ml root') →
  (∀ s, lookupZ bits' s = Some true ↔ s ∈ volume_sectors ml root') →
  tree_volume fs d' ml bits' root'.
Proof.
  intros Hvol Hf Hl Hmeta Hbody Hlen Hok Hnd Hmk. split.
  - rewrite Hl. apply (tv_fs _ _ _ _ _ Hvol).
  - rewrite Hf. apply (tv_root _ _ _ _ _ Hvol).
  - apply (tv_map_size _ _ _ _ _ Hvol).
  - apply (tv_map_wf _ _ _ _ _ Hvol).
  - eapply on_disk_frame; [apply (tv_map_on_disk _ _ _ _ _ Hvol)|done].
  - destruct (tv_map_body _ _ _ _ _ Hvol) as (m0 & Hm0 & _). exists m0. auto.
  - rewrite Hlen. apply (tv_bits_len _ _ _ _ _ Hvol).
  - done.
  - done.
  - done.
Qed.

(** The sectors of a volume, with one directory singled out. *)
Lemma volume_sectors_split (ml : layout) (root : tree) (n : node) (K rest : list node) :
  nodes DirectorySector root ≡ₚ n :: K ++ rest →
  volume_sectors ml root
  ≡ₚ meta_of FreeMapSector ml ++ data_of ml ++ node_meta n ++ node_data n ++
     concat (node_sectors <$> K) ++ concat (node_sectors <$> rest).
Proof.
  intros H. unfold volume_sectors. rewrite (sectors_perm _ _ H).
  rewrite fmap_cons, fmap_app, concat_cons, concat_app. unfold node_sectors at 1.
  by rewrite <- !app_assoc.
Qed.

End TreeSteps.

Section TreeCreate.
Context {G : Geometry}.
Hypothesis Hgeo : sane_volume_geometry.


Lemma head_elem_of {A} (l : list A) (x : A) : head l = Some x → x ∈ l.
Proof. destruct l; intros; simplify_eq/=. by left. Qed.

Lemma head_data_of (l : layout) (r : Z) : head (lay_direct l) = Some r → r ∈ data_of l.
Proof. intros H%head_elem_of. unfold data_of. apply elem_of_app. by left. Qed.

(** A file or a directory created at a reachable directory keeps the volume
    in order. *)
Lemma Create_tree_volume (fs : FileSystem) (d : Disk) (ml : layout) (bits : Bitmap.t)
    (root : tree) (nm : list ascii) (size : Z) (dir : bool) (d' : Disk) :
  tree_volume fs d ml bits root →
  base_is_directory fs d 10 nm →
  FileSystem.Create fs d nm size dir = Ret (1, d') →
  ∃ bits' root', tree_volume fs d' ml bits' root'.
Proof.
  destruct (geometry_facts Hgeo) as (HS & HD & HI & HM & HD1 & HDM & HF & HDF & HDE & HN).
  intros Hvol Hbase Hrun.
  apply Create_inv in Hrun as [(? & _)|[_ Hok]]; [lia|].
  destruct Hok as [leaf sector targetFile target freeMap s fm target' h fm'
                     d1 d2 d3 Hres Hsec Hopen Htgt Hfind Hfm Hfs Hs Hadd Halloc
                     Hw1 Hw2 Hw3 Hlast].
  destruct Hres as (root0 & base & Hroot & Hext & Hsp).
  destruct Hbase as (b & fuel & dirs & Hbs & Hdirs & Hb).
  apply bind_Ret in Hbs as (root1 & Hroot1 & Hbs).
  apply bind_Ret in Hbs as ([base1 leaf1] & Hext1 & Hsp1).
  unfold Directory.OPENDIR in Hroot1. rewrite Hroot in Hroot1. injection Hroot1 as <-.
  rewrite Hext in Hext1. injection Hext1 as <- <-.
  rewrite Hsp in Hsp1. injection Hsp1 as <-.
  destruct (base_position Hgeo _ _ _ _ _ _ _ _ Hvol Hdirs Hb)
    as (p & lb & slots & Hat & Hin).
  pose proof (tv_nodes _ _ _ _ _ Hvol) as Hall.
  pose proof (proj1 (Forall_forall _ _) Hall _ Hin) as Hnb.
  rewrite (node_open Hgeo d _ _ _ Hnb) in Hopen. injection Hopen as <-.
  rewrite (folder_read Hgeo d _ _ _ Hnb) in Htgt. injection Htgt as <-.
  rewrite (tree_read_map Hgeo _ _ _ _ _ Hvol) in Hfm. injection Hfm as <-.
  assert (Hs0 : 0 ≤ s) by (destruct (FindAndSet_range _ _ _ Hfs); [done|lia]).
  pose proof (FindAndSet_found _ _ _ Hfs Hs0) as Es.
  apply Add_inv in Hadd as (i & e0 & Hi & Hu & ->).
  apply (Allocate_layout Hgeo) in Halloc as (l & Hlsz & -> & Hlwf & El & Hhead).
  pose proof (extends_app _ _ _ _ _ Es El) as Enew.
  change ([s] ++ (lay_inds l).*1 ++ data_of l) with (meta_of s l ++ data_of l) in Enew.
  destruct Enew as (Hlen & Hnd & Hclear & Hlk & _).
  pose proof Hnd as (Hndm & Hmd & _)%NoDup_app.
  apply (WriteBack_layout Hgeo) in Hw1 as [Hon1 Hfr1]; [|done..].
  set (e' := mkDirectoryEntry true s (take (Z.to_nat FileNameMaxLen) leaf) dir) in *.
  assert (Htl : Z.of_nat (length (<[i:=e']> (entry_of <$> slots))) = NumDirEntries).
  { rewrite length_insert. by destruct Hnb as (_ & _ & _ & ? & _). }
  destruct (folder_write Hgeo d d1 _ _ _ _ Hnb Htl) as (r0 & Hr0 & _ & Hw2').
  rewrite Hw2' in Hw2. injection Hw2 as <-.
  destruct (tree_write_map Hgeo _ _ _ _ _ Hvol
              (<[r0:=SDir (<[i:=e']> (entry_of <$> slots))]> d1) fm')
    as (m0 & Hm0 & Hw3').
  rewrite Hw3' in Hw3. injection Hw3 as <-.
  destruct (slot_free slots i e0 Hi Hu) as (e00 & Hsi & _).
  set (tnew := if dir
               then Folder l (replicate (Z.to_nat NumDirEntries) (Free Directory.emptyEntry))
               else File l).
  set (x := Used s (take (Z.to_nat FileNameMaxLen) leaf) tnew).
  assert (Hx : entry_of x = e') by (unfold x, tnew, e'; by destruct dir).
  assert (Hnew1 : nodes s tnew = [(s, l, tree_table tnew)]).
  { unfold tnew. destruct dir; [|done]. by rewrite nodes_Folder, concat_below_free. }
  destruct (graft_slot_nodes p root _ lb slots i x Hat) as (Hf' & Hl' & rest & HL & HL').
  assert (Hbx : slot_below nodes x = [(s, l, tree_table tnew)]) by exact Hnew1.
  rewrite (children_insert_free slots i e00 x Hsi), Hbx in HL'.
  rewrite list_fmap_insert, Hx, <- app_assoc in HL'.
  set (nb := (sector, lb, Some (entry_of <$> slots)) : node) in *.
  set (nb' := (sector, lb, Some (<[i:=e']> (entry_of <$> slots))) : node) in *.
  set (K := concat (slot_below nodes <$> slots)) in *.
  pose proof (volume_sectors_split ml root nb K rest HL) as Hsplit.
  unfold nb, node_meta, node_data in Hsplit. cbn [fst snd] in Hsplit.
  assert (Hsplit' : volume_sectors ml (graft p (set_slot i x) root)
                    ≡ₚ (meta_of s l ++ data_of l) ++ volume_sectors ml root).
  { rewrite Hsplit. unfold volume_sectors. rewrite (sectors_perm _ _ HL').
    rewrite !fmap_cons, !fmap_app, !concat_cons, !concat_app, !fmap_cons, !concat_cons.
    unfold node_sectors at 1 2, node_meta, node_data. simpl. solve_Permutation. }
  pose proof (tv_nodup _ _ _ _ _ Hvol) as Hndv. rewrite Hsplit in Hndv.
  assert (Hold : ∀ z, z ∈ volume_sectors ml root → z ∉ meta_of s l ++ data_of l).
  { intros z Hz%(tv_marked _ _ _ _ _ Hvol) Hz'%Hclear. congruence. }
  assert (Holdd : ∀ z, z ∈ volume_sectors ml root → z ∉ data_of l).
  { intros z Hz Hz'. apply (Hold z Hz). by_app. }
  pose proof (head_data_of _ _ Hm0) as Hm0d.
  pose proof (head_data_of _ _ Hr0) as Hr0d.
  apply NoDup_app in Hndv as (_ & HA1 & Hndv).
  apply NoDup_app in Hndv as (_ & HA2 & Hndv).
  apply NoDup_app in Hndv as (_ & HA3 & Hndv).
  apply NoDup_app in Hndv as (_ & HA4 & _).
  assert (Hmr : m0 ≠ r0).
  { intros ->. apply (HA2 r0 Hm0d). by_app. }
  assert (Hfinal : (∀ z, z ∉ data_of l →
                     d' !! z = (<[m0:=SMap fm']>
                       (<[r0:=SDir (<[i:=e']> (entry_of <$> slots))]> d1)) !! z) ∧
                   node_ok d' (s, l, tree_table tnew)).
  { assert (Hon3 : on_disk (<[m0:=SMap fm']>
                     (<[r0:=SDir (<[i:=e']> (entry_of <$> slots))]> d1)) s l).
    { eapply on_disk_frame; [exact Hon1|]. intros z Hz.
      rewrite !lookup_insert_ne; [done| |].
      - intros ->. apply (Hold z); [|by_app]. rewrite Hsplit. by_app.
      - intros ->. apply (Hold z); [|by_app]. rewrite Hsplit. by_app. }
    unfold tnew. destruct dir.
    - destruct Hlast as (newFile & Hopen & Hwr).
      rewrite (header_open Hgeo _ s l Hlwf Hon3) in Hopen.
      injection Hopen as <-.
      destruct (Hhead HDF) as (r1 & Hr1).
      rewrite (write_directory_file Hgeo _ _ l r1) in Hwr; [|done..|].
      2:{ unfold Directory.new. rewrite length_replicate. lia. }
      injection Hwr as <-.
      pose proof (head_data_of _ _ Hr1) as Hr1d.
      split.
      + intros z Hz. rewrite lookup_insert_ne; [done|]. by intros ->.
      + split_and!; [done| |]; simpl.
        * eapply on_disk_frame; [exact Hon3|]. intros z Hz.
          rewrite lookup_insert_ne; [done|]. intros ->. by apply (Hmd z).
        * split_and!; [done| |].
          -- rewrite length_fmap, length_replicate. lia.
          -- exists r1. split; [done|]. rewrite lookup_insert_eq.
             by rewrite entry_of_free.
    - subst d'. split; [done|]. split_and!; [done..|]. simpl. by rewrite Hlsz. }
  destruct Hfinal as [Hd'3 Hnewok].
  assert (Hd' : ∀ z, z ∈ volume_sectors ml root → z ≠ m0 → z ≠ r0 → d' !! z = d !! z).
  { intros z Hz Hzm Hzr. pose proof (Hold z Hz) as Hzn.
    rewrite Hd'3 by (intros ?; apply Hzn; by_app).
    rewrite !lookup_insert_ne by done.
    apply Hfr1. intros ?. apply Hzn. by_app. }
  exists fm', (graft p (set_slot i x) root).
  apply (tree_volume_update fs d d' ml bits fm' root _ Hvol); [done|done|..].
  - intros z Hz. apply Hd'.
    + rewrite Hsplit. by_app.
    + intros ->. apply (HA1 _ Hz). by_app.
    + intros ->. apply (HA1 r0 Hz). by_app.
  - intros m Hm. rewrite Hm0 in Hm. injection Hm as <-.
    rewrite Hd'3, lookup_insert_eq; [done|].
    apply (Holdd m0). rewrite Hsplit. by_app.
  - done.
  - rewrite HL'. apply Forall_cons. split; [|apply Forall_app; split].
    + unfold node_ok, nb, nb' in Hnb |- *. cbn [fst snd] in Hnb |- *.
      destruct Hnb as (Hwfb & Honb & Hszb & Hlenb & r0' & Hr0' & Hbody).
      rewrite Hr0 in Hr0'. injection Hr0' as <-.
      split_and!; [done| |done| |].
      * eapply on_disk_frame; [exact Honb|]. intros z Hz. apply Hd'.
        -- rewrite Hsplit. by_app.
        -- intros ->. apply (HA2 m0 Hm0d). by_app.
        -- intros ->. apply (HA3 r0); [done|]. by_app.
      * by rewrite length_insert.
      * exists r0. split; [done|].
        rewrite Hd'3.
        -- rewrite lookup_insert_ne by done. apply lookup_insert_eq.
        -- apply (Holdd r0). rewrite Hsplit. by_app.
    + by apply Forall_singleton.
    + assert (HKR : Forall (node_ok d) (K ++ rest)).
      { rewrite HL in Hall. by apply Forall_cons in Hall as [_ ?]. }
      apply Forall_forall. intros n Hn.
      pose proof (proj1 (Forall_forall _ _) HKR n Hn) as Hnok.
      apply (node_ok_frame d); [done|]. intros z Hz.
      assert (Hzs : z ∈ concat (node_sectors <$> K) ++ concat (node_sectors <$> rest)).
      { rewrite <- concat_app, <- fmap_app.
        eapply elem_of_concat_2; [exact Hz|]. apply list_elem_of_fmap. by exists n. }
      apply Hd'.
      * rewrite Hsplit. rewrite !elem_of_app. rewrite elem_of_app in Hzs. tauto.
      * intros ->. apply (HA2 m0 Hm0d). rewrite !elem_of_app.
        rewrite elem_of_app in Hzs. tauto.
      * intros ->. apply (HA4 r0); [done|done].
  - rewrite Hsplit'. apply NoDup_app. split_and!; [done| |apply (tv_nodup _ _ _ _ _ Hvol)].
    intros z Hz Hz'. by apply (Hold z).
  - intros z.
    assert (Hin' : z ∈ volume_sectors ml (graft p (set_slot i x) root)
                  ↔ z ∈ meta_of s l ++ data_of l ∨ lookupZ bits z = Some true).
    { rewrite (tv_marked _ _ _ _ _ Hvol z), <- elem_of_app. by rewrite Hsplit'. }
    rewrite Hin', Hlk. case_decide; naive_solver.
Qed.

End TreeCreate.

(** *** Removing files and directories *)

Section TreeRelease.
Context {G : Geometry}.
Hypothesis Hgeo : sane_volume_geometry.


(** [Deallocate] returns only on a header without children, and then it
    clears the direct sectors. *)
Lemma Deallocate_layout (fuel : nat) (l : layout) (fm fm1 : Bitmap.t) :
  well_formed_layout l →
  FileHdr.Deallocate fuel (layout_header l) fm = Ret fm1 →
  lay_inds l = [] ∧ releases fm fm1 (lay_direct l).
Proof.
  destruct (geometry_facts Hgeo) as (HS & HD & HI & HM & HD1 & HDM & _).
  intros Hlwf Hdealloc.
  assert (Hinds : lay_inds l = []).
  { destruct (lay_inds l) as [|x inds] eqn:E; [done|]. exfalso.
    destruct Hlwf as (_ & Hil & _ & Hne). rewrite E in Hil, Hne.
    apply Forall_cons in Hne as [Hx _]. simpl in Hil.
    revert Hdealloc.
    apply (Deallocate_stuck fuel _ (indirect_header x.2)); [done| |simpl; lia].
    unfold layout_header. rewrite header_of_child by lia. by rewrite E. }
  split; [done|]. by apply (Deallocate_direct Hgeo fuel).
Qed.

Lemma Remove_released_prefix (table : list DirectoryEntry) (k : nat) (e : DirectoryEntry) :
  table !! k = Some e →
  inUse e = true →
  (Directory.Remove ((Directory.release <$> take k table) ++ drop k table) (name e)).2
  = (Directory.release <$> take (S k) table) ++ drop (S k) table.
Proof.
  intros He Hu. pose proof (lookup_lt_Some _ _ _ He) as Hlt.
  destruct (released_prefix_lookup table k ltac:(lia)) as [Hat Hbefore].
  rewrite <- (release_prefix_step table k e He), Remove_find.
  assert (Hfind : list_find (names_entry (name e))
                    ((Directory.release <$> take k table) ++ drop k table)
                  = Some (k, e)).
  { apply list_find_Some. split_and!.
    - by rewrite Hat.
    - unfold names_entry. rewrite Hu. simpl. by apply same_name_true.
    - intros j y Hj Hlt' Hy. unfold names_entry in Hy.
      rewrite (Hbefore j y Hlt' Hj) in Hy. done. }
  by rewrite Hfind.
Qed.

Lemma nodes_head (s : Z) (t : tree) :
  nodes s t = (s, tree_layout t, tree_table t) :: tail (nodes s t).
Proof. by destruct t. Qed.

Lemma data_in_sectors (L : list node) (z : Z) :
  z ∈ concat (node_data <$> L) → z ∈ concat (node_sectors <$> L).
Proof.
  intros (X & Hz & (n & -> & Hn)%list_elem_of_fmap)%elem_of_concat_1.
  eapply (elem_of_concat_2 z (node_sectors n)).
  - unfold node_sectors. apply elem_of_app. by right.
  - apply list_elem_of_fmap. by exists n.
Qed.

(** Releasing the header of a node whose descendants have been released
    releases the whole subtree. *)
Lemma release_node (d dA : Disk) (s : Z) (t : tree) (fmk fmA fm2 fm3 : Bitmap.t)
    (fuel : nat) (h : FileHeader) :
  Forall (node_ok d) (nodes s t) →
  NoDup (concat (node_sectors <$> nodes s t)) →
  length fmA = length fmk →
  (∀ z, lookupZ fmA z =
        if decide (z ∈ concat (node_sectors <$> tail (nodes s t)))
        then Some false else lookupZ fmk z) →
  (∀ z, z ∉ concat (node_data <$> nodes s t) → dA !! z = d !! z) →
  FileHdr.FetchFrom dA s FileHdr.new_FileHeader = Ret h →
  FileHdr.Deallocate fuel h fmA = Ret fm2 →
  Bitmap.Clear fm2 s = Ret fm3 →
  length fm3 = length fmk ∧
  ∀ z, lookupZ fm3 z =
       if decide (z ∈ concat (node_sectors <$> nodes s t))
       then Some false else lookupZ fmk z.
Proof.
  destruct (geometry_facts Hgeo) as (HS & HD & HI & _).
  rewrite (nodes_head s t). set (l := tree_layout t). set (T := tail (nodes s t)).
  intros Hok Hnd Hlen Hlk Hdisk Hfetch Hdealloc Hclear.
  apply Forall_cons in Hok as [(Hwf & Hon & _) _]. cbn [fst snd] in Hwf, Hon.
  rewrite fmap_cons, concat_cons in Hnd. unfold node_sectors at 1 in Hnd.
  unfold node_meta, node_data in Hnd. cbn [fst snd] in Hnd.
  rewrite <- app_assoc in Hnd.
  apply NoDup_app in Hnd as (_ & Hmeta & _).
  assert (Hon' : on_disk dA s l).
  { eapply on_disk_frame; [exact Hon|]. intros z Hz. apply Hdisk.
    rewrite fmap_cons, concat_cons. unfold node_data at 1. cbn [fst snd].
    intros [Hz'|Hz'%data_in_sectors]%elem_of_app; apply (Hmeta z Hz);
      apply elem_of_app; auto. }
  rewrite (on_disk_fetch dA s l HI Hwf Hon') in Hfetch. injection Hfetch as <-.
  apply Deallocate_layout in Hdealloc as (Hinds & Hlen1 & _ & Hlk1); [|done].
  apply Clear_spec in Hclear as (Hlen2 & Hlk2).
  split; [congruence|]. intros z.
  assert (Hin : z ∈ concat (node_sectors <$> (s, l, tree_table t) :: T)
                ↔ z = s ∨ z ∈ lay_direct l ∨ z ∈ concat (node_sectors <$> T)).
  { rewrite fmap_cons, concat_cons. unfold node_sectors at 1, node_meta, node_data.
    cbn [fst snd]. unfold meta_of, data_of. rewrite Hinds. simpl.
    rewrite app_nil_r, elem_of_cons, elem_of_app. done. }
  rewrite Hlk2, Hlk1, Hlk. repeat case_decide; naive_solver.
Qed.

Lemma children_take_S (slots : list (slot tree)) (k : nat) (x : slot tree) :
  slots !! k = Some x →
  concat (slot_below nodes <$> take (S k) slots)
  = concat (slot_below nodes <$> take k slots) ++ slot_below nodes x.
Proof.
  intros Hx. rewrite (take_S_r _ _ _ Hx), fmap_app, concat_app. simpl.
  by rewrite app_nil_r.
Qed.

(** [Destroy] on a directory of the tree: the bits of every sector below
    it are cleared, and only the data sectors of the directories of the
    subtree are written. *)
Lemma Destroy_tree (t : tree) :
  ∀ fuel d fm path s tbl' fm' d',
    is_folder t = true →
    Forall (node_ok d) (nodes s t) →
    NoDup (concat (node_sectors <$> nodes s t)) →
    Directory.Destroy fuel d (default [] (tree_table t)) fm path
      (mkOpenFile (layout_header (tree_layout t)) 0) = Ret (tbl', fm', d') →
    length fm' = length fm ∧
    (∀ z, lookupZ fm' z =
          if decide (z ∈ concat (node_sectors <$> tail (nodes s t)))
          then Some false else lookupZ fm z) ∧
    (∀ z, z ∉ concat (node_data <$> nodes s t) → d' !! z = d !! z).
Proof.
  induction t as [l|l slots IH] using tree_ind';
    intros fuel d fm path s tbl' fm' d' Hf Hok Hnd Hrun; [done|].
  destruct fuel as [|fuel]; [discriminate|].
  cbn [tree_table tree_layout default] in Hrun. cbn [Directory.Destroy] in Hrun.
  rewrite nodes_Folder in Hok, Hnd |- *. cbn [tail].
  set (table := entry_of <$> slots) in *.
  apply Forall_cons in Hok as [Hn0 Hsub].
  apply bind_Ret in Hrun as ([[tbl1 fm1] d1] & Hloop & Hrun).
  apply bind_Ret in Hrun as (d2 & Hw & Hrun). injection Hrun as <- <- <-.
  rewrite fmap_cons, concat_cons in Hnd. apply NoDup_app in Hnd as (_ & Hn0K & HndK).
  set (I := λ (k : Z) (st : list DirectoryEntry * Bitmap.t * Disk),
         st.1.1 = (Directory.release <$> take (Z.to_nat k) table)
                  ++ drop (Z.to_nat k) table ∧
         length st.1.2 = length fm ∧
         (∀ z, lookupZ st.1.2 z =
               if decide (z ∈ concat (node_sectors <$>
                                concat (slot_below nodes <$> take (Z.to_nat k) slots)))
               then Some false else lookupZ fm z) ∧
         (∀ z, z ∉ concat (node_data <$>
                     concat (slot_below nodes <$> take (Z.to_nat k) slots)) →
               st.2 !! z = d !! z)).
  assert (HI : I (Z.max 0 (Z.of_nat (length table))) (tbl1, fm1, d1)).
  { refine (for_loop_inv I _ (Z.of_nat (length table)) (table, fm, d) _ _ _ Hloop).
    - unfold I. cbn [fst snd]. change (Z.to_nat 0) with 0%nat.
      rewrite take_0, drop_0. split_and!; [done..| |done].
      intros z. by rewrite decide_False by apply not_elem_of_nil.
    - intros k [[tbl fmk] dk] st1 Hk (Htbl & Hlenk & Hlkk & Hdk) Hbody.
      unfold I. simpl in Htbl, Hlenk, Hlkk, Hdk. subst tbl.
      destruct (released_prefix_lookup table (Z.to_nat k) ltac:(lia)) as [Hat _].
      apply bind_Ret in Hbody as (e & He%load_Ret & Hbody).
      apply lookupZ_Some in He as [_ He]. rewrite Hat in He.
      replace (Z.to_nat (k + 1)) with (S (Z.to_nat k)) by lia.
      pose proof He as Hx. unfold table in Hx. rewrite list_lookup_fmap in Hx.
      destruct (slots !! Z.to_nat k) as [x|] eqn:Hsx; [|done].
      injection Hx as <-.
      rewrite (children_take_S slots _ x Hsx).
      destruct x as [e0|s' nm t'].
      + cbn [entry_of Directory.release inUse] in Hbody. injection Hbody as <-.
        cbn [slot_below fst snd]. rewrite app_nil_r. split_and!; [|done..].
        rewrite <- (release_prefix_step table (Z.to_nat k) _ He).
        rewrite (release_not_in_use (entry_of (Free e0))) by done.
        symmetry. apply list_insert_id. by rewrite Hat.
      + cbn [entry_of inUse isDir sector name] in Hbody. cbn [slot_below].
        pose proof (concat_fmap_split (slot_below nodes) slots _ _ Hsx) as Hsplit.
        cbn [slot_below] in Hsplit.
        set (Kb := concat (slot_below nodes <$> take (Z.to_nat k) slots)) in *.
        set (Ka := concat (slot_below nodes <$> drop (S (Z.to_nat k)) slots)) in *.
        rewrite Hsplit in Hsub, HndK.
        apply Forall_app in Hsub as [_ [Hsub' _]%Forall_app].
        rewrite !fmap_app, !concat_app in HndK.
        apply NoDup_app in HndK as (_ & Hbefore & HndK).
        apply NoDup_app in HndK as (Hnd' & _ & _).
        assert (Hok' : Forall (node_ok dk) (nodes s' t')).
        { apply Forall_forall. intros n Hn.
          apply (node_ok_frame d); [by apply (proj1 (Forall_forall _ _) Hsub')|].
          intros z Hz. apply Hdk. intros Hz'%data_in_sectors.
          apply (Hbefore z Hz'). apply elem_of_app. left.
          eapply elem_of_concat_2; [exact Hz|]. apply list_elem_of_fmap. by exists n. }
        apply bind_Ret in Hbody as ([fmA dA] & Hrec & Hbody).
        assert (Hsubtree :
          length fmA = length fmk ∧
          (∀ z, lookupZ fmA z =
                if decide (z ∈ concat (node_sectors <$> tail (nodes s' t')))
                then Some false else lookupZ fmk z) ∧
          (∀ z, z ∉ concat (node_data <$> nodes s' t') → dA !! z = dk !! z)).
        { rewrite Forall_lookup in IH. specialize (IH _ _ Hsx). cbn beta iota in IH.
          destruct t' as [l'|l' slots'].
          - cbn [is_folder] in Hrec. injection Hrec as <- <-.
            split_and!; [done| |done].
            intros z. by rewrite decide_False by apply not_elem_of_nil.
          - cbn [is_folder] in Hrec. rewrite nodes_Folder in Hok'.
            pose proof Hok' as [Hn' _]%Forall_cons.
            rewrite (node_open Hgeo dk _ _ _ Hn'), ret_bind in Hrec.
            unfold Directory.OPENDIR in Hrec.
            rewrite (folder_read Hgeo dk _ _ _ Hn'), ret_bind in Hrec.
            apply bind_Ret in Hrec as (tarPath & _ & Hrec).
            apply bind_Ret in Hrec as ([[tblR fmR] dR] & Hrec & Heq).
            injection Heq as <- <-.
            apply (IH fuel dk fmk tarPath s' tblR fmR dR); [done| |done|done].
            by rewrite nodes_Folder. }
        destruct Hsubtree as (HlenA & HlkA & HdA).
        apply bind_Ret in Hbody as (fileHdr & Hfetch & Hbody).
        apply bind_Ret in Hbody as (fm2 & Hdealloc & Hbody).
        apply bind_Ret in Hbody as (fm3 & Hclear & Hbody).
        injection Hbody as <-. cbn [fst snd].
        destruct (release_node dk dA s' t' fmk fmA fm2 fm3 fuel fileHdr
                    Hok' Hnd' HlenA HlkA HdA Hfetch Hdealloc Hclear) as (Hlen3 & Hlk3).
        split_and!.
        * by apply (Remove_released_prefix table (Z.to_nat k)
                      (mkDirectoryEntry true s' nm (is_folder t'))).
        * congruence.
        * intros z. rewrite Hlk3, Hlkk, fmap_app, concat_app.
          repeat case_decide; rewrite ?elem_of_app in *; naive_solver.
        * intros z Hz. rewrite fmap_app, concat_app, elem_of_app in Hz.
          rewrite HdA by tauto. apply Hdk. tauto. }
  unfold I in HI. simpl in HI. destruct HI as (Htbl & Hlen1 & Hlk1 & Hd1).
  replace (Z.to_nat (Z.max 0 (Z.of_nat (length table)))) with (length slots) in *
    by (unfold table; rewrite length_fmap; lia).
  rewrite firstn_all in Hlk1, Hd1.
  unfold table in Htbl at 1. rewrite <- (length_fmap entry_of slots) in Htbl.
  fold table in Htbl. rewrite firstn_all, drop_all, app_nil_r in Htbl.
  assert (Hlent : Z.of_nat (length tbl1) = NumDirEntries).
  { rewrite Htbl, length_fmap. by destruct Hn0 as (_ & _ & _ & ? & _). }
  destruct (folder_write Hgeo d d1 _ _ _ _ Hn0 Hlent) as (r0 & Hr0 & _ & Hw').
  rewrite Hw' in Hw. injection Hw as <-.
  split_and!; [done..|].
  intros z Hz. rewrite fmap_cons, concat_cons in Hz.
  unfold node_data at 1 in Hz. cbn [fst snd] in Hz. rewrite elem_of_app in Hz.
  rewrite lookup_insert_ne.
  - apply Hd1. tauto.
  - intros ->. apply Hz. left. by apply head_data_of.
Qed.

End TreeRelease.

Section TreeRemove.
Context {G : Geometry}.
Hypothesis Hgeo : sane_volume_geometry.


Lemma WriteBack_within (d d' : Disk) (table : list DirectoryEntry) (l : layout) :
  well_formed_layout l →
  (0 < lay_size l → ∃ r0, head (lay_direct l) = Some r0) →
  Directory.WriteBack d table (mkOpenFile (layout_header l) 0) = Ret d' →
  ∀ z, z ∉ data_of l → d' !! z = d !! z.
Proof.
  intros Hwf Hhead Hw z Hz. unfold Directory.WriteBack, transfer_sector in Hw.
  simpl in Hw. unfold FileHdr.FileLength in Hw. simpl in Hw.
  destruct ((Directory.image_size table <=? 0) || (lay_size l <=? 0)) eqn:E; simpl in Hw.
  - by injection Hw as <-.
  - apply orb_false_iff in E as [_ E%Z.leb_gt]. destruct (Hhead E) as (r0 & Hr0).
    case_bool_decide; [|done].
    rewrite (first_direct_sector Hgeo l r0 Hwf Hr0) in Hw. simpl in Hw.
    injection Hw as <-. unfold WriteSector. rewrite lookup_insert_ne; [done|].
    intros ->. apply Hz. by apply head_data_of.
Qed.

Lemma Destroy_idle (fuel : nat) (d : Disk) (table : list DirectoryEntry)
    (fm : Bitmap.t) (path : list ascii) (file : OpenFile)
    (tbl' : list DirectoryEntry) (fm' : Bitmap.t) (d' : Disk) :
  Forall (λ e, inUse e = false) table →
  Directory.Destroy fuel d table fm path file = Ret (tbl', fm', d') →
  fm' = fm ∧ Directory.WriteBack d table file = Ret d'.
Proof.
  intros Hfree Hrun. destruct fuel as [|fuel]; [discriminate|].
  cbn [Directory.Destroy] in Hrun.
  apply bind_Ret in Hrun as ([[tbl1 fm1] d1] & Hloop & Hrun).
  assert (HI : (tbl1, fm1, d1) = (table, fm, d)).
  { set (I := λ (_ : Z) (st : list DirectoryEntry * Bitmap.t * Disk), st = (table, fm, d)).
    cut (I (Z.max 0 (Z.of_nat (length table))) (tbl1, fm1, d1)); [done|].
    refine (for_loop_inv I _ _ (table, fm, d) _ _ _ Hloop); unfold I; [done|].
    intros k st st1 Hk -> Hbody.
    apply bind_Ret in Hbody as (e & He%load_Ret & Hbody).
    apply lookupZ_Some in He as [_ He]. rewrite Forall_lookup in Hfree.
    rewrite (Hfree _ _ He) in Hbody. by injection Hbody as <-. }
  injection HI as -> -> ->.
  apply bind_Ret in Hrun as (d2 & Hw & Hrun). by injection Hrun as <- <- <-.
Qed.

Lemma Find_entry (table : list DirectoryEntry) (nm : list ascii) :
  Directory.Find table nm ≠ -1 →
  ∃ i e, table !! i = Some e ∧ inUse e = true ∧
         Directory.Find table nm = sector e ∧
         (Directory.Remove table nm).2 = <[i := Directory.release e]> table ∧
         lookupZ table (Directory.FindIndex table nm) = Some e.
Proof.
  unfold Directory.Find, Directory.Remove, Directory.FindIndex.
  case_bool_decide as Hne; [|done]. intros _.
  destruct (FindIndex_from_found table nm 0 Hne) as (i & e & Hidx & Hi & Hu).
  exists i, e. rewrite Hidx, Z.add_0_l, lookupZ_of_nat, Hi.
  rewrite bool_decide_false by lia. simpl.
  rewrite Nat2Z.id. split_and!; [done..| |done]. by apply alter_as_insert.
Qed.

Lemma children_all_free (slots : list (slot tree)) :
  Forall (λ e, inUse e = false) (entry_of <$> slots) →
  concat (slot_below nodes <$> slots) = [].
Proof.
  induction slots as [|x slots IH]; [done|]. rewrite fmap_cons.
  intros [Hx Hrest]%Forall_cons. destruct x as [e|s nm t]; [|done].
  simpl. by apply IH.
Qed.

Lemma not_holding (d : Disk) (e : DirectoryEntry) (file : OpenFile)
    (table : list DirectoryEntry) :
  ¬ holds_entries d e →
  OpenFile_new d (sector e) = Ret file →
  Directory.OPENDIR d file = Ret table →
  Forall (λ x, inUse x = false) table.
Proof.
  intros Hno Hopen Hread. apply Forall_forall. intros x Hx.
  destruct (inUse x) eqn:Hu; [|done]. exfalso. apply Hno. by exists file, table, x.
Qed.

(** A removal at a reachable directory keeps the volume in order, unless
    the file removed holds entries in use and is removed as what it is not. *)
Lemma Remove_tree_volume (fs : FileSystem) (d : Disk) (ml : layout) (bits : Bitmap.t)
    (root : tree) (nm : list ascii) (fuel : nat) (recur : bool) (d' : Disk) :
  tree_volume fs d ml bits root →
  base_is_directory fs d (FileNameMaxLen + 1) nm →
  (∀ e, remove_entry fs d nm e → holds_entries d e → isDir e = recur) →
  FileSystem.Remove fuel fs d nm recur = Ret (true, d') →
  ∃ bits' root', tree_volume fs d' ml bits' root'.
Proof.
  destruct (geometry_facts Hgeo) as (HS & HD & HI & HM & HD1 & HDM & HF & HDF & HDE & HN).
  intros Hvol Hbase Hexcl Hrun. unfold FileSystem.Remove in Hrun.
  destruct Hbase as (b & fuel0 & dirs & Hbs & Hdirs & Hb).
  apply bind_Ret in Hbs as (root1 & Hroot & Hbs).
  apply bind_Ret in Hbs as ([base leaf] & Hext & Hsp).
  apply bind_Ret in Hrun as (root2 & Hroot2 & Hrun).
  rewrite Hroot in Hroot2. injection Hroot2 as <-.
  apply bind_Ret in Hrun as ([base2 leaf2] & Hext2 & Hrun).
  rewrite Hext in Hext2. injection Hext2 as <- <-.
  apply bind_Ret in Hrun as (b2 & Hsp2 & Hrun).
  rewrite Hsp in Hsp2. injection Hsp2 as <-.
  case_bool_decide as Hb1; [discriminate|].
  destruct (base_position Hgeo _ _ _ _ _ _ _ _ Hvol Hdirs Hb)
    as (p & lb & slots & Hat & Hin).
  pose proof (tv_nodes _ _ _ _ _ Hvol) as Hall.
  pose proof (proj1 (Forall_forall _ _) Hall _ Hin) as Hnb.
  apply bind_Ret in Hrun as (baseDir & HbaseDir & Hrun).
  apply bind_Ret in Hrun as (baseDirectory & HbaseDirectory & Hrun).
  assert (Hentry : ∀ e, lookupZ baseDirectory (Directory.FindIndex baseDirectory leaf) = Some e →
                        remove_entry fs d nm e).
  { intros e He. exists leaf, baseDirectory. split; [|done].
    by exists root1, base, b, baseDir. }
  rewrite (node_open Hgeo d _ _ _ Hnb) in HbaseDir. injection HbaseDir as <-.
  unfold Directory.OPENDIR in HbaseDirectory.
  rewrite (folder_read Hgeo d _ _ _ Hnb) in HbaseDirectory.
  injection HbaseDirectory as <-.
  cbv zeta in Hrun.
  destruct (bool_decide (Directory.Find (entry_of <$> slots) leaf = -1) ||
            bool_decide (Directory.Find (entry_of <$> slots) leaf = DirectorySector))
    eqn:Hfind; [discriminate|].
  apply orb_false_iff in Hfind as [Hf1%bool_decide_eq_false _].
  destruct (Find_entry _ leaf Hf1) as (i & e & Hi & Hu & Hsec & Hrem & Hidx).
  specialize (Hexcl e (Hentry e Hidx)). clear Hentry Hidx.
  rewrite Hsec, Hrem in Hrun. clear Hsec Hrem Hf1.
  destruct (slot_used slots i e Hi Hu) as (t & Hsi & HisDir).
  rewrite (tree_read_map Hgeo _ _ _ _ _ Hvol), ret_bind in Hrun.
  destruct (graft_slot_nodes p root _ lb slots i (Free e) Hat)
    as (Hf' & Hl' & rest & HL & HL').
  rewrite (children_insert_used slots i _ _ t e Hsi), <- app_assoc in HL.
  rewrite list_fmap_insert in HL'. cbn [entry_of] in HL'.
  set (s := sector e) in *.
  set (K' := concat (slot_below nodes <$> <[i:=Free e]> slots)) in *.
  set (tbl := entry_of <$> slots) in *.
  set (tbl' := <[i:=Directory.release e]> tbl) in *.
  pose proof (volume_sectors_split ml root _ _ _ HL) as Hsplit.
  pose proof (volume_sectors_split ml _ _ _ _ HL') as Hsplit'.
  unfold node_meta, node_data in Hsplit, Hsplit'. cbn [fst snd] in Hsplit, Hsplit'.
  set (root' := graft p (set_slot i (Free e)) root) in *.
  set (S0 := concat (node_sectors <$> nodes s t)) in *.
  assert (Hperm : volume_sectors ml root ≡ₚ S0 ++ volume_sectors ml root').
  { rewrite Hsplit, Hsplit', fmap_app, concat_app. solve_Permutation. }
  pose proof (tv_nodup _ _ _ _ _ Hvol) as Hndv. rewrite Hperm in Hndv.
  apply NoDup_app in Hndv as (HndS & Happ & Hndv').
  assert (Hsubok : Forall (node_ok d) (nodes s t)).
  { rewrite HL in Hall. apply Forall_cons in Hall as [_ Hall].
    by apply Forall_app in Hall as [? _]. }
  apply bind_Ret in Hrun as ([fmA dA] & Hrec & Hrun).
  assert (Hsubtree :
    length fmA = length bits ∧
    (∀ z, lookupZ fmA z =
          if decide (z ∈ concat (node_sectors <$> tail (nodes s t)))
          then Some false else lookupZ bits z) ∧
    (∀ z, z ∉ concat (node_data <$> nodes s t) → dA !! z = d !! z)).
  { pose proof Hsubok as Hhead. rewrite (nodes_head s t) in Hhead.
    apply Forall_cons in Hhead as [Hn _].
    destruct recur.
    - rewrite (node_open Hgeo d _ _ _ Hn), ret_bind in Hrec.
      apply bind_Ret in Hrec as (targetDirectory & Hread & Hrec).
      apply bind_Ret in Hrec as ([[tblR fmR] dR] & Hrec & Heq).
      injection Heq as <- <-.
      destruct t as [l|l slots'].
      + assert (Hno : ¬ holds_entries d e).
        { intros Hh. specialize (Hexcl Hh). rewrite HisDir in Hexcl. done. }
        pose proof (not_holding d e _ _ Hno (node_open Hgeo d _ _ _ Hn) Hread) as Hfree.
        destruct (Destroy_idle _ _ _ _ _ _ _ _ _ Hfree Hrec) as [-> Hw].
        destruct Hn as (Hwf & _ & Hhd). cbn [fst snd tree_layout] in Hwf, Hhd.
        pose proof (WriteBack_within _ _ _ _ Hwf Hhd Hw) as Hframe.
        split_and!; [done| |].
        * intros z. by rewrite decide_False by apply not_elem_of_nil.
        * intros z Hz. apply Hframe. intros Hz'. apply Hz.
          rewrite nodes_File. simpl. by rewrite app_nil_r.
      + cbn [tree_layout tree_table] in Hn, Hread, Hrec.
        unfold Directory.OPENDIR in Hread.
        rewrite (folder_read Hgeo d _ _ _ Hn) in Hread. injection Hread as <-.
        by apply (Destroy_tree Hgeo (Folder l slots') fuel d bits nm s tblR fmR dR).
    - injection Hrec as <- <-.
      assert (Htail : tail (nodes s t) = []).
      { destruct t as [l|l slots']; [done|].
        rewrite nodes_Folder. cbn [tail]. apply children_all_free.
        cbn [tree_layout tree_table] in Hn.
        apply (not_holding d e (mkOpenFile (layout_header l) 0)).
        - intros Hh. specialize (Hexcl Hh). rewrite HisDir in Hexcl. done.
        - apply (node_open Hgeo d _ _ _ Hn).
        - apply (folder_read Hgeo d _ _ _ Hn). }
      rewrite Htail. split_and!; [done| |done].
      intros z. by rewrite decide_False by apply not_elem_of_nil. }
  destruct Hsubtree as (HlenA & HlkA & HdA).
  apply bind_Ret in Hrun as (fileHdr & Hfetch & Hrun).
  apply bind_Ret in Hrun as (fm2 & Hdealloc & Hrun).
  apply bind_Ret in Hrun as (fm3 & Hclear & Hrun).
  destruct (release_node Hgeo d dA s t bits fmA fm2 fm3 fuel fileHdr
              Hsubok HndS HlenA HlkA HdA Hfetch Hdealloc Hclear) as (Hlen3 & Hlk3).
  fold S0 in Hlk3.
  destruct (tree_write_map Hgeo _ _ _ _ _ Hvol dA fm3) as (m0 & Hm0 & Hw1).
  rewrite Hw1, ret_bind in Hrun.
  assert (Htl : Z.of_nat (length tbl') = NumDirEntries).
  { unfold tbl'. rewrite length_insert. by destruct Hnb as (_ & _ & _ & ? & _). }
  destruct (folder_write Hgeo d (<[m0:=SMap fm3]> dA) _ _ _ _ Hnb Htl)
    as (r0 & Hr0 & _ & Hw2).
  rewrite Hw2, ret_bind in Hrun. injection Hrun as <-.
  pose proof (head_data_of _ _ Hm0) as Hm0d.
  pose proof (head_data_of _ _ Hr0) as Hr0d.
  pose proof Hndv' as Hnd4. rewrite Hsplit' in Hnd4.
  apply NoDup_app in Hnd4 as (_ & HA1 & Hnd4).
  apply NoDup_app in Hnd4 as (_ & HA2 & Hnd4).
  apply NoDup_app in Hnd4 as (_ & HA3 & Hnd4).
  apply NoDup_app in Hnd4 as (_ & HA4 & _).
  assert (Hmr : m0 ≠ r0).
  { intros ->. apply (HA2 r0 Hm0d). by_app. }
  assert (Hd' : ∀ z, z ∈ volume_sectors ml root' → z ≠ m0 → z ≠ r0 →
                     (<[r0:=SDir tbl']> (<[m0:=SMap fm3]> dA)) !! z = d !! z).
  { intros z Hz Hzm Hzr. rewrite !lookup_insert_ne by done. apply HdA.
    intros Hz'%data_in_sectors. by apply (Happ z Hz'). }
  exists fm3, root'.
  apply (tree_volume_update fs d _ ml bits fm3 root _ Hvol); [done|done|..].
  - intros z Hz. apply Hd'.
    + rewrite Hsplit'. by_app.
    + intros ->. apply (HA1 _ Hz). by_app.
    + intros ->. apply (HA1 _ Hz). by_app.
  - intros m Hm. rewrite Hm0 in Hm. injection Hm as <-.
    rewrite lookup_insert_ne by done. apply lookup_insert_eq.
  - done.
  - rewrite HL'. apply Forall_cons. split.
    + unfold node_ok in Hnb |- *. cbn [fst snd] in Hnb |- *.
      destruct Hnb as (Hwfb & Honb & Hszb & Hlenb & _).
      split_and!; [done| |done|done|].
      * eapply on_disk_frame; [exact Honb|]. intros z Hz. apply Hd'.
        -- rewrite Hsplit'. by_app.
        -- intros ->. apply (HA2 m0 Hm0d). by_app.
        -- intros ->. apply (HA3 r0); [done|]. by_app.
      * exists r0. split; [done|]. apply lookup_insert_eq.
    + assert (HKR : Forall (node_ok d) (K' ++ rest)).
      { rewrite HL in Hall. apply Forall_cons in Hall as [_ Hall].
        by apply Forall_app in Hall as [_ ?]. }
      apply Forall_forall. intros n Hn.
      pose proof (proj1 (Forall_forall _ _) HKR n Hn) as Hnok.
      apply (node_ok_frame d); [done|]. intros z Hz.
      assert (Hzs : z ∈ concat (node_sectors <$> K') ++ concat (node_sectors <$> rest)).
      { rewrite <- concat_app, <- fmap_app.
        eapply elem_of_concat_2; [exact Hz|]. apply list_elem_of_fmap. by exists n. }
      apply Hd'.
      * rewrite Hsplit'. rewrite !elem_of_app. rewrite elem_of_app in Hzs. tauto.
      * intros ->. apply (HA2 m0 Hm0d). rewrite !elem_of_app.
        rewrite elem_of_app in Hzs. tauto.
      * intros ->. apply (HA4 r0); [done|done].
  - done.
  - intros z.
    assert (Hin' : lookupZ bits z = Some true ↔
                   z ∈ S0 ∨ z ∈ volume_sectors ml root').
    { rewrite (tv_marked _ _ _ _ _ Hvol z), <- elem_of_app. by rewrite Hperm. }
    specialize (Happ z). rewrite Hlk3. case_decide; naive_solver.
Qed.

End TreeRemove.

(** *** Reachable states *)

Section Reachability.
Context {G : Geometry}.


(** Every reachable state is a volume in order. *)
Lemma reachable_tree_volume (fs : FileSystem) (d : Disk) :
  sane_volume_geometry →
  reachable fs d →
  ∃ ml bits root, tree_volume fs d ml bits root.
Proof.
  intros Hgeo Hreach.
  induction Hreach as [blank d0 Hfmt|d nm size dir d' _ IH Hbase Hrun
                       |d nm fuel recur d' _ IH Hbase Hexcl Hrun].
  - by apply (format_tree_volume Hgeo blank).
  - destruct IH as (ml & bits & root & Hvol).
    destruct (Create_tree_volume Hgeo _ _ _ _ _ _ _ _ _ Hvol Hbase Hrun)
      as (bits' & root' & Hvol').
    by exists ml, bits', root'.
  - destruct IH as (ml & bits & root & Hvol).
    destruct (Remove_tree_volume Hgeo _ _ _ _ _ _ _ _ _ Hvol Hbase Hexcl Hrun)
      as (bits' & root' & Hvol').
    by exists ml, bits', root'.
Qed.

(** C2, amended. On a volume whose constants are sane, in every state
    reached from a freshly formatted volume by successful creations and
    removals of files and directories, at any depth, with and without
    recursion, the free map on the disk can be read, the walk from the root
    directory returns, and the bits marked in the map are exactly the sectors
    of the free-map file (header and data) and the header, child header and
    data sectors of every file reachable from the root directory, the root
    directory file included. The steps are those of [reachable]: the base
    path of each resolves to a directory reachable from the root, and a
    removal whose target, read as a directory, holds entries in use is
    recursive exactly when the target is a directory. *)
Theorem bitmap_consistent_reachable (fs : FileSystem) (d : Disk) :
  sane_volume_geometry →
  reachable fs d →
  bitmap_consistent fs d.
Proof.
  intros Hgeo Hreach.
  destruct (reachable_tree_volume fs d Hgeo Hreach) as (ml & bits & root & Hvol).
  by eapply (tree_volume_consistent Hgeo).
Qed.

End Reachability.

Section SmallVolumeReachability.
#[local] Existing Instance small_volume.


Ltac resolve_base fuel :=
  eexists _, fuel, _;
  split_and!; [vm_compute; reflexivity..|repeat constructor].

Ltac found_entry :=
  intros ? (? & ? & (? & ? & ? & ? & ? & ? & ? & _ & ? & ?) & He) _;
  repeat match goal with
         | H' : _ = Ret _ |- _ =>
             vm_compute in H'; (injection H' as <- <- || injection H' as <-)
         end;
  vm_compute in He; injection He as <-; reflexivity.

(** The witness of C2: a directory, a file in it, a file in the root
    directory, a plain and a recursive removal. *)
Lemma bitmap_consistent_reachable_witness :
  ∃ fs d0 d1 d2 d3 d4 d5,
    FileSystem.format ∅ = Ret (fs, d0) ∧
    FileSystem.Create fs d0 (path "//d") 0 true = Ret (1, d1) ∧
    FileSystem.Create fs d1 (path "/d/x") 10 false = Ret (1, d2) ∧
    FileSystem.Create fs d2 (path "//f") 200 false = Ret (1, d3) ∧
    FileSystem.Remove 2 fs d3 (path "//f") false = Ret (true, d4) ∧
    FileSystem.Remove 2 fs d4 (path "//d") true = Ret (true, d5) ∧
    bitmap_consistent fs d3 ∧ bitmap_consistent fs d5.
Proof.
  eexists _, _, _, _, _, _, _.
  do 6 (split; [vm_compute; reflexivity|]).
  split.
  - apply bitmap_consistent_reachable; [exact small_volume_geometry|].
    eapply (reach_create _ _ (path "//f") 200 false);
      [eapply (reach_create _ _ (path "/d/x") 10 false);
         [eapply (reach_create _ _ (path "//d") 0 true);
            [eapply (reach_format _ ∅); vm_compute; reflexivity
            |resolve_base 1%nat|vm_compute; reflexivity]
         |resolve_base 2%nat|vm_compute; reflexivity]
      |resolve_base 2%nat|vm_compute; reflexivity].
  - apply bitmap_consistent_reachable; [exact small_volume_geometry|].
    eapply (reach_remove _ _ (path "//d") 2%nat true);
      [eapply (reach_remove _ _ (path "//f") 2%nat false);
         [eapply (reach_create _ _ (path "//f") 200 false);
            [eapply (reach_create _ _ (path "/d/x") 10 false);
               [eapply (reach_create _ _ (path "//d") 0 true);
                  [eapply (reach_format _ ∅); vm_compute; reflexivity
                  |resolve_base 1%nat|vm_compute; reflexivity]
               |resolve_base 2%nat|vm_compute; reflexivity]
            |resolve_base 2%nat|vm_compute; reflexivity]
         |resolve_base 2%nat|found_entry|vm_compute; reflexivity]
      |resolve_base 2%nat|found_entry|vm_compute; reflexivity].
Defined.

Ltac not_listed :=
  let H := fresh in
  intros H; repeat (apply elem_of_cons in H as [H|H]; [discriminate|]);
  by apply elem_of_nil in H.

(** C2, as stated, fails, in five runs on the small volume.
    - After [format] alone, sector 2, the data sector of the free-map file,
      is marked; it is neither sector 0 nor sector 1, and the free-map file
      is not reachable from the root directory.
    - Create the directory "/d" in the root directory, create "/d/x" in
      it, remove "/d" without recursion: the removal succeeds and releases
      the header and the table of "/d" only; sector 6, the header of "/d/x",
      stays marked and is the sector of no file reachable from the root.
    - Create the empty regular file "/f" in the root directory and create
      "/f/x": the base path resolves to sector 4, the header of "/f", which
      is no directory; [Create] reads the empty file as an empty table, takes
      sectors 5 and 6 for "/f/x", and cannot write the table back; sectors 5
      and 6 stay marked and no file reachable from the root holds them.
    - On a disk that held a directory table in sector 7 before [format],
      create the files "/g" (header in sector 4) and "/f" (80 bytes, data in
      sector 7) in the root directory and remove "/f/x" without recursion:
      the base path resolves to sector 6, the header of "/f", which is no
      directory; [Remove] reads the data of "/f" as a table, finds the old
      entry "/x" for sector 4 and releases the sectors of "/g", which stays
      in the root directory.
    - On the same disk and with the same files, remove "/f" with recursion:
      [Destroy] reads the data of "/f" as a table and releases the sectors of
      "/g", which stays in the root directory. *)
Lemma bitmap_consistency_fails :
  (∃ fs d0 bits reach,
     FileSystem.format ∅ = Ret (fs, d0) ∧
     persisted_map fs d0 = Ret bits ∧
     tree_sectors 3 d0 DirectorySector true = Ret reach ∧
     lookupZ bits 2 = Some true ∧ (2 ∉ reach) ∧ 2 ≠ 0 ∧ 2 ≠ 1) ∧
  (∃ fs d0 d1 d2 d3 bits reach,
     FileSystem.format ∅ = Ret (fs, d0) ∧
     FileSystem.Create fs d0 (path "//d") 0 true = Ret (1, d1) ∧
     FileSystem.Create fs d1 (path "/d/x") 10 false = Ret (1, d2) ∧
     FileSystem.Remove 2 fs d2 (path "//d") false = Ret (true, d3) ∧
     persisted_map fs d3 = Ret bits ∧
     tree_sectors 3 d3 DirectorySector true = Ret reach ∧
     lookupZ bits 6 = Some true ∧ (6 ∉ reach) ∧ 6 ≠ 0 ∧ 6 ≠ 1) ∧
  (∃ fs d0 d1 d2 bits reach,
     FileSystem.format ∅ = Ret (fs, d0) ∧
     FileSystem.Create fs d0 (path "//f") 0 false = Ret (1, d1) ∧
     base_sector fs d1 10 (path "/f/x") = Ret 4 ∧
     directories 2 d1 DirectorySector = Ret [1] ∧
     FileSystem.Create fs d1 (path "/f/x") 10 false = Ret (1, d2) ∧
     persisted_map fs d2 = Ret bits ∧
     tree_sectors 3 d2 DirectorySector true = Ret reach ∧
     lookupZ bits 5 = Some true ∧ (5 ∉ reach) ∧ 5 ≠ 0 ∧ 5 ≠ 1) ∧
  (∃ fs d0 d1 d2 d3 bits reach,
     FileSystem.format used_disk = Ret (fs, d0) ∧
     FileSystem.Create fs d0 (path "//g") 10 false = Ret (1, d1) ∧
     FileSystem.Create fs d1 (path "//f") 80 false = Ret (1, d2) ∧
     base_sector fs d2 (FileNameMaxLen + 1) (path "/f/x") = Ret 6 ∧
     directories 2 d2 DirectorySector = Ret [1] ∧
     FileSystem.Remove 2 fs d2 (path "/f/x") false = Ret (true, d3) ∧
     persisted_map fs d3 = Ret bits ∧
     tree_sectors 3 d3 DirectorySector true = Ret reach ∧
     4 ∈ reach ∧ lookupZ bits 4 = Some false) ∧
  (∃ fs d0 d1 d2 d3 bits reach,
     FileSystem.format used_disk = Ret (fs, d0) ∧
     FileSystem.Create fs d0 (path "//g") 10 false = Ret (1, d1) ∧
     FileSystem.Create fs d1 (path "//f") 80 false = Ret (1, d2) ∧
     FileSystem.Remove 2 fs d2 (path "//f") true = Ret (true, d3) ∧
     persisted_map fs d3 = Ret bits ∧
     tree_sectors 3 d3 DirectorySector true = Ret reach ∧
     4 ∈ reach ∧ lookupZ bits 4 = Some false).
Proof.
  split_and!.
  - eexists _, _, _, _.
    do 4 (split; [vm_compute; reflexivity|]).
    split; [not_listed|lia].
  - eexists _, _, _, _, _, _, _.
    do 7 (split; [vm_compute; reflexivity|]).
    split; [not_listed|lia].
  - eexists _, _, _, _, _, _.
    do 8 (split; [vm_compute; reflexivity|]).
    split; [not_listed|lia].
  - eexists _, _, _, _, _, _, _.
    do 8 (split; [vm_compute; reflexivity|]).
    split; [repeat constructor|vm_compute; reflexivity].
  - eexists _, _, _, _, _, _, _.
    do 6 (split; [vm_compute; reflexivity|]).
    split; [repeat constructor|vm_compute; reflexivity].
Qed.

End SmallVolumeReachability.
